(** * Rational splines of [src/lib/spline.py]: a shallow embedding

    The module interpolates batches of one-dimensional knot sequences with
    piecewise rational functions ([Pade22Spline], [Pade11Spline]) and
    extends the knots with fictitious ones ([AugmentKnots]).

    Modelling choices.
    - Numbers are real numbers ([R]): the arithmetic of the formulas is
      exact, rounding of the host floating-point type is not part of the
      embedding.  Division by zero yields [0] in [R] where the host yields a
      non-finite value; every statement below that divides carries the
      hypotheses that keep its denominators away from zero.
    - A tensor is a two-dimensional array with its shape stored next to its
      rows, so that shapes with an empty dimension keep the other one.  The
      knot axis is either dimension ([Ax0], [Ax1]); [Ax1] is the source's
      default [knots_axis=-1].
    - The array primitives of the host library are modelled in [Torch] from
      their documented element-wise meaning ([out[i][j] = ...]).  Where the
      host raises for ill-shaped operands or indices out of range the model
      reads a default element; statements carry shape hypotheses instead.
    - The explicit [raise] statements of the source and the conversion of a
      tensor to a Python truth value are modelled in the [result] type.
    - [squeezed=False] throughout; [grad=True] is the pair of [g_0] and
      [g_1], modelled by the separate [_grad] functions. *)

From Stdlib Require Import String.
From Stdlib Require Import Reals Ranalysis5 Lra Lia List Bool Arith PeanoNat.
Import ListNotations.
Open Scope R_scope.

(** ** Exceptions *)

Inductive exn : Type :=
| Exception (msg : string)
| RuntimeError (msg : string)
| IndexError (msg : string).

Inductive result (A : Type) : Type :=
| Ok (a : A)
| Raise (e : exn).
Arguments Ok {A} a.
Arguments Raise {A} e.

Definition bind {A B : Type} (r : result A) (k : A -> result B) : result B :=
  match r with
  | Ok a => k a
  | Raise e => Raise e
  end.

Notation "x <- c ;; k" := (bind c (fun x => k))
  (at level 61, c at next level, right associativity).
Notation "' pat <- c ;; k" := (bind c (fun x => match x with pat => k end))
  (at level 61, pat pattern, c at next level, right associativity).

Definition raises {A : Type} (r : result A) : Prop :=
  exists e, r = Raise e.

(** ** The array primitives *)

Class Default (T : Type) : Type := default : T.
#[export] Instance Default_R : Default R := 0.
#[export] Instance Default_nat : Default nat := 0%nat.
#[export] Instance Default_bool : Default bool := false.

Record tensor (T : Type) : Type := mkTensor {
  dim0 : nat;
  dim1 : nat;
  data : list (list T)
}.
Arguments mkTensor {T} dim0 dim1 data.
Arguments dim0 {T} t.
Arguments dim1 {T} t.
Arguments data {T} t.

(** The knot axis of a two-dimensional tensor. *)
Inductive axis : Type := Ax0 | Ax1.

Module Torch.

Section Generic.
Context {T : Type} `{Default T}.

  (** [t[i][j]] *)
Definition get (t : tensor T) (i j : nat) : T :=
    nth j (nth i (data t) []) default.

  (** The tensor of shape [(n0, n1)] with [t[i][j] = f i j]. *)
Definition build (n0 n1 : nat) (f : nat -> nat -> T) : tensor T :=
    mkTensor n0 n1 (map (fun i => map (fun j => f i j) (seq 0 n1)) (seq 0 n0)).

  (** A literal: the tensor whose rows are [rows]. *)
Definition of_rows (rows : list (list T)) : tensor T :=
    mkTensor (length rows) (length (hd [] rows)) rows.

  (** The rows have the lengths the shape announces. *)
Definition wf (t : tensor T) : Prop :=
    length (data t) = dim0 t /\
    Forall (fun r => length r = dim1 t) (data t).

  (** [t.shape] *)
Definition shape (t : tensor T) : nat * nat := (dim0 t, dim1 t).

  (** [t.shape[a]] and the size of the other dimension. *)
Definition klen (a : axis) (t : tensor T) : nat :=
    match a with Ax0 => dim0 t | Ax1 => dim1 t end.
Definition blen (a : axis) (t : tensor T) : nat :=
    match a with Ax0 => dim1 t | Ax1 => dim0 t end.

  (** The element at position [k] along axis [a] of the fibre [b]. *)
Definition getk (a : axis) (t : tensor T) (k b : nat) : T :=
    match a with Ax0 => get t k b | Ax1 => get t b k end.

Definition buildk (a : axis) (n B : nat) (f : nat -> nat -> T) : tensor T :=
    match a with
    | Ax0 => build n B f
    | Ax1 => build B n (fun i j => f j i)
    end.

  (** The fibre [b] along axis [a], as a list. *)
Definition fibre (a : axis) (t : tensor T) (b : nat) : list T :=
    map (fun k => getk a t k b) (seq 0 (klen a t)).

  (** [torch.index_select(t, a, ind)]: [out[..k..] = t[..ind[k]..]].  The
      host raises for an index that is out of range; the statements keep
      the indices below [klen a t]. *)
Definition index_select (t : tensor T) (a : axis) (ind : list nat)
    : tensor T :=
    buildk a (length ind) (blen a t) (fun k b => getk a t (nth k ind 0%nat) b).

  (** [torch.flip(t, [a])] *)
Definition flip (t : tensor T) (a : axis) : tensor T :=
    buildk a (klen a t) (blen a t) (fun k b => getk a t (klen a t - 1 - k) b).

  (** [torch.cat((t1, t2), a)].  The host raises when the operands differ
      in size across the axis; the statements keep them equal. *)
Definition cat2 (t1 t2 : tensor T) (a : axis) : tensor T :=
    buildk a (klen a t1 + klen a t2) (blen a t1)
      (fun k b => if k <? klen a t1 then getk a t1 k b
                  else getk a t2 (k - klen a t1) b).

  (** [torch.cat(ts, a)]; the host refuses an empty sequence. *)
Definition cat (ts : list (tensor T)) (a : axis) : tensor T :=
    match ts with
    | [] => mkTensor 0 0 []
    | t :: rest => fold_left (fun acc u => cat2 acc u a) rest t
    end.

  (** [torch.movedim(t, 0, -1)] on two dimensions: the transpose. *)
Definition movedim (t : tensor T) : tensor T :=
    build (dim1 t) (dim0 t) (fun i j => get t j i).

  (** [torch.gather(t, a, idx)]: the shape of [idx], with
      [out[i][j] = t[idx[i][j]][j]] for [Ax0] and [t[i][idx[i][j]]] for
      [Ax1]. *)
Definition gather (t : tensor T) (a : axis) (idx : tensor nat) : tensor T :=
    build (dim0 idx) (dim1 idx)
      (fun i j =>
         let k := nth j (nth i (data idx) []) 0%nat in
         match a with Ax0 => get t k j | Ax1 => get t i k end).
End Generic.

(** Element-wise operations. *)
Section Elementwise.
Context {T U V : Type} `{Default T} `{Default U} `{Default V}.

  (** A unary element-wise operation, also an operation with a Python
      scalar. *)
Definition map1 (f : T -> V) (t : tensor T) : tensor V :=
    build (dim0 t) (dim1 t) (fun i j => f (get t i j)).

  (** Broadcasting of two sizes and of an index: a dimension of size one is
      stretched. *)
Definition bdim (n m : nat) : nat := if (n =? 1)%nat then m else n.
Definition bidx (n i : nat) : nat := if (n =? 1)%nat then 0%nat else i.

  (** A binary element-wise operation with broadcasting. *)
Definition map2 (f : T -> U -> V) (t : tensor T) (u : tensor U)
    : tensor V :=
    build (bdim (dim0 t) (dim0 u)) (bdim (dim1 t) (dim1 u))
      (fun i j => f (get t (bidx (dim0 t) i) (bidx (dim1 t) j))
                    (get u (bidx (dim0 u) i) (bidx (dim1 u) j))).
End Elementwise.

Definition add := map2 Rplus.
Definition sub := map2 Rminus.
Definition mul := map2 Rmult.
Definition div := map2 Rdiv.
Definition neg := map1 Ropp.
Definition sqrt := map1 R_sqrt.sqrt.

(** Operations with a Python scalar [c]. *)
Definition adds (t : tensor R) (c : R) := map1 (fun v => v + c) t.
Definition subs (t : tensor R) (c : R) := map1 (fun v => v - c) t.
Definition muls (c : R) (t : tensor R) := map1 (fun v => c * v) t.
Definition mulr (t : tensor R) (c : R) := map1 (fun v => v * c) t.
Definition rsubs (c : R) (t : tensor R) := map1 (fun v => c - v) t.
Definition rdivs (c : R) (t : tensor R) := map1 (fun v => c / v) t.
Definition pows (t : tensor R) (n : nat) := map1 (fun v => v ^ n) t.

(** [t == c] and [t != c] *)
Definition eqs (t : tensor R) (c : R) : tensor bool :=
  map1 (fun v => if Req_dec_T v c then true else false) t.
Definition nes (t : tensor R) (c : R) : tensor bool :=
  map1 (fun v => if Req_dec_T v c then false else true) t.

(** [torch.ones_like(t)] *)
Definition ones_like (t : tensor R) : tensor R := map1 (fun _ => 1) t.

(** [torch.prod(t, dim=a).unsqueeze(a)] *)
Definition prod_unsqueeze (t : tensor R) (a : axis) : tensor R :=
  buildk a 1 (blen a t) (fun _ b => fold_right Rmult 1 (fibre a t b)).

(** [torch.clamp(idx, min=lo, max=hi)] on an index tensor. *)
Definition clamp (idx : tensor nat) (lo hi : nat) : tensor nat :=
  map1 (fun i => Nat.min (Nat.max i lo) hi) idx.

(** The sorted search on one sorted sequence: the number of leading
    elements strictly below [v], which on a sorted sequence is the index
    [i] with [s[i-1] < v <= s[i]]. *)
Fixpoint searchsorted_1d (s : list R) (v : R) : nat :=
  match s with
  | [] => 0
  | x :: s' => if Rlt_dec x v then S (searchsorted_1d s' v) else 0
  end.

(** [torch.searchsorted(x_sorted, x)]: the search runs along the innermost
    dimension, row by row. *)
Definition searchsorted (x_sorted x : tensor R) : tensor nat :=
  build (dim0 x) (dim1 x)
    (fun i j => searchsorted_1d (fibre Ax1 x_sorted i) (get x i j)).

End Torch.

Declare Scope tensor_scope.
Delimit Scope tensor_scope with T.
Bind Scope tensor_scope with tensor.
Infix "+" := Torch.add : tensor_scope.
Infix "-" := Torch.sub : tensor_scope.
Infix "*" := Torch.mul : tensor_scope.
Infix "/" := Torch.div : tensor_scope.
Notation "- t" := (Torch.neg t) : tensor_scope.

(** ** Python values the module relies on *)

(** A boundary selector: [None] or a string. *)
Definition selector : Type := option string.

Definition is_None (s : selector) : bool :=
  match s with None => true | Some _ => false end.

(** [s == lit] for a string literal [lit]. *)
Definition str_eq (s : selector) (lit : string) : bool :=
  match s with Some v => String.eqb v lit | None => false end.

(** [s in lits] *)
Definition str_in (s : selector) (lits : list string) : bool :=
  existsb (str_eq s) lits.

(** [range(n)], and the slices [ind[1:]], [ind[:-1]], [ind[:1]],
    [ind[-1:]] and [ind[start:stop:step]] of an index list. *)
Definition range (n : nat) : list nat := seq 0 n.
Definition slice_from1 (ind : list nat) : list nat := skipn 1 ind.
Definition slice_to_last (ind : list nat) : list nat :=
  firstn (length ind - 1) ind.
Definition slice_to1 (ind : list nat) : list nat := firstn 1 ind.
Definition slice_from_last (ind : list nat) : list nat :=
  skipn (length ind - 1) ind.
Definition slice_step (ind : list nat) (start stop step : nat) : list nat :=
  map (fun i => nth i ind 0%nat)
    (filter (fun i => (start <=? i)%nat && ((i - start) mod step =? 0)%nat)
       (seq 0 (Nat.min stop (length ind)))).

(** [ind[0]] and [ind[-1]]; Python raises on an empty sequence. *)
Definition item_first (ind : list nat) : result nat :=
  match ind with
  | [] => Raise (IndexError "index out of range")
  | i :: _ => Ok i
  end.
Definition item_last (ind : list nat) : result nat :=
  match ind with
  | [] => Raise (IndexError "index out of range")
  | i :: rest => Ok (last rest i)
  end.

(** The value of the builtin [sum] on a tensor of truth values: the
    iteration runs over the first dimension and adds the slices to the
    integer [0], so the result is the integer [0] for an empty first
    dimension and otherwise the one-dimensional tensor of the column
    counts. *)
Inductive pyval : Type :=
| PyInt (n : nat)
| PyTensor1 (counts : list nat).

Definition py_sum (t : tensor bool) : pyval :=
  match dim0 t with
  | O => PyInt 0
  | S _ =>
      PyTensor1
        (map (fun j =>
                List.length
                  (filter (fun i => Torch.get t i j) (seq 0 (dim0 t))))
             (seq 0 (dim1 t)))
  end.

(** [not v]: the truth value of an integer, or of a tensor with exactly one
    element; the host refuses any other tensor. *)
Definition py_not (v : pyval) : result bool :=
  match v with
  | PyInt n => Ok (n =? 0)%nat
  | PyTensor1 [c] => Ok (c =? 0)%nat
  | PyTensor1 _ =>
      Raise (RuntimeError "Boolean value of Tensor is ambiguous")
  end.

(** ** class AugmentKnots *)

Module AugmentKnots.

Record t : Type := mk {
  knots_x : tensor R;
  knots_y : tensor R;
  knots_d : tensor R;
  knots_axis : axis
}.

(** [__init__] *)
Definition init (knots_x knots_y knots_d : tensor R) (knots_axis : axis) : t :=
  mk knots_x knots_y knots_d knots_axis.

(** [cat]: drops the [None] items, concatenates the rest when there is more
    than one, otherwise returns the only one. *)
Definition cat (catlist : list (option (tensor R))) (a : axis)
  : result (tensor R) :=
  let catlist :=
    flat_map (fun o => match o with Some u => [u] | None => [] end) catlist in
  if (1 <? List.length catlist)%nat then Ok (Torch.cat catlist a)
  else match catlist with
       | u :: _ => Ok u
       | [] => Raise (IndexError "list index out of range")
       end.

Definition takecare_linear (self : t) (left right : selector) : result t :=
  let x := knots_x self in
  let y := knots_y self in
  let d := knots_d self in
  let axis := knots_axis self in
  let n := Torch.klen axis x in
  let select_0 z := Torch.index_select z axis [0%nat] in
  let select_1 z := Torch.index_select z axis [(n - 1)%nat] in
  let '(x_fiducial_left, y_fiducial_left, d_fiducial_left) :=
    if str_eq left "linear" then
      (Some (Torch.subs (select_0 x) 1),
       Some (select_0 y - select_0 d)%T,
       Some (select_0 d))
    else (None, None, None) in
  let '(x_fiducial_right, y_fiducial_right, d_fiducial_right) :=
    if str_eq right "linear" then
      (Some (Torch.adds (select_1 x) 1),
       Some (select_1 y + select_1 d)%T,
       Some (select_1 d))
    else (None, None, None) in
  kx <- cat [x_fiducial_left; Some x; x_fiducial_right] axis ;;
  ky <- cat [y_fiducial_left; Some y; y_fiducial_right] axis ;;
  kd <- cat [d_fiducial_left; Some d; d_fiducial_right] axis ;;
  Ok (mk kx ky kd axis).

Definition periodic_msg : string :=
  "Oops: derivative at periodic bc must be zero.".

Definition takecare_rest (self : t) (left right : selector) : result t :=
  let x := knots_x self in
  let y := knots_y self in
  let d := knots_d self in
  let axis := knots_axis self in
  let n := Torch.klen axis x in
  let knot_ind := range n in
  let select_0 z := Torch.index_select z axis (slice_to1 knot_ind) in
  let select_1 z := Torch.index_select z axis (slice_from_last knot_ind) in
  let select z ind := Torch.index_select z axis ind in
  let selectflip z ind := Torch.flip (select z ind) axis in
  '(x_fiducial_left, y_fiducial_left, d_fiducial_left) <-
    (if str_in left ["anti"; "anti-periodic"]%string then
       Ok (Some (Torch.muls 2 (select_0 x) - selectflip x (slice_from1 knot_ind))%T,
           Some (Torch.muls 2 (select_0 y) - selectflip y (slice_from1 knot_ind))%T,
           Some (selectflip d (slice_from1 knot_ind)))
     else if str_eq left "periodic" then
       none_zero <- py_not (py_sum (Torch.eqs
                (Torch.index_select d axis (slice_to1 knot_ind)) 0)) ;;
       if (none_zero : bool) then Raise (Exception periodic_msg)
       else
         Ok (Some (Torch.muls 2 (select_0 x) - selectflip x (slice_from1 knot_ind))%T,
             Some (selectflip y (slice_from1 knot_ind)),
             Some (- selectflip d (slice_from1 knot_ind))%T)
     else Ok (None, None, None)) ;;
  '(x_fiducial_right, y_fiducial_right, d_fiducial_right) <-
    (if str_in right ["anti"; "anti-periodic"]%string then
       Ok (Some (Torch.muls 2 (select_1 x) - selectflip x (slice_to_last knot_ind))%T,
           Some (Torch.muls 2 (select_1 y) - selectflip y (slice_to_last knot_ind))%T,
           Some (selectflip d (slice_to_last knot_ind)))
     else if str_eq right "periodic" then
       none_zero <- py_not (py_sum (Torch.eqs
                (Torch.index_select d axis (slice_from_last knot_ind)) 0)) ;;
       if (none_zero : bool) then Raise (Exception periodic_msg)
       else
         Ok (Some (Torch.muls 2 (select_1 x) - selectflip x (slice_to_last knot_ind))%T,
             Some (selectflip y (slice_to_last knot_ind)),
             Some (- selectflip d (slice_to_last knot_ind))%T)
     else Ok (None, None, None)) ;;
  kx <- cat [x_fiducial_left; Some x; x_fiducial_right] axis ;;
  ky <- cat [y_fiducial_left; Some y; y_fiducial_right] axis ;;
  kd <- cat [d_fiducial_left; Some d; d_fiducial_right] axis ;;
  Ok (mk kx ky kd axis).

Definition perform_bc (self : t) (left right : selector) : result t :=
  if is_None left && is_None right then Ok self
  else if str_eq left "linear" || str_eq right "linear" then
    self' <- takecare_linear self left right ;;
    if is_None left || is_None right then Ok self'
    else takecare_rest self' left right
  else takecare_rest self left right.

(** [__call__] *)
Definition call (self : t) (left right : selector)
  : result (tensor R * tensor R * tensor R) :=
  self' <- perform_bc self left right ;;
  Ok (knots_x self', knots_y self', knots_d self').

End AugmentKnots.

(** ** class SplineTemplate *)

(** The attributes of a spline instance. *)
Record Spline : Type := mkSpline {
  knots_x : tensor R;
  knots_y : tensor R;
  knots_d : tensor R;
  knots_axis : axis;
  knots_len : nat;
  segm_len : nat;
  shape : nat * nat;
  extrapolate : bool;
  extrap_left : selector;
  extrap_right : selector
}.

(** What [forward] and [backward] return: the value, or with [grad=True]
    the value and the derivative. *)
Inductive output : Type :=
| Value (v : tensor R)
| ValueGrad (v g : tensor R).

(** The methods a concrete interpolant provides or overrides. *)
Record SplineClass : Type := mkClass {
  cls_smooth_derivatives : tensor R -> tensor R -> axis -> result (tensor R);
  cls_calc_segment_func : Spline -> tensor nat -> bool -> tensor R -> output;
  cls_calc_segment_inv_func :
    Spline -> tensor nat -> bool -> tensor R -> output
}.

Module SplineTemplate.

(** [smooth_derivatives]: for the internal knots the average of the slopes
    of the left and right segments, for the boundary knots the slope of the
    nearby segment unless [bc_type] is ['ones']. *)
Definition smooth_derivatives (knots_x knots_y : tensor R) (knots_axis : axis)
    (bc_type : string) : result (tensor R) :=
  let knots_len := Torch.klen knots_axis knots_x in
  let knot_ind := range knots_len in
  let segm_ind := range (knots_len - 1) in
  let select z ind := Torch.index_select z knots_axis ind in
  let diff_select z ind :=
    (select z (slice_from1 ind) - select z (slice_to_last ind))%T in
  let sum_select z ind :=
    (select z (slice_from1 ind) + select z (slice_to_last ind))%T in
  let m := (diff_select knots_y knot_ind / diff_select knots_x knot_ind)%T in
  let m_avg := Torch.muls 0.5 (sum_select m segm_ind) in
  '(m_left, m_right) <-
    (if String.eqb bc_type "ones" then
       i0 <- item_first segm_ind ;;
       let ones := Torch.ones_like (select m [i0]) in
       Ok (ones, ones)
     else
       i0 <- item_first segm_ind ;;
       i1 <- item_last segm_ind ;;
       Ok (select m [i0], select m [i1])) ;;
  Ok (Torch.cat [m_left; m_avg; m_right] knots_axis).

(** [searchsorted]: the sorted search along any axis. *)
Definition searchsorted (x_sorted x : tensor R) (a : axis) : tensor nat :=
  match a with
  | Ax1 => Torch.searchsorted x_sorted x
  | Ax0 =>
      let view_x_sorted := Torch.movedim x_sorted in
      let view_x := Torch.movedim x in
      let view_ind := Torch.searchsorted view_x_sorted view_x in
      Torch.movedim view_ind
  end.

Section Methods.
Variable cls : SplineClass.

  (** [__init__] *)
Definition init (knots_x knots_y : tensor R) (knots_d : option (tensor R))
      (knots_axis : axis) (extrapolate : bool)
      (extrap_left extrap_right : selector) : result Spline :=
    if negb extrapolate then
      Raise (Exception "'extrapolate == False' is not supported yet!")
    else if negb (Nat.eqb (dim0 knots_x) (dim0 knots_y)
                  && Nat.eqb (dim1 knots_x) (dim1 knots_y)) then
      Raise (Exception "x and y must have the same shape.")
    else
      knots_d <- match knots_d with
                 | None => cls_smooth_derivatives cls knots_x knots_y knots_axis
                 | Some d => Ok d
                 end ;;
      '(knots_x, knots_y, knots_d) <-
        (if extrapolate then
           let aug := AugmentKnots.init knots_x knots_y knots_d knots_axis in
           AugmentKnots.call aug extrap_left extrap_right
         else Ok (knots_x, knots_y, knots_d)) ;;
      let knots_len := Torch.klen knots_axis knots_x in
      Ok (mkSpline knots_x knots_y knots_d knots_axis
            knots_len (knots_len - 1) (Torch.shape knots_x)
            extrapolate extrap_left extrap_right).

Definition forward (self : Spline) (x : tensor R) (grad : bool) : output :=
    let segments_ind := searchsorted (knots_x self) x (knots_axis self) in
    let func := cls_calc_segment_func cls self segments_ind grad in
    func x.

  (** [backward]: inverse of the forward method. *)
Definition backward (self : Spline) (y : tensor R) (grad : bool) : output :=
    let segments_ind := searchsorted (knots_y self) y (knots_axis self) in
    let inv_func := cls_calc_segment_inv_func cls self segments_ind grad in
    inv_func y.
End Methods.

End SplineTemplate.

(** ** class Pade22Spline *)

Module Pade22Spline.

Definition _calc_segment_func (self : Spline) (segm_ind : tensor nat)
    (grad : bool) : tensor R -> output :=
  let axis := knots_axis self in
  let segm_ind :=
    Torch.map1 (fun i => (i - 1)%nat) (Torch.clamp segm_ind 1 (segm_len self)) in
  let gather z i :=
    Torch.gather z axis (Torch.map1 (fun k => (k + i)%nat) segm_ind) in
  let x0 := gather (knots_x self) 0%nat in
  let x1 := gather (knots_x self) 1%nat in
  let y0 := gather (knots_y self) 0%nat in
  let y1 := gather (knots_y self) 1%nat in
  let d0 := gather (knots_d self) 0%nat in
  let d1 := gather (knots_d self) 1%nat in
  let m := ((y1 - y0) / (x1 - x0))%T in
  let g_0 theta :=
    (y0 + (y1 - y0) * theta * (m * theta + d0 * Torch.rsubs 1 theta)
          / (m + (d1 + d0 - Torch.muls 2 m) * theta * Torch.rsubs 1 theta))%T in
  let g_1 theta :=
    (Torch.pows m 2
     * (d0 + Torch.muls 2 (m - d0) * theta
        + (d1 + d0 - Torch.muls 2 m) * Torch.pows theta 2)
     / Torch.pows
         (m + (d1 + d0 - Torch.muls 2 m) * theta * Torch.rsubs 1 theta) 2)%T in
  fun x =>
    let theta := ((x - x0) / (x1 - x0))%T in
    if grad then ValueGrad (g_0 theta) (g_1 theta) else Value (g_0 theta).

(** The masked assignments [theta[mask] = a[mask]], [theta[~mask] =
    b[~mask]] into a fresh tensor of the shape of [mask]. *)
Definition masked_fill2 (mask : tensor bool) (a b : tensor R) : tensor R :=
  Torch.build (dim0 mask) (dim1 mask)
    (fun i j => if Torch.get mask i j then Torch.get a i j
                else Torch.get b i j).

Definition _calc_segment_inv_func (self : Spline) (segm_ind : tensor nat)
    (grad : bool) : tensor R -> output :=
  let axis := knots_axis self in
  let segm_ind :=
    Torch.map1 (fun i => (i - 1)%nat) (Torch.clamp segm_ind 1 (segm_len self)) in
  let gather z i :=
    Torch.gather z axis (Torch.map1 (fun k => (k + i)%nat) segm_ind) in
  let x0 := gather (knots_x self) 0%nat in
  let x1 := gather (knots_x self) 1%nat in
  let y0 := gather (knots_y self) 0%nat in
  let y1 := gather (knots_y self) 1%nat in
  let d0 := gather (knots_d self) 0%nat in
  let d1 := gather (knots_d self) 1%nat in
  let m := ((y1 - y0) / (x1 - x0))%T in
  let calc_theta eta :=
    let a2 := ((Torch.muls 2 m - d1 - d0) * eta + d0 - m)%T in
    let a1 := (- a2 - m)%T in
    let a0 := (m * eta)%T in
    let delta :=
      Torch.sqrt (Torch.pows a1 2 - Torch.muls 4 a0 * a2)%T in
    masked_fill2 (Torch.eqs a2 0)
      (- a0 / a1)%T
      ((- a1 - delta) / Torch.muls 2 a2)%T in
  let g_1 theta :=
    (Torch.pows m 2
     * (d0 + Torch.muls 2 (m - d0) * theta
        + (d1 + d0 - Torch.muls 2 m) * Torch.pows theta 2)
     / Torch.pows
         (m + (d1 + d0 - Torch.muls 2 m) * theta * Torch.rsubs 1 theta) 2)%T in
  fun y =>
    let eta := ((y - y0) / (y1 - y0))%T in
    let theta := calc_theta eta in
    let x := (x0 + (x1 - x0) * theta)%T in
    if grad then ValueGrad x (Torch.rdivs 1 (g_1 theta)) else Value x.

(** The class: [smooth_derivatives] is inherited with its default
    [bc_type='not-ones']. *)
Definition cls : SplineClass :=
  mkClass
    (fun x y a => SplineTemplate.smooth_derivatives x y a "not-ones")
    _calc_segment_func
    _calc_segment_inv_func.

End Pade22Spline.

(** ** class Pade11Spline *)

Module Pade11Spline.

(** [smooth_derivatives].  Over the reals [prod * 0 + 1] is [1]; the host
    gives [nan] there when a slope is zero or not finite, which the
    statements exclude by asking that neighbouring knots differ. *)
Definition smooth_derivatives (knots_x knots_y : tensor R) (knots_axis : axis)
    (bc_type : string) : result (tensor R) :=
  let knots_len := Torch.klen knots_axis knots_x in
  let knot_ind := range knots_len in
  let select z ind := Torch.index_select z knots_axis ind in
  let diff_select z ind :=
    (select z (slice_from1 ind) - select z (slice_to_last ind))%T in
  let m := (diff_select knots_y knot_ind / diff_select knots_x knot_ind)%T in
  d0 <- (if String.eqb bc_type "natural" then
           let n := (2 * ((knots_len - 1) / 2))%nat in
           Ok (Torch.adds
                 (Torch.mulr
                    (Torch.prod_unsqueeze
                       (select m (slice_step knot_ind 1 n 2)
                        / select m (slice_step knot_ind 0 n 2))%T
                       knots_axis)
                    0)
                 1)
         else Raise (Exception "bc_type is not know")) ;;
  let d_list :=
    fold_left
      (fun d_list k =>
         d_list
         ++ [(Torch.pows (select m [nth k knot_ind 0%nat]) 2
              / last d_list d0)%T])
      (range (knots_len - 1)) [d0] in
  Ok (Torch.cat d_list knots_axis).

Definition _calc_segment_func (self : Spline) (segm_ind : tensor nat)
    (grad : bool) : tensor R -> output :=
  let axis := knots_axis self in
  let segm_ind :=
    Torch.map1 (fun i => (i - 1)%nat) (Torch.clamp segm_ind 1 (segm_len self)) in
  let gather z i :=
    Torch.gather z axis (Torch.map1 (fun k => (k + i)%nat) segm_ind) in
  let x0 := gather (knots_x self) 0%nat in
  let x1 := gather (knots_x self) 1%nat in
  let y0 := gather (knots_y self) 0%nat in
  let y1 := gather (knots_y self) 1%nat in
  let d0 := gather (knots_d self) 0%nat in
  let m := ((y1 - y0) / (x1 - x0))%T in
  let g_0 theta :=
    (y0 + (y1 - y0) * d0 * theta / (m + (d0 - m) * theta))%T in
  let g_1 theta :=
    (Torch.pows m 2 * d0 / Torch.pows (m + (d0 - m) * theta) 2)%T in
  fun x =>
    let theta := ((x - x0) / (x1 - x0))%T in
    if grad then ValueGrad (g_0 theta) (g_1 theta) else Value (g_0 theta).

Definition _calc_segment_inv_func (self : Spline) (segm_ind : tensor nat)
    (grad : bool) : tensor R -> output :=
  let axis := knots_axis self in
  let segm_ind :=
    Torch.map1 (fun i => (i - 1)%nat) (Torch.clamp segm_ind 1 (segm_len self)) in
  let gather z i :=
    Torch.gather z axis (Torch.map1 (fun k => (k + i)%nat) segm_ind) in
  let x0 := gather (knots_x self) 0%nat in
  let x1 := gather (knots_x self) 1%nat in
  let y0 := gather (knots_y self) 0%nat in
  let y1 := gather (knots_y self) 1%nat in
  let d0 := gather (knots_d self) 0%nat in
  let m := ((y1 - y0) / (x1 - x0))%T in
  let g_1 theta :=
    (Torch.pows m 2 * d0 / Torch.pows (m + (d0 - m) * theta) 2)%T in
  fun y =>
    let eta := ((y - y0) / (y1 - y0))%T in
    let theta := (- eta * m / (eta * (d0 - m) - d0))%T in
    let x := (x0 + (x1 - x0) * theta)%T in
    if grad then ValueGrad x (Torch.rdivs 1 (g_1 theta)) else Value x.

(** The class: [smooth_derivatives] is overridden, with its default
    [bc_type='natural']. *)
Definition cls : SplineClass :=
  mkClass
    (fun x y a => smooth_derivatives x y a "natural")
    _calc_segment_func
    _calc_segment_inv_func.

End Pade11Spline.

(** [RQSpline] and [RLSpline], the aliases. *)
Definition RQSpline : SplineClass := Pade22Spline.cls.
Definition RLSpline : SplineClass := Pade11Spline.cls.

(** ** Vocabulary of the statements *)

(** The two interpolants. *)
Inductive interpolant : Type := Pade22 | Pade11.

Definition class_of (kind : interpolant) : SplineClass :=
  match kind with
  | Pade22 => Pade22Spline.cls
  | Pade11 => Pade11Spline.cls
  end.

(** A tensor with [n] knots along axis [a] in each of [B] fibres. *)
Definition shaped (a : axis) (n B : nat) (t : tensor R) : Prop :=
  Torch.klen a t = n /\ Torch.blen a t = B.

(** The three knot tensors have one shape. *)
Definition aligned (a : axis) (n B : nat) (x y d : tensor R) : Prop :=
  shaped a n B x /\ shaped a n B y /\ shaped a n B d.

(** The knots of one fibre: coordinates, values, derivatives. *)
Definition knot_rows : Type := (list R * list R * list R)%type.

Definition rows_of (a : axis) (x y d : tensor R) (b : nat) : knot_rows :=
  (Torch.fibre a x b, Torch.fibre a y b, Torch.fibre a d b).

Definition app_rows (p q : knot_rows) : knot_rows :=
  let '(px, py, pd) := p in
  let '(qx, qy, qd) := q in
  (px ++ qx, py ++ qy, pd ++ qd).

Definition no_rows : knot_rows := ([], [], []).

(** The fictitious knot of a linear side, one unit outside the boundary. *)
Definition linear_left_rows (r : knot_rows) : knot_rows :=
  let '(xs, ys, ds) := r in
  ([hd 0 xs - 1], [hd 0 ys - hd 0 ds], [hd 0 ds]).

Definition linear_right_rows (r : knot_rows) : knot_rows :=
  let '(xs, ys, ds) := r in
  ([last xs 0 + 1], [last ys 0 + last ds 0], [last ds 0]).

(** The fictitious knots of an anti-periodic side: the other knots in
    reverse order, reflected about the boundary knot. *)
Definition anti_left_rows (r : knot_rows) : knot_rows :=
  let '(xs, ys, ds) := r in
  (map (fun v => 2 * hd 0 xs - v) (rev (tl xs)),
   map (fun v => 2 * hd 0 ys - v) (rev (tl ys)),
   rev (tl ds)).

Definition anti_right_rows (r : knot_rows) : knot_rows :=
  let '(xs, ys, ds) := r in
  (map (fun v => 2 * last xs 0 - v) (rev (removelast xs)),
   map (fun v => 2 * last ys 0 - v) (rev (removelast ys)),
   rev (removelast ds)).

(** The fictitious knots of a periodic side: coordinates reflected, values
    mirrored, derivatives with the opposite sign. *)
Definition periodic_left_rows (r : knot_rows) : knot_rows :=
  let '(xs, ys, ds) := r in
  (map (fun v => 2 * hd 0 xs - v) (rev (tl xs)),
   rev (tl ys),
   map Ropp (rev (tl ds))).

Definition periodic_right_rows (r : knot_rows) : knot_rows :=
  let '(xs, ys, ds) := r in
  (map (fun v => 2 * last xs 0 - v) (rev (removelast xs)),
   rev (removelast ys),
   map Ropp (rev (removelast ds))).

Definition is_linear (s : selector) : bool := str_eq s "linear".
Definition is_anti (s : selector) : bool :=
  str_in s ["anti"; "anti-periodic"]%string.
Definition is_periodic (s : selector) : bool := str_eq s "periodic".

(** What [takecare_linear] and [takecare_rest] do to one fibre. *)
Definition linear_step_rows (left right : selector) (r : knot_rows)
  : knot_rows :=
  app_rows (if is_linear left then linear_left_rows r else no_rows)
    (app_rows r (if is_linear right then linear_right_rows r else no_rows)).

Definition rest_step_rows (left right : selector) (r : knot_rows)
  : knot_rows :=
  app_rows
    (if is_anti left then anti_left_rows r
     else if is_periodic left then periodic_left_rows r else no_rows)
    (app_rows r
       (if is_anti right then anti_right_rows r
        else if is_periodic right then periodic_right_rows r else no_rows)).

(** What [perform_bc] does to one fibre when it succeeds. *)
Definition augmented_rows (left right : selector) (r : knot_rows)
  : knot_rows :=
  if is_None left && is_None right then r
  else if is_linear left || is_linear right then
    if is_None left || is_None right then linear_step_rows left right r
    else rest_step_rows left right (linear_step_rows left right r)
  else rest_step_rows left right r.

(** The fibre of an optional tensor, and its number of knots. *)
Definition ofibre (a : axis) (o : option (tensor R)) (b : nat) : list R :=
  match o with Some t => Torch.fibre a t b | None => [] end.

Definition oklen (a : axis) (o : option (tensor R)) : nat :=
  match o with Some t => Torch.klen a t | None => 0%nat end.

Definition oblen_is (a : axis) (B : nat) (o : option (tensor R)) : Prop :=
  match o with Some t => Torch.blen a t = B | None => True end.

(** The numbers of knots the two steps add on a side, and the number of
    knots along the axis once [perform_bc] succeeded. *)
Definition linear_knots (s : selector) : nat :=
  if is_linear s then 1%nat else 0%nat.

Definition reflected_knots (s : selector) (n : nat) : nat :=
  if is_anti s || is_periodic s then (n - 1)%nat else 0%nat.

Definition augmented_len (left right : selector) (n : nat) : nat :=
  if is_None left && is_None right then n
  else if is_linear left || is_linear right then
    let n1 := (linear_knots left + n + linear_knots right)%nat in
    if is_None left || is_None right then n1
    else (reflected_knots left n1 + n1 + reflected_knots right n1)%nat
  else (reflected_knots left n + n + reflected_knots right n)%nat.

(** The optional fictitious tensors of one side have [m] knots in each of
    [B] fibres, and [F b] are their fibres. *)
Definition side_ok (a : axis) (B m : nat) (ox oy od : option (tensor R))
    (F : nat -> knot_rows) : Prop :=
  oblen_is a B ox /\ oblen_is a B oy /\ oblen_is a B od /\
  oklen a ox = m /\ oklen a oy = m /\ oklen a od = m /\
  forall b, (b < B)%nat -> (ofibre a ox b, ofibre a oy b, ofibre a od b) = F b.

(** A selector string the module does not know. *)
Definition unknown_selector (s : string) : Prop :=
  s <> "linear"%string /\ s <> "periodic"%string /\
  s <> "anti-periodic"%string /\ s <> "anti"%string.

(** The instance with other recorded selectors. *)
Definition with_selectors (S : Spline) (left right : selector) : Spline :=
  mkSpline (knots_x S) (knots_y S) (knots_d S) (knots_axis S)
    (knots_len S) (segm_len S) (shape S) (extrapolate S) left right.

(** The slope of segment [k] of fibre [b]. *)
Definition slope (a : axis) (x y : tensor R) (b k : nat) : R :=
  (Torch.getk a y (k + 1) b - Torch.getk a y k b)
  / (Torch.getk a x (k + 1) b - Torch.getk a x k b).

Definition empty_tensor : tensor R := mkTensor 0 0 [].

(** The check of a periodic side on the derivatives at knot [k]: [Ok true]
    lets [takecare_rest] raise. *)
Definition periodic_check (a : axis) (d : tensor R) (k : nat) : result bool :=
  py_not (py_sum (Torch.eqs (Torch.index_select d a [k]) 0)).

(** ** Evaluation, one query at a time *)

(** The formulas of one segment, on numbers: [func] and [inv_func] of
    [Pade22Spline] and of [Pade11Spline]. *)
Definition pade22_func (x0 x1 y0 y1 d0 d1 x : R) : R :=
  let m := (y1 - y0) / (x1 - x0) in
  let theta := (x - x0) / (x1 - x0) in
  y0 + (y1 - y0) * theta * (m * theta + d0 * (1 - theta))
       / (m + (d1 + d0 - 2 * m) * theta * (1 - theta)).

Definition pade22_inv_func (x0 x1 y0 y1 d0 d1 y : R) : R :=
  let m := (y1 - y0) / (x1 - x0) in
  let eta := (y - y0) / (y1 - y0) in
  let a2 := (2 * m - d1 - d0) * eta + d0 - m in
  let a1 := - a2 - m in
  let a0 := m * eta in
  let delta := sqrt (a1 ^ 2 - 4 * a0 * a2) in
  let theta :=
    if (if Req_dec_T a2 0 then true else false) then - a0 / a1
    else (- a1 - delta) / (2 * a2) in
  x0 + (x1 - x0) * theta.

Definition pade11_func (x0 x1 y0 y1 d0 x : R) : R :=
  let m := (y1 - y0) / (x1 - x0) in
  let theta := (x - x0) / (x1 - x0) in
  y0 + (y1 - y0) * d0 * theta / (m + (d0 - m) * theta).

Definition pade11_inv_func (x0 x1 y0 y1 d0 y : R) : R :=
  let m := (y1 - y0) / (x1 - x0) in
  let eta := (y - y0) / (y1 - y0) in
  let theta := - eta * m / (eta * (d0 - m) - d0) in
  x0 + (x1 - x0) * theta.

Definition segment_func (kind : interpolant) (x0 x1 y0 y1 d0 d1 v : R) : R :=
  match kind with
  | Pade22 => pade22_func x0 x1 y0 y1 d0 d1 v
  | Pade11 => pade11_func x0 x1 y0 y1 d0 v
  end.

Definition segment_inv_func (kind : interpolant) (x0 x1 y0 y1 d0 d1 v : R)
  : R :=
  match kind with
  | Pade22 => pade22_inv_func x0 x1 y0 y1 d0 d1 v
  | Pade11 => pade11_inv_func x0 x1 y0 y1 d0 v
  end.

(** The segment a query is evaluated in: the index of the sorted search in
    the sequence [s], clamped to [1 .. segm_len] and decremented. *)
Definition segment_of (s : list R) (segm_len : nat) (v : R) : nat :=
  (Nat.min (Nat.max (Torch.searchsorted_1d s v) 1) segm_len - 1)%nat.

(** The formula of segment [i] of the knots [r], and its inverse. *)
Definition segment_value (kind : interpolant) (r : knot_rows) (i : nat)
    (v : R) : R :=
  let '(xs, ys, ds) := r in
  segment_func kind (nth i xs 0) (nth (i + 1) xs 0)
    (nth i ys 0) (nth (i + 1) ys 0) (nth i ds 0) (nth (i + 1) ds 0) v.

Definition segment_inverse (kind : interpolant) (r : knot_rows) (i : nat)
    (w : R) : R :=
  let '(xs, ys, ds) := r in
  segment_inv_func kind (nth i xs 0) (nth (i + 1) xs 0)
    (nth i ys 0) (nth (i + 1) ys 0) (nth i ds 0) (nth (i + 1) ds 0) w.

(** [forward] and [backward] on one query of one fibre. *)
Definition forward_row (kind : interpolant) (r : knot_rows) (v : R) : R :=
  let '(xs, ys, ds) := r in
  segment_value kind r (segment_of xs (length xs - 1) v) v.

Definition backward_row (kind : interpolant) (r : knot_rows) (w : R) : R :=
  let '(xs, ys, ds) := r in
  segment_inverse kind r (segment_of ys (length xs - 1) w) w.

(** The value of an [output]. *)
Definition value_of (o : output) : tensor R :=
  match o with Value v => v | ValueGrad v _ => v end.

(** The tensor [t] has shape [(n0, n1)] and its elements are those of the
    table [g]. *)
Definition reads {T : Type} `{Default T} (n0 n1 : nat) (t : tensor T)
    (g : nat -> nat -> T) : Prop :=
  dim0 t = n0 /\ dim1 t = n1 /\
  forall i j, (i < n0)%nat -> (j < n1)%nat -> Torch.get t i j = g i j.

(** The fibre the element [(i, j)] lies in, and its position along the
    axis. *)
Definition fibre_index (a : axis) (i j : nat) : nat :=
  match a with Ax0 => j | Ax1 => i end.
Definition knot_index (a : axis) (i j : nat) : nat :=
  match a with Ax0 => i | Ax1 => j end.

(** The stored knots of an instance have one shape, with [n >= 2] knots in
    each of [B] fibres, and [segm_len] counts the segments. *)
Definition well_shaped (S : Spline) (n B : nat) : Prop :=
  aligned (knots_axis S) n B (knots_x S) (knots_y S) (knots_d S) /\
  segm_len S = (n - 1)%nat /\ (2 <= n)%nat.

(** The knots of fibre [b] of an instance. *)
Definition spline_rows (S : Spline) (b : nat) : knot_rows :=
  rows_of (knots_axis S) (knots_x S) (knots_y S) (knots_d S) b.

(** ** Valid knots *)

(** A sequence that increases strictly, and one that is positive. *)
Definition increasing (l : list R) : Prop :=
  forall i, (i + 1 < length l)%nat -> nth i l 0 < nth (i + 1) l 0.

Definition positive (l : list R) : Prop :=
  forall i, (i < length l)%nat -> 0 < nth i l 0.

(** The knots of one fibre are valid: at least two, coordinates and values
    strictly increasing, derivatives strictly positive. *)
Definition valid_rows (r : knot_rows) : Prop :=
  let '(xs, ys, ds) := r in
  (2 <= length xs)%nat /\ length ys = length xs /\ length ds = length xs /\
  increasing xs /\ increasing ys /\ positive ds.

(** A valid knot set: tensors of one shape whose fibres are valid. *)
Definition valid_knots (a : axis) (n B : nat) (x y d : tensor R) : Prop :=
  aligned a n B x y d /\ (2 <= n)%nat /\
  forall b, (b < B)%nat -> valid_rows (rows_of a x y d b).

(** An instance whose stored knots are valid. *)
Definition valid_spline (S : Spline) (n B : nat) : Prop :=
  well_shaped S n B /\
  forall b, (b < B)%nat -> valid_rows (spline_rows S b).

(** The queries of fibre [b] lie within the knot range of that fibre. *)
Definition within_knots (S : Spline) (x : tensor R) : Prop :=
  forall q b,
    (q < Torch.klen (knots_axis S) x)%nat ->
    (b < Torch.blen (knots_axis S) x)%nat ->
    hd 0 (Torch.fibre (knots_axis S) (knots_x S) b)
    <= Torch.getk (knots_axis S) x q b
    <= last (Torch.fibre (knots_axis S) (knots_x S) b) 0.

(** The three sequences of [r] have one length, and that length. *)
Definition uniform_rows (r : knot_rows) : Prop :=
  let '(xs, ys, ds) := r in
  length ys = length xs /\ length ds = length xs.

Definition rows_length (r : knot_rows) : nat :=
  let '(xs, _, _) := r in length xs.

(** The knots of [r] are the knots of [r'] from position [off] on. *)
Definition embeds_at (off : nat) (r r' : knot_rows) : Prop :=
  let '(xs, ys, ds) := r in
  let '(xs', ys', ds') := r' in
  (off + length xs <= length xs')%nat /\
  forall k, (k < length xs)%nat ->
    nth (off + k) xs' 0 = nth k xs 0 /\
    nth (off + k) ys' 0 = nth k ys 0 /\
    nth (off + k) ds' 0 = nth k ds 0.

(** ** Segments of an instance *)

(** The formula of segment [j] of fibre [b] of an instance on a number, and
    its inverse: [func] and [inv_func] with the knots [j] and [j + 1]. *)
Definition segment_at (kind : interpolant) (S : Spline) (b j : nat) (v : R)
  : R :=
  let a := knots_axis S in
  segment_func kind
    (Torch.getk a (knots_x S) j b) (Torch.getk a (knots_x S) (j + 1) b)
    (Torch.getk a (knots_y S) j b) (Torch.getk a (knots_y S) (j + 1) b)
    (Torch.getk a (knots_d S) j b) (Torch.getk a (knots_d S) (j + 1) b) v.

Definition inverse_at (kind : interpolant) (S : Spline) (b j : nat) (w : R)
  : R :=
  let a := knots_axis S in
  segment_inv_func kind
    (Torch.getk a (knots_x S) j b) (Torch.getk a (knots_x S) (j + 1) b)
    (Torch.getk a (knots_y S) j b) (Torch.getk a (knots_y S) (j + 1) b)
    (Torch.getk a (knots_d S) j b) (Torch.getk a (knots_d S) (j + 1) b) w.

(** The number of fictitious knots placed before the original ones once
    [perform_bc] succeeded. *)
Definition knots_offset (left right : selector) (n : nat) : nat :=
  if is_None left && is_None right then 0%nat
  else if is_linear left || is_linear right then
    let n1 := (linear_knots left + n + linear_knots right)%nat in
    if is_None left || is_None right then linear_knots left
    else (reflected_knots left n1 + linear_knots left)%nat
  else reflected_knots left n.

(** ** Derivatives, one query at a time *)

(** The formulas [g_1] of one segment, on numbers. *)
Definition pade22_grad (x0 x1 y0 y1 d0 d1 x : R) : R :=
  let m := (y1 - y0) / (x1 - x0) in
  let theta := (x - x0) / (x1 - x0) in
  m ^ 2 * (d0 + 2 * (m - d0) * theta + (d1 + d0 - 2 * m) * theta ^ 2)
  / (m + (d1 + d0 - 2 * m) * theta * (1 - theta)) ^ 2.

Definition pade11_grad (x0 x1 y0 y1 d0 x : R) : R :=
  let m := (y1 - y0) / (x1 - x0) in
  let theta := (x - x0) / (x1 - x0) in
  m ^ 2 * d0 / (m + (d0 - m) * theta) ^ 2.

Definition segment_grad (kind : interpolant) (x0 x1 y0 y1 d0 d1 v : R) : R :=
  match kind with
  | Pade22 => pade22_grad x0 x1 y0 y1 d0 d1 v
  | Pade11 => pade11_grad x0 x1 y0 y1 d0 v
  end.

(** The derivative formula of segment [j] of fibre [b] of an instance. *)
Definition grad_at (kind : interpolant) (S : Spline) (b j : nat) (v : R)
  : R :=
  let a := knots_axis S in
  segment_grad kind
    (Torch.getk a (knots_x S) j b) (Torch.getk a (knots_x S) (j + 1) b)
    (Torch.getk a (knots_y S) j b) (Torch.getk a (knots_y S) (j + 1) b)
    (Torch.getk a (knots_d S) j b) (Torch.getk a (knots_d S) (j + 1) b) v.

(** The values of fibre [b] lie within the range of the knot values of
    that fibre. *)
Definition within_values (S : Spline) (y : tensor R) : Prop :=
  forall q b,
    (q < Torch.klen (knots_axis S) y)%nat ->
    (b < Torch.blen (knots_axis S) y)%nat ->
    hd 0 (Torch.fibre (knots_axis S) (knots_y S) b)
    <= Torch.getk (knots_axis S) y q b
    <= last (Torch.fibre (knots_axis S) (knots_y S) b) 0.

(** The derivative formulas of the inverse, on numbers: [1 / g_1(theta)]
    with the [theta] that [inv_func] computes. *)
Definition pade22_inv_grad (x0 x1 y0 y1 d0 d1 y : R) : R :=
  let m := (y1 - y0) / (x1 - x0) in
  let eta := (y - y0) / (y1 - y0) in
  let a2 := (2 * m - d1 - d0) * eta + d0 - m in
  let a1 := - a2 - m in
  let a0 := m * eta in
  let delta := sqrt (a1 ^ 2 - 4 * a0 * a2) in
  let theta :=
    if (if Req_dec_T a2 0 then true else false) then - a0 / a1
    else (- a1 - delta) / (2 * a2) in
  1 / (m ^ 2 * (d0 + 2 * (m - d0) * theta + (d1 + d0 - 2 * m) * theta ^ 2)
       / (m + (d1 + d0 - 2 * m) * theta * (1 - theta)) ^ 2).

Definition pade11_inv_grad (x0 x1 y0 y1 d0 y : R) : R :=
  let m := (y1 - y0) / (x1 - x0) in
  let eta := (y - y0) / (y1 - y0) in
  let theta := - eta * m / (eta * (d0 - m) - d0) in
  1 / (m ^ 2 * d0 / (m + (d0 - m) * theta) ^ 2).

Definition segment_inv_grad (kind : interpolant) (x0 x1 y0 y1 d0 d1 v : R)
  : R :=
  match kind with
  | Pade22 => pade22_inv_grad x0 x1 y0 y1 d0 d1 v
  | Pade11 => pade11_inv_grad x0 x1 y0 y1 d0 v
  end.

(** ** Example data *)

(** Two knots in one fibre, placed along the last axis, the instance that
    [__init__] makes of them without boundary selectors, and queries. *)
Definition example_x : tensor R := Torch.of_rows [[0; 1]].
Definition example_y : tensor R := Torch.of_rows [[0; 2]].
Definition example_d : tensor R := Torch.of_rows [[1; 3]].
Definition example_spline : Spline :=
  mkSpline example_x example_y example_d Ax1 2 1 (1%nat, 2%nat) true None None.
Definition example_query : tensor R := Torch.of_rows [[1 / 2]].
Definition example_value : tensor R := Torch.of_rows [[1]].

(** A sequence without negative elements, and knots of one fibre whose
    derivatives may vanish: what a periodic side asks of the boundary. *)
Definition nonneg (l : list R) : Prop :=
  forall i, (i < length l)%nat -> 0 <= nth i l 0.

Definition flat_rows (r : knot_rows) : Prop :=
  let '(xs, ys, ds) := r in
  (2 <= length xs)%nat /\ length ys = length xs /\ length ds = length xs /\
  increasing xs /\ increasing ys /\ nonneg ds.

(** Derivatives that vanish at the first knot, as a periodic left side
    asks. *)
Definition example_flat_d : tensor R := Torch.of_rows [[0; 3]].

(** * Properties *)

(** ** The array primitives, element by element *)

Lemma nth_map_seq {A : Type} (f : nat -> A) (s n i : nat) (d : A) :
  (i < n)%nat -> nth i (map f (seq s n)) d = f (s + i)%nat.
Proof.
  intros Hi.
  rewrite (nth_indep _ d (f 0%nat)) by (rewrite length_map, length_seq; exact Hi).
  rewrite (map_nth f (seq s n) 0%nat i), seq_nth by exact Hi. reflexivity.
Qed.

Section TorchFacts.
Context {T : Type} `{Default T}.

Lemma dim0_build n0 n1 (f : nat -> nat -> T) : dim0 (Torch.build n0 n1 f) = n0.
  Proof. reflexivity. Qed.

Lemma dim1_build n0 n1 (f : nat -> nat -> T) : dim1 (Torch.build n0 n1 f) = n1.
  Proof. reflexivity. Qed.

Lemma get_build n0 n1 (f : nat -> nat -> T) i j :
    (i < n0)%nat -> (j < n1)%nat -> Torch.get (Torch.build n0 n1 f) i j = f i j.
  Proof.
    intros Hi Hj. unfold Torch.get, Torch.build. cbn [data].
    rewrite nth_map_seq by exact Hi. rewrite nth_map_seq by exact Hj.
    reflexivity.
  Qed.

Lemma build_ext n0 n1 (f g : nat -> nat -> T) :
    (forall i j, (i < n0)%nat -> (j < n1)%nat -> f i j = g i j) ->
    Torch.build n0 n1 f = Torch.build n0 n1 g.
  Proof.
    intros E. unfold Torch.build. f_equal.
    apply map_ext_in. intros i Hi. apply in_seq in Hi.
    apply map_ext_in. intros j Hj. apply in_seq in Hj.
    apply E; lia.
  Qed.

Lemma wf_build n0 n1 (f : nat -> nat -> T) : Torch.wf (Torch.build n0 n1 f).
  Proof.
    unfold Torch.wf, Torch.build. cbn [data dim0 dim1]. split.
    - now rewrite length_map, length_seq.
    - apply Forall_forall. intros r Hr. apply in_map_iff in Hr.
      destruct Hr as [i [<- _]]. now rewrite length_map, length_seq.
  Qed.

  (** A well-formed tensor is the table of its elements. *)
Lemma wf_eta (t : tensor T) :
    Torch.wf t -> t = Torch.build (dim0 t) (dim1 t) (Torch.get t).
  Proof.
    destruct t as [n0 n1 rows]. unfold Torch.wf, Torch.build, Torch.get.
    cbn [data dim0 dim1]. intros [Hlen Hrows]. f_equal.
    apply (nth_ext _ _ [] []).
    - now rewrite length_map, length_seq.
    - intros i Hi. rewrite nth_map_seq by lia. cbn [Nat.add].
      assert (Hr : length (nth i rows []) = n1).
      { rewrite Forall_forall in Hrows. apply Hrows, nth_In, Hi. }
      apply (nth_ext _ _ default default).
      + now rewrite length_map, length_seq.
      + intros j Hj. rewrite nth_map_seq by lia. reflexivity.
  Qed.

Lemma tensor_ext (t u : tensor T) :
    Torch.wf t -> Torch.wf u ->
    dim0 t = dim0 u -> dim1 t = dim1 u ->
    (forall i j, (i < dim0 t)%nat -> (j < dim1 t)%nat ->
                 Torch.get t i j = Torch.get u i j) ->
    t = u.
  Proof.
    intros Wt Wu E0 E1 E.
    rewrite (wf_eta t Wt), (wf_eta u Wu), <- E0, <- E1.
    now apply build_ext.
  Qed.

Lemma klen_buildk a n B (f : nat -> nat -> T) :
    Torch.klen a (Torch.buildk a n B f) = n.
  Proof. now destruct a. Qed.

Lemma blen_buildk a n B (f : nat -> nat -> T) :
    Torch.blen a (Torch.buildk a n B f) = B.
  Proof. now destruct a. Qed.

Lemma getk_buildk a n B (f : nat -> nat -> T) k b :
    (k < n)%nat -> (b < B)%nat ->
    Torch.getk a (Torch.buildk a n B f) k b = f k b.
  Proof.
    intros Hk Hb. destruct a; cbn [Torch.getk Torch.buildk];
      now rewrite get_build.
  Qed.

Lemma wf_buildk a n B (f : nat -> nat -> T) : Torch.wf (Torch.buildk a n B f).
  Proof. destruct a; apply wf_build. Qed.

  (** Two well-formed tensors with the same elements along an axis. *)
Lemma tensor_extk a (t u : tensor T) :
    Torch.wf t -> Torch.wf u ->
    Torch.klen a t = Torch.klen a u -> Torch.blen a t = Torch.blen a u ->
    (forall k b, (k < Torch.klen a t)%nat -> (b < Torch.blen a t)%nat ->
                 Torch.getk a t k b = Torch.getk a u k b) ->
    t = u.
  Proof.
    intros Wt Wu Ek Eb E. destruct a; cbn in *.
    - apply tensor_ext; auto.
    - apply tensor_ext; auto.
  Qed.
End TorchFacts.

Lemma bidx_lt n i : (i < n)%nat -> Torch.bidx n i = i.
Proof.
  intros Hi. unfold Torch.bidx. destruct (Nat.eqb_spec n 1); [lia | reflexivity].
Qed.

Lemma bdim_same n : Torch.bdim n n = n.
Proof. unfold Torch.bdim. now destruct (Nat.eqb_spec n 1). Qed.

Lemma bdim_one m : Torch.bdim 1 m = m.
Proof. reflexivity. Qed.

Section PrimitiveFacts.
Context {T : Type} `{Default T}.
Variable a : axis.

Lemma klen_index_select (t : tensor T) ind :
    Torch.klen a (Torch.index_select t a ind) = length ind.
  Proof. apply klen_buildk. Qed.

Lemma blen_index_select (t : tensor T) ind :
    Torch.blen a (Torch.index_select t a ind) = Torch.blen a t.
  Proof. apply blen_buildk. Qed.

Lemma getk_index_select (t : tensor T) ind k b :
    (k < length ind)%nat -> (b < Torch.blen a t)%nat ->
    Torch.getk a (Torch.index_select t a ind) k b
    = Torch.getk a t (nth k ind 0%nat) b.
  Proof. intros. unfold Torch.index_select. now rewrite getk_buildk. Qed.

Lemma klen_flip (t : tensor T) :
    Torch.klen a (Torch.flip t a) = Torch.klen a t.
  Proof. apply klen_buildk. Qed.

Lemma blen_flip (t : tensor T) :
    Torch.blen a (Torch.flip t a) = Torch.blen a t.
  Proof. apply blen_buildk. Qed.

Lemma getk_flip (t : tensor T) k b :
    (k < Torch.klen a t)%nat -> (b < Torch.blen a t)%nat ->
    Torch.getk a (Torch.flip t a) k b
    = Torch.getk a t (Torch.klen a t - 1 - k) b.
  Proof. intros. unfold Torch.flip. now rewrite getk_buildk. Qed.

Lemma klen_cat2 (t u : tensor T) :
    Torch.klen a (Torch.cat2 t u a) = (Torch.klen a t + Torch.klen a u)%nat.
  Proof. apply klen_buildk. Qed.

Lemma blen_cat2 (t u : tensor T) :
    Torch.blen a (Torch.cat2 t u a) = Torch.blen a t.
  Proof. apply blen_buildk. Qed.

Lemma getk_cat2_l (t u : tensor T) k b :
    (k < Torch.klen a t)%nat -> (b < Torch.blen a t)%nat ->
    Torch.getk a (Torch.cat2 t u a) k b = Torch.getk a t k b.
  Proof.
    intros Hk Hb. unfold Torch.cat2. rewrite getk_buildk by lia.
    destruct (Nat.ltb_spec k (Torch.klen a t)); [reflexivity | lia].
  Qed.

Lemma getk_cat2_r (t u : tensor T) k b :
    (Torch.klen a t <= k < Torch.klen a t + Torch.klen a u)%nat ->
    (b < Torch.blen a t)%nat ->
    Torch.getk a (Torch.cat2 t u a) k b
    = Torch.getk a u (k - Torch.klen a t) b.
  Proof.
    intros Hk Hb. unfold Torch.cat2. rewrite getk_buildk by lia.
    destruct (Nat.ltb_spec k (Torch.klen a t)); [lia | reflexivity].
  Qed.

Lemma wf_cat2 (t u : tensor T) : Torch.wf (Torch.cat2 t u a).
  Proof. apply wf_buildk. Qed.
End PrimitiveFacts.

Section ElementwiseFacts.
Context {T U V : Type} `{Default T} `{Default U} `{Default V}.
Variable a : axis.

Lemma klen_map1 (f : T -> V) t :
    Torch.klen a (Torch.map1 f t) = Torch.klen a t.
  Proof. now destruct a. Qed.

Lemma blen_map1 (f : T -> V) t :
    Torch.blen a (Torch.map1 f t) = Torch.blen a t.
  Proof. now destruct a. Qed.

Lemma getk_map1 (f : T -> V) t k b :
    (k < Torch.klen a t)%nat -> (b < Torch.blen a t)%nat ->
    Torch.getk a (Torch.map1 f t) k b = f (Torch.getk a t k b).
  Proof.
    intros Hk Hb. unfold Torch.map1.
    destruct a; cbn [Torch.getk Torch.klen Torch.blen] in *;
      now rewrite get_build.
  Qed.

Lemma klen_map2 (f : T -> U -> V) t u :
    Torch.klen a (Torch.map2 f t u)
    = Torch.bdim (Torch.klen a t) (Torch.klen a u).
  Proof. now destruct a. Qed.

Lemma blen_map2 (f : T -> U -> V) t u :
    Torch.blen a (Torch.map2 f t u)
    = Torch.bdim (Torch.blen a t) (Torch.blen a u).
  Proof. now destruct a. Qed.

Lemma getk_map2 (f : T -> U -> V) t u k b :
    (k < Torch.bdim (Torch.klen a t) (Torch.klen a u))%nat ->
    (b < Torch.bdim (Torch.blen a t) (Torch.blen a u))%nat ->
    Torch.getk a (Torch.map2 f t u) k b
    = f (Torch.getk a t (Torch.bidx (Torch.klen a t) k)
                        (Torch.bidx (Torch.blen a t) b))
        (Torch.getk a u (Torch.bidx (Torch.klen a u) k)
                        (Torch.bidx (Torch.blen a u) b)).
  Proof.
    intros Hk Hb. unfold Torch.map2.
    destruct a; cbn [Torch.getk Torch.klen Torch.blen] in *;
      now rewrite get_build.
  Qed.

  (** Operands of one shape. *)
Lemma getk_map2_same (f : T -> U -> V) t u k b :
    Torch.klen a t = Torch.klen a u -> Torch.blen a t = Torch.blen a u ->
    (k < Torch.klen a t)%nat -> (b < Torch.blen a t)%nat ->
    Torch.getk a (Torch.map2 f t u) k b
    = f (Torch.getk a t k b) (Torch.getk a u k b).
  Proof.
    intros Ek Eb Hk Hb.
    rewrite getk_map2 by (rewrite <- ?Ek, <- ?Eb, bdim_same; lia).
    rewrite !bidx_lt by lia. reflexivity.
  Qed.

  (** A left operand with one knot, stretched along the knot axis. *)
Lemma getk_map2_bcast (f : T -> U -> V) t u k b :
    Torch.klen a t = 1%nat -> Torch.blen a t = Torch.blen a u ->
    (k < Torch.klen a u)%nat -> (b < Torch.blen a u)%nat ->
    Torch.getk a (Torch.map2 f t u) k b
    = f (Torch.getk a t 0 b) (Torch.getk a u k b).
  Proof.
    intros Ek Eb Hk Hb.
    rewrite getk_map2 by (rewrite ?Ek, ?Eb, ?bdim_same, ?bdim_one; lia).
    rewrite Ek. cbn [Torch.bidx Nat.eqb].
    rewrite !bidx_lt by lia. reflexivity.
  Qed.

Lemma wf_map1 (f : T -> V) t : Torch.wf (Torch.map1 f t).
  Proof. apply wf_build. Qed.

Lemma wf_map2 (f : T -> U -> V) t u : Torch.wf (Torch.map2 f t u).
  Proof. apply wf_build. Qed.
End ElementwiseFacts.

(** ** Fibres *)

Section FibreFacts.
Context {T : Type} `{Default T}.
Variable a : axis.

Lemma length_fibre (t : tensor T) b :
    length (Torch.fibre a t b) = Torch.klen a t.
  Proof. unfold Torch.fibre. now rewrite length_map, length_seq. Qed.

Lemma nth_fibre (t : tensor T) b k d :
    (k < Torch.klen a t)%nat ->
    nth k (Torch.fibre a t b) d = Torch.getk a t k b.
  Proof. intros Hk. unfold Torch.fibre. now rewrite nth_map_seq. Qed.

  (** A fibre is the list of its elements. *)
Lemma fibre_eq (t : tensor T) b (l : list T) :
    Torch.klen a t = length l ->
    (forall k, (k < length l)%nat -> Torch.getk a t k b = nth k l default) ->
    Torch.fibre a t b = l.
  Proof.
    intros El E. apply (nth_ext _ _ default default).
    - now rewrite length_fibre.
    - intros k Hk. rewrite length_fibre in Hk.
      rewrite nth_fibre by exact Hk. apply E. lia.
  Qed.

Lemma fibre_cat2 (t u : tensor T) b :
    (b < Torch.blen a t)%nat ->
    Torch.fibre a (Torch.cat2 t u a) b
    = Torch.fibre a t b ++ Torch.fibre a u b.
  Proof.
    intros Hb. apply fibre_eq.
    - now rewrite klen_cat2, length_app, !length_fibre.
    - intros k Hk. rewrite length_app, !length_fibre in Hk.
      destruct (Nat.lt_ge_cases k (Torch.klen a t)) as [Hl | Hr].
      + rewrite getk_cat2_l, app_nth1, nth_fibre
          by (rewrite ?length_fibre; lia). reflexivity.
      + rewrite getk_cat2_r, app_nth2, length_fibre, nth_fibre
          by (rewrite ?length_fibre; lia). reflexivity.
  Qed.

Lemma fibre_flip (t : tensor T) b :
    (b < Torch.blen a t)%nat ->
    Torch.fibre a (Torch.flip t a) b = rev (Torch.fibre a t b).
  Proof.
    intros Hb. apply fibre_eq.
    - now rewrite klen_flip, length_rev, length_fibre.
    - intros k Hk. rewrite length_rev, length_fibre in Hk.
      rewrite getk_flip, rev_nth, length_fibre, nth_fibre
        by (rewrite ?length_fibre; lia).
      f_equal. lia.
  Qed.

Lemma fibre_index_select (t : tensor T) ind b :
    (b < Torch.blen a t)%nat ->
    Forall (fun i => (i < Torch.klen a t)%nat) ind ->
    Torch.fibre a (Torch.index_select t a ind) b
    = map (fun i => nth i (Torch.fibre a t b) default) ind.
  Proof.
    intros Hb Hin. apply fibre_eq.
    - now rewrite klen_index_select, length_map.
    - intros k Hk. rewrite length_map in Hk.
      rewrite getk_index_select by lia.
      rewrite (nth_indep _ default (nth 0 (Torch.fibre a t b) default))
        by (rewrite length_map; lia).
      rewrite (map_nth (fun i => nth i (Torch.fibre a t b) default) ind 0%nat k).
      rewrite nth_fibre; [reflexivity |].
      rewrite Forall_forall in Hin. apply Hin, nth_In, Hk.
  Qed.
End FibreFacts.

Section FibreElementwise.
Context {T U V : Type} `{Default T} `{Default U} `{Default V}.
Variable a : axis.

Lemma fibre_map1 (f : T -> V) t b :
    (b < Torch.blen a t)%nat ->
    Torch.fibre a (Torch.map1 f t) b = map f (Torch.fibre a t b).
  Proof.
    intros Hb. apply fibre_eq.
    - now rewrite klen_map1, length_map, length_fibre.
    - intros k Hk. rewrite length_map, length_fibre in Hk.
      rewrite getk_map1 by lia.
      rewrite (nth_indep _ default (f default))
        by (rewrite length_map, length_fibre; lia).
      rewrite map_nth, nth_fibre by lia. reflexivity.
  Qed.

Lemma fibre_map2_same (f : T -> U -> V) t u b :
    Torch.klen a t = Torch.klen a u -> Torch.blen a t = Torch.blen a u ->
    (b < Torch.blen a t)%nat ->
    Torch.fibre a (Torch.map2 f t u) b
    = map (fun k => f (Torch.getk a t k b) (Torch.getk a u k b))
        (seq 0 (Torch.klen a t)).
  Proof.
    intros Ek Eb Hb. apply fibre_eq.
    - now rewrite klen_map2, <- Ek, bdim_same, length_map, length_seq.
    - intros k Hk. rewrite length_map, length_seq in Hk.
      rewrite getk_map2_same, nth_map_seq by lia. reflexivity.
  Qed.

Lemma fibre_map2_bcast (f : T -> U -> V) t u b :
    Torch.klen a t = 1%nat -> Torch.blen a t = Torch.blen a u ->
    (b < Torch.blen a u)%nat ->
    Torch.fibre a (Torch.map2 f t u) b
    = map (f (Torch.getk a t 0 b)) (Torch.fibre a u b).
  Proof.
    intros Ek Eb Hb. apply fibre_eq.
    - now rewrite klen_map2, Ek, bdim_one, length_map, length_fibre.
    - intros k Hk. rewrite length_map, length_fibre in Hk.
      rewrite getk_map2_bcast by lia.
      rewrite (nth_indep _ default (f (Torch.getk a t 0 b) default))
        by (rewrite length_map, length_fibre; lia).
      rewrite map_nth, nth_fibre by lia. reflexivity.
  Qed.
End FibreElementwise.

(** ** Index lists *)

Lemma slice_to1_range n : (1 <= n)%nat -> slice_to1 (range n) = [0%nat].
Proof. destruct n; [lia | reflexivity]. Qed.

Lemma slice_from1_range n : slice_from1 (range n) = seq 1 (n - 1).
Proof.
  unfold slice_from1, range. destruct n; [reflexivity |].
  replace (S n - 1)%nat with n by lia. reflexivity.
Qed.

Lemma slice_to_last_range n : slice_to_last (range n) = seq 0 (n - 1).
Proof.
  unfold slice_to_last, range. rewrite length_seq.
  destruct n; [reflexivity |].
  replace (S n - 1)%nat with n by lia.
  rewrite seq_S, firstn_app, length_seq, Nat.sub_diag, firstn_O, app_nil_r.
  rewrite firstn_all2 by (rewrite length_seq; lia). reflexivity.
Qed.

Lemma slice_from_last_range n :
  (1 <= n)%nat -> slice_from_last (range n) = [(n - 1)%nat].
Proof.
  intros Hn. unfold slice_from_last, range. rewrite length_seq.
  destruct n; [lia |]. replace (S n - 1)%nat with n by lia.
  rewrite seq_S, skipn_app, length_seq, Nat.sub_diag.
  rewrite skipn_all2 by (rewrite length_seq; lia). reflexivity.
Qed.

Lemma nth_0_hd {A : Type} (l : list A) d : nth 0 l d = hd d l.
Proof. now destruct l. Qed.

Lemma nth_last {A : Type} (l : list A) d : nth (length l - 1) l d = last l d.
Proof.
  induction l as [| x l IH]; [reflexivity |].
  destruct l as [| y l]; [reflexivity |].
  change (nth (length (y :: l)) (x :: y :: l) d = last (y :: l) d).
  rewrite <- IH. cbn [length nth].
  replace (S (length l) - 1)%nat with (length l) by lia. reflexivity.
Qed.

Lemma map_nth_seq_tl {A : Type} (l : list A) d :
  map (fun i => nth i l d) (seq 1 (length l - 1)) = tl l.
Proof.
  destruct l as [| x l]; [reflexivity |].
  cbn [length tl]. replace (S (length l) - 1)%nat with (length l) by lia.
  rewrite <- seq_shift, map_map. cbn [nth].
  apply (nth_ext _ _ d d).
  - now rewrite length_map, length_seq.
  - intros k Hk. rewrite length_map, length_seq in Hk.
    now rewrite nth_map_seq.
Qed.

Lemma map_nth_seq_removelast {A : Type} (l : list A) d :
  map (fun i => nth i l d) (seq 0 (length l - 1)) = removelast l.
Proof.
  destruct l as [| x l] using rev_ind; [reflexivity |].
  rewrite removelast_last, length_app. cbn [length].
  replace (length l + 1 - 1)%nat with (length l) by lia.
  apply (nth_ext _ _ d d).
  - now rewrite length_map, length_seq.
  - intros k Hk. rewrite length_map, length_seq in Hk.
    rewrite nth_map_seq by exact Hk. cbn [Nat.add].
    now rewrite app_nth1.
Qed.

(** ** AugmentKnots, fibre by fibre *)

Section AugmentFacts.
Variable a : axis.

Lemma fibre_select1 (t : tensor R) i b :
    (i < Torch.klen a t)%nat -> (b < Torch.blen a t)%nat ->
    Torch.fibre a (Torch.index_select t a [i]) b
    = [nth i (Torch.fibre a t b) 0].
  Proof.
    intros Hi Hb. rewrite fibre_index_select; auto.
  Qed.

Lemma fibre_select_tl (t : tensor R) n b :
    Torch.klen a t = n -> (b < Torch.blen a t)%nat ->
    Torch.fibre a (Torch.index_select t a (seq 1 (n - 1))) b
    = tl (Torch.fibre a t b).
  Proof.
    intros <- Hb. rewrite fibre_index_select; auto.
    - rewrite <- (length_fibre a t b) at 1. apply map_nth_seq_tl.
    - apply Forall_forall. intros i Hi. apply in_seq in Hi. lia.
  Qed.

Lemma fibre_select_removelast (t : tensor R) n b :
    Torch.klen a t = n -> (b < Torch.blen a t)%nat ->
    Torch.fibre a (Torch.index_select t a (seq 0 (n - 1))) b
    = removelast (Torch.fibre a t b).
  Proof.
    intros <- Hb. rewrite fibre_index_select; auto.
    - rewrite <- (length_fibre a t b) at 1. apply map_nth_seq_removelast.
    - apply Forall_forall. intros i Hi. apply in_seq in Hi. lia.
  Qed.

  (** [cat] of a middle tensor and its optional neighbours. *)
Lemma cat_three (l r : option (tensor R)) (x : tensor R) B :
    oblen_is a B l -> Torch.blen a x = B ->
    exists t,
      AugmentKnots.cat [l; Some x; r] a = Ok t /\
      Torch.klen a t = (oklen a l + Torch.klen a x + oklen a r)%nat /\
      Torch.blen a t = B /\
      forall b, (b < B)%nat ->
        Torch.fibre a t b = ofibre a l b ++ Torch.fibre a x b ++ ofibre a r b.
  Proof.
    intros Hl Hx. destruct l as [l |], r as [r |];
      cbn [oblen_is oklen ofibre] in *;
      unfold AugmentKnots.cat; cbn [flat_map app length Nat.ltb Nat.leb Torch.cat fold_left];
      eexists; (split; [reflexivity |]).
    - rewrite !klen_cat2, !blen_cat2. repeat split; auto.
      intros b Hb. rewrite !fibre_cat2 by (rewrite ?blen_cat2; lia).
      now rewrite app_assoc.
    - rewrite !klen_cat2, !blen_cat2. repeat split; auto; try lia.
      intros b Hb. rewrite !fibre_cat2 by lia. now rewrite app_nil_r.
    - rewrite !klen_cat2, !blen_cat2. repeat split; auto.
      intros b Hb. rewrite !fibre_cat2 by lia. reflexivity.
    - repeat split; auto; try lia. intros b Hb. now rewrite app_nil_r.
  Qed.
End AugmentFacts.

Ltac shapes :=
  repeat progress
    (rewrite ?klen_map1, ?blen_map1, ?klen_map2, ?blen_map2,
       ?klen_index_select, ?blen_index_select, ?klen_flip, ?blen_flip,
       ?klen_cat2, ?blen_cat2, ?length_seq;
     repeat match goal with
       | E : Torch.klen _ _ = _ |- _ => rewrite E
       | E : Torch.blen _ _ = _ |- _ => rewrite E
       end;
     rewrite ?bdim_same, ?bdim_one; cbn [length]).

Section AugmentRows.
Variable a : axis.

Lemma cat_knots x y d n B Lx Ly Ld Rx Ry Rd L R nl nr :
  aligned a n B x y d ->
  side_ok a B nl Lx Ly Ld L -> side_ok a B nr Rx Ry Rd R ->
  exists kx ky kd,
    AugmentKnots.cat [Lx; Some x; Rx] a = Ok kx /\
    AugmentKnots.cat [Ly; Some y; Ry] a = Ok ky /\
    AugmentKnots.cat [Ld; Some d; Rd] a = Ok kd /\
    aligned a (nl + n + nr) B kx ky kd /\
    forall b, (b < B)%nat ->
      rows_of a kx ky kd b = app_rows (L b) (app_rows (rows_of a x y d b) (R b)).
Proof.
  intros [[Hxk Hxb] [[Hyk Hyb] [Hdk Hdb]]]
         (HLx & HLy & HLd & KLx & KLy & KLd & FL)
         (HRx & HRy & HRd & KRx & KRy & KRd & FR).
  destruct (cat_three a Lx Rx x B HLx Hxb) as (kx & Ex & Kx & Bx & Fx).
  destruct (cat_three a Ly Ry y B HLy Hyb) as (ky & Ey & Ky & By & Fy).
  destruct (cat_three a Ld Rd d B HLd Hdb) as (kd & Ed & Kd & Bd & Fd).
  exists kx, ky, kd. repeat split; auto; try lia.
  intros b Hb. unfold rows_of. rewrite Fx, Fy, Fd by exact Hb.
  specialize (FL b Hb). specialize (FR b Hb). rewrite <- FL, <- FR.
  reflexivity.
Qed.

Lemma side_none B : side_ok a B 0 None None None (fun _ => no_rows).
Proof. unfold side_ok; cbn. intuition. Qed.

Lemma side_linear_left x y d n B :
  aligned a n B x y d -> (1 <= n)%nat ->
  side_ok a B 1
    (Some (Torch.subs (Torch.index_select x a [0%nat]) 1))
    (Some (Torch.index_select y a [0%nat] - Torch.index_select d a [0%nat])%T)
    (Some (Torch.index_select d a [0%nat]))
    (fun b => linear_left_rows (rows_of a x y d b)).
Proof.
  intros [[Hxk Hxb] [[Hyk Hyb] [Hdk Hdb]]] Hn.
  unfold side_ok, oblen_is, oklen, ofibre, Torch.subs, Torch.sub.
  repeat apply conj; shapes; try reflexivity.
  intros b Hb. unfold linear_left_rows, rows_of.
  rewrite fibre_map1 by (shapes; lia).
  rewrite fibre_map2_same by (shapes; lia).
  shapes. cbn [seq map].
  rewrite !getk_index_select by (shapes; lia). cbn [nth].
  rewrite !fibre_select1 by lia. cbn [map].
  rewrite <- !nth_0_hd, !nth_fibre by lia. reflexivity.
Qed.

Lemma side_linear_right x y d n B :
  aligned a n B x y d -> (1 <= n)%nat ->
  side_ok a B 1
    (Some (Torch.adds (Torch.index_select x a [(n - 1)%nat]) 1))
    (Some (Torch.index_select y a [(n - 1)%nat]
           + Torch.index_select d a [(n - 1)%nat])%T)
    (Some (Torch.index_select d a [(n - 1)%nat]))
    (fun b => linear_right_rows (rows_of a x y d b)).
Proof.
  intros [[Hxk Hxb] [[Hyk Hyb] [Hdk Hdb]]] Hn.
  unfold side_ok, oblen_is, oklen, ofibre, Torch.adds, Torch.add.
  repeat apply conj; shapes; try reflexivity.
  intros b Hb. unfold linear_right_rows, rows_of.
  rewrite fibre_map1 by (shapes; lia).
  rewrite fibre_map2_same by (shapes; lia).
  shapes. cbn [seq map].
  rewrite !getk_index_select by (shapes; lia). cbn [nth].
  rewrite !fibre_select1 by lia. cbn [map].
  rewrite <- !nth_last, !length_fibre, Hxk, Hyk, Hdk, !nth_fibre by lia.
  reflexivity.
Qed.

Lemma side_anti_left x y d n B :
  aligned a n B x y d -> (1 <= n)%nat ->
  let select_0 z := Torch.index_select z a (slice_to1 (range n)) in
  let selectflip z ind := Torch.flip (Torch.index_select z a ind) a in
  side_ok a B (n - 1)
    (Some (Torch.muls 2 (select_0 x) - selectflip x (slice_from1 (range n)))%T)
    (Some (Torch.muls 2 (select_0 y) - selectflip y (slice_from1 (range n)))%T)
    (Some (selectflip d (slice_from1 (range n))))
    (fun b => anti_left_rows (rows_of a x y d b)).
Proof.
  intros [[Hxk Hxb] [[Hyk Hyb] [Hdk Hdb]]] Hn. cbv zeta.
  rewrite slice_to1_range, slice_from1_range by exact Hn.
  unfold side_ok, oblen_is, oklen, ofibre, Torch.muls, Torch.sub.
  repeat apply conj; shapes; try reflexivity.
  intros b Hb. unfold anti_left_rows, rows_of.
  rewrite !fibre_map2_bcast by (shapes; lia).
  rewrite !getk_map1, !getk_index_select by (shapes; lia). cbn [nth].
  rewrite !fibre_flip by (shapes; lia).
  rewrite (fibre_select_tl a x n), (fibre_select_tl a y n),
    (fibre_select_tl a d n) by lia.
  rewrite <- !nth_0_hd, !nth_fibre by lia. reflexivity.
Qed.

Lemma side_anti_right x y d n B :
  aligned a n B x y d -> (1 <= n)%nat ->
  let select_1 z := Torch.index_select z a (slice_from_last (range n)) in
  let selectflip z ind := Torch.flip (Torch.index_select z a ind) a in
  side_ok a B (n - 1)
    (Some (Torch.muls 2 (select_1 x) - selectflip x (slice_to_last (range n)))%T)
    (Some (Torch.muls 2 (select_1 y) - selectflip y (slice_to_last (range n)))%T)
    (Some (selectflip d (slice_to_last (range n))))
    (fun b => anti_right_rows (rows_of a x y d b)).
Proof.
  intros [[Hxk Hxb] [[Hyk Hyb] [Hdk Hdb]]] Hn. cbv zeta.
  rewrite slice_from_last_range, slice_to_last_range by exact Hn.
  unfold side_ok, oblen_is, oklen, ofibre, Torch.muls, Torch.sub.
  repeat apply conj; shapes; try reflexivity.
  intros b Hb. unfold anti_right_rows, rows_of.
  rewrite !fibre_map2_bcast by (shapes; lia).
  rewrite !getk_map1, !getk_index_select by (shapes; lia). cbn [nth].
  rewrite !fibre_flip by (shapes; lia).
  rewrite (fibre_select_removelast a x n), (fibre_select_removelast a y n),
    (fibre_select_removelast a d n) by lia.
  rewrite <- !nth_last, !length_fibre, Hxk, Hyk, !nth_fibre by lia.
  reflexivity.
Qed.

Lemma side_periodic_left x y d n B :
  aligned a n B x y d -> (1 <= n)%nat ->
  let select_0 z := Torch.index_select z a (slice_to1 (range n)) in
  let selectflip z ind := Torch.flip (Torch.index_select z a ind) a in
  side_ok a B (n - 1)
    (Some (Torch.muls 2 (select_0 x) - selectflip x (slice_from1 (range n)))%T)
    (Some (selectflip y (slice_from1 (range n))))
    (Some (- selectflip d (slice_from1 (range n)))%T)
    (fun b => periodic_left_rows (rows_of a x y d b)).
Proof.
  intros [[Hxk Hxb] [[Hyk Hyb] [Hdk Hdb]]] Hn. cbv zeta.
  rewrite slice_to1_range, slice_from1_range by exact Hn.
  unfold side_ok, oblen_is, oklen, ofibre, Torch.muls, Torch.sub, Torch.neg.
  repeat apply conj; shapes; try reflexivity.
  intros b Hb. unfold periodic_left_rows, rows_of.
  rewrite !fibre_map2_bcast by (shapes; lia).
  rewrite fibre_map1 by (shapes; lia).
  rewrite !getk_map1, !getk_index_select by (shapes; lia). cbn [nth].
  rewrite !fibre_flip by (shapes; lia).
  rewrite (fibre_select_tl a x n), (fibre_select_tl a y n),
    (fibre_select_tl a d n) by lia.
  rewrite <- !nth_0_hd, !nth_fibre by lia. reflexivity.
Qed.

Lemma side_periodic_right x y d n B :
  aligned a n B x y d -> (1 <= n)%nat ->
  let select_1 z := Torch.index_select z a (slice_from_last (range n)) in
  let selectflip z ind := Torch.flip (Torch.index_select z a ind) a in
  side_ok a B (n - 1)
    (Some (Torch.muls 2 (select_1 x) - selectflip x (slice_to_last (range n)))%T)
    (Some (selectflip y (slice_to_last (range n))))
    (Some (- selectflip d (slice_to_last (range n)))%T)
    (fun b => periodic_right_rows (rows_of a x y d b)).
Proof.
  intros [[Hxk Hxb] [[Hyk Hyb] [Hdk Hdb]]] Hn. cbv zeta.
  rewrite slice_from_last_range, slice_to_last_range by exact Hn.
  unfold side_ok, oblen_is, oklen, ofibre, Torch.muls, Torch.sub, Torch.neg.
  repeat apply conj; shapes; try reflexivity.
  intros b Hb. unfold periodic_right_rows, rows_of.
  rewrite !fibre_map2_bcast by (shapes; lia).
  rewrite fibre_map1 by (shapes; lia).
  rewrite !getk_map1, !getk_index_select by (shapes; lia). cbn [nth].
  rewrite !fibre_flip by (shapes; lia).
  rewrite (fibre_select_removelast a x n), (fibre_select_removelast a y n),
    (fibre_select_removelast a d n) by lia.
  rewrite <- !nth_last, !length_fibre, Hxk, !nth_fibre by lia.
  reflexivity.
Qed.

Lemma takecare_linear_rows x y d l r n B :
  aligned a n B x y d -> (1 <= n)%nat ->
  exists x' y' d',
    AugmentKnots.takecare_linear (AugmentKnots.mk x y d a) l r
    = Ok (AugmentKnots.mk x' y' d' a) /\
    aligned a (linear_knots l + n + linear_knots r) B x' y' d' /\
    forall b, (b < B)%nat ->
      rows_of a x' y' d' b = linear_step_rows l r (rows_of a x y d b).
Proof.
  intros Hal Hn. pose proof Hal as [[Hxk Hxb] _].
  unfold AugmentKnots.takecare_linear, linear_step_rows, linear_knots, is_linear.
  cbn [AugmentKnots.knots_axis AugmentKnots.knots_x AugmentKnots.knots_y
       AugmentKnots.knots_d].
  rewrite Hxk.
  destruct (str_eq l "linear"), (str_eq r "linear"); cbv beta iota;
    match goal with
    | |- context [AugmentKnots.cat [?Lx; Some x; ?Rx] a] =>
      match goal with
      | |- context [AugmentKnots.cat [?Ly; Some y; ?Ry] a] =>
        match goal with
        | |- context [AugmentKnots.cat [?Ld; Some d; ?Rd] a] =>
          edestruct (cat_knots x y d n B Lx Ly Ld Rx Ry Rd) as
            (kx & ky & kd & Ex & Ey & Ed & Hal' & Hrows);
          [ exact Hal
          | first [ apply (side_linear_left x y d n B); assumption
                  | apply side_none ]
          | first [ apply (side_linear_right x y d n B); assumption
                  | apply side_none ]
          | rewrite Ex, Ey, Ed; cbn [bind];
            exists kx, ky, kd;
            split; [ reflexivity | split; [ exact Hal' | exact Hrows ] ] ]
        end
      end
    end.
Qed.

Lemma py_not_sum_false (t : tensor bool) :
  py_not (py_sum t) = Ok false ->
  exists i j, (i < dim0 t)%nat /\ (j < dim1 t)%nat /\ Torch.get t i j = true.
Proof.
  unfold py_sum. destruct (dim0 t) as [| n0] eqn:E0; [discriminate |].
  remember (seq 0 (S n0)) as rows eqn:Erows.
  destruct (dim1 t) as [| [| n1]] eqn:E1; cbn [seq map py_not]; try discriminate.
  intros [= Hc]. apply Nat.eqb_neq in Hc.
  destruct (filter (fun i => Torch.get t i 0%nat) rows) as [| i rest] eqn:Ef;
    [exfalso; apply Hc; reflexivity |].
  assert (Hi : In i (filter (fun i => Torch.get t i 0%nat) rows))
    by (rewrite Ef; now left).
  apply filter_In in Hi. destruct Hi as [Hi Ht]. subst rows. apply in_seq in Hi.
  exists i, 0%nat. repeat split; [lia | lia | exact Ht].
Qed.

(** When the check of a periodic side lets the construction go on, the
    derivative at that boundary is zero in some fibre. *)
Lemma periodic_check_passes (d : tensor R) k :
  (k < Torch.klen a d)%nat ->
  py_not (py_sum (Torch.eqs (Torch.index_select d a [k]) 0)) = Ok false ->
  exists b, (b < Torch.blen a d)%nat /\ Torch.getk a d k b = 0.
Proof.
  intros Hk E. apply py_not_sum_false in E. destruct E as (i & j & Hi & Hj & E).
  unfold Torch.eqs in *.
  assert (exists b, (b < Torch.blen a d)%nat /\
            Torch.getk a (Torch.map1 (fun v => if Req_dec_T v 0 then true else false)
              (Torch.index_select d a [k])) 0 b = true) as (b & Hb & Eb).
  { destruct a; cbn [Torch.getk Torch.blen Torch.index_select Torch.buildk] in *;
      unfold Torch.map1 in *; cbn [dim0 dim1 Torch.build length] in *.
    - exists j. split; [lia |]. replace i with 0%nat in E by lia. exact E.
    - exists i. split; [lia |]. replace j with 0%nat in E by lia. exact E. }
  exists b. split; [exact Hb |].
  rewrite getk_map1, getk_index_select in Eb by (shapes; lia). cbn [nth] in Eb.
  destruct (Req_dec_T (Torch.getk a d k b) 0); [assumption | discriminate].
Qed.

Lemma takecare_rest_rows x y d l r n B self' :
  aligned a n B x y d -> (1 <= n)%nat ->
  AugmentKnots.takecare_rest (AugmentKnots.mk x y d a) l r = Ok self' ->
  exists x' y' d',
    self' = AugmentKnots.mk x' y' d' a /\
    aligned a (reflected_knots l n + n + reflected_knots r n) B x' y' d' /\
    (forall b, (b < B)%nat ->
       rows_of a x' y' d' b = rest_step_rows l r (rows_of a x y d b)) /\
    (is_anti l = false -> is_periodic l = true ->
     exists b, (b < B)%nat /\ Torch.getk a d 0 b = 0) /\
    (is_anti r = false -> is_periodic r = true ->
     exists b, (b < B)%nat /\ Torch.getk a d (n - 1) b = 0).
Proof.
  intros Hal Hn. pose proof Hal as [[Hxk Hxb] [_ [Hdk Hdb]]].
  unfold AugmentKnots.takecare_rest, rest_step_rows, reflected_knots,
    is_anti, is_periodic.
  cbn [AugmentKnots.knots_axis AugmentKnots.knots_x AugmentKnots.knots_y
       AugmentKnots.knots_d].
  rewrite Hxk.
  destruct (str_in l ["anti"; "anti-periodic"]%string);
    [| destruct (str_eq l "periodic");
       [ destruct (py_not (py_sum (Torch.eqs (Torch.index_select d a (slice_to1 (range n))) 0)))
           as [[|] | e] eqn:EL; cbn [bind]; try discriminate |] ];
  (destruct (str_in r ["anti"; "anti-periodic"]%string);
    [| destruct (str_eq r "periodic");
       [ destruct (py_not (py_sum (Torch.eqs (Torch.index_select d a (slice_from_last (range n))) 0)))
           as [[|] | e'] eqn:ER; cbn [bind]; try discriminate |] ]);
  cbn [bind orb]; cbv beta iota;
    match goal with
    | |- context [AugmentKnots.cat [?Lx; Some x; ?Rx] a] =>
      match goal with
      | |- context [AugmentKnots.cat [?Ly; Some y; ?Ry] a] =>
        match goal with
        | |- context [AugmentKnots.cat [?Ld; Some d; ?Rd] a] =>
          edestruct (cat_knots x y d n B Lx Ly Ld Rx Ry Rd) as
            (kx & ky & kd & Ex & Ey & Ed & Hal' & Hrows);
          [ exact Hal
          | first [ apply (side_anti_left x y d n B); assumption
                  | apply (side_periodic_left x y d n B); assumption
                  | apply side_none ]
          | first [ apply (side_anti_right x y d n B); assumption
                  | apply (side_periodic_right x y d n B); assumption
                  | apply side_none ]
          | rewrite Ex, Ey, Ed; cbn [bind]; intros [= <-];
            exists kx, ky, kd;
            split; [ reflexivity | split; [ exact Hal' | split; [ exact Hrows |] ] ] ]
        end
      end
    end;
    (split; intros; try discriminate).
  all: try (rewrite slice_to1_range in EL by exact Hn;
            apply periodic_check_passes in EL; [| lia];
            rewrite Hdb in EL; exact EL).
  all: try (rewrite slice_from_last_range in ER by exact Hn;
            apply periodic_check_passes in ER; [| lia];
            rewrite Hdb in ER; exact ER).
Qed.

Lemma takecare_rest_ok x y d l r n B :
  aligned a n B x y d -> (1 <= n)%nat ->
  is_anti l = true \/ is_periodic l = false ->
  is_anti r = true \/ is_periodic r = false ->
  exists self', AugmentKnots.takecare_rest (AugmentKnots.mk x y d a) l r = Ok self'.
Proof.
  intros Hal Hn Hl Hr. pose proof Hal as [[Hxk Hxb] _].
  unfold AugmentKnots.takecare_rest, is_anti, is_periodic in *.
  cbn [AugmentKnots.knots_axis AugmentKnots.knots_x AugmentKnots.knots_y
       AugmentKnots.knots_d].
  rewrite Hxk.
  destruct (str_in l ["anti"; "anti-periodic"]%string);
    [| destruct (str_eq l "periodic"); [ destruct Hl; discriminate |] ];
  (destruct (str_in r ["anti"; "anti-periodic"]%string);
    [| destruct (str_eq r "periodic"); [ destruct Hr; discriminate |] ]);
  cbn [bind]; cbv beta iota;
    match goal with
    | |- context [AugmentKnots.cat [?Lx; Some x; ?Rx] a] =>
      match goal with
      | |- context [AugmentKnots.cat [?Ly; Some y; ?Ry] a] =>
        match goal with
        | |- context [AugmentKnots.cat [?Ld; Some d; ?Rd] a] =>
          edestruct (cat_knots x y d n B Lx Ly Ld Rx Ry Rd) as
            (kx & ky & kd & Ex & Ey & Ed & Hal' & Hrows);
          [ exact Hal
          | first [ apply (side_anti_left x y d n B); assumption
                  | apply side_none ]
          | first [ apply (side_anti_right x y d n B); assumption
                  | apply side_none ]
          | rewrite Ex, Ey, Ed; cbn [bind]; eexists; reflexivity ]
        end
      end
    end.
Qed.
End AugmentRows.

(** ** The knots after construction *)

Section ConstructionRows.
Variable a : axis.

Lemma perform_bc_rows x y d l r n B self' :
  aligned a n B x y d -> (1 <= n)%nat ->
  AugmentKnots.perform_bc (AugmentKnots.mk x y d a) l r = Ok self' ->
  exists x' y' d',
    self' = AugmentKnots.mk x' y' d' a /\
    aligned a (augmented_len l r n) B x' y' d' /\
    forall b, (b < B)%nat ->
      rows_of a x' y' d' b = augmented_rows l r (rows_of a x y d b).
Proof.
  intros Hal Hn. unfold AugmentKnots.perform_bc, augmented_len, augmented_rows.
  fold (is_linear l) (is_linear r).
  destruct (is_None l && is_None r).
  { intros [= <-]. exists x, y, d. auto. }
  destruct (is_linear l || is_linear r).
  - destruct (takecare_linear_rows a x y d l r n B Hal Hn)
      as (x1 & y1 & d1 & E1 & Hal1 & Hrows1).
    rewrite E1. cbn [bind].
    destruct (is_None l || is_None r).
    + intros [= <-]. exists x1, y1, d1. auto.
    + intros E2.
      apply (takecare_rest_rows a x1 y1 d1 l r _ B self' Hal1) in E2; [| lia].
      destruct E2 as (x2 & y2 & d2 & -> & Hal2 & Hrows2 & _).
      exists x2, y2, d2. repeat split; try apply Hal2.
      intros b Hb. rewrite Hrows2, Hrows1 by exact Hb. reflexivity.
  - intros E2.
    apply (takecare_rest_rows a x y d l r n B self' Hal Hn) in E2.
    destruct E2 as (x2 & y2 & d2 & -> & Hal2 & Hrows2 & _).
    exists x2, y2, d2. auto.
Qed.

Lemma perform_bc_ok x y d l r n B :
  aligned a n B x y d -> (1 <= n)%nat ->
  is_periodic l = false -> is_periodic r = false ->
  exists self', AugmentKnots.perform_bc (AugmentKnots.mk x y d a) l r = Ok self'.
Proof.
  intros Hal Hn Hl Hr. unfold AugmentKnots.perform_bc.
  destruct (is_None l && is_None r); [eexists; reflexivity |].
  destruct (str_eq l "linear" || str_eq r "linear").
  - destruct (takecare_linear_rows a x y d l r n B Hal Hn)
      as (x1 & y1 & d1 & E1 & Hal1 & _).
    rewrite E1. cbn [bind].
    destruct (is_None l || is_None r); [eexists; reflexivity |].
    eapply takecare_rest_ok; eauto. lia.
  - eapply takecare_rest_ok; eauto.
Qed.

Lemma init_rows cls x y d e l r n B S :
  aligned a n B x y d -> (1 <= n)%nat ->
  SplineTemplate.init cls x y (Some d) a e l r = Ok S ->
  knots_axis S = a /\
  aligned a (augmented_len l r n) B (knots_x S) (knots_y S) (knots_d S) /\
  knots_len S = augmented_len l r n /\
  segm_len S = (augmented_len l r n - 1)%nat /\
  shape S = Torch.shape (knots_x S) /\
  forall b, (b < B)%nat ->
    rows_of a (knots_x S) (knots_y S) (knots_d S) b
    = augmented_rows l r (rows_of a x y d b).
Proof.
  intros Hal Hn. unfold SplineTemplate.init.
  destruct e; cbn [negb]; [| discriminate].
  destruct (negb _); [discriminate |]. cbn [bind].
  unfold AugmentKnots.call, AugmentKnots.init.
  destruct (AugmentKnots.perform_bc _ l r) as [self' | err] eqn:E; [| discriminate].
  apply (perform_bc_rows x y d l r n B self' Hal Hn) in E.
  destruct E as (x' & y' & d' & -> & Hal' & Hrows).
  cbn [bind AugmentKnots.knots_x AugmentKnots.knots_y AugmentKnots.knots_d].
  intros [= <-]. cbn [knots_axis knots_x knots_y knots_d knots_len segm_len shape].
  pose proof Hal' as [[Hk _] _]. rewrite Hk. auto 10.
Qed.
End ConstructionRows.

(** ** Selectors the module does not know *)

Lemma unknown_not_linear s : unknown_selector s -> is_linear (Some s) = false.
Proof. intros (H & _). apply String.eqb_neq. exact H. Qed.

Lemma unknown_not_anti s : unknown_selector s -> is_anti (Some s) = false.
Proof.
  intros (_ & _ & H1 & H2). unfold is_anti, str_in, existsb, str_eq.
  apply String.eqb_neq in H1, H2. now rewrite H1, H2.
Qed.

Lemma unknown_not_periodic s : unknown_selector s -> is_periodic (Some s) = false.
Proof. intros (_ & H & _). apply String.eqb_neq. exact H. Qed.

Lemma cat_middle x a : AugmentKnots.cat [None; Some x; None] a = Ok x.
Proof. reflexivity. Qed.

Lemma takecare_rest_noop self l r :
  is_anti l = false -> is_periodic l = false ->
  is_anti r = false -> is_periodic r = false ->
  AugmentKnots.takecare_rest self l r = Ok self.
Proof.
  unfold is_anti, is_periodic, AugmentKnots.takecare_rest.
  intros -> -> -> ->. cbn [bind]. rewrite !cat_middle. cbn [bind].
  now destruct self.
Qed.

Lemma takecare_linear_left_irrelevant self l l' r :
  is_linear l = is_linear l' ->
  AugmentKnots.takecare_linear self l r = AugmentKnots.takecare_linear self l' r.
Proof. unfold is_linear, AugmentKnots.takecare_linear. now intros ->. Qed.

Lemma takecare_rest_left_irrelevant self l l' r :
  is_anti l = is_anti l' -> is_periodic l = is_periodic l' ->
  AugmentKnots.takecare_rest self l r = AugmentKnots.takecare_rest self l' r.
Proof. unfold is_anti, is_periodic, AugmentKnots.takecare_rest. now intros -> ->. Qed.

Lemma none_flags :
  is_linear None = false /\ is_anti None = false /\ is_periodic None = false.
Proof. repeat split. Qed.

Lemma perform_bc_unknown_left self s r :
  unknown_selector s ->
  AugmentKnots.perform_bc self (Some s) r = AugmentKnots.perform_bc self None r.
Proof.
  intros U. unfold AugmentKnots.perform_bc.
  pose proof (unknown_not_linear s U) as Hl.
  pose proof (unknown_not_anti s U) as Ha.
  pose proof (unknown_not_periodic s U) as Hp.
  fold (is_linear (Some s)) (is_linear None) (is_linear r).
  rewrite Hl. cbn [is_None andb orb is_linear str_eq].
  destruct r as [r |]; cbn [is_None orb].
  - destruct (is_linear (Some r)) eqn:Er.
    + rewrite (takecare_linear_left_irrelevant self (Some s) None (Some r))
        by (now rewrite Hl).
      destruct (AugmentKnots.takecare_linear self None (Some r)) as [self' |];
        [| reflexivity].
      cbn [bind]. apply takecare_rest_noop; auto.
      * apply String.eqb_eq in Er. now subst r.
      * apply String.eqb_eq in Er. now subst r.
    + apply takecare_rest_left_irrelevant; [now rewrite Ha | now rewrite Hp].
  - apply takecare_rest_noop; auto.
Qed.

Lemma takecare_linear_right_irrelevant self l r r' :
  is_linear r = is_linear r' ->
  AugmentKnots.takecare_linear self l r = AugmentKnots.takecare_linear self l r'.
Proof. unfold is_linear, AugmentKnots.takecare_linear. now intros ->. Qed.

Lemma takecare_rest_right_irrelevant self l r r' :
  is_anti r = is_anti r' -> is_periodic r = is_periodic r' ->
  AugmentKnots.takecare_rest self l r = AugmentKnots.takecare_rest self l r'.
Proof. unfold is_anti, is_periodic, AugmentKnots.takecare_rest. now intros -> ->. Qed.

Lemma perform_bc_unknown_right self s l :
  unknown_selector s ->
  AugmentKnots.perform_bc self l (Some s) = AugmentKnots.perform_bc self l None.
Proof.
  intros U. unfold AugmentKnots.perform_bc.
  pose proof (unknown_not_linear s U) as Hl.
  pose proof (unknown_not_anti s U) as Ha.
  pose proof (unknown_not_periodic s U) as Hp.
  fold (is_linear (Some s)) (is_linear None) (is_linear l).
  rewrite Hl. cbn [is_None andb orb is_linear str_eq].
  rewrite !orb_false_r, !andb_false_r, !andb_true_r, ?orb_true_r.
  destruct l as [l |]; cbn [is_None orb].
  - destruct (is_linear (Some l)) eqn:El.
    + rewrite (takecare_linear_right_irrelevant self (Some l) (Some s) None)
        by (now rewrite Hl).
      destruct (AugmentKnots.takecare_linear self (Some l) None) as [self' |];
        [| reflexivity].
      cbn [bind]. apply takecare_rest_noop; auto.
      * apply String.eqb_eq in El. now subst l.
      * apply String.eqb_eq in El. now subst l.
    + apply takecare_rest_right_irrelevant; [now rewrite Ha | now rewrite Hp].
  - apply takecare_rest_noop; auto.
Qed.


(** ** Derivative smoothing *)

Section Smoothing.
Variable a : axis.

Lemma item_first_range n : (1 <= n)%nat -> item_first (range n) = Ok 0%nat.
Proof. destruct n; [lia | reflexivity]. Qed.

Lemma item_last_range n : (1 <= n)%nat -> item_last (range n) = Ok (n - 1)%nat.
Proof.
  intros Hn. unfold item_last, range. destruct n as [| n]; [lia |].
  cbn [seq]. f_equal. replace (S n - 1)%nat with n by lia.
  destruct n as [| n]; [reflexivity |].
  rewrite seq_S, last_last. reflexivity.
Qed.

(** The slopes [m] of [smooth_derivatives]. *)
Lemma slopes_shape x y n B :
  shaped a n B x -> shaped a n B y ->
  let select z ind := Torch.index_select z a ind in
  let diff_select z ind :=
    (select z (slice_from1 ind) - select z (slice_to_last ind))%T in
  let m := (diff_select y (range n) / diff_select x (range n))%T in
  shaped a (n - 1) B m /\
  forall k b, (k < n - 1)%nat -> (b < B)%nat ->
    Torch.getk a m k b = slope a x y b k.
Proof.
  intros [Hxk Hxb] [Hyk Hyb]. cbv beta zeta.
  rewrite slice_from1_range, slice_to_last_range.
  unfold shaped, Torch.div, Torch.sub. split; [split; shapes; reflexivity |].
  intros k b Hk Hb.
  rewrite getk_map2_same by (shapes; lia).
  rewrite !getk_map2_same by (shapes; lia).
  rewrite !getk_index_select by (shapes; lia).
  rewrite !seq_nth by lia. unfold slope.
  replace (1 + k)%nat with (k + 1)%nat by lia. reflexivity.
Qed.

Lemma getk_cat3 (t1 t2 t3 : tensor R) B k b :
  Torch.blen a t1 = B -> (b < B)%nat ->
  (k < Torch.klen a t1 + Torch.klen a t2 + Torch.klen a t3)%nat ->
  Torch.getk a (Torch.cat [t1; t2; t3] a) k b
  = if (k <? Torch.klen a t1)%nat then Torch.getk a t1 k b
    else if (k <? Torch.klen a t1 + Torch.klen a t2)%nat
         then Torch.getk a t2 (k - Torch.klen a t1) b
         else Torch.getk a t3 (k - Torch.klen a t1 - Torch.klen a t2) b.
Proof.
  intros HB Hb Hk. cbn [Torch.cat fold_left].
  destruct (Nat.ltb_spec k (Torch.klen a t1)).
  - rewrite getk_cat2_l by (shapes; lia). now rewrite getk_cat2_l by lia.
  - destruct (Nat.ltb_spec k (Torch.klen a t1 + Torch.klen a t2)).
    + rewrite getk_cat2_l by (shapes; lia). now rewrite getk_cat2_r by lia.
    + rewrite getk_cat2_r by (shapes; lia). shapes. f_equal. lia.
Qed.

(** What [SplineTemplate.smooth_derivatives] returns, knot by knot. *)
Lemma template_smoothing_spec x y n B bc_type :
  shaped a n B x -> shaped a n B y -> (2 <= n)%nat ->
  cls_smooth_derivatives Pade22Spline.cls x y a
  = SplineTemplate.smooth_derivatives x y a "not-ones" /\
  exists d,
    SplineTemplate.smooth_derivatives x y a bc_type = Ok d /\
    shaped a n B d /\
    forall b, (b < B)%nat ->
      (forall k, (1 <= k <= n - 2)%nat ->
         Torch.getk a d k b = 0.5 * (slope a x y b k + slope a x y b (k - 1))) /\
      (bc_type <> "ones"%string ->
         Torch.getk a d 0 b = slope a x y b 0 /\
         Torch.getk a d (n - 1) b = slope a x y b (n - 2)) /\
      (bc_type = "ones"%string ->
         Torch.getk a d 0 b = 1 /\ Torch.getk a d (n - 1) b = 1).
Proof.
  intros Hx Hy Hn. split; [reflexivity |].
  pose proof (slopes_shape x y n B Hx Hy) as Hm. cbv beta zeta in Hm.
  unfold SplineTemplate.smooth_derivatives.
  destruct Hx as [Hxk Hxb]. rewrite Hxk.
  set (m := (_ / _)%T) in *. destruct Hm as [[Hmk Hmb] Hm].
  rewrite item_first_range, item_last_range by lia. cbn [bind].
  rewrite !slice_from1_range, !slice_to_last_range.
  set (m_avg := Torch.muls 0.5 _).
  assert (Hak : Torch.klen a m_avg = (n - 2)%nat).
  { unfold m_avg, Torch.muls, Torch.add. shapes. lia. }
  assert (Hab : Torch.blen a m_avg = B).
  { unfold m_avg, Torch.muls, Torch.add. shapes. reflexivity. }
  assert (Ha : forall k b, (k < n - 2)%nat -> (b < B)%nat ->
            Torch.getk a m_avg k b
            = 0.5 * (slope a x y b (k + 1) + slope a x y b k)).
  { intros k b Hk Hb. unfold m_avg, Torch.muls, Torch.add.
    rewrite getk_map1 by (shapes; lia).
    rewrite getk_map2_same by (shapes; lia).
    rewrite !getk_index_select by (shapes; lia).
    rewrite !seq_nth by lia. rewrite !Hm by lia.
    replace (1 + k)%nat with (k + 1)%nat by lia. reflexivity. }
  clearbody m m_avg.
  destruct (String.eqb_spec bc_type "ones") as [-> | Hbc]; cbn [bind];
    eexists; (split; [reflexivity |]); (split; [split |]).
  - cbn [Torch.cat fold_left]. unfold Torch.ones_like. shapes. lia.
  - cbn [Torch.cat fold_left]. unfold Torch.ones_like. shapes. reflexivity.
  - intros b Hb. repeat split.
    + intros k Hk. rewrite (getk_cat3 _ _ _ B)
        by (unfold Torch.ones_like; shapes; lia).
      unfold Torch.ones_like at 1 2 3 4. shapes.
      destruct (Nat.ltb_spec k 1); [lia |].
      destruct (Nat.ltb_spec k (1 + (n - 2))); [| lia].
      rewrite Ha by lia. replace (k - 1 + 1)%nat with k by lia. reflexivity.
    + congruence.
    + congruence.
    + rewrite (getk_cat3 _ _ _ B) by (unfold Torch.ones_like; shapes; lia).
      unfold Torch.ones_like at 1 2. shapes. cbn [Nat.ltb Nat.leb].
      unfold Torch.ones_like. rewrite getk_map1 by (shapes; lia). reflexivity.
    + rewrite (getk_cat3 _ _ _ B) by (unfold Torch.ones_like; shapes; lia).
      unfold Torch.ones_like at 1 2 3 4. shapes.
      destruct (Nat.ltb_spec (n - 1) 1); [lia |].
      destruct (Nat.ltb_spec (n - 1) (1 + (n - 2))); [lia |].
      unfold Torch.ones_like. rewrite getk_map1 by (shapes; lia). reflexivity.
  - cbn [Torch.cat fold_left]. shapes. lia.
  - cbn [Torch.cat fold_left]. shapes. reflexivity.
  - intros b Hb. repeat split.
    + intros k Hk. rewrite (getk_cat3 _ _ _ B) by (shapes; lia).
      shapes.
      destruct (Nat.ltb_spec k 1); [lia |].
      destruct (Nat.ltb_spec k (1 + (n - 2))); [| lia].
      rewrite Ha by lia. replace (k - 1 + 1)%nat with k by lia. reflexivity.
    + rewrite (getk_cat3 _ _ _ B) by (shapes; lia).
      shapes. cbn [Nat.ltb Nat.leb].
      rewrite getk_index_select by (shapes; lia). cbn [nth]. apply Hm; lia.
    + rewrite (getk_cat3 _ _ _ B) by (shapes; lia).
      shapes.
      destruct (Nat.ltb_spec (n - 1) 1); [lia |].
      destruct (Nat.ltb_spec (n - 1) (1 + (n - 2))); [lia |].
      rewrite getk_index_select by (shapes; lia).
      replace (n - 1 - 1 - (n - 2))%nat with 0%nat by lia. cbn [nth].
      replace (n - 1 - 1)%nat with (n - 2)%nat by lia. apply Hm; lia.
    + congruence.
    + congruence.
Qed.

(** [torch.cat] of a sequence of one-knot tensors. *)
Lemma cat_fold_singletons B (rest : list (tensor R)) (acc : tensor R) :
  Torch.blen a acc = B ->
  Forall (shaped a 1 B) rest ->
  let t := fold_left (fun acc u => Torch.cat2 acc u a) rest acc in
  Torch.klen a t = (Torch.klen a acc + length rest)%nat /\
  Torch.blen a t = B /\
  forall k b, (k < Torch.klen a acc + length rest)%nat -> (b < B)%nat ->
    Torch.getk a t k b
    = if (k <? Torch.klen a acc)%nat then Torch.getk a acc k b
      else Torch.getk a (nth (k - Torch.klen a acc) rest empty_tensor) 0 b.
Proof.
  revert acc. induction rest as [| u rest IH]; intros acc Hacc Hrest; cbv zeta.
  - cbn [fold_left length]. repeat split; auto.
    intros k b Hk Hb. destruct (Nat.ltb_spec k (Torch.klen a acc)); [reflexivity | lia].
  - cbn [fold_left length]. apply Forall_cons_iff in Hrest as [[Huk Hub] Hrest'].
    specialize (IH (Torch.cat2 acc u a)).
    rewrite blen_cat2, klen_cat2, Huk in IH. specialize (IH Hacc Hrest').
    cbv zeta in IH. destruct IH as (IHk & IHb & IHg).
    repeat split; [lia | exact IHb |].
    intros k b Hk Hb. rewrite IHg by lia.
    destruct (Nat.ltb_spec k (Torch.klen a acc + 1)).
    + destruct (Nat.ltb_spec k (Torch.klen a acc)).
      * now rewrite getk_cat2_l by lia.
      * rewrite getk_cat2_r by lia.
        replace (k - Torch.klen a acc)%nat with 0%nat by lia. reflexivity.
    + destruct (Nat.ltb_spec k (Torch.klen a acc)); [lia |].
      replace (k - Torch.klen a acc)%nat with (S (k - (Torch.klen a acc + 1)))
        by lia. reflexivity.
Qed.

Lemma cat_singletons B (l : list (tensor R)) :
  l <> [] -> Forall (shaped a 1 B) l ->
  shaped a (length l) B (Torch.cat l a) /\
  forall k b, (k < length l)%nat -> (b < B)%nat ->
    Torch.getk a (Torch.cat l a) k b = Torch.getk a (nth k l empty_tensor) 0 b.
Proof.
  destruct l as [| t rest]; [congruence |]. intros _ Hl.
  apply Forall_cons_iff in Hl as [[Htk Htb] Hrest].
  pose proof (cat_fold_singletons B rest t Htb Hrest) as H. cbv zeta in H.
  rewrite Htk in H. destruct H as (Hk & Hb & Hg).
  cbn [Torch.cat length]. repeat split; [lia | exact Hb |].
  intros k b Hk' Hb'. rewrite Hg by lia.
  destruct (Nat.ltb_spec k 1).
  - now replace k with 0%nat by lia.
  - destruct k; [lia |]. cbn [nth]. f_equal. f_equal. lia.
Qed.

(** The loop of [Pade11Spline.smooth_derivatives]. *)
Lemma natural_loop (m d0 : tensor R) B (sl : nat -> nat -> R) len j :
  shaped a len B m -> shaped a 1 B d0 ->
  (forall k b, (k < len)%nat -> (b < B)%nat -> Torch.getk a m k b = sl b k) ->
  (j <= len)%nat ->
  let d_list :=
    fold_left
      (fun d_list k =>
         d_list
         ++ [(Torch.pows (Torch.index_select m a [nth k (range (len + 1)) 0%nat]) 2
              / last d_list d0)%T])
      (range j) [d0] in
  length d_list = (j + 1)%nat /\
  Forall (shaped a 1 B) d_list /\
  nth 0 d_list empty_tensor = d0 /\
  forall k b, (k < j)%nat -> (b < B)%nat ->
    Torch.getk a (nth (k + 1) d_list empty_tensor) 0 b
    = sl b k ^ 2 / Torch.getk a (nth k d_list empty_tensor) 0 b.
Proof.
  intros [Hmk Hmb] [Hdk Hdb] Hm. induction j as [| j IH]; intros Hj; cbv zeta.
  - cbn [range seq fold_left length nth]. repeat split; auto.
    + constructor; [now split | constructor].
    + intros; lia.
  - unfold range in *. rewrite seq_S, fold_left_app. cbn [Nat.add fold_left].
    specialize (IH ltac:(lia)). cbv zeta in IH.
    set (L := fold_left _ (seq 0 j) [d0]) in *.
    destruct IH as (IHl & IHs & IH0 & IHr).
    assert (Hlast : last L d0 = nth j L empty_tensor).
    { rewrite <- (nth_last L d0), IHl.
      replace (j + 1 - 1)%nat with j by lia. apply nth_indep. lia. }
    assert (Hsl : shaped a 1 B (nth j L empty_tensor)).
    { rewrite Forall_forall in IHs. apply IHs, nth_In. lia. }
    destruct Hsl as [Hlk Hlb].
    rewrite seq_nth by lia. cbn [Nat.add].
    repeat split.
    + rewrite length_app, IHl. cbn [length]. lia.
    + apply Forall_app. split; [exact IHs |]. constructor; [| constructor].
      rewrite Hlast. unfold shaped, Torch.div, Torch.pows. split; shapes; reflexivity.
    + rewrite app_nth1 by lia. exact IH0.
    + intros k b Hk Hb. destruct (Nat.eq_dec k j) as [-> | Hne].
      * rewrite app_nth2 by lia. rewrite IHl, Nat.sub_diag. cbn [nth].
        rewrite app_nth1 by lia. rewrite Hlast.
        unfold Torch.div, Torch.pows.
        rewrite getk_map2_same by (shapes; lia).
        rewrite getk_map1 by (shapes; lia).
        rewrite getk_index_select by (shapes; lia). cbn [nth].
        rewrite Hm by lia. reflexivity.
      * rewrite !app_nth1 by lia. apply IHr; lia.
Qed.

(** What [Pade11Spline.smooth_derivatives] returns, knot by knot. *)
Lemma natural_smoothing_spec x y n B :
  shaped a n B x -> shaped a n B y -> (1 <= n)%nat ->
  cls_smooth_derivatives Pade11Spline.cls x y a
  = Pade11Spline.smooth_derivatives x y a "natural" /\
  (exists d,
     Pade11Spline.smooth_derivatives x y a "natural" = Ok d /\
     shaped a n B d /\
     forall b, (b < B)%nat ->
       Torch.getk a d 0 b = 1 /\
       forall k, (k + 1 < n)%nat ->
         Torch.getk a d (k + 1) b
         = slope a x y b k ^ 2 / Torch.getk a d k b) /\
  (forall bc_type, bc_type <> "natural"%string ->
     Pade11Spline.smooth_derivatives x y a bc_type
     = Raise (Exception "bc_type is not know")).
Proof.
  intros Hx Hy Hn. split; [reflexivity |].
  pose proof (slopes_shape x y n B Hx Hy) as Hm. cbv beta zeta in Hm.
  unfold Pade11Spline.smooth_derivatives.
  destruct Hx as [Hxk Hxb]. rewrite Hxk.
  set (m := (_ / _)%T) in *. destruct Hm as [Hms Hm].
  split.
  - cbn [String.eqb Ascii.eqb Bool.eqb bind].
    set (d0 := Torch.adds _ 1).
    assert (Hd0 : shaped a 1 B d0).
    { destruct Hms as [Hmk Hmb].
      unfold d0, Torch.adds, Torch.mulr, Torch.prod_unsqueeze, Torch.div.
      split; rewrite ?klen_map1, ?blen_map1, ?klen_buildk, ?blen_buildk;
        [reflexivity |]. shapes. reflexivity. }
    assert (Hd0v : forall b, (b < B)%nat -> Torch.getk a d0 0 b = 1).
    { intros b Hb. destruct Hms as [Hmk Hmb].
      unfold d0, Torch.adds, Torch.mulr, Torch.prod_unsqueeze, Torch.div.
      rewrite !getk_map1
        by (rewrite ?klen_map1, ?blen_map1, ?klen_buildk, ?blen_buildk;
            shapes; lia).
      lra. }
    clearbody d0.
    pose proof (natural_loop m d0 B (slope a x y) (n - 1) (n - 1) Hms Hd0 Hm
                  (Nat.le_refl _)) as HL.
    cbv zeta in HL. replace (n - 1 + 1)%nat with n in HL by lia.
    set (d_list := fold_left _ (range (n - 1)) [d0]) in *.
    destruct HL as (Hlen & Hsh & H0 & Hrec).
    assert (Hne : d_list <> []) by (intros E; rewrite E in Hlen; cbn in Hlen; lia).
    destruct (cat_singletons B d_list Hne Hsh) as (Hcs & Hcg).
    rewrite Hlen in Hcs, Hcg. replace (n - 1 + 1)%nat with n in Hcs, Hcg by lia.
    eexists. split; [reflexivity |]. split; [exact Hcs |].
    intros b Hb. split.
    + rewrite Hcg, H0 by lia. now apply Hd0v.
    + intros k Hk. rewrite !Hcg by lia. apply Hrec; lia.
  - intros bc Hbc. apply String.eqb_neq in Hbc. rewrite Hbc. reflexivity.
Qed.
End Smoothing.

(** ** The check of a periodic side *)

Lemma py_not_sum_some_true (t : tensor bool) i :
  dim1 t = 1%nat -> (i < dim0 t)%nat -> Torch.get t i 0 = true ->
  py_not (py_sum t) = Ok false.
Proof.
  intros E1 Hi Ht. unfold py_sum. destruct (dim0 t) as [| n0] eqn:E0; [lia |].
  rewrite E1. remember (seq 0 (S n0)) as rows eqn:Erows. cbn [seq map py_not].
  f_equal. apply Nat.eqb_neq.
  assert (Hin : In i (filter (fun i => Torch.get t i 0%nat) rows)).
  { apply filter_In. split; [| exact Ht]. subst rows. apply in_seq. lia. }
  destruct (filter _ rows); [contradiction | discriminate].
Qed.

Lemma periodic_check_Ax1 (d : tensor R) k b :
  (k < dim1 d)%nat -> (b < dim0 d)%nat -> Torch.getk Ax1 d k b = 0 ->
  periodic_check Ax1 d k = Ok false.
Proof.
  intros Hk Hb E. unfold periodic_check.
  apply (py_not_sum_some_true _ b).
  - reflexivity.
  - exact Hb.
  - change (Torch.getk Ax1 (Torch.eqs (Torch.index_select d Ax1 [k]) 0) 0 b = true).
    unfold Torch.eqs.
    rewrite getk_map1, getk_index_select by (shapes; cbn; lia).
    cbn [nth]. rewrite E. destruct (Req_dec_T 0 0); congruence.
Qed.

Section PeriodicCheck.
Variable a : axis.

Lemma cat_three_ok (l r : option (tensor R)) (x : tensor R) :
  exists t, AugmentKnots.cat [l; Some x; r] a = Ok t.
Proof. destruct l, r; eexists; reflexivity. Qed.

Lemma takecare_rest_ok_checked x y d l r n :
  Torch.klen a x = n -> (1 <= n)%nat ->
  is_anti l = true \/ is_periodic l = false \/ periodic_check a d 0 = Ok false ->
  is_anti r = true \/ is_periodic r = false
  \/ periodic_check a d (n - 1) = Ok false ->
  exists self', AugmentKnots.takecare_rest (AugmentKnots.mk x y d a) l r = Ok self'.
Proof.
  intros Hxk Hn Hl Hr.
  unfold AugmentKnots.takecare_rest, is_anti, is_periodic, periodic_check in *.
  cbn [AugmentKnots.knots_axis AugmentKnots.knots_x AugmentKnots.knots_y
       AugmentKnots.knots_d].
  rewrite Hxk, slice_to1_range, slice_from_last_range by exact Hn.
  destruct (str_in l ["anti"; "anti-periodic"]%string);
    [| destruct (str_eq l "periodic");
       [ destruct Hl as [Hl | [Hl | Hl]]; try discriminate; rewrite Hl |] ];
  (destruct (str_in r ["anti"; "anti-periodic"]%string);
    [| destruct (str_eq r "periodic");
       [ destruct Hr as [Hr | [Hr | Hr]]; try discriminate; rewrite Hr |] ]);
  cbn [bind]; cbv beta iota;
    match goal with
    | |- context [AugmentKnots.cat [?Lx; Some x; ?Rx] a] =>
      match goal with
      | |- context [AugmentKnots.cat [?Ly; Some y; ?Ry] a] =>
        match goal with
        | |- context [AugmentKnots.cat [?Ld; Some d; ?Rd] a] =>
          destruct (cat_three_ok Lx Rx x) as (kx & Ex);
          destruct (cat_three_ok Ly Ry y) as (ky & Ey);
          destruct (cat_three_ok Ld Rd d) as (kd & Ed);
          rewrite Ex, Ey, Ed; cbn [bind]; eexists; reflexivity
      end end end.
Qed.
End PeriodicCheck.

(** ** Shapes after construction *)

Section ConstructionShapes.
Variable a : axis.

Lemma init_inv cls x y d e l r S :
  SplineTemplate.init cls x y d a e l r = Ok S ->
  Torch.shape x = Torch.shape y /\
  exists d0,
    match d with
    | Some d' => d0 = d'
    | None => cls_smooth_derivatives cls x y a = Ok d0
    end /\
    SplineTemplate.init cls x y (Some d0) a e l r = Ok S.
Proof.
  unfold SplineTemplate.init.
  destruct (negb e); [discriminate |].
  destruct (_ && _) eqn:Es; cbn [negb]; [| discriminate].
  apply andb_true_iff in Es. destruct Es as [E0 E1].
  apply Nat.eqb_eq in E0, E1.
  intros E. split; [unfold Torch.shape; congruence |].
  destruct d as [d' |].
  - exists d'. split; [reflexivity | exact E].
  - destruct (cls_smooth_derivatives cls x y a) as [d0 | err]; [| discriminate].
    exists d0. split; [reflexivity | exact E].
Qed.

Lemma shaped_of_shape n B (x y : tensor R) :
  shaped a n B x -> Torch.shape x = Torch.shape y -> shaped a n B y.
Proof.
  unfold shaped, Torch.shape. intros [Hk Hb] [= E0 E1].
  destruct a; cbn in *; split; congruence.
Qed.

Lemma shape_of_shaped n B (x y : tensor R) :
  shaped a n B x -> shaped a n B y -> Torch.shape y = Torch.shape x.
Proof.
  unfold shaped, Torch.shape. intros [Hk Hb] [Hk' Hb'].
  destruct a; cbn in *; congruence.
Qed.

Lemma construction_shapes kind x y d e l r n B S :
  shaped a n B x -> (2 <= n)%nat ->
  (forall d0, d = Some d0 -> shaped a n B d0) ->
  SplineTemplate.init (class_of kind) x y d a e l r = Ok S ->
  Torch.shape (knots_y S) = Torch.shape (knots_x S) /\
  Torch.shape (knots_d S) = Torch.shape (knots_x S) /\
  shape S = Torch.shape (knots_x S) /\
  knots_len S = Torch.klen (knots_axis S) (knots_x S) /\
  segm_len S = (knots_len S - 1)%nat /\
  knots_len S
  = (if is_None l && is_None r then n
     else if is_linear l || is_linear r then
       let n1 := (linear_knots l + n + linear_knots r)%nat in
       if is_None l || is_None r then n1
       else (reflected_knots l n1 + n1 + reflected_knots r n1)%nat
     else (reflected_knots l n + n + reflected_knots r n)%nat).
Proof.
  intros Hx Hn Hd E. apply init_inv in E. destruct E as (Exy & d0 & Hd0 & E).
  pose proof (shaped_of_shape n B x y Hx Exy) as Hy.
  assert (Hd0s : shaped a n B d0).
  { destruct d as [d' |].
    - subst d0. now apply Hd.
    - destruct kind; cbn [class_of] in Hd0.
      + destruct (template_smoothing_spec a x y n B "not-ones" Hx Hy Hn)
          as (_ & d1 & E1 & Hs & _).
        cbn [cls_smooth_derivatives Pade22Spline.cls] in Hd0. congruence.
      + destruct (natural_smoothing_spec a x y n B Hx Hy ltac:(lia))
          as (_ & (d1 & E1 & Hs & _) & _).
        cbn [cls_smooth_derivatives Pade11Spline.cls] in Hd0. congruence. }
  apply (init_rows a _ x y d0 e l r n B S) in E; [| repeat split; auto; apply Hx || apply Hy || apply Hd0s | lia].
  destruct E as (Ha & (Hkx & Hky & Hkd) & Hlen & Hseg & Hshape & _).
  rewrite Ha, Hlen, Hseg. repeat split; auto.
  - now apply (shape_of_shaped (augmented_len l r n) B).
  - now apply (shape_of_shaped (augmented_len l r n) B).
  - symmetry. apply Hkx.
Qed.
End ConstructionShapes.

Lemma linear_flags :
  is_linear (Some "linear"%string) = true /\
  is_anti (Some "linear"%string) = false /\
  is_periodic (Some "linear"%string) = false.
Proof. repeat split. Qed.

Lemma augmented_rows_linear_left other xs ys ds :
  exists Rx Ry Rd,
    augmented_rows (Some "linear"%string) other (xs, ys, ds)
    = ((hd 0 xs - 1) :: xs ++ Rx,
       (hd 0 ys - hd 0 ds) :: ys ++ Ry,
       hd 0 ds :: ds ++ Rd) /\
    (other = None -> Rx = [] /\ Ry = [] /\ Rd = []).
Proof.
  destruct linear_flags as (Hl & Ha & Hp).
  unfold augmented_rows, rest_step_rows. rewrite Hl, Ha, Hp.
  cbn [is_None andb orb].
  destruct other as [o |]; cbn [is_None].
  - set (r1 := linear_step_rows (Some "linear"%string) (Some o) (xs, ys, ds)).
    destruct (if is_anti (Some o) then anti_right_rows r1
              else if is_periodic (Some o) then periodic_right_rows r1
                   else no_rows) as [[rx ry] rd].
    subst r1. unfold linear_step_rows. rewrite Hl.
    destruct (if is_linear (Some o) then linear_right_rows (xs, ys, ds)
              else no_rows) as [[lx ly] ld].
    exists (lx ++ rx), (ly ++ ry), (ld ++ rd). split; [| discriminate].
    cbn [app_rows linear_left_rows no_rows app]. now rewrite !app_assoc.
  - exists [], [], []. split; [| auto]. reflexivity.
Qed.

Lemma augmented_rows_linear_right other xs ys ds :
  exists Lx Ly Ld,
    augmented_rows other (Some "linear"%string) (xs, ys, ds)
    = (Lx ++ xs ++ [last xs 0 + 1],
       Ly ++ ys ++ [last ys 0 + last ds 0],
       Ld ++ ds ++ [last ds 0]) /\
    (other = None -> Lx = [] /\ Ly = [] /\ Ld = []).
Proof.
  destruct linear_flags as (Hl & Ha & Hp).
  unfold augmented_rows, rest_step_rows. rewrite Hl, Ha, Hp.
  rewrite !andb_false_r, !orb_true_r.
  destruct other as [o |]; cbn [is_None orb].
  - set (r1 := linear_step_rows (Some o) (Some "linear"%string) (xs, ys, ds)).
    destruct (if is_anti (Some o) then anti_left_rows r1
              else if is_periodic (Some o) then periodic_left_rows r1
                   else no_rows) as [[rx ry] rd].
    subst r1. unfold linear_step_rows. rewrite Hl.
    destruct (if is_linear (Some o) then linear_left_rows (xs, ys, ds)
              else no_rows) as [[lx ly] ld].
    exists (rx ++ lx), (ry ++ ly), (rd ++ ld). split; [| discriminate].
    cbn [app_rows linear_right_rows no_rows app].
    now rewrite !app_nil_r, <- !app_assoc.
  - exists [], [], []. split; [| auto]. reflexivity.
Qed.

(** ** Evaluation, element by element *)

Section ReadsFacts.
Context {T U V : Type} `{Default T} `{Default U} `{Default V}.

Lemma reads_self (t : tensor T) : reads (dim0 t) (dim1 t) t (Torch.get t).
Proof. repeat split. Qed.

Lemma reads_build n0 n1 (g : nat -> nat -> T) :
  reads n0 n1 (Torch.build n0 n1 g) g.
Proof. repeat split. intros. now apply get_build. Qed.

Lemma reads_ext n0 n1 (t : tensor T) g g' :
  reads n0 n1 t g ->
  (forall i j, (i < n0)%nat -> (j < n1)%nat -> g i j = g' i j) ->
  reads n0 n1 t g'.
Proof.
  intros (E0 & E1 & E) Hg. repeat split; auto.
  intros i j Hi Hj. rewrite E by assumption. now apply Hg.
Qed.

Lemma reads_map1 n0 n1 (f : T -> V) (t : tensor T) g :
  reads n0 n1 t g -> reads n0 n1 (Torch.map1 f t) (fun i j => f (g i j)).
Proof.
  intros (E0 & E1 & E). unfold Torch.map1. rewrite E0, E1.
  repeat split. intros i j Hi Hj. rewrite get_build, E by assumption.
  reflexivity.
Qed.

Lemma reads_map2 n0 n1 (f : T -> U -> V) (t : tensor T) (u : tensor U) g h :
  reads n0 n1 t g -> reads n0 n1 u h ->
  reads n0 n1 (Torch.map2 f t u) (fun i j => f (g i j) (h i j)).
Proof.
  intros (E0 & E1 & E) (F0 & F1 & F). unfold Torch.map2.
  rewrite E0, E1, F0, F1, !bdim_same.
  repeat split. intros i j Hi Hj.
  rewrite get_build, !bidx_lt, E, F by assumption. reflexivity.
Qed.

Lemma reads_wf_eq n0 n1 (t : tensor T) g :
  Torch.wf t -> reads n0 n1 t g -> t = Torch.build n0 n1 g.
Proof.
  intros W (E0 & E1 & E). rewrite (wf_eta t W), E0, E1.
  apply build_ext. exact E.
Qed.
End ReadsFacts.

Lemma reads_gather {T : Type} `{Default T} n0 n1 (z : tensor T) a
    (idx : tensor nat) gi :
  reads n0 n1 idx gi ->
  reads n0 n1 (Torch.gather z a idx)
    (fun i j => Torch.getk a z (gi i j) (fibre_index a i j)).
Proof.
  intros (E0 & E1 & E). unfold Torch.gather. rewrite E0, E1.
  repeat split. intros i j Hi Hj. rewrite get_build by assumption.
  change (nth j (nth i (data idx) []) 0%nat) with (Torch.get idx i j).
  rewrite E by assumption. now destruct a.
Qed.

Lemma reads_masked_fill2 n0 n1 mask p q gm gp gq :
  reads n0 n1 mask gm -> reads n0 n1 p gp -> reads n0 n1 q gq ->
  reads n0 n1 (Pade22Spline.masked_fill2 mask p q)
    (fun i j => if gm i j then gp i j else gq i j).
Proof.
  intros (E0 & E1 & E) (_ & _ & P) (_ & _ & Q).
  unfold Pade22Spline.masked_fill2. rewrite E0, E1.
  repeat split. intros i j Hi Hj.
  rewrite get_build, E, P, Q by assumption. reflexivity.
Qed.

Lemma fibre_movedim (t : tensor R) b :
  (b < dim1 t)%nat ->
  Torch.fibre Ax1 (Torch.movedim t) b = Torch.fibre Ax0 t b.
Proof.
  intros Hb. unfold Torch.fibre, Torch.movedim.
  cbn [Torch.klen dim1 dim0 Torch.build]. apply map_ext_in.
  intros k Hk. apply in_seq in Hk. cbn [Torch.getk].
  rewrite get_build by lia. reflexivity.
Qed.

(** The sorted search along the knot axis, element by element. *)
Lemma reads_searchsorted a (x_sorted x : tensor R) :
  Torch.blen a x_sorted = Torch.blen a x ->
  reads (dim0 x) (dim1 x) (SplineTemplate.searchsorted x_sorted x a)
    (fun i j =>
       Torch.searchsorted_1d (Torch.fibre a x_sorted (fibre_index a i j))
         (Torch.get x i j)).
Proof.
  intros Hb. destruct a; cbn [SplineTemplate.searchsorted fibre_index Torch.blen] in *.
  - unfold Torch.movedim at 1, Torch.searchsorted.
    cbn [dim0 dim1 Torch.build Torch.movedim].
    eapply reads_ext; [apply reads_build |].
    intros i j Hi Hj. cbn beta. rewrite get_build by assumption.
    rewrite fibre_movedim by lia.
    change (Torch.build (dim1 x) (dim0 x) (fun i j => Torch.get x j i))
      with (Torch.movedim x).
    unfold Torch.movedim. now rewrite get_build.
  - unfold Torch.searchsorted. apply reads_build.
Qed.
Ltac reads_step :=
  lazymatch goal with
  | |- reads _ _ (Torch.map2 _ _ _) _ => eapply reads_map2
  | |- reads _ _ (Torch.map1 _ _) _ => eapply reads_map1
  | |- reads _ _ (Torch.gather _ _ _) _ => eapply reads_gather
  | |- reads _ _ (Pade22Spline.masked_fill2 _ _ _) _ =>
      eapply reads_masked_fill2
  | |- reads _ _ ?t _ => is_var t; eassumption
  end.

Ltac reads_steps := repeat reads_step.

Ltac unfold_ops :=
  unfold Torch.add, Torch.sub, Torch.mul, Torch.div, Torch.neg, Torch.sqrt,
    Torch.adds, Torch.subs, Torch.muls, Torch.mulr, Torch.rsubs, Torch.rdivs,
    Torch.pows, Torch.eqs, Torch.nes, Torch.clamp.

Lemma reads_pade22_func S idx x n0 n1 gi gx :
  reads n0 n1 idx gi -> reads n0 n1 x gx ->
  exists v,
    Pade22Spline._calc_segment_func S idx false x = Value v /\
    Torch.wf v /\
    reads n0 n1 v
      (fun i j =>
         let k := (Nat.min (Nat.max (gi i j) 1) (segm_len S) - 1)%nat in
         let b := fibre_index (knots_axis S) i j in
         let a := knots_axis S in
         pade22_func (Torch.getk a (knots_x S) k b)
           (Torch.getk a (knots_x S) (k + 1) b)
           (Torch.getk a (knots_y S) k b)
           (Torch.getk a (knots_y S) (k + 1) b)
           (Torch.getk a (knots_d S) k b)
           (Torch.getk a (knots_d S) (k + 1) b)
           (gx i j)).
Proof.
  intros Hi Hx. eexists. split; [reflexivity |]. split; [apply wf_map2 |].
  unfold pade22_func. cbv zeta. unfold_ops.
  eapply reads_ext; [reads_steps |].
  intros i j _ _. cbv beta. rewrite !Nat.add_0_r. reflexivity.
Qed.

Lemma reads_pade22_inv_func S idx y n0 n1 gi gy :
  reads n0 n1 idx gi -> reads n0 n1 y gy ->
  exists v,
    Pade22Spline._calc_segment_inv_func S idx false y = Value v /\
    Torch.wf v /\
    reads n0 n1 v
      (fun i j =>
         let k := (Nat.min (Nat.max (gi i j) 1) (segm_len S) - 1)%nat in
         let b := fibre_index (knots_axis S) i j in
         let a := knots_axis S in
         pade22_inv_func (Torch.getk a (knots_x S) k b)
           (Torch.getk a (knots_x S) (k + 1) b)
           (Torch.getk a (knots_y S) k b)
           (Torch.getk a (knots_y S) (k + 1) b)
           (Torch.getk a (knots_d S) k b)
           (Torch.getk a (knots_d S) (k + 1) b)
           (gy i j)).
Proof.
  intros Hi Hy. eexists. split; [reflexivity |]. split; [apply wf_map2 |].
  unfold pade22_inv_func. cbv zeta. unfold_ops.
  eapply reads_ext; [reads_steps |].
  intros i j _ _. cbv beta. rewrite !Nat.add_0_r. reflexivity.
Qed.

Lemma reads_pade11_func S idx x n0 n1 gi gx :
  reads n0 n1 idx gi -> reads n0 n1 x gx ->
  exists v,
    Pade11Spline._calc_segment_func S idx false x = Value v /\
    Torch.wf v /\
    reads n0 n1 v
      (fun i j =>
         let k := (Nat.min (Nat.max (gi i j) 1) (segm_len S) - 1)%nat in
         let b := fibre_index (knots_axis S) i j in
         let a := knots_axis S in
         pade11_func (Torch.getk a (knots_x S) k b)
           (Torch.getk a (knots_x S) (k + 1) b)
           (Torch.getk a (knots_y S) k b)
           (Torch.getk a (knots_y S) (k + 1) b)
           (Torch.getk a (knots_d S) k b)
           (gx i j)).
Proof.
  intros Hi Hx. eexists. split; [reflexivity |]. split; [apply wf_map2 |].
  unfold pade11_func. cbv zeta. unfold_ops.
  eapply reads_ext; [reads_steps |].
  intros i j _ _. cbv beta. rewrite !Nat.add_0_r. reflexivity.
Qed.

Lemma reads_pade11_inv_func S idx y n0 n1 gi gy :
  reads n0 n1 idx gi -> reads n0 n1 y gy ->
  exists v,
    Pade11Spline._calc_segment_inv_func S idx false y = Value v /\
    Torch.wf v /\
    reads n0 n1 v
      (fun i j =>
         let k := (Nat.min (Nat.max (gi i j) 1) (segm_len S) - 1)%nat in
         let b := fibre_index (knots_axis S) i j in
         let a := knots_axis S in
         pade11_inv_func (Torch.getk a (knots_x S) k b)
           (Torch.getk a (knots_x S) (k + 1) b)
           (Torch.getk a (knots_y S) k b)
           (Torch.getk a (knots_y S) (k + 1) b)
           (Torch.getk a (knots_d S) k b)
           (gy i j)).
Proof.
  intros Hi Hy. eexists. split; [reflexivity |]. split; [apply wf_map2 |].
  unfold pade11_inv_func. cbv zeta. unfold_ops.
  eapply reads_ext; [reads_steps |].
  intros i j _ _. cbv beta. rewrite !Nat.add_0_r. reflexivity.
Qed.

(** [forward] and [backward], element by element. *)
Lemma forward_reads kind S x :
  Torch.blen (knots_axis S) (knots_x S) = Torch.blen (knots_axis S) x ->
  exists v,
    SplineTemplate.forward (class_of kind) S x false = Value v /\
    Torch.wf v /\
    reads (dim0 x) (dim1 x) v
      (fun i j =>
         let a := knots_axis S in
         let b := fibre_index a i j in
         let k := segment_of (Torch.fibre a (knots_x S) b) (segm_len S)
                    (Torch.get x i j) in
         segment_func kind (Torch.getk a (knots_x S) k b)
           (Torch.getk a (knots_x S) (k + 1) b)
           (Torch.getk a (knots_y S) k b)
           (Torch.getk a (knots_y S) (k + 1) b)
           (Torch.getk a (knots_d S) k b)
           (Torch.getk a (knots_d S) (k + 1) b)
           (Torch.get x i j)).
Proof.
  intros Hb. unfold SplineTemplate.forward.
  pose proof (reads_searchsorted (knots_axis S) (knots_x S) x Hb) as Hs.
  destruct kind; cbn [class_of cls_calc_segment_func Pade22Spline.cls
                      Pade11Spline.cls].
  - destruct (reads_pade22_func S _ x _ _ _ _ Hs (reads_self x))
      as (v & E & W & Hv).
    exists v. split; [exact E |]. split; [exact W |]. exact Hv.
  - destruct (reads_pade11_func S _ x _ _ _ _ Hs (reads_self x))
      as (v & E & W & Hv).
    exists v. split; [exact E |]. split; [exact W |]. exact Hv.
Qed.

Lemma backward_reads kind S y :
  Torch.blen (knots_axis S) (knots_y S) = Torch.blen (knots_axis S) y ->
  exists v,
    SplineTemplate.backward (class_of kind) S y false = Value v /\
    Torch.wf v /\
    reads (dim0 y) (dim1 y) v
      (fun i j =>
         let a := knots_axis S in
         let b := fibre_index a i j in
         let k := segment_of (Torch.fibre a (knots_y S) b) (segm_len S)
                    (Torch.get y i j) in
         segment_inv_func kind (Torch.getk a (knots_x S) k b)
           (Torch.getk a (knots_x S) (k + 1) b)
           (Torch.getk a (knots_y S) k b)
           (Torch.getk a (knots_y S) (k + 1) b)
           (Torch.getk a (knots_d S) k b)
           (Torch.getk a (knots_d S) (k + 1) b)
           (Torch.get y i j)).
Proof.
  intros Hb. unfold SplineTemplate.backward.
  pose proof (reads_searchsorted (knots_axis S) (knots_y S) y Hb) as Hs.
  destruct kind; cbn [class_of cls_calc_segment_inv_func Pade22Spline.cls
                      Pade11Spline.cls].
  - destruct (reads_pade22_inv_func S _ y _ _ _ _ Hs (reads_self y))
      as (v & E & W & Hv).
    exists v. split; [exact E |]. split; [exact W |]. exact Hv.
  - destruct (reads_pade11_inv_func S _ y _ _ _ _ Hs (reads_self y))
      as (v & E & W & Hv).
    exists v. split; [exact E |]. split; [exact W |]. exact Hv.
Qed.

Lemma segment_of_lt s L v : (1 <= L)%nat -> (segment_of s L v + 1 <= L)%nat.
Proof. unfold segment_of. lia. Qed.

Lemma reads_getk {T : Type} `{Default T} a (v : tensor T) (x : tensor T) g q b :
  reads (dim0 x) (dim1 x) v g ->
  (q < Torch.klen a x)%nat -> (b < Torch.blen a x)%nat ->
  Torch.getk a v q b
  = match a with Ax0 => g q b | Ax1 => g b q end.
Proof.
  intros (_ & _ & E) Hq Hb. destruct a; cbn in *; now apply E.
Qed.

Lemma reads_shaped {T : Type} `{Default T} a (v x : tensor T) g :
  reads (dim0 x) (dim1 x) v g ->
  Torch.klen a v = Torch.klen a x /\ Torch.blen a v = Torch.blen a x.
Proof. intros (E0 & E1 & _). destruct a; cbn; auto. Qed.

Lemma forward_rowwise kind S x n B :
  well_shaped S n B -> Torch.blen (knots_axis S) x = B ->
  exists v,
    SplineTemplate.forward (class_of kind) S x false = Value v /\
    Torch.wf v /\
    Torch.klen (knots_axis S) v = Torch.klen (knots_axis S) x /\
    Torch.blen (knots_axis S) v = B /\
    forall q b, (q < Torch.klen (knots_axis S) x)%nat -> (b < B)%nat ->
      Torch.getk (knots_axis S) v q b
      = forward_row kind (spline_rows S b) (Torch.getk (knots_axis S) x q b).
Proof.
  intros (((Hxk & Hxb) & (Hyk & Hyb) & (Hdk & Hdb)) & Hseg & Hn) Hb.
  destruct (forward_reads kind S x) as (v & E & W & Hv); [congruence |].
  exists v. split; [exact E |]. split; [exact W |].
  destruct (reads_shaped (knots_axis S) v x _ Hv) as [Hk Hbv].
  split; [exact Hk |]. split; [congruence |].
  intros q b Hq Hb'. rewrite (reads_getk (knots_axis S) v x _ q b Hv)
    by (try rewrite Hb; assumption).
  unfold forward_row, spline_rows, rows_of, segment_value.
  rewrite length_fibre, Hxk, Hseg.
  set (a := knots_axis S) in *.
  assert (Hk1 : forall v0, (segment_of (Torch.fibre a (knots_x S) b) (n - 1) v0 + 1 < n)%nat).
  { intros v0. pose proof (segment_of_lt (Torch.fibre a (knots_x S) b) (n - 1) v0). lia. }
  assert (Hfi : fibre_index a (match a with Ax0 => q | Ax1 => b end)
                  (match a with Ax0 => b | Ax1 => q end) = b)
    by (now destruct a).
  assert (Hge : Torch.get x (match a with Ax0 => q | Ax1 => b end)
                  (match a with Ax0 => b | Ax1 => q end) = Torch.getk a x q b)
    by (now destruct a).
  rewrite !nth_fibre by (rewrite ?Hxk, ?Hyk, ?Hdk; specialize (Hk1 (Torch.getk a x q b)); lia).
  destruct a; cbv zeta; cbn [fibre_index Torch.getk] in *; reflexivity.
Qed.

Lemma backward_rowwise kind S y n B :
  well_shaped S n B -> Torch.blen (knots_axis S) y = B ->
  exists v,
    SplineTemplate.backward (class_of kind) S y false = Value v /\
    Torch.wf v /\
    Torch.klen (knots_axis S) v = Torch.klen (knots_axis S) y /\
    Torch.blen (knots_axis S) v = B /\
    forall q b, (q < Torch.klen (knots_axis S) y)%nat -> (b < B)%nat ->
      Torch.getk (knots_axis S) v q b
      = backward_row kind (spline_rows S b) (Torch.getk (knots_axis S) y q b).
Proof.
  intros (((Hxk & Hxb) & (Hyk & Hyb) & (Hdk & Hdb)) & Hseg & Hn) Hb.
  destruct (backward_reads kind S y) as (v & E & W & Hv); [congruence |].
  exists v. split; [exact E |]. split; [exact W |].
  destruct (reads_shaped (knots_axis S) v y _ Hv) as [Hk Hbv].
  split; [exact Hk |]. split; [congruence |].
  intros q b Hq Hb'. rewrite (reads_getk (knots_axis S) v y _ q b Hv)
    by (try rewrite Hb; assumption).
  unfold backward_row, spline_rows, rows_of, segment_inverse.
  rewrite length_fibre, Hxk, Hseg.
  set (a := knots_axis S) in *.
  assert (Hk1 : forall v0, (segment_of (Torch.fibre a (knots_y S) b) (n - 1) v0 + 1 < n)%nat).
  { intros v0. pose proof (segment_of_lt (Torch.fibre a (knots_y S) b) (n - 1) v0). lia. }
  rewrite !nth_fibre by (rewrite ?Hxk, ?Hyk, ?Hdk; specialize (Hk1 (Torch.getk a y q b)); lia).
  destruct a; cbv zeta; cbn [fibre_index Torch.getk] in *; reflexivity.
Qed.

(** ** One segment *)

Section Segment.
Variables x0 x1 y0 y1 d0 d1 : R.
Hypothesis Hx : x0 < x1.
Hypothesis Hy : y0 < y1.
Hypothesis Hd0 : 0 < d0.
Hypothesis Hd1 : 0 < d1.

Let m := (y1 - y0) / (x1 - x0).

Lemma slope_pos : 0 < m.
Proof. unfold m. apply Rdiv_lt_0_compat; lra. Qed.

Lemma theta_range x :
  x0 <= x <= x1 -> 0 <= (x - x0) / (x1 - x0) <= 1.
Proof.
  intros [H0 H1]. split.
  - apply Rmult_le_pos; [lra |]. left. apply Rinv_0_lt_compat. lra.
  - apply (Rmult_le_reg_r (x1 - x0)); [lra |].
    unfold Rdiv. rewrite Rmult_assoc, Rinv_l by lra. lra.
Qed.

Lemma theta_pos x : x0 < x -> 0 < (x - x0) / (x1 - x0).
Proof. intros H. apply Rdiv_lt_0_compat; lra. Qed.

Lemma pade22_den_pos theta :
  0 <= theta <= 1 -> 0 < m + (d1 + d0 - 2 * m) * theta * (1 - theta).
Proof.
  intros [H0 H1]. pose proof slope_pos as Hm.
  set (t := theta * (1 - theta)).
  assert (Ht0 : 0 <= t) by (apply Rmult_le_pos; lra).
  assert (Ht1 : t <= 1 / 4).
  { unfold t. assert (0 <= (theta - 1 / 2) * (theta - 1 / 2))
      by apply Rle_0_sqr. lra. }
  assert (0 <= m * (1 / 4 - t)) by (apply Rmult_le_pos; lra).
  assert (0 <= d0 * t) by (apply Rmult_le_pos; lra).
  assert (0 <= d1 * t) by (apply Rmult_le_pos; lra).
  replace (m + (d1 + d0 - 2 * m) * theta * (1 - theta))
    with (m / 2 + 2 * (m * (1 / 4 - t)) + d0 * t + d1 * t)
    by (unfold t; field).
  lra.
Qed.

Lemma sqr_ge_quarter u : 1 / 2 <= u -> 1 / 4 <= u * u.
Proof.
  intros Hu. assert (0 <= (u - 1 / 2) * (u - 1 / 2)) by apply Rle_0_sqr.
  assert (0 <= u - 1 / 2) by lra. lra.
Qed.

Lemma pade22_num_pos theta :
  0 <= theta <= 1 ->
  0 < d0 + 2 * (m - d0) * theta + (d1 + d0 - 2 * m) * theta ^ 2.
Proof.
  intros [H0 H1]. pose proof slope_pos as Hm.
  set (t := theta * (1 - theta)).
  set (A := (1 - theta) * (1 - theta)).
  set (B := theta * theta).
  assert (Ht0 : 0 <= t) by (apply Rmult_le_pos; lra).
  assert (HA : 0 <= A) by (apply Rle_0_sqr).
  assert (HB : 0 <= B) by (apply Rle_0_sqr).
  assert (0 <= m * t) by (apply Rmult_le_pos; lra).
  replace (d0 + 2 * (m - d0) * theta + (d1 + d0 - 2 * m) * theta ^ 2)
    with (d0 * A + 2 * (m * t) + d1 * B) by (unfold A, B, t; ring).
  destruct (Rle_lt_dec theta (1 / 2)) as [Hle | Hgt].
  - assert (HA4 : 1 / 4 <= A) by (apply sqr_ge_quarter; lra).
    assert (0 <= d0 * (A - 1 / 4)) by (apply Rmult_le_pos; lra).
    assert (0 <= d1 * B) by (apply Rmult_le_pos; lra).
    lra.
  - assert (HB4 : 1 / 4 <= B) by (apply sqr_ge_quarter; lra).
    assert (0 <= d1 * (B - 1 / 4)) by (apply Rmult_le_pos; lra).
    assert (0 <= d0 * A) by (apply Rmult_le_pos; lra).
    lra.
Qed.

(** The normalised value [eta] that [Pade22Spline] reaches at [theta]. *)
Let eta22 (theta : R) : R :=
  theta * (m * theta + d0 * (1 - theta))
  / (m + (d1 + d0 - 2 * m) * theta * (1 - theta)).

Lemma pade22_func_eta x :
  pade22_func x0 x1 y0 y1 d0 d1 x
  = y0 + (y1 - y0) * eta22 ((x - x0) / (x1 - x0)).
Proof. unfold pade22_func, eta22. fold m. cbv zeta. unfold Rdiv. ring. Qed.

Lemma eta22_range theta :
  0 <= theta <= 1 -> 0 <= eta22 theta <= 1 /\ (0 < theta -> 0 < eta22 theta).
Proof.
  intros Ht. pose proof (pade22_den_pos theta Ht) as HD.
  pose proof slope_pos as Hm. destruct Ht as [H0 H1].
  assert (Hmt : 0 <= m * theta) by (apply Rmult_le_pos; lra).
  assert (Hdt : 0 <= d0 * (1 - theta)) by (apply Rmult_le_pos; lra).
  assert (Hn : 0 <= theta * (m * theta + d0 * (1 - theta)))
    by (apply Rmult_le_pos; lra).
  unfold eta22. repeat split.
  - apply Rmult_le_pos; [exact Hn |]. left. now apply Rinv_0_lt_compat.
  - apply (Rmult_le_reg_r (m + (d1 + d0 - 2 * m) * theta * (1 - theta)));
      [exact HD |].
    unfold Rdiv. rewrite Rmult_assoc, Rinv_l by lra.
    assert (Hm1 : 0 <= m * (1 - theta)) by (apply Rmult_le_pos; lra).
    assert (Hd1t : 0 <= d1 * theta) by (apply Rmult_le_pos; lra).
    assert (Hc : 0 <= (1 - theta) * (m * (1 - theta) + d1 * theta))
      by (apply Rmult_le_pos; lra).
    replace (m + (d1 + d0 - 2 * m) * theta * (1 - theta))
      with (theta * (m * theta + d0 * (1 - theta))
            + (1 - theta) * (m * (1 - theta) + d1 * theta)) by ring.
    lra.
  - intros Hp. apply Rdiv_lt_0_compat; [| exact HD].
    apply Rmult_lt_0_compat; [exact Hp |].
    assert (0 < m * theta) by (apply Rmult_lt_0_compat; lra). lra.
Qed.

Lemma pade22_value_range x :
  x0 <= x <= x1 ->
  y0 <= pade22_func x0 x1 y0 y1 d0 d1 x <= y1 /\
  (x0 < x -> y0 < pade22_func x0 x1 y0 y1 d0 d1 x).
Proof.
  intros Hr. rewrite pade22_func_eta.
  pose proof (theta_range x Hr) as Ht.
  destruct (eta22_range _ Ht) as [[He0 He1] Hep].
  set (e := eta22 ((x - x0) / (x1 - x0))) in *.
  assert (0 <= (y1 - y0) * e) by (apply Rmult_le_pos; lra).
  assert (0 <= (y1 - y0) * (1 - e)) by (apply Rmult_le_pos; lra).
  repeat split; try lra.
  intros Hlt. specialize (Hep (theta_pos x Hlt)).
  assert (0 < (y1 - y0) * e) by (apply Rmult_lt_0_compat; lra). lra.
Qed.

(** The root the inverse selects is the one the forward map came from. *)
Lemma pade22_root theta :
  0 <= theta <= 1 ->
  let eta := eta22 theta in
  let a2 := (2 * m - d1 - d0) * eta + d0 - m in
  let a1 := - a2 - m in
  let a0 := m * eta in
  let delta := sqrt (a1 ^ 2 - 4 * a0 * a2) in
  (if (if Req_dec_T a2 0 then true else false) then - a0 / a1
   else (- a1 - delta) / (2 * a2)) = theta.
Proof.
  intros Ht. cbv zeta.
  pose proof (pade22_den_pos theta Ht) as HD.
  pose proof (pade22_num_pos theta Ht) as HN.
  pose proof slope_pos as Hm.
  set (s := d1 + d0 - 2 * m) in *.
  set (D := m + s * theta * (1 - theta)) in *.
  set (N := d0 + 2 * (m - d0) * theta + s * theta ^ 2) in *.
  set (eta := eta22 theta).
  assert (Heta : eta * D = theta * (m * theta + d0 * (1 - theta))).
  { unfold eta, eta22. fold s D. field. lra. }
  set (a2 := (2 * m - d1 - d0) * eta + d0 - m).
  set (a1 := - a2 - m). set (a0 := m * eta).
  assert (Hroot : a2 * theta ^ 2 + a1 * theta + a0 = 0).
  { unfold a1, a0, a2. fold s.
    replace ((2 * m - d1 - d0) * eta) with (- s * eta) by (unfold s; ring).
    replace ((- s * eta + d0 - m) * theta ^ 2
             + (- (- s * eta + d0 - m) - m) * theta + m * eta)
      with (eta * D - theta * (m * theta + d0 * (1 - theta)))
      by (unfold D; ring).
    rewrite Heta. ring. }
  assert (Hslope : (2 * a2 * theta + a1) * D = - m * N).
  { unfold a1, a2.
    replace ((2 * m - d1 - d0) * eta) with (- s * eta) by (unfold s; ring).
    replace ((2 * (- s * eta + d0 - m) * theta
              + (- (- s * eta + d0 - m) - m)) * D)
      with (s * (1 - 2 * theta) * (eta * D)
            + (2 * (d0 - m) * theta - d0) * D) by ring.
    rewrite Heta. unfold D, N. ring. }
  assert (Hneg : 2 * a2 * theta + a1 < 0).
  { assert (HmN : 0 < m * N) by (apply Rmult_lt_0_compat; lra).
    assert (Hp : (2 * a2 * theta + a1) * D < 0) by (rewrite Hslope; lra).
    destruct (Rlt_le_dec (2 * a2 * theta + a1) 0) as [Hlt | Hge];
      [exact Hlt |].
    exfalso.
    assert (0 <= (2 * a2 * theta + a1) * D) by (apply Rmult_le_pos; lra).
    lra. }
  assert (Hdisc : a1 ^ 2 - 4 * a0 * a2
                  = (- (2 * a2 * theta + a1)) * (- (2 * a2 * theta + a1))).
  { replace a0 with (- (a2 * theta ^ 2 + a1 * theta)) by lra. ring. }
  rewrite Hdisc, sqrt_square by lra.
  destruct (Req_dec_T a2 0) as [Ez | Enz].
  - rewrite Ez in Hneg, Hroot.
    assert (Ha1 : a1 <> 0) by lra.
    apply (Rmult_eq_reg_r a1); [| exact Ha1].
    unfold Rdiv. rewrite Rmult_assoc, Rinv_l by exact Ha1. lra.
  - field. exact Enz.
Qed.

Lemma pade22_roundtrip x :
  x0 <= x <= x1 ->
  pade22_inv_func x0 x1 y0 y1 d0 d1 (pade22_func x0 x1 y0 y1 d0 d1 x) = x.
Proof.
  intros Hr. pose proof (theta_range x Hr) as Ht.
  rewrite pade22_func_eta. unfold pade22_inv_func. fold m.
  replace ((y0 + (y1 - y0) * eta22 ((x - x0) / (x1 - x0)) - y0) / (y1 - y0))
    with (eta22 ((x - x0) / (x1 - x0))) by (field; lra).
  pose proof (pade22_root _ Ht) as Hroot. cbv zeta in Hroot |- *.
  rewrite Hroot. field. lra.
Qed.

Lemma pade22_at_x0 : pade22_func x0 x1 y0 y1 d0 d1 x0 = y0.
Proof. unfold pade22_func. cbv zeta. unfold Rdiv. ring. Qed.

Lemma pade22_at_x1 : pade22_func x0 x1 y0 y1 d0 d1 x1 = y1.
Proof.
  pose proof slope_pos as Hm. unfold pade22_func. fold m. cbv zeta.
  replace ((x1 - x0) / (x1 - x0)) with 1 by (field; lra).
  field. lra.
Qed.

Lemma pade11_den_pos theta : 0 <= theta <= 1 -> 0 < m + (d0 - m) * theta.
Proof. intros [H0 H1]. pose proof slope_pos as Hm. nra. Qed.

Lemma pade11_value_range x :
  x0 <= x <= x1 ->
  y0 <= pade11_func x0 x1 y0 y1 d0 x <= y1 /\
  (x0 < x -> y0 < pade11_func x0 x1 y0 y1 d0 x).
Proof.
  intros Hr. pose proof (theta_range x Hr) as Ht.
  pose proof (pade11_den_pos _ Ht) as HD. pose proof slope_pos as Hm.
  unfold pade11_func. fold m. cbv zeta.
  set (theta := (x - x0) / (x1 - x0)) in *.
  set (D := m + (d0 - m) * theta) in *.
  assert (Hq : (y1 - y0) * d0 * theta / D = (y1 - y0) * (d0 * theta / D))
    by (unfold Rdiv; ring).
  rewrite Hq.
  assert (He0 : 0 <= d0 * theta / D).
  { apply Rmult_le_pos; [nra |]. left. now apply Rinv_0_lt_compat. }
  assert (He1 : d0 * theta / D <= 1).
  { apply (Rmult_le_reg_r D); [exact HD |].
    unfold Rdiv. rewrite Rmult_assoc, Rinv_l by lra. unfold D. nra. }
  repeat split; try nra.
  intros Hlt. pose proof (theta_pos x Hlt) as Hp. fold theta in Hp.
  assert (0 < d0 * theta / D) by (apply Rdiv_lt_0_compat; nra). nra.
Qed.

Lemma pade11_roundtrip x :
  x0 <= x <= x1 ->
  pade11_inv_func x0 x1 y0 y1 d0 (pade11_func x0 x1 y0 y1 d0 x) = x.
Proof.
  intros Hr. pose proof (theta_range x Hr) as Ht.
  pose proof (pade11_den_pos _ Ht) as HD. pose proof slope_pos as Hm.
  unfold pade11_inv_func, pade11_func. fold m. cbv zeta.
  set (theta := (x - x0) / (x1 - x0)) in *.
  set (D := m + (d0 - m) * theta) in *.
  replace ((y0 + (y1 - y0) * d0 * theta / D - y0) / (y1 - y0))
    with (d0 * theta / D) by (field; lra).
  assert (Hden : d0 * theta / D * (d0 - m) - d0 = - (d0 * m) / D).
  { unfold D. field. fold D. lra. }
  rewrite Hden.
  replace (- (d0 * theta / D) * m / (- (d0 * m) / D)) with theta
    by (field; repeat split; lra).
  unfold theta. field. lra.
Qed.

Lemma pade11_at_x0 : pade11_func x0 x1 y0 y1 d0 x0 = y0.
Proof. unfold pade11_func. cbv zeta. unfold Rdiv. ring. Qed.

Lemma pade11_at_x1 : pade11_func x0 x1 y0 y1 d0 x1 = y1.
Proof.
  unfold pade11_func. fold m. cbv zeta.
  replace ((x1 - x0) / (x1 - x0)) with 1 by (field; lra).
  field. lra.
Qed.
End Segment.

(** Both interpolants on a segment with increasing ends and positive
    derivatives. *)
Section SegmentKind.
Variable kind : interpolant.
Variables x0 x1 y0 y1 d0 d1 : R.
Hypothesis Hx : x0 < x1.
Hypothesis Hy : y0 < y1.
Hypothesis Hd0 : 0 < d0.
Hypothesis Hd1 : 0 < d1.

Lemma segment_at_x0 : segment_func kind x0 x1 y0 y1 d0 d1 x0 = y0.
Proof. destruct kind; [apply pade22_at_x0 | apply pade11_at_x0]. Qed.

Lemma segment_at_x1 : segment_func kind x0 x1 y0 y1 d0 d1 x1 = y1.
Proof.
  destruct kind; [now apply pade22_at_x1 | now apply pade11_at_x1].
Qed.

Lemma segment_value_range x :
  x0 <= x <= x1 ->
  y0 <= segment_func kind x0 x1 y0 y1 d0 d1 x <= y1 /\
  (x0 < x -> y0 < segment_func kind x0 x1 y0 y1 d0 d1 x).
Proof.
  destruct kind; [now apply pade22_value_range | now apply pade11_value_range].
Qed.

Lemma segment_roundtrip x :
  x0 <= x <= x1 ->
  segment_inv_func kind x0 x1 y0 y1 d0 d1
    (segment_func kind x0 x1 y0 y1 d0 d1 x) = x.
Proof.
  destruct kind; [now apply pade22_roundtrip | now apply pade11_roundtrip].
Qed.
End SegmentKind.

(** ** The sorted search on an increasing sequence *)

Lemma increasing_lt l i j :
  increasing l -> (i < j < length l)%nat -> nth i l 0 < nth j l 0.
Proof.
  intros Hinc [Hij Hj]. induction j as [| j IH]; [lia |].
  destruct (Nat.eq_dec i j) as [-> | Hne].
  - replace (S j) with (j + 1)%nat by lia. apply Hinc. lia.
  - apply Rlt_trans with (nth j l 0); [apply IH; lia |].
    replace (S j) with (j + 1)%nat by lia. apply Hinc. lia.
Qed.

Lemma increasing_le l i j :
  increasing l -> (i <= j < length l)%nat -> nth i l 0 <= nth j l 0.
Proof.
  intros Hinc [Hij Hj]. destruct (Nat.eq_dec i j) as [-> | Hne]; [lra |].
  left. apply increasing_lt; [exact Hinc | lia].
Qed.

Lemma searchsorted_le_length s v : (Torch.searchsorted_1d s v <= length s)%nat.
Proof.
  induction s as [| x s IH]; cbn [Torch.searchsorted_1d length]; [lia |].
  destruct (Rlt_dec x v); lia.
Qed.

Lemma searchsorted_below s v i :
  (i < Torch.searchsorted_1d s v)%nat -> nth i s 0 < v.
Proof.
  revert i. induction s as [| x s IH]; intros i; cbn [Torch.searchsorted_1d];
    [lia |].
  destruct (Rlt_dec x v) as [Hlt | Hge]; [| lia].
  destruct i as [| i]; cbn [nth]; [intros _; exact Hlt |].
  intros Hi. apply IH. lia.
Qed.

Lemma searchsorted_stop s v :
  (Torch.searchsorted_1d s v < length s)%nat ->
  v <= nth (Torch.searchsorted_1d s v) s 0.
Proof.
  induction s as [| x s IH]; cbn [Torch.searchsorted_1d length]; [lia |].
  destruct (Rlt_dec x v) as [Hlt | Hge]; cbn [nth].
  - intros Hi. apply IH. lia.
  - intros _. lra.
Qed.

(** The index of the search is the one whose neighbours enclose the
    query. *)
Lemma searchsorted_unique s v j :
  (j <= length s)%nat ->
  (forall i, (i < j)%nat -> nth i s 0 < v) ->
  ((j < length s)%nat -> v <= nth j s 0) ->
  Torch.searchsorted_1d s v = j.
Proof.
  intros Hj Hlow Hup.
  pose proof (searchsorted_le_length s v) as Hlen.
  destruct (Nat.lt_total (Torch.searchsorted_1d s v) j) as [Hlt | [E | Hgt]];
    [| exact E |].
  - pose proof (searchsorted_stop s v ltac:(lia)) as Hs.
    specialize (Hlow _ Hlt). lra.
  - pose proof (searchsorted_below s v j Hgt) as Hb.
    specialize (Hup ltac:(lia)). lra.
Qed.

Lemma searchsorted_between s v j :
  increasing s -> (j + 1 < length s)%nat ->
  nth j s 0 < v <= nth (j + 1) s 0 ->
  Torch.searchsorted_1d s v = (j + 1)%nat.
Proof.
  intros Hinc Hj [Hlo Hhi]. apply searchsorted_unique; [lia | | auto].
  intros i Hi. apply Rle_lt_trans with (nth j s 0); [| exact Hlo].
  apply increasing_le; [exact Hinc | lia].
Qed.

Lemma segment_of_between s v j :
  increasing s -> (j + 1 < length s)%nat ->
  nth j s 0 < v <= nth (j + 1) s 0 ->
  segment_of s (length s - 1) v = j.
Proof.
  intros Hinc Hj Hv. unfold segment_of.
  rewrite (searchsorted_between s v j) by assumption. lia.
Qed.

Lemma segment_of_first s v :
  (2 <= length s)%nat -> v <= nth 0 s 0 ->
  segment_of s (length s - 1) v = 0%nat.
Proof.
  intros Hlen Hv. unfold segment_of.
  rewrite (searchsorted_unique s v 0); [lia | lia | intros; lia | auto].
Qed.

Lemma segment_of_last s v :
  (2 <= length s)%nat ->
  (forall i, (i < length s)%nat -> nth i s 0 < v) ->
  segment_of s (length s - 1) v = (length s - 2)%nat.
Proof.
  intros Hlen Hv. unfold segment_of.
  rewrite (searchsorted_unique s v (length s)); [lia | lia | exact Hv | lia].
Qed.

(** A query within the range of an increasing sequence lies in its
    segment. *)
Lemma segment_of_encloses s v :
  increasing s -> (2 <= length s)%nat ->
  nth 0 s 0 <= v <= nth (length s - 1) s 0 ->
  let i := segment_of s (length s - 1) v in
  (i + 1 < length s)%nat /\
  nth i s 0 <= v <= nth (i + 1) s 0 /\
  (nth i s 0 < v \/ (i = 0%nat /\ v = nth 0 s 0)).
Proof.
  intros Hinc Hlen [Hlo Hhi]. cbv zeta.
  destruct (Rle_lt_or_eq_dec _ _ Hlo) as [Hlt | Heq].
  - (* strictly above the first knot *)
    set (k := Torch.searchsorted_1d s v).
    assert (Hk1 : (1 <= k)%nat).
    { destruct (Nat.eq_dec k 0) as [E | Hne]; [| lia].
      pose proof (searchsorted_stop s v) as Hs. fold k in Hs. rewrite E in Hs.
      specialize (Hs ltac:(lia)). lra. }
    assert (Hk2 : (k < length s)%nat).
    { pose proof (searchsorted_le_length s v) as Hle. fold k in Hle.
      destruct (Nat.eq_dec k (length s)) as [E | Hne]; [| lia].
      pose proof (searchsorted_below s v (length s - 1)) as Hb. fold k in Hb.
      specialize (Hb ltac:(lia)). lra. }
    assert (Ei : segment_of s (length s - 1) v = (k - 1)%nat)
      by (unfold segment_of; fold k; lia).
    rewrite Ei. replace (k - 1 + 1)%nat with k by lia.
    pose proof (searchsorted_below s v (k - 1) ltac:(unfold k in *; lia)) as Hb.
    pose proof (searchsorted_stop s v Hk2) as Hs. fold k in Hs.
    repeat split; try lia; try lra; try (left; exact Hb).
  - rewrite segment_of_first by (try lia; lra). cbn [Nat.add].
    repeat split; try lia; try lra.
    + rewrite <- Heq. left. apply (Hinc 0%nat). lia.
    + right. split; [reflexivity | now symmetry].
Qed.

(** ** Increasing and positive sequences *)

Lemma increasing_app l1 l2 :
  increasing l1 -> increasing l2 ->
  (l1 <> [] -> l2 <> [] -> last l1 0 < hd 0 l2) ->
  increasing (l1 ++ l2).
Proof.
  intros H1 H2 Hj i Hi. rewrite length_app in Hi.
  destruct (Nat.lt_ge_cases (i + 1) (length l1)) as [Hlt | Hge].
  - rewrite !app_nth1 by lia. now apply H1.
  - destruct (Nat.lt_ge_cases i (length l1)) as [Hlt' | Hge'].
    + assert (Ei : i = (length l1 - 1)%nat) by lia.
      rewrite app_nth1 by lia. rewrite app_nth2 by lia.
      replace (i + 1 - length l1)%nat with 0%nat by lia.
      rewrite Ei, nth_last, nth_0_hd. apply Hj.
      * intros ->. cbn in Hlt'. lia.
      * intros ->. cbn in Hi. lia.
    + rewrite !app_nth2 by lia.
      replace (i + 1 - length l1)%nat with (i - length l1 + 1)%nat by lia.
      apply H2. lia.
Qed.

Lemma increasing_single v : increasing [v].
Proof. intros i Hi. cbn in Hi. lia. Qed.

Lemma increasing_nil : increasing [].
Proof. intros i Hi. cbn in Hi. lia. Qed.

Lemma increasing_tl l : increasing l -> increasing (tl l).
Proof.
  destruct l as [| x l]; [auto |]. intros H i Hi. cbn [tl length] in *.
  specialize (H (S i) ltac:(cbn [length]; lia)). exact H.
Qed.

Lemma increasing_removelast l : increasing l -> increasing (removelast l).
Proof.
  destruct l as [| x l] using rev_ind; [auto |]. intros H i Hi.
  rewrite removelast_last in *.
  specialize (H i ltac:(rewrite length_app; cbn [length]; lia)).
  rewrite !app_nth1 in H by lia. exact H.
Qed.

(** The mirror image of an increasing sequence about [c], in reverse
    order, increases. *)
Lemma increasing_reflect c l :
  increasing l -> increasing (map (fun v => c - v) (rev l)).
Proof.
  intros H i Hi. rewrite length_map, length_rev in Hi.
  rewrite !(nth_indep _ 0 (c - 0)) by (rewrite length_map, length_rev; lia).
  rewrite !(map_nth (fun v => c - v)).
  rewrite !rev_nth by lia.
  specialize (H (length l - S (i + 1))%nat ltac:(lia)).
  replace (length l - S (i + 1) + 1)%nat with (length l - S i)%nat in H by lia.
  lra.
Qed.

Lemma positive_app l1 l2 : positive l1 -> positive l2 -> positive (l1 ++ l2).
Proof.
  intros H1 H2 i Hi. rewrite length_app in Hi.
  destruct (Nat.lt_ge_cases i (length l1)).
  - rewrite app_nth1 by lia. now apply H1.
  - rewrite app_nth2 by lia. apply H2. lia.
Qed.

Lemma positive_In l : positive l <-> (forall v, In v l -> 0 < v).
Proof.
  split.
  - intros H v Hv. apply (In_nth _ _ 0) in Hv. destruct Hv as (i & Hi & <-).
    now apply H.
  - intros H i Hi. apply H, nth_In, Hi.
Qed.

Lemma positive_rev l : positive l -> positive (rev l).
Proof.
  rewrite !positive_In. intros H v Hv. apply H. now apply in_rev.
Qed.

Lemma positive_tl l : positive l -> positive (tl l).
Proof.
  rewrite !positive_In. intros H v Hv. apply H.
  destruct l; [contradiction | now right].
Qed.

Lemma positive_removelast l : positive l -> positive (removelast l).
Proof.
  rewrite !positive_In. intros H v Hv. apply H.
  destruct l as [| x l] using rev_ind; [contradiction |].
  rewrite removelast_last in Hv. apply in_or_app. now left.
Qed.

Lemma positive_single v : 0 < v -> positive [v].
Proof. intros Hv i Hi. destruct i; [exact Hv | cbn in Hi; lia]. Qed.

Lemma positive_nil : positive [].
Proof. intros i Hi. cbn in Hi. lia. Qed.

Lemma hd_positive l : positive l -> l <> [] -> 0 < hd 0 l.
Proof.
  intros H Hne. destruct l; [congruence |]. apply (H 0%nat). cbn. lia.
Qed.

Lemma last_positive l : positive l -> l <> [] -> 0 < last l 0.
Proof.
  intros H Hne. rewrite <- nth_last. apply H.
  destruct l; [congruence | cbn; lia].
Qed.

Lemma last_map_rev_tl c l :
  (2 <= length l)%nat ->
  last (map (fun v => c - v) (rev (tl l))) 0 = c - nth 1 l 0.
Proof.
  intros Hl. destruct l as [| x [| y l]]; cbn [length] in Hl; try lia.
  cbn [tl rev nth]. rewrite map_app. cbn [map]. now rewrite last_last.
Qed.

Lemma hd_map_rev_removelast c l :
  (2 <= length l)%nat ->
  hd 0 (map (fun v => c - v) (rev (removelast l))) = c - nth (length l - 2) l 0.
Proof.
  intros Hl. destruct l as [| z l] using rev_ind; [cbn in Hl; lia |].
  rewrite removelast_last, length_app. cbn [length].
  destruct l as [| y l] using rev_ind; [cbn in Hl; lia |].
  rewrite rev_unit. cbn [map hd]. rewrite length_app. cbn [length].
  rewrite app_nth1 by (rewrite length_app; cbn [length]; lia).
  rewrite app_nth2 by lia.
  replace (length l + 1 + 1 - 2 - length l)%nat with 0%nat by lia.
  reflexivity.
Qed.

(** ** Augmentation keeps valid knots valid *)

Lemma valid_rows_nonempty xs ys ds :
  valid_rows (xs, ys, ds) -> xs <> [] /\ ys <> [] /\ ds <> [].
Proof.
  intros (Hn & Hy & Hd & _). repeat split; intros ->; cbn in *; lia.
Qed.

Lemma valid_linear_step l r rows :
  valid_rows rows -> valid_rows (linear_step_rows l r rows).
Proof.
  destruct rows as [[xs ys] ds]. intros Hv.
  pose proof (valid_rows_nonempty _ _ _ Hv) as (Nx & Ny & Nd).
  destruct Hv as (Hn & Hy & Hd & Ix & Iy & Pd).
  pose proof (hd_positive ds Pd Nd) as Hd0.
  pose proof (last_positive ds Pd Nd) as Hd1.
  unfold linear_step_rows.
  destruct (is_linear l), (is_linear r);
    cbn [linear_left_rows linear_right_rows no_rows app_rows app];
    rewrite ?app_nil_r; unfold valid_rows;
    cbn [length]; rewrite ?length_app; cbn [length];
    (split; [lia |]); (split; [lia |]); (split; [lia |]).
  - repeat split.
    + apply (increasing_app [hd 0 xs - 1]); [apply increasing_single | |].
      * apply increasing_app; [exact Ix | apply increasing_single |].
        intros _ _. cbn [hd]. lra.
      * intros _ _. cbn [last]. destruct xs; [congruence |]. cbn [app hd]. lra.
    + apply (increasing_app [hd 0 ys - hd 0 ds]); [apply increasing_single | |].
      * apply increasing_app; [exact Iy | apply increasing_single |].
        intros _ _. cbn [hd]. lra.
      * intros _ _. cbn [last]. destruct ys; [congruence |]. cbn [app hd]. lra.
    + apply (positive_app [hd 0 ds]); [now apply positive_single |].
      apply positive_app; [exact Pd | now apply positive_single].
  - repeat split.
    + apply (increasing_app [hd 0 xs - 1]); [apply increasing_single | exact Ix |].
      intros _ _. cbn [last]. lra.
    + apply (increasing_app [hd 0 ys - hd 0 ds]);
        [apply increasing_single | exact Iy |].
      intros _ _. cbn [last]. lra.
    + apply (positive_app [hd 0 ds]); [now apply positive_single | exact Pd].
  - repeat split.
    + apply increasing_app; [exact Ix | apply increasing_single |].
      intros _ _. cbn [hd]. lra.
    + apply increasing_app; [exact Iy | apply increasing_single |].
      intros _ _. cbn [hd]. lra.
    + apply positive_app; [exact Pd | now apply positive_single].
  - repeat split; assumption.
Qed.

Lemma length_tl {A : Type} (l : list A) : length (tl l) = (length l - 1)%nat.
Proof. destruct l; cbn; lia. Qed.

Lemma length_removelast' {A : Type} (l : list A) :
  length (removelast l) = (length l - 1)%nat.
Proof.
  destruct l as [| x l] using rev_ind; [reflexivity |].
  rewrite removelast_last, length_app. cbn [length]. lia.
Qed.

Lemma valid_with_anti_left xs ys ds :
  valid_rows (xs, ys, ds) ->
  increasing (map (fun v => 2 * hd 0 xs - v) (rev (tl xs)) ++ xs) /\
  increasing (map (fun v => 2 * hd 0 ys - v) (rev (tl ys)) ++ ys) /\
  positive (rev (tl ds) ++ ds).
Proof.
  intros (Hn & Hy & Hd & Ix & Iy & Pd). repeat split.
  - apply increasing_app; [apply increasing_reflect, increasing_tl, Ix | exact Ix |].
    intros _ _. rewrite last_map_rev_tl by lia. rewrite <- nth_0_hd.
    specialize (Ix 0%nat ltac:(lia)). cbn [Nat.add] in Ix. lra.
  - apply increasing_app; [apply increasing_reflect, increasing_tl, Iy | exact Iy |].
    intros _ _. rewrite last_map_rev_tl by lia. rewrite <- nth_0_hd.
    specialize (Iy 0%nat ltac:(lia)). cbn [Nat.add] in Iy. lra.
  - apply positive_app; [apply positive_rev, positive_tl, Pd | exact Pd].
Qed.

Lemma valid_with_anti_right xs ys ds :
  valid_rows (xs, ys, ds) ->
  increasing (xs ++ map (fun v => 2 * last xs 0 - v) (rev (removelast xs))) /\
  increasing (ys ++ map (fun v => 2 * last ys 0 - v) (rev (removelast ys))) /\
  positive (ds ++ rev (removelast ds)).
Proof.
  intros (Hn & Hy & Hd & Ix & Iy & Pd). repeat split.
  - apply increasing_app;
      [exact Ix | apply increasing_reflect, increasing_removelast, Ix |].
    intros _ _. rewrite hd_map_rev_removelast by lia. rewrite <- nth_last.
    specialize (Ix (length xs - 2)%nat ltac:(lia)).
    replace (length xs - 2 + 1)%nat with (length xs - 1)%nat in Ix by lia. lra.
  - apply increasing_app;
      [exact Iy | apply increasing_reflect, increasing_removelast, Iy |].
    intros _ _. rewrite hd_map_rev_removelast by lia. rewrite <- nth_last.
    specialize (Iy (length ys - 2)%nat ltac:(lia)).
    replace (length ys - 2 + 1)%nat with (length ys - 1)%nat in Iy by lia. lra.
  - apply positive_app; [exact Pd | apply positive_rev, positive_removelast, Pd].
Qed.

Lemma increasing_app_assoc l1 l2 l3 :
  l2 <> [] -> increasing (l1 ++ l2) -> increasing (l2 ++ l3) ->
  increasing (l1 ++ l2 ++ l3).
Proof.
  intros Hne H12 H23 i Hi. rewrite !length_app in Hi.
  destruct (Nat.lt_ge_cases (i + 1) (length l1 + length l2)) as [Hlt | Hge].
  - specialize (H12 i ltac:(rewrite length_app; lia)).
    rewrite app_assoc. rewrite !(app_nth1 (l1 ++ l2))
      by (rewrite length_app; lia). exact H12.
  - assert (Hl2 : (0 < length l2)%nat) by (destruct l2; [congruence | cbn; lia]).
    specialize (H23 (i - length l1)%nat ltac:(rewrite length_app; lia)).
    rewrite (app_nth2 l1 (l2 ++ l3) 0 (n := i)) by lia.
    rewrite (app_nth2 l1 (l2 ++ l3) 0 (n := (i + 1)%nat)) by lia.
    replace (i + 1 - length l1)%nat with (i - length l1 + 1)%nat by lia.
    exact H23.
Qed.

Lemma valid_rest_step l r rows :
  valid_rows rows -> is_periodic l = false -> is_periodic r = false ->
  valid_rows (rest_step_rows l r rows).
Proof.
  destruct rows as [[xs ys] ds]. intros Hv Hl Hr.
  pose proof (valid_rows_nonempty _ _ _ Hv) as (Nx & Ny & Nd).
  pose proof (valid_with_anti_left _ _ _ Hv) as (ALx & ALy & ALd).
  pose proof (valid_with_anti_right _ _ _ Hv) as (ARx & ARy & ARd).
  pose proof Hv as (Hn & Hy & Hd & Ix & Iy & Pd).
  unfold rest_step_rows. rewrite Hl, Hr.
  destruct (is_anti l), (is_anti r);
    cbn [anti_left_rows anti_right_rows no_rows app_rows app];
    rewrite ?app_nil_r; unfold valid_rows;
    rewrite ?length_app, ?length_map, ?length_rev, ?length_tl,
      ?length_removelast';
    (split; [lia |]); (split; [lia |]); (split; [lia |]).
  - repeat split.
    + now apply increasing_app_assoc.
    + now apply increasing_app_assoc.
    + apply positive_app; [apply positive_rev, positive_tl, Pd | exact ARd].
  - repeat split; assumption.
  - repeat split; assumption.
  - repeat split; assumption.
Qed.

Lemma valid_augmented l r rows :
  valid_rows rows -> is_periodic l = false -> is_periodic r = false ->
  valid_rows (augmented_rows l r rows).
Proof.
  intros Hv Hl Hr. unfold augmented_rows.
  destruct (is_None l && is_None r); [exact Hv |].
  destruct (is_linear l || is_linear r).
  - destruct (is_None l || is_None r).
    + now apply valid_linear_step.
    + apply valid_rest_step; auto. now apply valid_linear_step.
  - now apply valid_rest_step.
Qed.

(** ** The original knots among the augmented ones *)

Lemma embeds_refl r : embeds_at 0 r r.
Proof. destruct r as [[xs ys] ds]. split; [cbn; lia |]. intros k Hk. auto. Qed.

Lemma embeds_trans o1 o2 r r1 r2 :
  embeds_at o1 r r1 -> embeds_at o2 r1 r2 -> embeds_at (o2 + o1) r r2.
Proof.
  destruct r as [[xs ys] ds], r1 as [[xs1 ys1] ds1], r2 as [[xs2 ys2] ds2].
  intros [B1 E1] [B2 E2]. split; [lia |]. intros k Hk.
  destruct (E1 k Hk) as (Ex & Ey & Ed).
  destruct (E2 (o1 + k)%nat ltac:(lia)) as (Fx & Fy & Fd).
  rewrite <- Nat.add_assoc. rewrite Fx, Fy, Fd. auto.
Qed.

Lemma embeds_app L rows R :
  uniform_rows L -> uniform_rows rows ->
  embeds_at (rows_length L) rows (app_rows L (app_rows rows R)).
Proof.
  destruct L as [[lx ly] ld], rows as [[xs ys] ds], R as [[rx ry] rd].
  intros [Ly Ld] [Hy Hd]. cbn [app_rows rows_length embeds_at].
  split; [rewrite !length_app; lia |]. intros k Hk.
  repeat split.
  - now rewrite app_nth2_plus, app_nth1.
  - rewrite <- Ly. rewrite app_nth2_plus, app_nth1 by lia. reflexivity.
  - rewrite <- Ld. rewrite app_nth2_plus, app_nth1 by lia. reflexivity.
Qed.

Lemma uniform_linear_step l r rows :
  uniform_rows rows -> uniform_rows (linear_step_rows l r rows).
Proof.
  destruct rows as [[xs ys] ds]. intros [Hy Hd]. unfold linear_step_rows.
  destruct (is_linear l), (is_linear r);
    cbn [linear_left_rows linear_right_rows no_rows app_rows uniform_rows];
    rewrite ?length_app; cbn [length]; lia.
Qed.

Lemma linear_step_embeds l r rows :
  uniform_rows rows ->
  exists off, embeds_at off rows (linear_step_rows l r rows).
Proof.
  intros Hu. unfold linear_step_rows. eexists. apply embeds_app; [| exact Hu].
  destruct rows as [[xs ys] ds]. destruct (is_linear l); cbn; auto.
Qed.

Lemma rest_step_embeds l r rows :
  uniform_rows rows ->
  exists off, embeds_at off rows (rest_step_rows l r rows).
Proof.
  intros Hu. unfold rest_step_rows. eexists. apply embeds_app; [| exact Hu].
  destruct rows as [[xs ys] ds]. destruct Hu as [Hy Hd].
  destruct (is_anti l); [| destruct (is_periodic l)];
    cbn [anti_left_rows periodic_left_rows no_rows uniform_rows];
    rewrite ?length_map, ?length_rev, ?length_tl; lia.
Qed.

Lemma augmented_embeds l r rows :
  uniform_rows rows ->
  exists off, embeds_at off rows (augmented_rows l r rows).
Proof.
  intros Hu. unfold augmented_rows.
  destruct (is_None l && is_None r); [exists 0%nat; apply embeds_refl |].
  destruct (is_linear l || is_linear r).
  - destruct (linear_step_embeds l r rows Hu) as [o1 E1].
    destruct (is_None l || is_None r); [now exists o1 |].
    destruct (rest_step_embeds l r (linear_step_rows l r rows)
                (uniform_linear_step l r rows Hu)) as [o2 E2].
    exists (o2 + o1)%nat. now apply (embeds_trans o1 o2 rows _ _ E1 E2).
  - now apply rest_step_embeds.
Qed.

Lemma valid_uniform rows : valid_rows rows -> uniform_rows rows.
Proof. destruct rows as [[xs ys] ds]. intros (_ & Hy & Hd & _). now split. Qed.

(** ** Evaluation on valid knots, one fibre *)

Section ValidRows.
Variable kind : interpolant.
Variables xs ys ds : list R.
Hypothesis Hv : valid_rows (xs, ys, ds).

Lemma valid_segment i :
  (i + 1 < length xs)%nat ->
  nth i xs 0 < nth (i + 1) xs 0 /\ nth i ys 0 < nth (i + 1) ys 0 /\
  0 < nth i ds 0 /\ 0 < nth (i + 1) ds 0.
Proof.
  destruct Hv as (Hn & Hy & Hd & Ix & Iy & Pd). intros Hi.
  repeat split; [apply Ix | apply Iy | apply Pd | apply Pd]; lia.
Qed.

(** Within a segment, end points included, [forward] is the formula of
    that segment. *)
Lemma forward_row_after_knot j :
  (j + 1 < length xs)%nat ->
  forward_row kind (xs, ys, ds) (nth (j + 1) xs 0) = nth (j + 1) ys 0.
Proof.
  pose proof Hv as (Hn & Hy & Hd & Ix & Iy & Pd). intros Hj.
  pose proof (Ix j Hj) as Hs.
  destruct (valid_segment j Hj) as (Sx & Sy & Sd0 & Sd1).
  unfold forward_row.
  rewrite (segment_of_between xs _ j) by (try assumption; lra).
  unfold segment_value. now apply segment_at_x1.
Qed.

Lemma forward_row_at_knot j :
  (j < length xs)%nat -> forward_row kind (xs, ys, ds) (nth j xs 0) = nth j ys 0.
Proof.
  pose proof Hv as (Hn & Hy & Hd & Ix & Iy & Pd). intros Hj.
  destruct j as [| j].
  - unfold forward_row. rewrite segment_of_first by (try lia; lra).
    unfold segment_value. apply segment_at_x0.
  - replace (S j) with (j + 1)%nat in * by lia. now apply forward_row_after_knot.
Qed.

Lemma forward_row_in_segment i v :
  (i + 1 < length xs)%nat ->
  nth i xs 0 <= v <= nth (i + 1) xs 0 ->
  forward_row kind (xs, ys, ds) v = segment_value kind (xs, ys, ds) i v.
Proof.
  pose proof Hv as (Hn & Hy & Hd & Ix & Iy & Pd). intros Hi [Hlo Hhi].
  destruct (Rle_lt_or_eq_dec _ _ Hlo) as [Hlt | Heq].
  - unfold forward_row. now rewrite (segment_of_between xs v i).
  - subst v. rewrite forward_row_at_knot by lia.
    unfold segment_value. symmetry. apply segment_at_x0.
Qed.

(** The round trip through [forward] and [backward]. *)
Lemma roundtrip_row v :
  hd 0 xs <= v <= last xs 0 ->
  backward_row kind (xs, ys, ds) (forward_row kind (xs, ys, ds) v) = v.
Proof.
  pose proof Hv as (Hn & Hy & Hd & Ix & Iy & Pd).
  rewrite <- nth_0_hd, <- nth_last. intros Hr.
  destruct (segment_of_encloses xs v Ix Hn Hr) as (Hi & Henc & Hcase).
  set (i := segment_of xs (length xs - 1) v) in *.
  destruct (valid_segment i Hi) as (Sx & Sy & Sd0 & Sd1).
  unfold forward_row. fold i. unfold backward_row.
  assert (Hseg : segment_of ys (length xs - 1)
                   (segment_value kind (xs, ys, ds) i v) = i).
  { rewrite <- Hy. unfold segment_value.
    pose proof (segment_value_range kind _ _ _ _ (nth i ds 0)
                  (nth (i + 1) ds 0) Sx Sy Sd0 Sd1 v Henc) as [[Vlo Vhi] Vpos].
    destruct Hcase as [Hlt | [E0 Ev]].
    - apply segment_of_between; [exact Iy | lia |]. split; [now apply Vpos | exact Vhi].
    - rewrite E0. apply segment_of_first; [lia |].
      rewrite Ev. rewrite E0 in *. cbn [Nat.add] in *.
      rewrite segment_at_x0. lra. }
  rewrite Hseg. unfold segment_inverse, segment_value.
  now apply segment_roundtrip.
Qed.
End ValidRows.

(** Outside the knots the first or the last segment is used; no validity
    is needed here. *)
Lemma forward_row_below kind xs ys ds v :
  (2 <= length xs)%nat -> v <= nth 0 xs 0 ->
  forward_row kind (xs, ys, ds) v = segment_value kind (xs, ys, ds) 0 v.
Proof.
  intros Hn Hlo. unfold forward_row.
  now rewrite segment_of_first by assumption.
Qed.

Lemma forward_row_above kind xs ys ds v :
  (2 <= length xs)%nat -> (forall i, (i < length xs)%nat -> nth i xs 0 < v) ->
  forward_row kind (xs, ys, ds) v
  = segment_value kind (xs, ys, ds) (length xs - 2) v.
Proof.
  intros Hn Hhi. unfold forward_row.
  now rewrite segment_of_last by assumption.
Qed.

Lemma backward_row_below kind xs ys ds w :
  (2 <= length xs)%nat -> length ys = length xs -> w <= nth 0 ys 0 ->
  backward_row kind (xs, ys, ds) w = segment_inverse kind (xs, ys, ds) 0 w.
Proof.
  intros Hn Hy Hlo. unfold backward_row. rewrite <- Hy.
  now rewrite segment_of_first by (try lia; assumption).
Qed.

Lemma backward_row_above kind xs ys ds w :
  (2 <= length xs)%nat -> length ys = length xs ->
  (forall i, (i < length ys)%nat -> nth i ys 0 < w) ->
  backward_row kind (xs, ys, ds) w
  = segment_inverse kind (xs, ys, ds) (length xs - 2) w.
Proof.
  intros Hn Hy Hhi. unfold backward_row. rewrite <- Hy.
  now rewrite segment_of_last by (try lia; assumption).
Qed.

(** ** Construction from valid knots *)

Lemma periodic_not_anti s : is_periodic s = true -> is_anti s = false.
Proof.
  destruct s as [s |]; [| discriminate]. unfold is_periodic, str_eq.
  intros E. apply String.eqb_eq in E. now subst s.
Qed.

Lemma augmented_len_ge l r n : (n <= augmented_len l r n)%nat.
Proof.
  unfold augmented_len.
  destruct (is_None l && is_None r); [lia |].
  destruct (is_linear l || is_linear r); [| lia].
  destruct (is_None l || is_None r); lia.
Qed.

Section ValidConstruction.
Variable a : axis.

Lemma valid_boundary_derivatives x y d n B b :
  valid_knots a n B x y d -> (b < B)%nat ->
  0 < Torch.getk a d 0 b /\ 0 < Torch.getk a d (n - 1) b.
Proof.
  intros ((_ & _ & Hdk & Hdb) & Hn & Hv) Hb.
  specialize (Hv b Hb). unfold rows_of in Hv.
  destruct Hv as (_ & _ & _ & _ & _ & Pd).
  rewrite <- !(nth_fibre a d b _ 0) by lia.
  split; apply Pd; rewrite length_fibre; lia.
Qed.

Lemma takecare_rest_not_periodic x y d l r n B self' :
  valid_knots a n B x y d -> (0 < B)%nat ->
  AugmentKnots.takecare_rest (AugmentKnots.mk x y d a) l r = Ok self' ->
  is_periodic l = false /\ is_periodic r = false.
Proof.
  intros Hv HB E. pose proof Hv as (Hal & Hn & _).
  apply (takecare_rest_rows a x y d l r n B self' Hal) in E; [| lia].
  destruct E as (x' & y' & d' & _ & _ & _ & HL & HR).
  split.
  - destruct (is_periodic l) eqn:Ep; [| reflexivity].
    destruct (HL (periodic_not_anti l Ep) eq_refl) as (b & Hb & Ez).
    pose proof (valid_boundary_derivatives x y d n B b Hv Hb). lra.
  - destruct (is_periodic r) eqn:Ep; [| reflexivity].
    destruct (HR (periodic_not_anti r Ep) eq_refl) as (b & Hb & Ez).
    pose proof (valid_boundary_derivatives x y d n B b Hv Hb). lra.
Qed.

(** From valid knots [perform_bc] makes valid knots. *)
Lemma perform_bc_valid x y d l r n B self' :
  valid_knots a n B x y d ->
  AugmentKnots.perform_bc (AugmentKnots.mk x y d a) l r = Ok self' ->
  exists x' y' d',
    self' = AugmentKnots.mk x' y' d' a /\
    valid_knots a (augmented_len l r n) B x' y' d' /\
    forall b, (b < B)%nat ->
      rows_of a x' y' d' b = augmented_rows l r (rows_of a x y d b).
Proof.
  intros Hv E. pose proof Hv as (Hal & Hn & Hrows).
  pose proof (perform_bc_rows a x y d l r n B self' Hal ltac:(lia) E)
    as (x' & y' & d' & -> & Hal' & Hrows').
  exists x', y', d'. split; [reflexivity |].
  split; [| exact Hrows'].
  split; [exact Hal' |].
  split; [pose proof (augmented_len_ge l r n); lia |].
  intros b Hb. rewrite Hrows' by exact Hb.
  assert (HB : (0 < B)%nat) by lia.
  revert E. unfold AugmentKnots.perform_bc, augmented_rows.
  fold (is_linear l) (is_linear r).
  destruct (is_None l && is_None r); [intros _; now apply Hrows |].
  destruct (is_linear l || is_linear r).
  - destruct (takecare_linear_rows a x y d l r n B Hal ltac:(lia))
      as (x1 & y1 & d1 & E1 & Hal1 & Hrows1).
    rewrite E1. cbn [bind].
    destruct (is_None l || is_None r).
    + intros _. apply valid_linear_step. now apply Hrows.
    + intros E.
      assert (Hv1 : valid_knots a (linear_knots l + n + linear_knots r) B
                      x1 y1 d1).
      { split; [exact Hal1 |]. split; [lia |].
        intros b' Hb'. rewrite Hrows1 by exact Hb'.
        apply valid_linear_step. now apply Hrows. }
      destruct (takecare_rest_not_periodic x1 y1 d1 l r _ B _ Hv1 HB E)
        as [Hl Hr].
      apply valid_rest_step; auto. apply valid_linear_step. now apply Hrows.
  - intros E.
    destruct (takecare_rest_not_periodic x y d l r n B _ Hv HB E) as [Hl Hr].
    apply valid_rest_step; auto.
Qed.

(** A successful construction from valid knots stores valid knots, and the
    original knots are among them. *)
Lemma init_valid cls x y d e l r n B S :
  valid_knots a n B x y d ->
  SplineTemplate.init cls x y (Some d) a e l r = Ok S ->
  knots_axis S = a /\
  valid_spline S (augmented_len l r n) B /\
  forall b, (b < B)%nat ->
    spline_rows S b = augmented_rows l r (rows_of a x y d b).
Proof.
  intros Hv. unfold SplineTemplate.init.
  destruct e; cbn [negb]; [| discriminate].
  destruct (negb _); [discriminate |]. cbn [bind].
  unfold AugmentKnots.call, AugmentKnots.init.
  destruct (AugmentKnots.perform_bc _ l r) as [self' | err] eqn:E;
    [| discriminate].
  apply (perform_bc_valid x y d l r n B self' Hv) in E.
  destruct E as (x' & y' & d' & -> & Hv' & Hrows).
  cbn [bind AugmentKnots.knots_x AugmentKnots.knots_y AugmentKnots.knots_d].
  intros [= <-]. unfold valid_spline, well_shaped, spline_rows.
  cbn [knots_axis knots_x knots_y knots_d knots_len segm_len].
  destruct Hv' as (Hal' & Hn' & Hrows').
  pose proof Hal' as [[Hk _] _]. rewrite Hk. auto 10.
Qed.
End ValidConstruction.

(** ** Evaluation of a constructed instance *)

Lemma rows_of_nth a x y d b n B k :
  aligned a n B x y d -> (k < n)%nat ->
  let '(xs, ys, ds) := rows_of a x y d b in
  nth k xs 0 = Torch.getk a x k b /\ nth k ys 0 = Torch.getk a y k b /\
  nth k ds 0 = Torch.getk a d k b.
Proof.
  intros ((Hxk & _) & (Hyk & _) & (Hdk & _)) Hk. unfold rows_of.
  rewrite !nth_fibre by lia. auto.
Qed.

Lemma forward_original_knots kind a x y d e l r n B S :
  valid_knots a n B x y d -> Torch.wf y ->
  SplineTemplate.init (class_of kind) x y (Some d) a e l r = Ok S ->
  SplineTemplate.forward (class_of kind) S x false = Value y.
Proof.
  intros Hv Wy E. pose proof Hv as (Hal & Hn & Hrows).
  destruct (init_valid a _ x y d e l r n B S Hv E) as (Ha & (Hws & Hvs) & Hemb).
  pose proof Hal as ((Hxk & Hxb) & (Hyk & Hyb) & _).
  destruct (forward_rowwise kind S x _ B Hws ltac:(now rewrite Ha))
    as (v & Ev & Wv & Hvk & Hvb & Hval).
  rewrite Ev. f_equal. rewrite Ha in *.
  apply (tensor_extk a); auto; try congruence.
  intros q b Hq Hb. rewrite Hvk, Hxk in Hq. rewrite Hvb in Hb.
  rewrite Hval by (rewrite ?Hxk; assumption).
  specialize (Hvs b Hb). rewrite (Hemb b Hb) in *.
  destruct (augmented_embeds l r (rows_of a x y d b)
              (valid_uniform _ (Hrows b Hb))) as [off Hoff].
  pose proof (rows_of_nth a x y d b n B q Hal Hq) as Hnth.
  unfold rows_of in *.
  destruct (augmented_rows l r
              (Torch.fibre a x b, Torch.fibre a y b, Torch.fibre a d b))
    as [[xs' ys'] ds'].
  destruct Hoff as [Hbound Hoff]. rewrite length_fibre, Hxk in Hbound, Hoff.
  destruct (Hoff q Hq) as (Ex & Ey & _).
  destruct Hnth as (Nx & Ny & _).
  rewrite <- Nx, <- Ex.
  rewrite (forward_row_at_knot kind xs' ys' ds' Hvs) by lia.
  rewrite Ey. exact Ny.
Qed.

Lemma roundtrip_valid_spline kind S x n B :
  valid_spline S n B -> Torch.blen (knots_axis S) x = B -> Torch.wf x ->
  within_knots S x ->
  exists y,
    SplineTemplate.forward (class_of kind) S x false = Value y /\
    SplineTemplate.backward (class_of kind) S y false = Value x.
Proof.
  intros (Hws & Hvs) Hb Wx Hin.
  destruct (forward_rowwise kind S x n B Hws Hb)
    as (y & Ey & Wy & Hyk & Hyb & Hy).
  destruct (backward_rowwise kind S y n B Hws Hyb)
    as (x' & Ex & Wx' & Hxk & Hxb & Hx).
  exists y. split; [exact Ey |]. rewrite Ex. f_equal.
  apply (tensor_extk (knots_axis S)); auto; try congruence.
  intros q b Hq Hb'. rewrite Hxk, Hyk in Hq. rewrite Hxb in Hb'.
  rewrite Hx by (rewrite ?Hyk; assumption).
  rewrite Hy by assumption.
  specialize (Hvs b Hb'). specialize (Hin q b Hq ltac:(now rewrite Hb)).
  unfold spline_rows, rows_of in *.
  now apply roundtrip_row.
Qed.

(** ** Reflection about the first knot *)

(** The rational quadratic of a segment and of its mirror image agree up to
    the reflection. *)
Lemma pade22_reflect x0 x1 y0 y1 d0 d1 c e v :
  x0 < x1 -> y0 < y1 -> 0 < d0 -> 0 < d1 -> x0 <= v <= x1 ->
  pade22_func (c - x1) (c - x0) (e - y1) (e - y0) d1 d0 (c - v)
  = e - pade22_func x0 x1 y0 y1 d0 d1 v.
Proof.
  intros Hx Hy Hd0 Hd1 Hv.
  pose proof (theta_range x0 x1 Hx v Hv) as Ht.
  pose proof (pade22_den_pos x0 x1 y0 y1 d0 d1 Hx Hy Hd0 Hd1 _ Ht) as HD.
  unfold pade22_func. cbv zeta.
  replace ((e - y0 - (e - y1)) / (c - x0 - (c - x1)))
    with ((y1 - y0) / (x1 - x0)) by (field; lra).
  replace ((c - v - (c - x1)) / (c - x0 - (c - x1)))
    with (1 - (v - x0) / (x1 - x0)) by (field; lra).
  set (m := (y1 - y0) / (x1 - x0)) in *.
  set (t := (v - x0) / (x1 - x0)) in *.
  replace (m + (d0 + d1 - 2 * m) * (1 - t) * (1 - (1 - t)))
    with (m + (d1 + d0 - 2 * m) * t * (1 - t)) by ring.
  replace (e - y0 - (e - y1)) with (y1 - y0) by ring.
  field. lra.
Qed.


Lemma nth_rev_tl (l : list R) k :
  (1 <= k < length l)%nat ->
  nth (length l - 1 - k) (rev (tl l)) 0 = nth k l 0.
Proof.
  intros Hk. rewrite rev_nth by (rewrite length_tl; lia).
  rewrite length_tl. destruct l as [| x l]; [cbn in Hk; lia |].
  cbn [tl length] in *.
  replace (S (length l) - 1 - S (S (length l) - 1 - k))%nat with (k - 1)%nat
    by lia.
  destruct k; [lia |]. cbn [nth]. f_equal. lia.
Qed.

Lemma mirror_nth_left c (l R : list R) k :
  (1 <= k < length l)%nat ->
  nth (length l - 1 - k) (map (fun v => c - v) (rev (tl l)) ++ l ++ R) 0
  = c - nth k l 0.
Proof.
  intros Hk. rewrite app_nth1
    by (rewrite length_map, length_rev, length_tl; lia).
  rewrite (nth_indep _ 0 (c - 0))
    by (rewrite length_map, length_rev, length_tl; lia).
  rewrite (map_nth (fun v => c - v)). now rewrite nth_rev_tl.
Qed.

Lemma mirror_nth_left_plain (l R : list R) k :
  (1 <= k < length l)%nat ->
  nth (length l - 1 - k) (rev (tl l) ++ l ++ R) 0 = nth k l 0.
Proof.
  intros Hk. rewrite app_nth1 by (rewrite length_rev, length_tl; lia).
  now apply nth_rev_tl.
Qed.

Lemma mirror_nth_right (L l R : list R) k :
  length L = (length l - 1)%nat -> (k < length l)%nat ->
  nth (length l - 1 + k) (L ++ l ++ R) 0 = nth k l 0.
Proof.
  intros HL Hk. rewrite <- HL. rewrite app_nth2_plus. now apply app_nth1.
Qed.

(** With the knots reflected about the first knot in front, the
    rational-quadratic spline is odd about that knot. *)
Lemma reflect_row xs ys ds Rx Ry Rd v :
  valid_rows (xs, ys, ds) ->
  valid_rows (app_rows (anti_left_rows (xs, ys, ds))
                (app_rows (xs, ys, ds) (Rx, Ry, Rd))) ->
  hd 0 xs <= v <= last xs 0 ->
  forward_row Pade22
    (app_rows (anti_left_rows (xs, ys, ds)) (app_rows (xs, ys, ds) (Rx, Ry, Rd)))
    (2 * hd 0 xs - v)
  = 2 * hd 0 ys
    - forward_row Pade22
        (app_rows (anti_left_rows (xs, ys, ds))
           (app_rows (xs, ys, ds) (Rx, Ry, Rd))) v.
Proof.
  intros Hv Hv' Hr. pose proof Hv as (Hn & Hy & Hd & Ix & Iy & Pd).
  cbn [anti_left_rows app_rows] in *.
  set (xs' := map (fun u => 2 * hd 0 xs - u) (rev (tl xs)) ++ xs ++ Rx) in *.
  set (ys' := map (fun u => 2 * hd 0 ys - u) (rev (tl ys)) ++ ys ++ Ry) in *.
  set (ds' := rev (tl ds) ++ ds ++ Rd) in *.
  assert (Hlen' : (2 * length xs - 1 <= length xs')%nat).
  { unfold xs'. rewrite !length_app, length_map, length_rev, length_tl. lia. }
  rewrite <- nth_0_hd, <- nth_last in Hr.
  destruct (segment_of_encloses xs v Ix Hn Hr) as (Hi & Henc & _).
  set (i := segment_of xs (length xs - 1) v) in *.
  destruct (valid_segment xs ys ds Hv i Hi) as (Sx & Sy & Sd0 & Sd1).
  (* the knots of the original segment, in the augmented sequences *)
  assert (Ex0 : nth (length xs - 1 + i) xs' 0 = nth i xs 0)
    by (apply mirror_nth_right;
        [rewrite length_map, length_rev, length_tl | ]; lia).
  assert (Ex1 : nth (length xs - 1 + i + 1) xs' 0 = nth (i + 1) xs 0)
    by (rewrite <- Nat.add_assoc; apply mirror_nth_right;
        [rewrite length_map, length_rev, length_tl | ]; lia).
  assert (Ey0 : nth (length xs - 1 + i) ys' 0 = nth i ys 0)
    by (rewrite <- Hy; apply mirror_nth_right;
        [rewrite length_map, length_rev, length_tl | ]; lia).
  assert (Ey1 : nth (length xs - 1 + i + 1) ys' 0 = nth (i + 1) ys 0)
    by (rewrite <- Nat.add_assoc, <- Hy; apply mirror_nth_right;
        [rewrite length_map, length_rev, length_tl | ]; lia).
  assert (Ed0 : nth (length xs - 1 + i) ds' 0 = nth i ds 0)
    by (rewrite <- Hd; apply mirror_nth_right;
        [rewrite length_rev, length_tl | ]; lia).
  assert (Ed1 : nth (length xs - 1 + i + 1) ds' 0 = nth (i + 1) ds 0)
    by (rewrite <- Nat.add_assoc, <- Hd; apply mirror_nth_right;
        [rewrite length_rev, length_tl | ]; lia).
  (* the knots of the mirrored segment *)
  assert (Mx0 : nth (length xs - 1 - (i + 1)) xs' 0
                = 2 * hd 0 xs - nth (i + 1) xs 0)
    by (apply mirror_nth_left; lia).
  assert (My0 : nth (length xs - 1 - (i + 1)) ys' 0
                = 2 * hd 0 ys - nth (i + 1) ys 0)
    by (rewrite <- Hy; apply mirror_nth_left; lia).
  assert (Md0 : nth (length xs - 1 - (i + 1)) ds' 0 = nth (i + 1) ds 0)
    by (rewrite <- Hd; apply mirror_nth_left_plain; lia).
  assert (Mx1 : nth (length xs - 1 - (i + 1) + 1) xs' 0
                = 2 * hd 0 xs - nth i xs 0).
  { destruct (Nat.eq_dec i 0) as [E0 | Hne].
    - replace (length xs - 1 - (i + 1) + 1)%nat
        with (length xs - 1 + i)%nat by lia.
      rewrite Ex0, E0, nth_0_hd. lra.
    - replace (length xs - 1 - (i + 1) + 1)%nat with (length xs - 1 - i)%nat
        by lia.
      apply mirror_nth_left; lia. }
  assert (My1 : nth (length xs - 1 - (i + 1) + 1) ys' 0
                = 2 * hd 0 ys - nth i ys 0).
  { destruct (Nat.eq_dec i 0) as [E0 | Hne].
    - replace (length xs - 1 - (i + 1) + 1)%nat
        with (length xs - 1 + i)%nat by lia.
      rewrite Ey0, E0, nth_0_hd. lra.
    - replace (length xs - 1 - (i + 1) + 1)%nat with (length ys - 1 - i)%nat
        by lia.
      apply mirror_nth_left; lia. }
  assert (Md1 : nth (length xs - 1 - (i + 1) + 1) ds' 0 = nth i ds 0).
  { destruct (Nat.eq_dec i 0) as [E0 | Hne].
    - replace (length xs - 1 - (i + 1) + 1)%nat
        with (length xs - 1 + i)%nat by lia.
      exact Ed0.
    - replace (length xs - 1 - (i + 1) + 1)%nat with (length ds - 1 - i)%nat
        by lia.
      apply mirror_nth_left_plain; lia. }
  rewrite (forward_row_in_segment Pade22 xs' ys' ds' Hv'
             (length xs - 1 + i)%nat v) by (rewrite ?Ex0, ?Ex1; try lia; lra).
  rewrite (forward_row_in_segment Pade22 xs' ys' ds' Hv'
             (length xs - 1 - (i + 1))%nat (2 * hd 0 xs - v))
    by (rewrite ?Mx0, ?Mx1; try lia; lra).
  unfold segment_value, segment_func.
  rewrite Ex0, Ex1, Ey0, Ey1, Ed0, Ed1, Mx0, Mx1, My0, My1, Md0, Md1.
  now apply pade22_reflect.
Qed.

Lemma anti_not_linear s : is_anti s = true -> is_linear s = false.
Proof.
  destruct s as [s |]; [| discriminate].
  unfold is_anti, str_in, existsb, str_eq, is_linear, str_eq.
  intros E. apply orb_true_iff in E. destruct E as [E | E].
  - apply String.eqb_eq in E. now subst s.
  - apply orb_true_iff in E. destruct E as [E | E]; [| discriminate].
    apply String.eqb_eq in E. now subst s.
Qed.

Lemma anti_not_None s : is_anti s = true -> is_None s = false.
Proof. destruct s; [reflexivity | discriminate]. Qed.

Lemma last_app_single (l : list R) v : last (l ++ [v]) 0 = v.
Proof. apply last_last. Qed.

(** With an anti-periodic left side the knots of a fibre are the mirror
    image of the knots [r1] present after the linear step, then [r1], then
    what the right side adds. *)
Lemma augmented_rows_anti_left l r xs ys ds :
  is_anti l = true -> valid_rows (xs, ys, ds) ->
  exists xs1 ys1 ds1 R,
    augmented_rows l r (xs, ys, ds)
    = app_rows (anti_left_rows (xs1, ys1, ds1))
        (app_rows (xs1, ys1, ds1) R) /\
    valid_rows (xs1, ys1, ds1) /\
    hd 0 xs1 = hd 0 xs /\ hd 0 ys1 = hd 0 ys /\ last xs 0 <= last xs1 0 /\
    (is_linear r = false -> (xs1, ys1, ds1) = (xs, ys, ds)).
Proof.
  intros Ha Hv. pose proof (valid_rows_nonempty _ _ _ Hv) as (Nx & Ny & Nd).
  unfold augmented_rows, rest_step_rows.
  rewrite (anti_not_None l Ha), (anti_not_linear l Ha), Ha.
  cbn [andb orb].
  destruct (is_linear r) eqn:Er.
  - assert (HN : is_None r = false) by (destruct r; [reflexivity | discriminate]).
    rewrite HN.
    pose proof (valid_linear_step l r _ Hv) as Hv1.
    unfold linear_step_rows in *. rewrite (anti_not_linear l Ha), Er in *.
    cbn [no_rows app_rows linear_right_rows app] in *.
    eexists _, _, _, _. split; [reflexivity |]. split; [exact Hv1 |].
    repeat split.
    + destruct xs; [congruence | reflexivity].
    + destruct ys; [congruence | reflexivity].
    + rewrite last_app_single. lra.
    + discriminate.
  - eexists xs, ys, ds, _. split; [reflexivity |]. split; [exact Hv |].
    repeat split; lra.
Qed.

Section Reflection.
Variable a : axis.

Lemma anti_left_reflection x y d e l r n B S eps :
  valid_knots a n B x y d -> is_anti l = true ->
  SplineTemplate.init Pade22Spline.cls x y (Some d) a e l r = Ok S ->
  Torch.blen a eps = B ->
  (forall q b, (q < Torch.klen a eps)%nat -> (b < B)%nat ->
     0 <= Torch.getk a eps q b
       <= Torch.getk a x (n - 1) b - Torch.getk a x 0 b) ->
  let x0 := Torch.index_select x a [0%nat] in
  let y0 := Torch.index_select y a [0%nat] in
  exists vm vp,
    SplineTemplate.forward Pade22Spline.cls S (x0 - eps)%T false = Value vm /\
    SplineTemplate.forward Pade22Spline.cls S (x0 + eps)%T false = Value vp /\
    vm = (Torch.muls 2 y0 - vp)%T.
Proof.
  intros Hv Ha E Heb Heps. cbv zeta.
  pose proof Hv as (Hal & Hn & Hrows).
  pose proof Hal as ((Hxk & Hxb) & (Hyk & Hyb) & _).
  destruct (init_valid a _ x y d e l r n B S Hv E) as (HaS & (Hws & Hvs) & Hemb).
  set (xm := (Torch.index_select x a [0%nat] - eps)%T).
  set (xp := (Torch.index_select x a [0%nat] + eps)%T).
  assert (Hmk : Torch.klen a xm = Torch.klen a eps)
    by (unfold xm, Torch.sub; shapes; reflexivity).
  assert (Hmb : Torch.blen a xm = B)
    by (unfold xm, Torch.sub; shapes; reflexivity).
  assert (Hpk : Torch.klen a xp = Torch.klen a eps)
    by (unfold xp, Torch.add; shapes; reflexivity).
  assert (Hpb : Torch.blen a xp = B)
    by (unfold xp, Torch.add; shapes; reflexivity).
  destruct (forward_rowwise Pade22 S xm _ B Hws ltac:(now rewrite HaS))
    as (vm & Em & Wm & Hvmk & Hvmb & Hvm).
  destruct (forward_rowwise Pade22 S xp _ B Hws ltac:(now rewrite HaS))
    as (vp & Ep & Wp & Hvpk & Hvpb & Hvp).
  rewrite HaS in *. cbn [class_of] in Em, Ep.
  exists vm, vp. split; [exact Em |]. split; [exact Ep |].
  apply (tensor_extk a); auto.
  - apply wf_map2.
  - unfold Torch.sub, Torch.muls. shapes. congruence.
  - unfold Torch.sub, Torch.muls. shapes. reflexivity.
  - intros q b Hq Hb. rewrite Hvmk, Hmk in Hq. rewrite Hvmb in Hb.
    rewrite Hvm by (rewrite ?Hmk; assumption).
    unfold Torch.sub, Torch.muls.
    rewrite getk_map2_bcast by (shapes; congruence || lia).
    rewrite getk_map1, getk_index_select by (shapes; lia). cbn [nth].
    rewrite Hvp by (rewrite ?Hpk; assumption).
    unfold xm, xp, Torch.sub, Torch.add.
    rewrite !getk_map2_bcast by (shapes; congruence || lia).
    rewrite !getk_index_select by (shapes; lia). cbn [nth].
    specialize (Heps q b Hq Hb). specialize (Hvs b Hb).
    rewrite (Hemb b Hb) in *.
    pose proof (Hrows b Hb) as Hvb. unfold rows_of in *.
    destruct (augmented_rows_anti_left l r _ _ _ Ha Hvb)
      as (xs1 & ys1 & ds1 & [[Rx Ry] Rd] & Er & Hv1 & Hx0 & Hy0 & Hlast & _).
    rewrite Er in *.
    assert (Gx0 : Torch.getk a x 0 b = hd 0 (Torch.fibre a x b))
      by (rewrite <- nth_0_hd, nth_fibre by lia; reflexivity).
    assert (Gy0 : Torch.getk a y 0 b = hd 0 (Torch.fibre a y b))
      by (rewrite <- nth_0_hd, nth_fibre by lia; reflexivity).
    assert (Gxl : Torch.getk a x (n - 1) b = last (Torch.fibre a x b) 0)
      by (rewrite <- nth_last, length_fibre, Hxk, nth_fibre by lia;
          reflexivity).
    rewrite Gx0, Gxl in Heps. rewrite Gx0, Gy0.
    rewrite <- Hx0, <- Hy0.
    replace (hd 0 xs1 - Torch.getk a eps q b)
      with (2 * hd 0 xs1 - (hd 0 xs1 + Torch.getk a eps q b)) by ring.
    apply reflect_row; auto. rewrite Hx0. lra.
Qed.
End Reflection.

(** ** The check of a periodic side, on either axis *)

Lemma py_sum_one_column (t : tensor bool) :
  (1 <= dim0 t)%nat -> dim1 t = 1%nat ->
  py_not (py_sum t)
  = Ok (negb (existsb (fun i => Torch.get t i 0) (seq 0 (dim0 t)))).
Proof.
  intros H0 H1. unfold py_sum. destruct (dim0 t) as [| n0] eqn:E0; [lia |].
  rewrite H1. remember (seq 0 (S n0)) as rows. cbn [seq map py_not].
  f_equal. clear Heqrows. induction rows as [| i rows IH]; [reflexivity |].
  cbn [filter existsb]. destruct (Torch.get t i 0); [reflexivity | exact IH].
Qed.

Lemma periodic_check_Ax1_total (d : tensor R) k :
  (1 <= dim0 d)%nat ->
  exists raise_it, periodic_check Ax1 d k = Ok raise_it.
Proof.
  intros HB. unfold periodic_check.
  rewrite py_sum_one_column by (unfold Torch.eqs; cbn; lia || reflexivity).
  eexists. reflexivity.
Qed.

Lemma periodic_check_Ax1_empty (d : tensor R) k :
  dim0 d = 0%nat -> periodic_check Ax1 d k = Ok true.
Proof.
  intros HB. unfold periodic_check, py_sum.
  replace (dim0 (Torch.eqs (Torch.index_select d Ax1 [k]) 0)) with (dim0 d)
    by reflexivity.
  now rewrite HB.
Qed.

(** Along the first axis the sum has one entry per fibre, and the truth
    value of a tensor with another number of entries than one is refused. *)
Lemma periodic_check_Ax0_refused (d : tensor R) k :
  dim1 d <> 1%nat ->
  periodic_check Ax0 d k
  = Raise (RuntimeError "Boolean value of Tensor is ambiguous").
Proof.
  intros HB. unfold periodic_check, py_sum.
  replace (dim0 (Torch.eqs (Torch.index_select d Ax0 [k]) 0)) with 1%nat
    by reflexivity.
  replace (dim1 (Torch.eqs (Torch.index_select d Ax0 [k]) 0)) with (dim1 d)
    by reflexivity.
  destruct (dim1 d) as [| [| B]]; [reflexivity | congruence | reflexivity].
Qed.

Lemma periodic_is_periodic : is_periodic (Some "periodic"%string) = true.
Proof. reflexivity. Qed.

(** When the check of a side that is periodic raises, [takecare_rest]
    raises that exception. *)
Lemma takecare_rest_check_raises a x y d l r n err :
  Torch.klen a x = n -> (1 <= n)%nat ->
  (is_periodic l = true \/ is_periodic r = true) ->
  periodic_check a d 0 = Raise err ->
  periodic_check a d (n - 1) = Raise err ->
  AugmentKnots.takecare_rest (AugmentKnots.mk x y d a) l r = Raise err.
Proof.
  intros Hxk Hn Hp E0 E1.
  unfold AugmentKnots.takecare_rest, periodic_check, is_periodic in *.
  cbn [AugmentKnots.knots_axis AugmentKnots.knots_x AugmentKnots.knots_y
       AugmentKnots.knots_d].
  rewrite Hxk, slice_to1_range, slice_from_last_range by exact Hn.
  rewrite E0, E1.
  destruct (str_in l ["anti"; "anti-periodic"]%string) eqn:Al.
  - assert (Hl : str_eq l "periodic" = false)
      by (destruct (str_eq l "periodic") eqn:Ep; [| reflexivity];
          pose proof (periodic_not_anti l Ep) as Hc; unfold is_anti in Hc;
          congruence).
    rewrite Hl in Hp. destruct Hp as [Hp | Hp]; [discriminate |].
    pose proof (periodic_not_anti r Hp) as Ar. unfold is_anti in Ar.
    rewrite Ar, Hp. reflexivity.
  - destruct (str_eq l "periodic"); [reflexivity |].
    destruct Hp as [Hp | Hp]; [discriminate |].
    pose proof (periodic_not_anti r Hp) as Ar. unfold is_anti in Ar.
    rewrite Ar, Hp. reflexivity.
Qed.
(** ** Queries, segment by segment *)

Section SegmentInverseEnds.
Variable kind : interpolant.
Variables x0 x1 y0 y1 d0 d1 : R.
Hypothesis Hx : x0 < x1.
Hypothesis Hy : y0 < y1.
Hypothesis Hd0 : 0 < d0.
Hypothesis Hd1 : 0 < d1.

Lemma segment_inv_at_y0 : segment_inv_func kind x0 x1 y0 y1 d0 d1 y0 = x0.
Proof.
  rewrite <- (segment_at_x0 kind x0 x1 y0 y1 d0 d1) at 2.
  apply segment_roundtrip; auto; lra.
Qed.

Lemma segment_inv_at_y1 : segment_inv_func kind x0 x1 y0 y1 d0 d1 y1 = x1.
Proof.
  assert (E : segment_func kind x0 x1 y0 y1 d0 d1 x1 = y1)
    by (apply segment_at_x1; assumption).
  rewrite <- E at 2.
  apply segment_roundtrip; auto; lra.
Qed.
End SegmentInverseEnds.

Section ValidRowsInverse.
Variable kind : interpolant.
Variables xs ys ds : list R.
Hypothesis Hv : valid_rows (xs, ys, ds).

Lemma backward_row_at_knot j :
  (j < length xs)%nat ->
  backward_row kind (xs, ys, ds) (nth j ys 0) = nth j xs 0.
Proof.
  pose proof Hv as (Hn & Hy & Hd & Ix & Iy & Pd). intros Hj.
  unfold backward_row. rewrite <- Hy.
  destruct j as [| j].
  - rewrite segment_of_first by (try lia; lra).
    destruct (valid_segment xs ys ds Hv 0 ltac:(lia)) as (Sx & Sy & Sd0 & Sd1).
    unfold segment_inverse. now apply segment_inv_at_y0.
  - replace (S j) with (j + 1)%nat in * by lia.
    destruct (valid_segment xs ys ds Hv j Hj) as (Sx & Sy & Sd0 & Sd1).
    rewrite (segment_of_between ys _ j) by (try assumption; try lia; lra).
    unfold segment_inverse. now apply segment_inv_at_y1.
Qed.

Lemma backward_row_in_segment i w :
  (i + 1 < length xs)%nat ->
  nth i ys 0 <= w <= nth (i + 1) ys 0 ->
  backward_row kind (xs, ys, ds) w = segment_inverse kind (xs, ys, ds) i w.
Proof.
  pose proof Hv as (Hn & Hy & Hd & Ix & Iy & Pd). intros Hi [Hlo Hhi].
  destruct (Rle_lt_or_eq_dec _ _ Hlo) as [Hlt | Heq].
  - unfold backward_row. rewrite <- Hy.
    rewrite (segment_of_between ys w i) by (try assumption; try lia; lra).
    reflexivity.
  - subst w. rewrite backward_row_at_knot by lia.
    destruct (valid_segment xs ys ds Hv i Hi) as (Sx & Sy & Sd0 & Sd1).
    unfold segment_inverse. symmetry. now apply segment_inv_at_y0.
Qed.
End ValidRowsInverse.

Lemma increasing_below_last l v :
  increasing l -> (1 <= length l)%nat -> nth (length l - 1) l 0 < v ->
  forall i, (i < length l)%nat -> nth i l 0 < v.
Proof.
  intros Hi Hn Hl i Hlt.
  pose proof (increasing_le l i (length l - 1) Hi ltac:(lia)). lra.
Qed.

Section SplineSegments.
Variable kind : interpolant.
Variable S : Spline.
Variables n B : nat.
Hypothesis HS : valid_spline S n B.

Lemma spline_rows_valid b :
  (b < B)%nat ->
  exists xs ys ds,
    spline_rows S b = (xs, ys, ds) /\ valid_rows (xs, ys, ds) /\
    length xs = n /\ length ys = n /\
    forall k, (k < n)%nat ->
      nth k xs 0 = Torch.getk (knots_axis S) (knots_x S) k b /\
      nth k ys 0 = Torch.getk (knots_axis S) (knots_y S) k b /\
      nth k ds 0 = Torch.getk (knots_axis S) (knots_d S) k b.
Proof.
  destruct HS as ((Hal & Hseg & Hn) & Hvs). intros Hb.
  specialize (Hvs b Hb). unfold spline_rows, rows_of in *.
  do 3 eexists. split; [reflexivity |]. split; [exact Hvs |].
  pose proof Hal as ((Hxk & _) & (Hyk & _) & (Hdk & _)).
  rewrite !length_fibre. split; [exact Hxk |]. split; [exact Hyk |].
  intros k Hk. rewrite !nth_fibre by lia. auto.
Qed.

Lemma segment_value_at b j v xs ys ds :
  (forall k, (k < n)%nat ->
     nth k xs 0 = Torch.getk (knots_axis S) (knots_x S) k b /\
     nth k ys 0 = Torch.getk (knots_axis S) (knots_y S) k b /\
     nth k ds 0 = Torch.getk (knots_axis S) (knots_d S) k b) ->
  (j + 1 < n)%nat ->
  segment_value kind (xs, ys, ds) j v = segment_at kind S b j v /\
  segment_inverse kind (xs, ys, ds) j v = inverse_at kind S b j v.
Proof.
  intros Hnth Hj. unfold segment_value, segment_inverse, segment_at, inverse_at.
  destruct (Hnth j ltac:(lia)) as (-> & -> & ->).
  destruct (Hnth (j + 1)%nat ltac:(lia)) as (-> & -> & ->).
  split; reflexivity.
Qed.

Lemma forward_values x :
  Torch.blen (knots_axis S) x = B ->
  exists v,
    SplineTemplate.forward (class_of kind) S x false = Value v /\
    Torch.wf v /\ Torch.shape v = Torch.shape x /\
    forall q b, (q < Torch.klen (knots_axis S) x)%nat -> (b < B)%nat ->
      Torch.getk (knots_axis S) v q b
      = forward_row kind (spline_rows S b) (Torch.getk (knots_axis S) x q b).
Proof.
  intros Hb. destruct HS as (Hws & _).
  destruct (forward_rowwise kind S x n B Hws Hb) as (v & E & W & Hk & Hbl & Hv).
  exists v. split; [exact E |]. split; [exact W |]. split; [| exact Hv].
  unfold Torch.shape. rewrite <- Hb in Hbl. clear - Hk Hbl. revert Hk Hbl.
  destruct (knots_axis S); cbn [Torch.klen Torch.blen]; congruence.
Qed.

Lemma backward_values y :
  Torch.blen (knots_axis S) y = B ->
  exists v,
    SplineTemplate.backward (class_of kind) S y false = Value v /\
    Torch.wf v /\ Torch.shape v = Torch.shape y /\
    forall q b, (q < Torch.klen (knots_axis S) y)%nat -> (b < B)%nat ->
      Torch.getk (knots_axis S) v q b
      = backward_row kind (spline_rows S b) (Torch.getk (knots_axis S) y q b).
Proof.
  intros Hb. destruct HS as (Hws & _).
  destruct (backward_rowwise kind S y n B Hws Hb) as (v & E & W & Hk & Hbl & Hv).
  exists v. split; [exact E |]. split; [exact W |]. split; [| exact Hv].
  unfold Torch.shape. rewrite <- Hb in Hbl. clear - Hk Hbl. revert Hk Hbl.
  destruct (knots_axis S); cbn [Torch.klen Torch.blen]; congruence.
Qed.

(** A query between two neighbouring knots is evaluated with the formula
    of the segment between them; a query outside the knots with the formula
    of the first or of the last segment. *)
Lemma forward_segments x :
  Torch.blen (knots_axis S) x = B ->
  exists v,
    SplineTemplate.forward (class_of kind) S x false = Value v /\
    Torch.shape v = Torch.shape x /\
    forall q b, (q < Torch.klen (knots_axis S) x)%nat -> (b < B)%nat ->
      let a := knots_axis S in
      let u := Torch.getk a x q b in
      (forall j, (j + 1 < n)%nat ->
         Torch.getk a (knots_x S) j b <= u <= Torch.getk a (knots_x S) (j + 1) b ->
         Torch.getk a v q b = segment_at kind S b j u) /\
      (u <= Torch.getk a (knots_x S) 0 b ->
         Torch.getk a v q b = segment_at kind S b 0 u) /\
      (Torch.getk a (knots_x S) (n - 1) b < u ->
         Torch.getk a v q b = segment_at kind S b (n - 2) u).
Proof.
  intros Hb. destruct (forward_values x Hb) as (v & E & W & Hsh & Hv).
  exists v. split; [exact E |]. split; [exact Hsh |].
  intros q b Hq Hbb. cbv zeta. rewrite (Hv q b Hq Hbb).
  destruct (spline_rows_valid b Hbb) as (xs & ys & ds & -> & Hval & Lx & Ly & Hnth).
  pose proof Hval as (Hn & _ & _ & Ix & _).
  repeat apply conj.
  - intros j Hj Hr.
    destruct (Hnth j ltac:(lia)) as (Ej & _).
    destruct (Hnth (j + 1)%nat ltac:(lia)) as (Ej1 & _).
    rewrite (forward_row_in_segment kind xs ys ds Hval j)
      by (rewrite ?Ej, ?Ej1; try lia; exact Hr).
    now apply segment_value_at.
  - intros Hlo. destruct (Hnth 0%nat ltac:(lia)) as (E0 & _).
    rewrite forward_row_below by (rewrite ?E0; try lia; exact Hlo).
    apply segment_value_at; [exact Hnth | lia].
  - intros Hhi. destruct (Hnth (n - 1)%nat ltac:(lia)) as (E1 & _).
    rewrite forward_row_above.
    + rewrite Lx. apply segment_value_at; [exact Hnth | lia].
    + lia.
    + apply increasing_below_last; [exact Ix | lia |]. rewrite Lx, E1. exact Hhi.
Qed.

Lemma backward_segments y :
  Torch.blen (knots_axis S) y = B ->
  exists v,
    SplineTemplate.backward (class_of kind) S y false = Value v /\
    Torch.shape v = Torch.shape y /\
    forall q b, (q < Torch.klen (knots_axis S) y)%nat -> (b < B)%nat ->
      let a := knots_axis S in
      let w := Torch.getk a y q b in
      (forall j, (j + 1 < n)%nat ->
         Torch.getk a (knots_y S) j b <= w <= Torch.getk a (knots_y S) (j + 1) b ->
         Torch.getk a v q b = inverse_at kind S b j w) /\
      (w <= Torch.getk a (knots_y S) 0 b ->
         Torch.getk a v q b = inverse_at kind S b 0 w) /\
      (Torch.getk a (knots_y S) (n - 1) b < w ->
         Torch.getk a v q b = inverse_at kind S b (n - 2) w).
Proof.
  intros Hb. destruct (backward_values y Hb) as (v & E & W & Hsh & Hv).
  exists v. split; [exact E |]. split; [exact Hsh |].
  intros q b Hq Hbb. cbv zeta. rewrite (Hv q b Hq Hbb).
  destruct (spline_rows_valid b Hbb) as (xs & ys & ds & -> & Hval & Lx & Ly & Hnth).
  pose proof Hval as (Hn & _ & _ & _ & Iy & _).
  repeat apply conj.
  - intros j Hj Hr.
    destruct (Hnth j ltac:(lia)) as (_ & Ej & _).
    destruct (Hnth (j + 1)%nat ltac:(lia)) as (_ & Ej1 & _).
    rewrite (backward_row_in_segment kind xs ys ds Hval j)
      by (rewrite ?Ej, ?Ej1; try lia; exact Hr).
    now apply segment_value_at.
  - intros Hlo. destruct (Hnth 0%nat ltac:(lia)) as (_ & E0 & _).
    rewrite backward_row_below by (rewrite ?E0; try lia; exact Hlo).
    apply segment_value_at; [exact Hnth | lia].
  - intros Hhi. destruct (Hnth (n - 1)%nat ltac:(lia)) as (_ & E1 & _).
    rewrite backward_row_above.
    + rewrite Lx. apply segment_value_at; [exact Hnth | lia].
    + lia.
    + lia.
    + apply increasing_below_last; [exact Iy | lia |]. rewrite Ly, E1. exact Hhi.
Qed.
End SplineSegments.
(** ** The sorted search along the knot axis *)

Lemma searchsorted_bounds a (x_sorted x : tensor R) i j :
  Torch.blen a x_sorted = Torch.blen a x ->
  (i < dim0 x)%nat -> (j < dim1 x)%nat ->
  increasing (Torch.fibre a x_sorted (fibre_index a i j)) ->
  let ind := SplineTemplate.searchsorted x_sorted x a in
  let k := Torch.get ind i j in
  let b := fibre_index a i j in
  Torch.shape ind = Torch.shape x /\
  (k <= Torch.klen a x_sorted)%nat /\
  (forall p, (p < k)%nat -> Torch.getk a x_sorted p b < Torch.get x i j) /\
  (forall p, (k <= p < Torch.klen a x_sorted)%nat ->
     Torch.get x i j <= Torch.getk a x_sorted p b).
Proof.
  intros Hb Hi Hj Hinc. cbv zeta.
  destruct (reads_searchsorted a x_sorted x Hb) as (D0 & D1 & Hget).
  rewrite (Hget i j Hi Hj).
  set (s := Torch.fibre a x_sorted (fibre_index a i j)) in *.
  set (v := Torch.get x i j).
  assert (Ls : length s = Torch.klen a x_sorted) by apply length_fibre.
  pose proof (searchsorted_le_length s v) as Hle.
  split; [unfold Torch.shape; congruence |].
  split; [lia |]. split.
  - intros p Hp.
    rewrite <- (nth_fibre a x_sorted (fibre_index a i j) p 0) by lia.
    now apply searchsorted_below.
  - intros p [Hp1 Hp2].
    rewrite <- (nth_fibre a x_sorted (fibre_index a i j) p 0) by lia.
    fold s.
    pose proof (searchsorted_stop s v ltac:(lia)) as Hstop.
    pose proof (increasing_le s (Torch.searchsorted_1d s v) p Hinc ltac:(lia)).
    lra.
Qed.

(** ** [cat] *)

Lemma cat_kept_nil (catlist : list (option (tensor R))) :
  flat_map (fun o => match o with Some u => [u] | None => [] end) catlist = []
  <-> forall o, In o catlist -> o = None.
Proof.
  induction catlist as [| o l IH]; cbn [flat_map].
  - split; [intros _ o [] | reflexivity].
  - destruct o as [u |]; cbn [app].
    + split; [discriminate |]. intros H. specialize (H (Some u) (or_introl eq_refl)).
      discriminate.
    + rewrite IH. split.
      * intros H o [<- | Ho]; auto.
      * intros H o Ho. apply H. now right.
Qed.

Lemma cat_outcomes (catlist : list (option (tensor R))) a :
  (raises (AugmentKnots.cat catlist a) <-> forall o, In o catlist -> o = None) /\
  (forall l1 l2 u,
     catlist = l1 ++ Some u :: l2 ->
     (forall o, In o l1 -> o = None) -> (forall o, In o l2 -> o = None) ->
     AugmentKnots.cat catlist a = Ok u).
Proof.
  split.
  - rewrite <- cat_kept_nil. unfold AugmentKnots.cat, raises.
    destruct (flat_map _ catlist) as [| u [| u' l]]; cbn [length Nat.ltb Nat.leb].
    + split; [reflexivity | eauto].
    + split; [intros [e E]; discriminate | discriminate].
    + split; [intros [e E]; discriminate | discriminate].
  - intros l1 l2 u -> H1 H2. unfold AugmentKnots.cat.
    rewrite flat_map_app. cbn [flat_map].
    apply cat_kept_nil in H1, H2. rewrite H1, H2. reflexivity.
Qed.

(** ** Periodic sides *)

Lemma periodic_selector s : is_periodic s = true -> s = Some "periodic"%string.
Proof.
  destruct s as [s |]; [| discriminate]. unfold is_periodic, str_eq.
  intros E. apply String.eqb_eq in E. now subst s.
Qed.

Lemma linear_selector s : is_linear s = true -> s = Some "linear"%string.
Proof.
  destruct s as [s |]; [| discriminate]. unfold is_linear, str_eq.
  intros E. apply String.eqb_eq in E. now subst s.
Qed.

Lemma rows_length_linear_step l r rows :
  rows_length (linear_step_rows l r rows)
  = (linear_knots l + rows_length rows + linear_knots r)%nat.
Proof.
  destruct rows as [[xs ys] ds]. unfold linear_step_rows, linear_knots.
  destruct (is_linear l), (is_linear r);
    cbn [linear_left_rows linear_right_rows no_rows app_rows rows_length];
    rewrite ?length_app; cbn [length]; lia.
Qed.

Lemma linear_step_embeds_at l r rows :
  uniform_rows rows ->
  embeds_at (linear_knots l) rows (linear_step_rows l r rows).
Proof.
  intros Hu. unfold linear_step_rows.
  replace (linear_knots l)
    with (rows_length (if is_linear l then linear_left_rows rows else no_rows)).
  - apply embeds_app; [| exact Hu].
    destruct rows as [[xs ys] ds]. destruct (is_linear l); cbn; auto.
  - destruct rows as [[xs ys] ds]. unfold linear_knots.
    destruct (is_linear l); reflexivity.
Qed.

Lemma rest_step_embeds_at l r rows :
  uniform_rows rows ->
  embeds_at (reflected_knots l (rows_length rows)) rows (rest_step_rows l r rows).
Proof.
  intros Hu. unfold rest_step_rows.
  replace (reflected_knots l (rows_length rows))
    with (rows_length (if is_anti l then anti_left_rows rows
                       else if is_periodic l then periodic_left_rows rows
                       else no_rows)).
  - apply embeds_app; [| exact Hu].
    destruct rows as [[xs ys] ds]. destruct Hu as [Hy Hd].
    destruct (is_anti l); [| destruct (is_periodic l)];
      cbn [anti_left_rows periodic_left_rows no_rows uniform_rows];
      rewrite ?length_map, ?length_rev, ?length_tl; lia.
  - destruct rows as [[xs ys] ds]. unfold reflected_knots.
    destruct (is_anti l); [| destruct (is_periodic l)];
      cbn [anti_left_rows periodic_left_rows no_rows rows_length orb];
      rewrite ?length_map, ?length_rev, ?length_tl; reflexivity.
Qed.

Lemma augmented_embeds_at l r rows n :
  uniform_rows rows -> rows_length rows = n ->
  embeds_at (knots_offset l r n) rows (augmented_rows l r rows).
Proof.
  intros Hu Hl. unfold augmented_rows, knots_offset.
  destruct (is_None l && is_None r); [apply embeds_refl |].
  destruct (is_linear l || is_linear r).
  - pose proof (linear_step_embeds_at l r rows Hu) as E1.
    destruct (is_None l || is_None r); [exact E1 |].
    pose proof (rest_step_embeds_at l r (linear_step_rows l r rows)
                  (uniform_linear_step l r rows Hu)) as E2.
    rewrite rows_length_linear_step, Hl in E2.
    now apply (embeds_trans _ _ rows _ _ E1 E2).
  - rewrite <- Hl. now apply rest_step_embeds_at.
Qed.

Section PeriodicRejected.
Variable a : axis.

(** With positive derivatives a periodic side is never accepted. *)
Lemma perform_bc_periodic_raises x y d l r n B :
  valid_knots a n B x y d -> (0 < B)%nat ->
  is_periodic l = true \/ is_periodic r = true ->
  raises (AugmentKnots.perform_bc (AugmentKnots.mk x y d a) l r).
Proof.
  intros Hv HB Hp. pose proof Hv as (Hal & Hn & Hrows).
  destruct (AugmentKnots.perform_bc (AugmentKnots.mk x y d a) l r)
    as [self' | err] eqn:E; [exfalso | now exists err].
  revert E. unfold AugmentKnots.perform_bc.
  fold (is_linear l) (is_linear r).
  destruct (is_None l && is_None r) eqn:EN.
  { apply andb_prop in EN as [Nl Nr].
    destruct l, r; try discriminate. destruct Hp; discriminate. }
  destruct (is_linear l || is_linear r) eqn:EL.
  - destruct (takecare_linear_rows a x y d l r n B Hal ltac:(lia))
      as (x1 & y1 & d1 & E1 & Hal1 & Hrows1).
    rewrite E1. cbn [bind].
    assert (ENN : is_None l || is_None r = false).
    { apply orb_prop in EL.
      destruct Hp as [Hp | Hp]; apply periodic_selector in Hp; subst;
        destruct EL as [EL | EL]; try discriminate;
        apply linear_selector in EL; subst; reflexivity. }
    rewrite ENN. intros E.
    assert (Hv1 : valid_knots a (linear_knots l + n + linear_knots r) B
                    x1 y1 d1).
    { split; [exact Hal1 |]. split; [lia |].
      intros b' Hb'. rewrite Hrows1 by exact Hb'.
      apply valid_linear_step. now apply Hrows. }
    destruct (takecare_rest_not_periodic a x1 y1 d1 l r _ B _ Hv1 HB E)
      as [Hl Hr].
    destruct Hp; congruence.
  - intros E.
    destruct (takecare_rest_not_periodic a x y d l r n B _ Hv HB E) as [Hl Hr].
    destruct Hp; congruence.
Qed.

(** The original knots are kept as they are among the augmented ones. *)
Lemma perform_bc_embeds x y d l r n B self' :
  aligned a n B x y d -> (1 <= n)%nat ->
  AugmentKnots.perform_bc (AugmentKnots.mk x y d a) l r = Ok self' ->
  let off := knots_offset l r n in
  (off + n <= Torch.klen a (AugmentKnots.knots_x self'))%nat /\
  forall k b, (k < n)%nat -> (b < B)%nat ->
    Torch.getk a (AugmentKnots.knots_x self') (off + k) b = Torch.getk a x k b /\
    Torch.getk a (AugmentKnots.knots_y self') (off + k) b = Torch.getk a y k b /\
    Torch.getk a (AugmentKnots.knots_d self') (off + k) b = Torch.getk a d k b.
Proof.
  intros Hal Hn E. cbv zeta.
  destruct (perform_bc_rows a x y d l r n B self' Hal Hn E)
    as (x' & y' & d' & -> & Hal' & Hrows).
  cbn [AugmentKnots.knots_x AugmentKnots.knots_y AugmentKnots.knots_d].
  pose proof Hal as ((Hxk & _) & (Hyk & _) & (Hdk & _)).
  pose proof Hal' as ((Hxk' & _) & (Hyk' & _) & (Hdk' & _)).
  assert (Hlen : (knots_offset l r n + n <= augmented_len l r n)%nat).
  { unfold knots_offset, augmented_len.
    destruct (is_None l && is_None r); [lia |].
    destruct (is_linear l || is_linear r); [| lia].
    destruct (is_None l || is_None r); lia. }
  split; [rewrite Hxk'; exact Hlen |].
  intros k b Hk Hb.
  assert (Hu : uniform_rows (rows_of a x y d b)).
  { unfold rows_of, uniform_rows. rewrite !length_fibre. lia. }
  assert (Hl : rows_length (rows_of a x y d b) = n).
  { unfold rows_of, rows_length. now rewrite length_fibre. }
  pose proof (augmented_embeds_at l r _ n Hu Hl) as Hemb.
  rewrite <- (Hrows b Hb) in Hemb. unfold rows_of in Hemb.
  destruct Hemb as [_ Hemb]. rewrite length_fibre, Hxk in Hemb.
  specialize (Hemb k Hk).
  rewrite !nth_fibre in Hemb by lia. exact Hemb.
Qed.
End PeriodicRejected.

Lemma periodic_first_axis_refused x y d l r n :
  Torch.klen Ax0 x = n -> (1 <= n)%nat -> (2 <= dim1 d)%nat ->
  is_periodic l = true \/ is_periodic r = true ->
  exists msg,
    AugmentKnots.takecare_rest (AugmentKnots.mk x y d Ax0) l r
    = Raise (RuntimeError msg).
Proof.
  intros Hk Hn HB Hp. eexists.
  apply (takecare_rest_check_raises Ax0 x y d l r n); auto;
    apply periodic_check_Ax0_refused; lia.
Qed.
(** ** Smoothed derivatives of increasing knots *)

Section SmoothedValid.
Variable a : axis.
Variables x y : tensor R.
Variables n B : nat.
Hypothesis Hx : shaped a n B x.
Hypothesis Hy : shaped a n B y.
Hypothesis Hn : (2 <= n)%nat.
Hypothesis Hinc : forall b, (b < B)%nat ->
  increasing (Torch.fibre a x b) /\ increasing (Torch.fibre a y b).

Lemma slope_positive b k :
  (b < B)%nat -> (k + 1 < n)%nat -> 0 < slope a x y b k.
Proof.
  intros Hb Hk. destruct (Hinc b Hb) as [Ix Iy].
  destruct Hx as [Hxk _], Hy as [Hyk _].
  specialize (Ix k). specialize (Iy k).
  rewrite length_fibre in Ix, Iy. rewrite !nth_fibre in Ix, Iy by lia.
  unfold slope. apply Rdiv_lt_0_compat.
  - specialize (Iy ltac:(lia)). lra.
  - specialize (Ix ltac:(lia)). lra.
Qed.

Lemma valid_of_positive d :
  shaped a n B d ->
  (forall b k, (b < B)%nat -> (k < n)%nat -> 0 < Torch.getk a d k b) ->
  valid_knots a n B x y d.
Proof.
  intros Hd Hpos. split; [repeat split; first [apply Hx | apply Hy | apply Hd] |].
  split; [exact Hn |]. intros b Hb. unfold rows_of, valid_rows.
  rewrite !length_fibre.
  destruct Hx as [Hxk _], Hy as [Hyk _], Hd as [Hdk _].
  destruct (Hinc b Hb) as [Ix Iy].
  repeat apply conj; try lia; auto.
  intros i Hi. rewrite length_fibre in Hi. rewrite nth_fibre by exact Hi.
  apply Hpos; [exact Hb | lia].
Qed.

Lemma template_smoothing_valid bc_type :
  exists d,
    SplineTemplate.smooth_derivatives x y a bc_type = Ok d /\
    valid_knots a n B x y d.
Proof.
  destruct (template_smoothing_spec a x y n B bc_type Hx Hy Hn)
    as (_ & d & E & Hd & Hval).
  exists d. split; [exact E |]. apply valid_of_positive; [exact Hd |].
  intros b k Hb Hk. destruct (Hval b Hb) as (Hmid & Hends & Hones).
  destruct (Nat.eq_dec k 0) as [-> | K0];
    [| destruct (Nat.eq_dec k (n - 1)) as [-> | K1]].
  - destruct (String.string_dec bc_type "ones") as [Eb | Eb].
    + destruct (Hones Eb) as [-> _]. lra.
    + destruct (Hends Eb) as [-> _]. apply slope_positive; [exact Hb | lia].
  - destruct (String.string_dec bc_type "ones") as [Eb | Eb].
    + destruct (Hones Eb) as [_ ->]. lra.
    + destruct (Hends Eb) as [_ ->]. apply slope_positive; [exact Hb | lia].
  - rewrite Hmid by lia.
    pose proof (slope_positive b k Hb ltac:(lia)).
    pose proof (slope_positive b (k - 1) Hb ltac:(lia)). lra.
Qed.

Lemma natural_smoothing_valid :
  exists d,
    Pade11Spline.smooth_derivatives x y a "natural" = Ok d /\
    valid_knots a n B x y d.
Proof.
  destruct (natural_smoothing_spec a x y n B Hx Hy ltac:(lia))
    as (_ & (d & E & Hd & Hval) & _).
  exists d. split; [exact E |]. apply valid_of_positive; [exact Hd |].
  intros b k Hb. destruct (Hval b Hb) as (H0 & Hstep).
  induction k as [| k IH]; intros Hk.
  - rewrite H0. lra.
  - replace (S k) with (k + 1)%nat in * by lia.
    rewrite Hstep by lia. specialize (IH ltac:(lia)).
    pose proof (slope_positive b k Hb ltac:(lia)) as Hs.
    apply Rdiv_lt_0_compat; [| exact IH].
    apply pow_lt. exact Hs.
Qed.

Lemma smoothing_valid kind :
  exists d,
    cls_smooth_derivatives (class_of kind) x y a = Ok d /\
    valid_knots a n B x y d.
Proof.
  destruct kind; cbn [class_of cls_smooth_derivatives Pade22Spline.cls
                      Pade11Spline.cls].
  - apply template_smoothing_valid.
  - apply natural_smoothing_valid.
Qed.
End SmoothedValid.

Section ConstructionSucceeds.
Variable a : axis.

Lemma init_succeeds cls x y d l r n B :
  aligned a n B x y d -> (1 <= n)%nat ->
  is_periodic l = false -> is_periodic r = false ->
  exists S, SplineTemplate.init cls x y (Some d) a true l r = Ok S.
Proof.
  intros Hal Hn Hl Hr. unfold SplineTemplate.init. cbn [negb].
  assert (Hs : Nat.eqb (dim0 x) (dim0 y) && Nat.eqb (dim1 x) (dim1 y) = true).
  { destruct Hal as ((Hxk & Hxb) & (Hyk & Hyb) & _).
    apply andb_true_intro; split; apply Nat.eqb_eq;
      destruct a; cbn [Torch.klen Torch.blen] in *; congruence. }
  rewrite Hs. cbn [negb bind].
  unfold AugmentKnots.call, AugmentKnots.init.
  destruct (perform_bc_ok a x y d l r n B Hal Hn Hl Hr) as [self' E].
  rewrite E. cbn [bind]. eexists. reflexivity.
Qed.

Lemma init_none cls x y d e l r :
  cls_smooth_derivatives cls x y a = Ok d ->
  SplineTemplate.init cls x y None a e l r
  = SplineTemplate.init cls x y (Some d) a e l r.
Proof.
  intros E. unfold SplineTemplate.init. rewrite E. reflexivity.
Qed.

(** Increasing knots with omitted derivatives and no periodic side give a
    valid instance. *)
Lemma init_smoothed_valid kind x y l r n B :
  shaped a n B x -> shaped a n B y -> (2 <= n)%nat ->
  (forall b, (b < B)%nat ->
     increasing (Torch.fibre a x b) /\ increasing (Torch.fibre a y b)) ->
  is_periodic l = false -> is_periodic r = false ->
  exists S,
    SplineTemplate.init (class_of kind) x y None a true l r = Ok S /\
    knots_axis S = a /\
    valid_spline S (augmented_len l r n) B.
Proof.
  intros Hx Hy Hn Hinc Hl Hr.
  destruct (smoothing_valid a x y n B Hx Hy Hn Hinc kind) as (d & Ed & Hv).
  pose proof Hv as (Hal & _).
  destruct (init_succeeds (class_of kind) x y d l r n B Hal ltac:(lia) Hl Hr)
    as [S E].
  exists S. rewrite (init_none _ x y d true l r Ed).
  split; [exact E |].
  destruct (init_valid a _ x y d true l r n B S Hv E) as (Ha & HS & _).
  split; assumption.
Qed.
End ConstructionSucceeds.
(** ** Monotonicity *)

Lemma ratio_lt a b c d : 0 < b -> 0 < d -> a * d < c * b -> a / b < c / d.
Proof.
  intros Hb Hd H.
  replace (a / b) with (a * d * / (b * d)) by (field; split; lra).
  replace (c / d) with (c * b * / (b * d)) by (field; split; lra).
  apply Rmult_lt_compat_r; [| exact H].
  apply Rinv_0_lt_compat. now apply Rmult_lt_0_compat.
Qed.

Section SegmentMonotone.
Variables x0 x1 y0 y1 d0 d1 : R.
Hypothesis Hx : x0 < x1.
Hypothesis Hy : y0 < y1.
Hypothesis Hd0 : 0 < d0.
Hypothesis Hd1 : 0 < d1.

Lemma theta_increasing u w :
  u < w -> (u - x0) / (x1 - x0) < (w - x0) / (x1 - x0).
Proof.
  intros H. unfold Rdiv. apply Rmult_lt_compat_r; [| lra].
  apply Rinv_0_lt_compat. lra.
Qed.

Lemma pade22_increasing u w :
  x0 <= u -> u < w -> w <= x1 ->
  pade22_func x0 x1 y0 y1 d0 d1 u < pade22_func x0 x1 y0 y1 d0 d1 w.
Proof.
  intros Hu Huw Hw.
  pose proof (theta_range x0 x1 Hx u ltac:(lra)) as [Hs0 Hs1].
  pose proof (theta_range x0 x1 Hx w ltac:(lra)) as [Ht0 Ht1].
  pose proof (theta_increasing u w Huw) as Hst.
  pose proof (pade22_den_pos x0 x1 y0 y1 d0 d1 Hx Hy Hd0 Hd1 _ (conj Hs0 Hs1))
    as Ds.
  pose proof (pade22_den_pos x0 x1 y0 y1 d0 d1 Hx Hy Hd0 Hd1 _ (conj Ht0 Ht1))
    as Dt.
  pose proof (slope_pos x0 x1 y0 y1 Hx Hy) as Hm.
  unfold pade22_func. cbv zeta.
  set (m := (y1 - y0) / (x1 - x0)) in *.
  set (s := (u - x0) / (x1 - x0)) in *.
  set (t := (w - x0) / (x1 - x0)) in *.
  apply Rplus_lt_compat_l. apply ratio_lt; [exact Ds | exact Dt |].
  assert (P1 : 0 <= d0 * ((1 - t) * (1 - s)))
    by (apply Rmult_le_pos; [lra |]; apply Rmult_le_pos; lra).
  assert (P2 : 0 < m * (t * (1 - s)))
    by (apply Rmult_lt_0_compat; [lra |]; apply Rmult_lt_0_compat; lra).
  assert (P3 : 0 <= m * (s * (1 - t)))
    by (apply Rmult_le_pos; [lra |]; apply Rmult_le_pos; lra).
  assert (P4 : 0 <= d1 * (t * s))
    by (apply Rmult_le_pos; [lra |]; apply Rmult_le_pos; lra).
  assert (P : 0 < (y1 - y0)
                  * (m * ((t - s)
                          * (d0 * ((1 - t) * (1 - s)) + m * (t * (1 - s))
                             + m * (s * (1 - t)) + d1 * (t * s))))).
  { apply Rmult_lt_0_compat; [lra |].
    apply Rmult_lt_0_compat; [lra |].
    apply Rmult_lt_0_compat; lra. }
  match goal with
  | |- ?L < ?R =>
      assert (E : R - L
                  = (y1 - y0)
                    * (m * ((t - s)
                            * (d0 * ((1 - t) * (1 - s)) + m * (t * (1 - s))
                               + m * (s * (1 - t)) + d1 * (t * s)))))
        by ring
  end.
  lra.
Qed.

Lemma pade11_increasing u w :
  x0 <= u -> u < w -> w <= x1 ->
  pade11_func x0 x1 y0 y1 d0 u < pade11_func x0 x1 y0 y1 d0 w.
Proof.
  intros Hu Huw Hw.
  pose proof (theta_range x0 x1 Hx u ltac:(lra)) as [Hs0 Hs1].
  pose proof (theta_range x0 x1 Hx w ltac:(lra)) as [Ht0 Ht1].
  pose proof (theta_increasing u w Huw) as Hst.
  pose proof (pade11_den_pos x0 x1 y0 y1 d0 Hx Hy Hd0 _ (conj Hs0 Hs1)) as Ds.
  pose proof (pade11_den_pos x0 x1 y0 y1 d0 Hx Hy Hd0 _ (conj Ht0 Ht1)) as Dt.
  pose proof (slope_pos x0 x1 y0 y1 Hx Hy) as Hm.
  unfold pade11_func. cbv zeta.
  set (m := (y1 - y0) / (x1 - x0)) in *.
  set (s := (u - x0) / (x1 - x0)) in *.
  set (t := (w - x0) / (x1 - x0)) in *.
  apply Rplus_lt_compat_l. apply ratio_lt; [exact Ds | exact Dt |].
  assert (P : 0 < (y1 - y0) * (d0 * (m * (t - s)))).
  { apply Rmult_lt_0_compat; [lra |].
    apply Rmult_lt_0_compat; [lra |].
    apply Rmult_lt_0_compat; lra. }
  match goal with
  | |- ?L < ?R =>
      assert (E : R - L = (y1 - y0) * (d0 * (m * (t - s)))) by ring
  end.
  lra.
Qed.

Lemma segment_increasing kind u w :
  x0 <= u -> u < w -> w <= x1 ->
  segment_func kind x0 x1 y0 y1 d0 d1 u < segment_func kind x0 x1 y0 y1 d0 d1 w.
Proof.
  destruct kind; [apply pade22_increasing | apply pade11_increasing].
Qed.
End SegmentMonotone.

Section RowsMonotone.
Variable kind : interpolant.
Variables xs ys ds : list R.
Hypothesis Hv : valid_rows (xs, ys, ds).

Lemma forward_row_increasing u w :
  hd 0 xs <= u -> u < w -> w <= last xs 0 ->
  forward_row kind (xs, ys, ds) u < forward_row kind (xs, ys, ds) w.
Proof.
  pose proof Hv as (Hn & Hy & Hd & Ix & Iy & Pd).
  rewrite <- nth_0_hd, <- nth_last. intros Hu Huw Hw.
  destruct (segment_of_encloses xs u Ix Hn ltac:(lra)) as (Hi & Hiu & _).
  destruct (segment_of_encloses xs w Ix Hn ltac:(lra)) as (Hj & Hjw & Hcase).
  unfold forward_row.
  set (i := segment_of xs (length xs - 1) u) in *.
  set (j := segment_of xs (length xs - 1) w) in *.
  clearbody i j.
  destruct (valid_segment xs ys ds Hv i Hi) as (Six & Siy & Sid0 & Sid1).
  destruct (valid_segment xs ys ds Hv j Hj) as (Sjx & Sjy & Sjd0 & Sjd1).
  assert (Hij : (i <= j)%nat).
  { destruct (le_lt_dec i j) as [H | H]; [exact H | exfalso].
    pose proof (increasing_le xs (j + 1) i Ix ltac:(lia)). lra. }
  unfold segment_value.
  destruct (Nat.eq_dec i j) as [E | NE].
  - subst j. apply segment_increasing; auto; lra.
  - pose proof (segment_value_range kind _ _ _ _ (nth i ds 0)
                  (nth (i + 1) ds 0) Six Siy Sid0 Sid1 u Hiu) as [[_ Vu] _].
    pose proof (segment_value_range kind _ _ _ _ (nth j ds 0)
                  (nth (j + 1) ds 0) Sjx Sjy Sjd0 Sjd1 w Hjw) as [_ Vw].
    pose proof (increasing_le ys (i + 1) j Iy ltac:(lia)) as Hyy.
    destruct Hcase as [Hlt | [E0 _]]; [| lia].
    specialize (Vw Hlt). lra.
Qed.
End RowsMonotone.

(** [forward] of a valid instance increases strictly along each fibre, on
    queries within the knots. *)
Lemma forward_increasing kind S x n B :
  valid_spline S n B -> Torch.blen (knots_axis S) x = B ->
  within_knots S x ->
  exists v,
    SplineTemplate.forward (class_of kind) S x false = Value v /\
    forall p q b,
      (p < Torch.klen (knots_axis S) x)%nat ->
      (q < Torch.klen (knots_axis S) x)%nat -> (b < B)%nat ->
      Torch.getk (knots_axis S) x p b < Torch.getk (knots_axis S) x q b ->
      Torch.getk (knots_axis S) v p b < Torch.getk (knots_axis S) v q b.
Proof.
  intros HS Hb Hin.
  destruct (forward_values kind S n B HS x Hb) as (v & E & _ & _ & Hval).
  exists v. split; [exact E |]. intros p q b Hp Hq Hbb Hlt.
  rewrite !Hval by assumption.
  destruct HS as (_ & Hvs). specialize (Hvs b Hbb).
  pose proof (Hin p b Hp ltac:(now rewrite Hb)) as [Hp0 _].
  pose proof (Hin q b Hq ltac:(now rewrite Hb)) as [_ Hq1].
  unfold spline_rows, rows_of in *.
  now apply forward_row_increasing.
Qed.
(** ** Two knots *)

Lemma pade22_line x0 x1 y0 y1 u :
  x0 <> x1 -> y0 <> y1 ->
  let m := (y1 - y0) / (x1 - x0) in
  pade22_func x0 x1 y0 y1 m m u = y0 + m * (u - x0).
Proof.
  intros Hx Hy. cbv zeta. unfold pade22_func. cbv zeta. field.
  split; [lra |].
  match goal with
  | |- ?e <> 0 =>
      replace e with ((y1 - y0) * ((x1 - x0) * (x1 - x0))) by ring
  end.
  repeat apply Rmult_integral_contrapositive_currified; lra.
Qed.

Lemma segment_of_one s v : segment_of s 1 v = 0%nat.
Proof. unfold segment_of. lia. Qed.

(** With two knots and omitted derivatives the rational quadratic spline
    is the line through the two knots, at every query. *)
Lemma two_knots_line a x y B q :
  shaped a 2 B x -> shaped a 2 B y ->
  (forall b, (b < B)%nat ->
     Torch.getk a x 0 b <> Torch.getk a x 1 b /\
     Torch.getk a y 0 b <> Torch.getk a y 1 b) ->
  Torch.blen a q = B ->
  exists S v,
    SplineTemplate.init Pade22Spline.cls x y None a true None None = Ok S /\
    SplineTemplate.forward Pade22Spline.cls S q false = Value v /\
    Torch.shape v = Torch.shape q /\
    forall k b, (k < Torch.klen a q)%nat -> (b < B)%nat ->
      Torch.getk a v k b
      = Torch.getk a y 0 b
        + slope a x y b 0 * (Torch.getk a q k b - Torch.getk a x 0 b).
Proof.
  intros Hx Hy Hne Hq.
  destruct (template_smoothing_spec a x y 2 B "not-ones" Hx Hy (le_n 2))
    as (Ecls & d & Ed & Hd & Hval).
  assert (Hal : aligned a 2 B x y d) by (repeat split; first [apply Hx | apply Hy | apply Hd]).
  destruct (init_succeeds a Pade22Spline.cls x y d None None 2 B Hal
              ltac:(lia) eq_refl eq_refl) as [S E].
  destruct (init_rows a Pade22Spline.cls x y d true None None 2 B S Hal
              ltac:(lia) E) as (Ha & Hal' & _ & Hseg & _ & Hrows).
  cbn [augmented_len is_None andb] in Hal', Hseg.
  assert (Hws : well_shaped S 2 B).
  { unfold well_shaped. rewrite Ha. split; [exact Hal' |]. split; [exact Hseg | lia]. }
  destruct (forward_rowwise Pade22 S q 2 B Hws ltac:(now rewrite Ha))
    as (v & Ev & _ & Hvk & Hvb & Hv).
  exists S, v.
  split; [rewrite (init_none a _ x y d true None None); [exact E | ] |].
  { rewrite Ecls. exact Ed. }
  split; [exact Ev |]. rewrite Ha in *.
  split.
  { unfold Torch.shape. rewrite <- Hq in Hvb. clear - Hvk Hvb. revert Hvk Hvb.
    destruct a; cbn [Torch.klen Torch.blen]; congruence. }
  intros k b Hk Hb. rewrite (Hv k b Hk Hb).
  unfold spline_rows. rewrite Ha, (Hrows b Hb).
  cbn [augmented_rows is_None andb]. unfold rows_of, forward_row.
  destruct Hx as [Hxk _], Hy as [Hyk _], Hd as [Hdk _].
  rewrite length_fibre, Hxk. cbn [Nat.sub]. rewrite segment_of_one.
  unfold segment_value. cbn [Nat.add segment_func].
  rewrite !nth_fibre by lia.
  destruct (Hval b Hb) as (_ & Hends & _).
  destruct (Hends ltac:(discriminate)) as [D0 D1]. cbn [Nat.sub] in D1.
  rewrite D0, D1. unfold slope. cbn [Nat.add].
  destruct (Hne b Hb) as [Nx Ny].
  now apply pade22_line.
Qed.
(** ** The derivative formulas *)

Section DerivativeRules.
Variables f g : R -> R.
Variables x l1 l2 : R.

Lemma dpl_const c : derivable_pt_lim (fun _ => c) x 0.
Proof. apply (derivable_pt_lim_const c x). Qed.

Lemma dpl_id : derivable_pt_lim (fun t => t) x 1.
Proof. apply (derivable_pt_lim_id x). Qed.

Lemma dpl_plus :
  derivable_pt_lim f x l1 -> derivable_pt_lim g x l2 ->
  derivable_pt_lim (fun t => f t + g t) x (l1 + l2).
Proof. apply derivable_pt_lim_plus. Qed.

Lemma dpl_minus :
  derivable_pt_lim f x l1 -> derivable_pt_lim g x l2 ->
  derivable_pt_lim (fun t => f t - g t) x (l1 - l2).
Proof. apply derivable_pt_lim_minus. Qed.

Lemma dpl_mult :
  derivable_pt_lim f x l1 -> derivable_pt_lim g x l2 ->
  derivable_pt_lim (fun t => f t * g t) x (l1 * g x + f x * l2).
Proof. apply derivable_pt_lim_mult. Qed.

Lemma dpl_div :
  derivable_pt_lim f x l1 -> derivable_pt_lim g x l2 -> g x <> 0 ->
  derivable_pt_lim (fun t => f t / g t) x ((l1 * g x - l2 * f x) / (g x)²).
Proof. apply derivable_pt_lim_div. Qed.

Lemma dpl_eq l l' :
  derivable_pt_lim f x l -> l = l' -> derivable_pt_lim f x l'.
Proof. now intros H <-. Qed.
End DerivativeRules.

Ltac dpl_step :=
  lazymatch goal with
  | |- derivable_pt_lim (fun t => t) _ _ => apply dpl_id
  | |- derivable_pt_lim (fun t => ?a + ?b) _ _ =>
      first [apply dpl_const
            | apply (dpl_plus (fun t => a) (fun t => b))]
  | |- derivable_pt_lim (fun t => ?a - ?b) _ _ =>
      first [apply dpl_const
            | apply (dpl_minus (fun t => a) (fun t => b))]
  | |- derivable_pt_lim (fun t => ?a * ?b) _ _ =>
      first [apply dpl_const
            | apply (dpl_mult (fun t => a) (fun t => b))]
  | |- derivable_pt_lim (fun t => ?a / ?b) _ _ =>
      first [apply dpl_const
            | apply (dpl_div (fun t => a) (fun t => b))]
  | |- derivable_pt_lim (fun _ => _) _ _ => apply dpl_const
  end.

Section SegmentDerivative.
Variables x0 x1 y0 y1 d0 d1 : R.
Hypothesis Hx : x0 < x1.
Hypothesis Hy : y0 < y1.
Hypothesis Hd0 : 0 < d0.
Hypothesis Hd1 : 0 < d1.

Lemma pade22_derivative u :
  x0 <= u <= x1 ->
  derivable_pt_lim (pade22_func x0 x1 y0 y1 d0 d1) u
    (pade22_grad x0 x1 y0 y1 d0 d1 u).
Proof.
  intros Hu.
  pose proof (theta_range x0 x1 Hx u Hu) as Ht.
  pose proof (pade22_den_pos x0 x1 y0 y1 d0 d1 Hx Hy Hd0 Hd1 _ Ht) as HD.
  unfold pade22_func. cbv zeta.
  eapply dpl_eq.
  - repeat dpl_step; cbv beta; lra.
  - cbv beta. unfold pade22_grad. cbv zeta. unfold Rsqr. field.
    split; [lra |].
    match goal with
    | |- ?e <> 0 =>
        match type of HD with
        | 0 < ?D =>
            replace e with (D * ((x1 - x0) * ((x1 - x0) * (x1 - x0))))
              by (field; lra)
        end
    end.
    repeat apply Rmult_integral_contrapositive_currified; lra.
Qed.

Lemma pade11_derivative u :
  x0 <= u <= x1 ->
  derivable_pt_lim (pade11_func x0 x1 y0 y1 d0) u
    (pade11_grad x0 x1 y0 y1 d0 u).
Proof.
  intros Hu.
  pose proof (theta_range x0 x1 Hx u Hu) as Ht.
  pose proof (pade11_den_pos x0 x1 y0 y1 d0 Hx Hy Hd0 _ Ht) as HD.
  unfold pade11_func. cbv zeta.
  eapply dpl_eq.
  - repeat dpl_step; cbv beta; lra.
  - cbv beta. unfold pade11_grad. cbv zeta. unfold Rsqr. field.
    split; [lra |].
    match goal with
    | |- ?e <> 0 =>
        match type of HD with
        | 0 < ?D =>
            replace e with (D * ((x1 - x0) * (x1 - x0))) by (field; lra)
        end
    end.
    repeat apply Rmult_integral_contrapositive_currified; lra.
Qed.
End SegmentDerivative.
Section SegmentGradient.
Variables x0 x1 y0 y1 d0 d1 : R.
Hypothesis Hx : x0 < x1.
Hypothesis Hy : y0 < y1.
Hypothesis Hd0 : 0 < d0.
Hypothesis Hd1 : 0 < d1.

Lemma pade22_grad_pos u :
  x0 <= u <= x1 -> 0 < pade22_grad x0 x1 y0 y1 d0 d1 u.
Proof.
  intros Hu.
  pose proof (theta_range x0 x1 Hx u Hu) as Ht.
  pose proof (pade22_den_pos x0 x1 y0 y1 d0 d1 Hx Hy Hd0 Hd1 _ Ht) as HD.
  pose proof (pade22_num_pos x0 x1 y0 y1 d0 d1 Hx Hy Hd0 Hd1 _ Ht) as HN.
  pose proof (slope_pos x0 x1 y0 y1 Hx Hy) as Hm.
  unfold pade22_grad. cbv zeta.
  apply Rdiv_lt_0_compat.
  - apply Rmult_lt_0_compat; [apply pow_lt; exact Hm | exact HN].
  - apply pow_lt. exact HD.
Qed.

Lemma pade11_grad_pos u :
  x0 <= u <= x1 -> 0 < pade11_grad x0 x1 y0 y1 d0 u.
Proof.
  intros Hu.
  pose proof (theta_range x0 x1 Hx u Hu) as Ht.
  pose proof (pade11_den_pos x0 x1 y0 y1 d0 Hx Hy Hd0 _ Ht) as HD.
  pose proof (slope_pos x0 x1 y0 y1 Hx Hy) as Hm.
  unfold pade11_grad. cbv zeta.
  apply Rdiv_lt_0_compat.
  - apply Rmult_lt_0_compat; [apply pow_lt; exact Hm | exact Hd0].
  - apply pow_lt. exact HD.
Qed.

Lemma pade22_grad_x0 : pade22_grad x0 x1 y0 y1 d0 d1 x0 = d0.
Proof.
  pose proof (slope_pos x0 x1 y0 y1 Hx Hy) as Hm.
  unfold pade22_grad. cbv zeta.
  replace ((x0 - x0) / (x1 - x0)) with 0 by (field; lra).
  set (m := (y1 - y0) / (x1 - x0)) in *. field. lra.
Qed.

Lemma pade22_grad_x1 : pade22_grad x0 x1 y0 y1 d0 d1 x1 = d1.
Proof.
  pose proof (slope_pos x0 x1 y0 y1 Hx Hy) as Hm.
  unfold pade22_grad. cbv zeta.
  replace ((x1 - x0) / (x1 - x0)) with 1 by (field; lra).
  set (m := (y1 - y0) / (x1 - x0)) in *. field. lra.
Qed.

Lemma pade11_grad_x0 : pade11_grad x0 x1 y0 y1 d0 x0 = d0.
Proof.
  pose proof (slope_pos x0 x1 y0 y1 Hx Hy) as Hm.
  unfold pade11_grad. cbv zeta.
  replace ((x0 - x0) / (x1 - x0)) with 0 by (field; lra).
  set (m := (y1 - y0) / (x1 - x0)) in *. field. lra.
Qed.
End SegmentGradient.

Section SegmentKindGradient.
Variable kind : interpolant.
Variables x0 x1 y0 y1 d0 d1 : R.
Hypothesis Hx : x0 < x1.
Hypothesis Hy : y0 < y1.
Hypothesis Hd0 : 0 < d0.
Hypothesis Hd1 : 0 < d1.

Lemma segment_derivative u :
  x0 <= u <= x1 ->
  derivable_pt_lim (segment_func kind x0 x1 y0 y1 d0 d1) u
    (segment_grad kind x0 x1 y0 y1 d0 d1 u).
Proof.
  destruct kind; cbn [segment_func segment_grad].
  - change (fun v => pade22_func x0 x1 y0 y1 d0 d1 v)
      with (pade22_func x0 x1 y0 y1 d0 d1).
    now apply pade22_derivative.
  - change (fun v => pade11_func x0 x1 y0 y1 d0 v)
      with (pade11_func x0 x1 y0 y1 d0).
    now apply pade11_derivative.
Qed.

Lemma segment_grad_pos u :
  x0 <= u <= x1 -> 0 < segment_grad kind x0 x1 y0 y1 d0 d1 u.
Proof.
  destruct kind; [now apply pade22_grad_pos | now apply pade11_grad_pos].
Qed.

Lemma segment_grad_x0 : segment_grad kind x0 x1 y0 y1 d0 d1 x0 = d0.
Proof.
  destruct kind; [now apply pade22_grad_x0 | now apply pade11_grad_x0].
Qed.

Lemma segment_continuous u :
  x0 <= u <= x1 -> continuity_pt (segment_func kind x0 x1 y0 y1 d0 d1) u.
Proof.
  intros Hu. apply derivable_continuous_pt.
  exists (segment_grad kind x0 x1 y0 y1 d0 d1 u).
  now apply segment_derivative.
Qed.

(** Every value between [y0] and [y1] is taken within the segment. *)
Lemma segment_onto w :
  y0 <= w <= y1 ->
  exists z, x0 <= z <= x1 /\ segment_func kind x0 x1 y0 y1 d0 d1 z = w.
Proof.
  intros [Hlo Hhi].
  destruct (Rle_lt_or_eq_dec _ _ Hlo) as [Hlt | <-];
    [| exists x0; split; [lra | apply segment_at_x0]].
  destruct (Rle_lt_or_eq_dec _ _ Hhi) as [Hlt' | ->];
    [| exists x1; split; [lra | now apply segment_at_x1]].
  set (f := segment_func kind x0 x1 y0 y1 d0 d1).
  destruct (IVT_interv (fun t => f t - w) x0 x1) as (z & Hz & Ez).
  - intros t Ht.
    apply (continuity_pt_minus f (fun _ => w)).
    + now apply segment_continuous.
    + apply continuity_pt_const. intros ? ?. reflexivity.
  - exact Hx.
  - unfold f. rewrite segment_at_x0. lra.
  - unfold f. rewrite segment_at_x1 by assumption. lra.
  - exists z. split; [exact Hz |]. fold f. lra.
Qed.

Lemma segment_inverse_range w :
  y0 <= w <= y1 ->
  x0 <= segment_inv_func kind x0 x1 y0 y1 d0 d1 w <= x1.
Proof.
  intros Hw. destruct (segment_onto w Hw) as (z & Hz & <-).
  rewrite segment_roundtrip by assumption. exact Hz.
Qed.

Lemma segment_right_inverse w :
  y0 <= w <= y1 ->
  segment_func kind x0 x1 y0 y1 d0 d1
    (segment_inv_func kind x0 x1 y0 y1 d0 d1 w) = w.
Proof.
  intros Hw. destruct (segment_onto w Hw) as (z & Hz & <-).
  now rewrite segment_roundtrip by assumption.
Qed.
End SegmentKindGradient.
(** ** The inverse, from values back to queries *)

Section ValidRowsRightInverse.
Variable kind : interpolant.
Variables xs ys ds : list R.
Hypothesis Hv : valid_rows (xs, ys, ds).

(** [backward] of a value within the knot values lies in the segment it
    was searched in, and [forward] maps it back. *)
Lemma backward_row_encloses w :
  hd 0 ys <= w <= last ys 0 ->
  exists i,
    (i + 1 < length xs)%nat /\
    nth i ys 0 <= w <= nth (i + 1) ys 0 /\
    backward_row kind (xs, ys, ds) w = segment_inverse kind (xs, ys, ds) i w /\
    nth i xs 0 <= backward_row kind (xs, ys, ds) w <= nth (i + 1) xs 0.
Proof.
  pose proof Hv as (Hn & Hy & Hd & Ix & Iy & Pd).
  rewrite <- nth_0_hd, <- nth_last. intros Hr.
  destruct (segment_of_encloses ys w Iy ltac:(lia) Hr) as (Hi & Henc & _).
  set (i := segment_of ys (length ys - 1) w) in *. clearbody i.
  exists i. rewrite Hy in Hi. split; [exact Hi |]. split; [exact Henc |].
  rewrite (backward_row_in_segment kind xs ys ds Hv i w Hi Henc).
  split; [reflexivity |].
  destruct (valid_segment xs ys ds Hv i Hi) as (Sx & Sy & Sd0 & Sd1).
  unfold segment_inverse. now apply segment_inverse_range.
Qed.

Lemma right_inverse_row w :
  hd 0 ys <= w <= last ys 0 ->
  forward_row kind (xs, ys, ds) (backward_row kind (xs, ys, ds) w) = w.
Proof.
  intros Hr. destruct (backward_row_encloses w Hr) as (i & Hi & Hw & E & Hz).
  rewrite (forward_row_in_segment kind xs ys ds Hv i _ Hi Hz).
  rewrite E. destruct (valid_segment xs ys ds Hv i Hi) as (Sx & Sy & Sd0 & Sd1).
  unfold segment_value, segment_inverse. now apply segment_right_inverse.
Qed.
End ValidRowsRightInverse.

Lemma right_inverse_valid_spline kind S y n B :
  valid_spline S n B -> Torch.blen (knots_axis S) y = B -> Torch.wf y ->
  within_values S y ->
  exists x,
    SplineTemplate.backward (class_of kind) S y false = Value x /\
    SplineTemplate.forward (class_of kind) S x false = Value y.
Proof.
  intros (Hws & Hvs) Hb Wy Hin.
  destruct (backward_rowwise kind S y n B Hws Hb)
    as (x & Ex & Wx & Hxk & Hxb & Hx).
  destruct (forward_rowwise kind S x n B Hws Hxb)
    as (y' & Ey & Wy' & Hyk & Hyb & Hy).
  exists x. split; [exact Ex |]. rewrite Ey. f_equal.
  apply (tensor_extk (knots_axis S)); auto; try congruence.
  intros q b Hq Hb'. rewrite Hyk, Hxk in Hq. rewrite Hyb in Hb'.
  rewrite Hy by (rewrite ?Hxk; assumption).
  rewrite Hx by assumption.
  specialize (Hvs b Hb'). specialize (Hin q b Hq ltac:(now rewrite Hb)).
  unfold spline_rows, rows_of in *.
  now apply right_inverse_row.
Qed.
(** ** Evaluation with [grad=True] *)

Lemma reads_pade22_grad S idx x n0 n1 gi gx :
  reads n0 n1 idx gi -> reads n0 n1 x gx ->
  exists v g,
    Pade22Spline._calc_segment_func S idx true x = ValueGrad v g /\
    Pade22Spline._calc_segment_func S idx false x = Value v /\
    Torch.wf g /\
    reads n0 n1 g
      (fun i j =>
         let k := (Nat.min (Nat.max (gi i j) 1) (segm_len S) - 1)%nat in
         let b := fibre_index (knots_axis S) i j in
         let a := knots_axis S in
         pade22_grad (Torch.getk a (knots_x S) k b)
           (Torch.getk a (knots_x S) (k + 1) b)
           (Torch.getk a (knots_y S) k b)
           (Torch.getk a (knots_y S) (k + 1) b)
           (Torch.getk a (knots_d S) k b)
           (Torch.getk a (knots_d S) (k + 1) b)
           (gx i j)).
Proof.
  intros Hi Hx. do 2 eexists. split; [reflexivity |]. split; [reflexivity |].
  split; [apply wf_map2 |].
  unfold pade22_grad. cbv zeta. unfold_ops.
  eapply reads_ext; [reads_steps |].
  intros i j _ _. cbv beta. rewrite !Nat.add_0_r. reflexivity.
Qed.

Lemma reads_pade11_grad S idx x n0 n1 gi gx :
  reads n0 n1 idx gi -> reads n0 n1 x gx ->
  exists v g,
    Pade11Spline._calc_segment_func S idx true x = ValueGrad v g /\
    Pade11Spline._calc_segment_func S idx false x = Value v /\
    Torch.wf g /\
    reads n0 n1 g
      (fun i j =>
         let k := (Nat.min (Nat.max (gi i j) 1) (segm_len S) - 1)%nat in
         let b := fibre_index (knots_axis S) i j in
         let a := knots_axis S in
         pade11_grad (Torch.getk a (knots_x S) k b)
           (Torch.getk a (knots_x S) (k + 1) b)
           (Torch.getk a (knots_y S) k b)
           (Torch.getk a (knots_y S) (k + 1) b)
           (Torch.getk a (knots_d S) k b)
           (gx i j)).
Proof.
  intros Hi Hx. do 2 eexists. split; [reflexivity |]. split; [reflexivity |].
  split; [apply wf_map2 |].
  unfold pade11_grad. cbv zeta. unfold_ops.
  eapply reads_ext; [reads_steps |].
  intros i j _ _. cbv beta. rewrite !Nat.add_0_r. reflexivity.
Qed.

Lemma reads_pade22_inv_grad S idx y n0 n1 gi gy :
  reads n0 n1 idx gi -> reads n0 n1 y gy ->
  exists v g,
    Pade22Spline._calc_segment_inv_func S idx true y = ValueGrad v g /\
    Pade22Spline._calc_segment_inv_func S idx false y = Value v /\
    Torch.wf g /\
    reads n0 n1 g
      (fun i j =>
         let k := (Nat.min (Nat.max (gi i j) 1) (segm_len S) - 1)%nat in
         let b := fibre_index (knots_axis S) i j in
         let a := knots_axis S in
         pade22_inv_grad (Torch.getk a (knots_x S) k b)
           (Torch.getk a (knots_x S) (k + 1) b)
           (Torch.getk a (knots_y S) k b)
           (Torch.getk a (knots_y S) (k + 1) b)
           (Torch.getk a (knots_d S) k b)
           (Torch.getk a (knots_d S) (k + 1) b)
           (gy i j)).
Proof.
  intros Hi Hy. do 2 eexists. split; [reflexivity |]. split; [reflexivity |].
  split; [apply wf_map1 |].
  unfold pade22_inv_grad. cbv zeta. unfold_ops.
  eapply reads_ext; [reads_steps |].
  intros i j _ _. cbv beta. rewrite !Nat.add_0_r. reflexivity.
Qed.

Lemma reads_pade11_inv_grad S idx y n0 n1 gi gy :
  reads n0 n1 idx gi -> reads n0 n1 y gy ->
  exists v g,
    Pade11Spline._calc_segment_inv_func S idx true y = ValueGrad v g /\
    Pade11Spline._calc_segment_inv_func S idx false y = Value v /\
    Torch.wf g /\
    reads n0 n1 g
      (fun i j =>
         let k := (Nat.min (Nat.max (gi i j) 1) (segm_len S) - 1)%nat in
         let b := fibre_index (knots_axis S) i j in
         let a := knots_axis S in
         pade11_inv_grad (Torch.getk a (knots_x S) k b)
           (Torch.getk a (knots_x S) (k + 1) b)
           (Torch.getk a (knots_y S) k b)
           (Torch.getk a (knots_y S) (k + 1) b)
           (Torch.getk a (knots_d S) k b)
           (gy i j)).
Proof.
  intros Hi Hy. do 2 eexists. split; [reflexivity |]. split; [reflexivity |].
  split; [apply wf_map1 |].
  unfold pade11_inv_grad. cbv zeta. unfold_ops.
  eapply reads_ext; [reads_steps |].
  intros i j _ _. cbv beta. rewrite !Nat.add_0_r. reflexivity.
Qed.

Lemma forward_grad_reads kind S x :
  Torch.blen (knots_axis S) (knots_x S) = Torch.blen (knots_axis S) x ->
  exists v g,
    SplineTemplate.forward (class_of kind) S x true = ValueGrad v g /\
    SplineTemplate.forward (class_of kind) S x false = Value v /\
    Torch.wf g /\
    reads (dim0 x) (dim1 x) g
      (fun i j =>
         let a := knots_axis S in
         let b := fibre_index a i j in
         let k := segment_of (Torch.fibre a (knots_x S) b) (segm_len S)
                    (Torch.get x i j) in
         segment_grad kind (Torch.getk a (knots_x S) k b)
           (Torch.getk a (knots_x S) (k + 1) b)
           (Torch.getk a (knots_y S) k b)
           (Torch.getk a (knots_y S) (k + 1) b)
           (Torch.getk a (knots_d S) k b)
           (Torch.getk a (knots_d S) (k + 1) b)
           (Torch.get x i j)).
Proof.
  intros Hb. unfold SplineTemplate.forward.
  pose proof (reads_searchsorted (knots_axis S) (knots_x S) x Hb) as Hs.
  destruct kind; cbn [class_of cls_calc_segment_func Pade22Spline.cls
                      Pade11Spline.cls].
  - destruct (reads_pade22_grad S _ x _ _ _ _ Hs (reads_self x))
      as (v & g & E & E' & W & Hv).
    exists v, g. split; [exact E |]. split; [exact E' |].
    split; [exact W |]. exact Hv.
  - destruct (reads_pade11_grad S _ x _ _ _ _ Hs (reads_self x))
      as (v & g & E & E' & W & Hv).
    exists v, g. split; [exact E |]. split; [exact E' |].
    split; [exact W |]. exact Hv.
Qed.

Lemma backward_grad_reads kind S y :
  Torch.blen (knots_axis S) (knots_y S) = Torch.blen (knots_axis S) y ->
  exists v g,
    SplineTemplate.backward (class_of kind) S y true = ValueGrad v g /\
    SplineTemplate.backward (class_of kind) S y false = Value v /\
    Torch.wf g /\
    reads (dim0 y) (dim1 y) g
      (fun i j =>
         let a := knots_axis S in
         let b := fibre_index a i j in
         let k := segment_of (Torch.fibre a (knots_y S) b) (segm_len S)
                    (Torch.get y i j) in
         segment_inv_grad kind (Torch.getk a (knots_x S) k b)
           (Torch.getk a (knots_x S) (k + 1) b)
           (Torch.getk a (knots_y S) k b)
           (Torch.getk a (knots_y S) (k + 1) b)
           (Torch.getk a (knots_d S) k b)
           (Torch.getk a (knots_d S) (k + 1) b)
           (Torch.get y i j)).
Proof.
  intros Hb. unfold SplineTemplate.backward.
  pose proof (reads_searchsorted (knots_axis S) (knots_y S) y Hb) as Hs.
  destruct kind; cbn [class_of cls_calc_segment_inv_func Pade22Spline.cls
                      Pade11Spline.cls].
  - destruct (reads_pade22_inv_grad S _ y _ _ _ _ Hs (reads_self y))
      as (v & g & E & E' & W & Hv).
    exists v, g. split; [exact E |]. split; [exact E' |].
    split; [exact W |]. exact Hv.
  - destruct (reads_pade11_inv_grad S _ y _ _ _ _ Hs (reads_self y))
      as (v & g & E & E' & W & Hv).
    exists v, g. split; [exact E |]. split; [exact E' |].
    split; [exact W |]. exact Hv.
Qed.

(** The gradient, fibre by fibre. *)
Lemma forward_grad_rowwise kind S x n B :
  well_shaped S n B -> Torch.blen (knots_axis S) x = B ->
  exists v g,
    SplineTemplate.forward (class_of kind) S x true = ValueGrad v g /\
    SplineTemplate.forward (class_of kind) S x false = Value v /\
    Torch.wf g /\
    Torch.klen (knots_axis S) g = Torch.klen (knots_axis S) x /\
    Torch.blen (knots_axis S) g = B /\
    forall q b, (q < Torch.klen (knots_axis S) x)%nat -> (b < B)%nat ->
      let a := knots_axis S in
      let u := Torch.getk a x q b in
      Torch.getk a g q b
      = grad_at kind S b (segment_of (Torch.fibre a (knots_x S) b) (n - 1) u) u.
Proof.
  intros (((Hxk & Hxb) & (Hyk & Hyb) & (Hdk & Hdb)) & Hseg & Hn) Hb.
  destruct (forward_grad_reads kind S x) as (v & g & E & E' & W & Hv);
    [congruence |].
  exists v, g. split; [exact E |]. split; [exact E' |]. split; [exact W |].
  destruct (reads_shaped (knots_axis S) g x _ Hv) as [Hk Hbv].
  split; [exact Hk |]. split; [congruence |].
  intros q b Hq Hb'. cbv zeta.
  rewrite (reads_getk (knots_axis S) g x _ q b Hv)
    by (try rewrite Hb; assumption).
  unfold grad_at. rewrite Hseg.
  destruct (knots_axis S); cbv zeta; cbn [fibre_index Torch.getk];
    reflexivity.
Qed.

Lemma backward_grad_rowwise kind S y n B :
  well_shaped S n B -> Torch.blen (knots_axis S) y = B ->
  exists v g,
    SplineTemplate.backward (class_of kind) S y true = ValueGrad v g /\
    SplineTemplate.backward (class_of kind) S y false = Value v /\
    Torch.wf g /\
    Torch.klen (knots_axis S) g = Torch.klen (knots_axis S) y /\
    Torch.blen (knots_axis S) g = B /\
    forall q b, (q < Torch.klen (knots_axis S) y)%nat -> (b < B)%nat ->
      let a := knots_axis S in
      let w := Torch.getk a y q b in
      let k := segment_of (Torch.fibre a (knots_y S) b) (n - 1) w in
      Torch.getk a g q b
      = segment_inv_grad kind
          (Torch.getk a (knots_x S) k b) (Torch.getk a (knots_x S) (k + 1) b)
          (Torch.getk a (knots_y S) k b) (Torch.getk a (knots_y S) (k + 1) b)
          (Torch.getk a (knots_d S) k b) (Torch.getk a (knots_d S) (k + 1) b)
          w.
Proof.
  intros (((Hxk & Hxb) & (Hyk & Hyb) & (Hdk & Hdb)) & Hseg & Hn) Hb.
  destruct (backward_grad_reads kind S y) as (v & g & E & E' & W & Hv);
    [congruence |].
  exists v, g. split; [exact E |]. split; [exact E' |]. split; [exact W |].
  destruct (reads_shaped (knots_axis S) g y _ Hv) as [Hk Hbv].
  split; [exact Hk |]. split; [congruence |].
  intros q b Hq Hb'. cbv zeta.
  rewrite (reads_getk (knots_axis S) g y _ q b Hv)
    by (try rewrite Hb; assumption).
  rewrite Hseg.
  destruct (knots_axis S); cbv zeta; cbn [fibre_index Torch.getk];
    reflexivity.
Qed.
(** ** The gradient of a valid instance *)

Section SplineGradient.
Variable kind : interpolant.
Variable S : Spline.
Variables n B : nat.
Hypothesis HS : valid_spline S n B.

Lemma spline_segment_valid b j :
  (b < B)%nat -> (j + 1 < n)%nat ->
  let a := knots_axis S in
  Torch.getk a (knots_x S) j b < Torch.getk a (knots_x S) (j + 1) b /\
  Torch.getk a (knots_y S) j b < Torch.getk a (knots_y S) (j + 1) b /\
  0 < Torch.getk a (knots_d S) j b /\
  0 < Torch.getk a (knots_d S) (j + 1) b.
Proof.
  intros Hb Hj. cbv zeta.
  destruct (spline_rows_valid S n B HS b Hb)
    as (xs & ys & ds & _ & Hval & Lx & Ly & Hnth).
  destruct (valid_segment xs ys ds Hval j ltac:(lia)) as (Sx & Sy & Sd0 & Sd1).
  destruct (Hnth j ltac:(lia)) as (Ex & Ey & Ed).
  destruct (Hnth (j + 1)%nat ltac:(lia)) as (Ex1 & Ey1 & Ed1).
  rewrite <- Ex, <- Ex1, <- Ey, <- Ey1, <- Ed, <- Ed1. auto.
Qed.

Lemma spline_segment_of b j u :
  (b < B)%nat -> (j + 1 < n)%nat ->
  Torch.getk (knots_axis S) (knots_x S) j b < u
  <= Torch.getk (knots_axis S) (knots_x S) (j + 1) b ->
  segment_of (Torch.fibre (knots_axis S) (knots_x S) b) (n - 1) u = j.
Proof.
  intros Hb Hj Hu.
  destruct HS as ((Hal & _) & Hvs). specialize (Hvs b Hb).
  destruct Hal as ((Hxk & _) & _).
  unfold spline_rows, rows_of in Hvs. destruct Hvs as (_ & _ & _ & Ix & _).
  rewrite <- Hxk at 1. rewrite <- (length_fibre (knots_axis S) (knots_x S) b).
  apply segment_of_between; [exact Ix | rewrite length_fibre; lia |].
  rewrite !nth_fibre by lia. exact Hu.
Qed.

Lemma spline_segment_of_first b u :
  (b < B)%nat ->
  u <= Torch.getk (knots_axis S) (knots_x S) 0 b ->
  segment_of (Torch.fibre (knots_axis S) (knots_x S) b) (n - 1) u = 0%nat.
Proof.
  intros Hb Hu.
  destruct HS as ((Hal & _ & Hn) & _). destruct Hal as ((Hxk & _) & _).
  rewrite <- Hxk at 1. rewrite <- (length_fibre (knots_axis S) (knots_x S) b).
  apply segment_of_first; [rewrite length_fibre; lia |].
  rewrite nth_fibre by lia. exact Hu.
Qed.

(** With [grad=True] the value is the one of [grad=False], and the second
    output is the derivative of the segment formula at the query, which is
    positive. *)
Lemma forward_gradient x :
  Torch.blen (knots_axis S) x = B ->
  exists v g,
    SplineTemplate.forward (class_of kind) S x true = ValueGrad v g /\
    SplineTemplate.forward (class_of kind) S x false = Value v /\
    Torch.shape g = Torch.shape x /\
    forall q b j,
      (q < Torch.klen (knots_axis S) x)%nat -> (b < B)%nat ->
      (j + 1 < n)%nat ->
      let a := knots_axis S in
      let u := Torch.getk a x q b in
      Torch.getk a (knots_x S) j b < u <= Torch.getk a (knots_x S) (j + 1) b ->
      Torch.getk a g q b = grad_at kind S b j u /\
      derivable_pt_lim (segment_at kind S b j) u (Torch.getk a g q b) /\
      0 < Torch.getk a g q b.
Proof.
  intros Hb. pose proof HS as (Hws & _).
  destruct (forward_grad_rowwise kind S x n B Hws Hb)
    as (v & g & E & E' & W & Hk & Hbl & Hg).
  exists v, g. split; [exact E |]. split; [exact E' |]. split.
  { unfold Torch.shape. rewrite <- Hb in Hbl. clear - Hk Hbl. revert Hk Hbl.
    destruct (knots_axis S); cbn [Torch.klen Torch.blen]; congruence. }
  intros q b j Hq Hbb Hj. cbv zeta. intros Hu.
  rewrite (Hg q b Hq Hbb). cbv zeta.
  rewrite (spline_segment_of b j _ Hbb Hj Hu).
  destruct (spline_segment_valid b j Hbb Hj) as (Sx & Sy & Sd0 & Sd1).
  split; [reflexivity |]. unfold grad_at, segment_at. cbv zeta. split.
  - apply segment_derivative; auto; lra.
  - apply segment_grad_pos; auto; lra.
Qed.
End SplineGradient.
(** ** Gradients at the knots, and of the inverse *)

Lemma theta_of_point x0 x1 t :
  x0 <> x1 -> (x0 + (x1 - x0) * t - x0) / (x1 - x0) = t.
Proof. intros Hx. field. lra. Qed.

Lemma segment_inv_grad_eq kind x0 x1 y0 y1 d0 d1 w :
  x0 <> x1 ->
  segment_inv_grad kind x0 x1 y0 y1 d0 d1 w
  = 1 / segment_grad kind x0 x1 y0 y1 d0 d1
          (segment_inv_func kind x0 x1 y0 y1 d0 d1 w).
Proof.
  intros Hx. destruct kind; cbn [segment_inv_grad segment_grad segment_inv_func].
  - unfold pade22_inv_grad, pade22_grad, pade22_inv_func. cbv zeta.
    rewrite !theta_of_point by exact Hx. reflexivity.
  - unfold pade11_inv_grad, pade11_grad, pade11_inv_func. cbv zeta.
    rewrite !theta_of_point by exact Hx. reflexivity.
Qed.

Section ValidRowsSegments.
Variable kind : interpolant.
Variables xs ys ds : list R.
Hypothesis Hv : valid_rows (xs, ys, ds).

(** [backward] of a value lies in the segment [forward] searches it in. *)
Lemma backward_row_segment w :
  hd 0 ys <= w <= last ys 0 ->
  segment_of xs (length xs - 1) (backward_row kind (xs, ys, ds) w)
  = segment_of ys (length xs - 1) w.
Proof.
  pose proof Hv as (Hn & Hy & Hd & Ix & Iy & Pd).
  rewrite <- nth_0_hd, <- nth_last. intros Hr.
  destruct (segment_of_encloses ys w Iy ltac:(lia) Hr) as (Hi & Henc & Hcase).
  rewrite Hy in *.
  set (i := segment_of ys (length xs - 1) w) in *.
  assert (Ei : segment_of ys (length xs - 1) w = i) by reflexivity.
  clearbody i.
  destruct (valid_segment xs ys ds Hv i Hi) as (Sx & Sy & Sd0 & Sd1).
  unfold backward_row. rewrite Ei. unfold segment_inverse.
  pose proof (segment_inverse_range kind _ _ _ _ (nth i ds 0)
                (nth (i + 1) ds 0) Sx Sy Sd0 Sd1 w Henc) as Hz.
  pose proof (segment_right_inverse kind _ _ _ _ (nth i ds 0)
                (nth (i + 1) ds 0) Sx Sy Sd0 Sd1 w Henc) as Hfz.
  set (z := segment_inv_func kind (nth i xs 0) (nth (i + 1) xs 0)
              (nth i ys 0) (nth (i + 1) ys 0) (nth i ds 0)
              (nth (i + 1) ds 0) w) in *.
  destruct Hcase as [Hlt | [E0 Ew]].
  - apply segment_of_between; [exact Ix | exact Hi |].
    split; [| apply Hz].
    destruct Hz as [Hz0 _].
    destruct (Rle_lt_or_eq_dec _ _ Hz0) as [H | H]; [exact H | exfalso].
    rewrite <- H in Hfz. rewrite segment_at_x0 in Hfz. lra.
  - subst i. apply segment_of_first; [lia |].
    unfold z. rewrite Ew. cbn [Nat.add].
    cbn [Nat.add] in Sx, Sy, Sd0, Sd1.
    rewrite (segment_inv_at_y0 kind _ _ _ _ _ _ Sx Sy Sd0 Sd1). lra.
Qed.
End ValidRowsSegments.

(** The gradient [backward] returns at a value is the reciprocal of the
    gradient [forward] returns at the inverse of that value. *)
Lemma backward_grad_reciprocal kind S y n B :
  valid_spline S n B -> Torch.blen (knots_axis S) y = B -> Torch.wf y ->
  within_values S y ->
  exists x gi g,
    SplineTemplate.backward (class_of kind) S y true = ValueGrad x gi /\
    SplineTemplate.forward (class_of kind) S x true = ValueGrad y g /\
    gi = Torch.rdivs 1 g.
Proof.
  intros HS Hb Wy Hin. pose proof HS as (Hws & Hvs).
  destruct (backward_grad_rowwise kind S y n B Hws Hb)
    as (x & gi & Eb & Eb' & Wgi & Hgik & Hgib & Hgi).
  destruct (backward_rowwise kind S y n B Hws Hb)
    as (x' & Ex' & Wx & Hxk & Hxb & Hx).
  assert (x' = x) by congruence. subst x'.
  destruct (right_inverse_valid_spline kind S y n B HS Hb Wy Hin)
    as (x' & Ex'' & Ef).
  assert (x' = x) by congruence. subst x'.
  destruct (forward_grad_rowwise kind S x n B Hws Hxb)
    as (y' & g & Eg & Eg' & Wg & Hgk & Hgb & Hg).
  assert (y' = y) by congruence. subst y'.
  exists x, gi, g. split; [exact Eb |]. split; [exact Eg |].
  apply (tensor_extk (knots_axis S)); auto.
  - apply wf_map1.
  - unfold Torch.rdivs. rewrite klen_map1. congruence.
  - unfold Torch.rdivs. rewrite blen_map1. congruence.
  - intros q b Hq Hbb. rewrite Hgik in Hq. rewrite Hgib in Hbb.
    unfold Torch.rdivs.
    rewrite getk_map1 by (rewrite ?Hgk, ?Hgb, ?Hxk; assumption).
    rewrite (Hgi q b Hq Hbb). cbv zeta.
    rewrite (Hg q b ltac:(now rewrite Hxk) Hbb). cbv zeta.
    rewrite (Hx q b Hq Hbb).
    specialize (Hin q b Hq ltac:(now rewrite Hb)).
    destruct (spline_rows_valid S n B HS b Hbb)
      as (xs & ys & ds & Er & Hval & Lx & Ly & Hnth).
    rewrite Er. unfold spline_rows, rows_of in Er.
    injection Er as Exs Eys Eds.
    rewrite Exs, Eys in *.
    set (w := Torch.getk (knots_axis S) y q b) in *.
    replace (n - 1)%nat with (length xs - 1)%nat by lia.
    rewrite (backward_row_segment kind xs ys ds Hval w Hin).
    destruct (backward_row_encloses kind xs ys ds Hval w Hin)
      as (i & Hi & Hw & Ei & Hz).
    unfold backward_row in *.
    set (k := segment_of ys (length xs - 1) w) in *.
    assert (Hk : (k + 1 < n)%nat).
    { unfold k. pose proof (segment_of_lt ys (length xs - 1) w).
      destruct Hval as (Hn & _). lia. }
    unfold grad_at. cbv zeta.
    destruct (segment_value_at kind S n b k w xs ys ds Hnth Hk) as [_ Einv].
    rewrite Einv. unfold inverse_at. cbv zeta.
    destruct (spline_segment_valid S n B HS b k Hbb Hk) as (Sx & _).
    apply segment_inv_grad_eq. lra.
Qed.
Section ValidRowsKnotGradient.
Variables xs ys ds : list R.
Hypothesis Hv : valid_rows (xs, ys, ds).

(** At a knot the derivative formula of the rational quadratic segment the
    knot is searched in gives the derivative stored for that knot. *)
Lemma pade22_grad_at_knot j :
  (j < length xs)%nat ->
  let k := segment_of xs (length xs - 1) (nth j xs 0) in
  pade22_grad (nth k xs 0) (nth (k + 1) xs 0) (nth k ys 0) (nth (k + 1) ys 0)
    (nth k ds 0) (nth (k + 1) ds 0) (nth j xs 0)
  = nth j ds 0.
Proof.
  pose proof Hv as (Hn & Hy & Hd & Ix & Iy & Pd). intros Hj. cbv zeta.
  destruct j as [| j].
  - rewrite segment_of_first by (try lia; lra).
    destruct (valid_segment xs ys ds Hv 0 ltac:(lia)) as (Sx & Sy & Sd0 & Sd1).
    now apply pade22_grad_x0.
  - replace (S j) with (j + 1)%nat in * by lia.
    destruct (valid_segment xs ys ds Hv j Hj) as (Sx & Sy & Sd0 & Sd1).
    rewrite (segment_of_between xs _ j) by (try assumption; lra).
    now apply pade22_grad_x1.
Qed.
End ValidRowsKnotGradient.

(** The rational quadratic spline evaluated with [grad=True] at its
    original knots gives their values and their derivatives. *)
Lemma forward_grad_original_knots a x y d e l r n B S :
  valid_knots a n B x y d -> Torch.wf y -> Torch.wf d ->
  SplineTemplate.init Pade22Spline.cls x y (Some d) a e l r = Ok S ->
  SplineTemplate.forward Pade22Spline.cls S x true = ValueGrad y d.
Proof.
  intros Hv Wy Wd E. pose proof Hv as (Hal & Hn & Hrows).
  destruct (init_valid a _ x y d e l r n B S Hv E) as (Ha & HS & Hemb).
  pose proof HS as (Hws & Hvs).
  pose proof Hal as ((Hxk & Hxb) & (Hyk & Hyb) & (Hdk & Hdb)).
  destruct (forward_grad_rowwise Pade22 S x _ B Hws ltac:(now rewrite Ha))
    as (v & g & Eg & Ev & Wg & Hgk & Hgb & Hg).
  pose proof (forward_original_knots Pade22 a x y d e l r n B S Hv Wy E) as Ey.
  cbn [class_of] in *.
  assert (v = y) by congruence. subst v.
  rewrite Eg. f_equal.
  rewrite Ha in *.
  apply (tensor_extk a); auto; try congruence.
  intros q b Hq Hb. rewrite Hgk, Hxk in Hq. rewrite Hgb in Hb.
  rewrite (Hg q b ltac:(now rewrite Hxk) Hb). cbv zeta.
  destruct (spline_rows_valid S _ B HS b Hb)
    as (xs' & ys' & ds' & Er & Hval & Lx & Ly & Hnth).
  assert (Hu : uniform_rows (rows_of a x y d b)).
  { unfold rows_of, uniform_rows. rewrite !length_fibre. lia. }
  assert (Hl : rows_length (rows_of a x y d b) = n).
  { unfold rows_of, rows_length. now rewrite length_fibre. }
  pose proof (augmented_embeds_at l r _ n Hu Hl) as Hoff.
  rewrite <- (Hemb b Hb), Er in Hoff. unfold rows_of in Hoff.
  destruct Hoff as [Hbound Hoff]. rewrite length_fibre, Hxk in Hbound, Hoff.
  destruct (Hoff q Hq) as (Ex & _ & Ed).
  rewrite !nth_fibre in Ex, Ed by lia.
  set (off := knots_offset l r n) in *.
  rewrite <- Ex, <- Ed.
  unfold spline_rows, rows_of in Er. rewrite Ha in Er.
  injection Er as Exs Eys Eds.
  rewrite Exs.
  pose proof (pade22_grad_at_knot xs' ys' ds' Hval (off + q) ltac:(lia)) as Hk.
  cbv zeta in Hk. rewrite Lx in Hk.
  set (k := segment_of xs' (augmented_len l r n - 1) (nth (off + q) xs' 0)) in *.
  assert (Hk1 : (k + 1 < augmented_len l r n)%nat).
  { unfold k.
    pose proof (segment_of_lt xs' (augmented_len l r n - 1)
                  (nth (off + q) xs' 0)). lia. }
  unfold grad_at. cbv zeta. cbn [segment_grad]. rewrite Ha.
  destruct (Hnth k ltac:(lia)) as (Kx & Ky & Kd).
  destruct (Hnth (k + 1)%nat ltac:(lia)) as (Kx1 & Ky1 & Kd1).
  rewrite Ha in Kx, Ky, Kd, Kx1, Ky1, Kd1.
  rewrite <- Kx, <- Ky, <- Kd, <- Kx1, <- Ky1, <- Kd1.
  exact Hk.
Qed.
(** ** Linear sides *)

Lemma segment_linear_left kind x0 y0 d u :
  d <> 0 ->
  segment_func kind (x0 - 1) x0 (y0 - d) y0 d d u = y0 + d * (u - x0).
Proof.
  intros Hd. destruct kind; cbn [segment_func].
  - unfold pade22_func. cbv zeta.
    replace (x0 - (x0 - 1)) with 1 by ring.
    replace (y0 - (y0 - d)) with d by ring. field. lra.
  - unfold pade11_func. cbv zeta.
    replace (x0 - (x0 - 1)) with 1 by ring.
    replace (y0 - (y0 - d)) with d by ring. field. lra.
Qed.

Lemma segment_linear_right kind x1 y1 d u :
  d <> 0 ->
  segment_func kind x1 (x1 + 1) y1 (y1 + d) d d u = y1 + d * (u - x1).
Proof.
  intros Hd. destruct kind; cbn [segment_func].
  - unfold pade22_func. cbv zeta.
    replace (x1 + 1 - x1) with 1 by ring.
    replace (y1 + d - y1) with d by ring. field. lra.
  - unfold pade11_func. cbv zeta.
    replace (x1 + 1 - x1) with 1 by ring.
    replace (y1 + d - y1) with d by ring. field. lra.
Qed.

Lemma nth_app_last {A : Type} (l : list A) z d :
  nth (length (l ++ [z]) - 1) (l ++ [z]) d = z.
Proof.
  rewrite length_app. cbn [length].
  rewrite app_nth2 by lia.
  replace (length l + 1 - 1 - length l)%nat with 0%nat by lia. reflexivity.
Qed.

Lemma nth_app_second_last {A : Type} (l : list A) z d :
  l <> [] -> nth (length (l ++ [z]) - 2) (l ++ [z]) d = last l d.
Proof.
  intros Hl. rewrite length_app. cbn [length].
  assert (1 <= length l)%nat by (destruct l; [congruence | cbn; lia]).
  rewrite app_nth1 by lia.
  replace (length l + 1 - 2)%nat with (length l - 1)%nat by lia.
  apply nth_last.
Qed.

Lemma last_app_nonempty {A : Type} (l1 l2 : list A) d :
  l2 <> [] -> last (l1 ++ l2) d = last l2 d.
Proof.
  intros H2. induction l1 as [| x l1 IH]; [reflexivity |].
  cbn [app]. destruct (l1 ++ l2) eqn:E.
  - apply app_eq_nil in E as [_ E]. congruence.
  - rewrite <- E in *. cbn [last]. rewrite E. rewrite <- E. exact IH.
Qed.

Section LinearRows.
Variable kind : interpolant.
Variables xs ys ds : list R.
Hypothesis Hv : valid_rows (xs, ys, ds).

Lemma forward_row_linear_left Rx Ry Rd u :
  valid_rows ((hd 0 xs - 1) :: xs ++ Rx,
              (hd 0 ys - hd 0 ds) :: ys ++ Ry,
              hd 0 ds :: ds ++ Rd) ->
  u <= hd 0 xs ->
  forward_row kind ((hd 0 xs - 1) :: xs ++ Rx,
                    (hd 0 ys - hd 0 ds) :: ys ++ Ry,
                    hd 0 ds :: ds ++ Rd) u
  = hd 0 ys + hd 0 ds * (u - hd 0 xs).
Proof.
  intros Hv' Hu.
  pose proof (valid_rows_nonempty _ _ _ Hv) as (Nx & Ny & Nd).
  pose proof Hv as (Hn & Hy & Hd & Ix & Iy & Pd).
  assert (Hd0 : 0 < hd 0 ds).
  { rewrite <- nth_0_hd. apply Pd. lia. }
  destruct xs as [| x0 xs0]; [congruence |].
  destruct ys as [| y0 ys0]; [congruence |].
  destruct ds as [| d0 ds0]; [congruence |].
  cbn [hd] in *.
  assert (E : forward_row kind
                ((x0 - 1) :: (x0 :: xs0) ++ Rx,
                 (y0 - d0) :: (y0 :: ys0) ++ Ry,
                 d0 :: (d0 :: ds0) ++ Rd) u
              = segment_value kind
                  ((x0 - 1) :: (x0 :: xs0) ++ Rx,
                   (y0 - d0) :: (y0 :: ys0) ++ Ry,
                   d0 :: (d0 :: ds0) ++ Rd) 0 u).
  { destruct (Rle_lt_dec u (x0 - 1)) as [Hlo | Hhi].
    - apply forward_row_below; [cbn [length app]; lia | exact Hlo].
    - apply (forward_row_in_segment kind _ _ _ Hv' 0);
        [cbn [length app]; lia | cbn [nth app Nat.add]; lra]. }
  rewrite E. unfold segment_value. cbn [nth app Nat.add].
  apply segment_linear_left. lra.
Qed.

Lemma forward_row_linear_right Lx Ly Ld u :
  valid_rows (Lx ++ xs ++ [last xs 0 + 1],
              Ly ++ ys ++ [last ys 0 + last ds 0],
              Ld ++ ds ++ [last ds 0]) ->
  last xs 0 <= u ->
  forward_row kind (Lx ++ xs ++ [last xs 0 + 1],
                    Ly ++ ys ++ [last ys 0 + last ds 0],
                    Ld ++ ds ++ [last ds 0]) u
  = last ys 0 + last ds 0 * (u - last xs 0).
Proof.
  intros Hv' Hu.
  pose proof (valid_rows_nonempty _ _ _ Hv) as (Nx & Ny & Nd).
  pose proof Hv as (Hn & Hy & Hd & Ix & Iy & Pd).
  assert (Hd1 : 0 < last ds 0).
  { rewrite <- nth_last. apply Pd. lia. }
  revert Hv'. rewrite !app_assoc. intros Hv'.
  set (xs' := (Lx ++ xs) ++ [last xs 0 + 1]) in *.
  set (ys' := (Ly ++ ys) ++ [last ys 0 + last ds 0]) in *.
  set (ds' := (Ld ++ ds) ++ [last ds 0]) in *.
  pose proof Hv' as (Hn' & Hy' & Hd' & _).
  assert (NLx : Lx ++ xs <> []) by (intros E; apply app_eq_nil in E as [_ E]; congruence).
  assert (NLy : Ly ++ ys <> []) by (intros E; apply app_eq_nil in E as [_ E]; congruence).
  assert (NLd : Ld ++ ds <> []) by (intros E; apply app_eq_nil in E as [_ E]; congruence).
  assert (X1 : nth (length xs' - 1) xs' 0 = last xs 0 + 1)
    by apply nth_app_last.
  assert (X0 : nth (length xs' - 2) xs' 0 = last xs 0).
  { unfold xs'. rewrite nth_app_second_last by exact NLx.
    now apply last_app_nonempty. }
  assert (Y1 : nth (length xs' - 1) ys' 0 = last ys 0 + last ds 0).
  { rewrite <- Hy'. apply nth_app_last. }
  assert (Y0 : nth (length xs' - 2) ys' 0 = last ys 0).
  { rewrite <- Hy'. unfold ys'. rewrite nth_app_second_last by exact NLy.
    now apply last_app_nonempty. }
  assert (D1 : nth (length xs' - 1) ds' 0 = last ds 0).
  { rewrite <- Hd'. apply nth_app_last. }
  assert (D0 : nth (length xs' - 2) ds' 0 = last ds 0).
  { rewrite <- Hd'. unfold ds'. rewrite nth_app_second_last by exact NLd.
    now apply last_app_nonempty. }
  assert (E : forward_row kind (xs', ys', ds') u
              = segment_value kind (xs', ys', ds') (length xs' - 2) u).
  { destruct (Rle_lt_dec u (last xs 0 + 1)) as [Hlo | Hhi].
    - apply (forward_row_in_segment kind _ _ _ Hv' (length xs' - 2));
        [lia |].
      replace (length xs' - 2 + 1)%nat with (length xs' - 1)%nat by lia.
      rewrite X0, X1. lra.
    - apply forward_row_above; [exact Hn' |].
      destruct Hv' as (_ & _ & _ & Ix' & _).
      apply increasing_below_last; [exact Ix' | lia |]. rewrite X1. exact Hhi. }
  rewrite E. unfold segment_value.
  replace (length xs' - 2 + 1)%nat with (length xs' - 1)%nat by lia.
  rewrite X0, X1, Y0, Y1, D0, D1.
  apply segment_linear_right. lra.
Qed.
End LinearRows.
(** A linear side continues the spline with the tangent line of the
    boundary knot. *)
Lemma linear_left_extrapolation kind a x y d e r n B S q :
  valid_knots a n B x y d ->
  SplineTemplate.init (class_of kind) x y (Some d) a e (Some "linear"%string) r
  = Ok S ->
  Torch.blen a q = B ->
  exists v,
    SplineTemplate.forward (class_of kind) S q false = Value v /\
    Torch.shape v = Torch.shape q /\
    forall k b, (k < Torch.klen a q)%nat -> (b < B)%nat ->
      Torch.getk a q k b <= Torch.getk a x 0 b ->
      Torch.getk a v k b
      = Torch.getk a y 0 b
        + Torch.getk a d 0 b * (Torch.getk a q k b - Torch.getk a x 0 b).
Proof.
  intros Hv E Hq. pose proof Hv as (Hal & Hn & Hrows).
  destruct (init_valid a _ x y d e _ r n B S Hv E) as (Ha & HS & Hemb).
  pose proof Hal as ((Hxk & _) & (Hyk & _) & (Hdk & _)).
  destruct (forward_values kind S _ B HS q ltac:(now rewrite Ha))
    as (v & Ev & _ & Hsh & Hval).
  exists v. split; [exact Ev |]. split; [exact Hsh |].
  rewrite Ha in Hval. intros k b Hk Hb Hu.
  rewrite (Hval k b Hk Hb).
  pose proof HS as (_ & Hvs). specialize (Hvs b Hb).
  rewrite (Hemb b Hb) in *. unfold rows_of in *.
  destruct (augmented_rows_linear_left r (Torch.fibre a x b)
              (Torch.fibre a y b) (Torch.fibre a d b))
    as (Rx & Ry & Rd & Er & _).
  rewrite Er in *.
  rewrite <- (nth_fibre a x b 0 0), <- (nth_fibre a y b 0 0),
    <- (nth_fibre a d b 0 0) by lia.
  rewrite !nth_0_hd.
  apply forward_row_linear_left; [apply (Hrows b Hb) | exact Hvs |].
  rewrite <- nth_0_hd, nth_fibre by lia. exact Hu.
Qed.

Lemma linear_right_extrapolation kind a x y d e l n B S q :
  valid_knots a n B x y d ->
  SplineTemplate.init (class_of kind) x y (Some d) a e l (Some "linear"%string)
  = Ok S ->
  Torch.blen a q = B ->
  exists v,
    SplineTemplate.forward (class_of kind) S q false = Value v /\
    Torch.shape v = Torch.shape q /\
    forall k b, (k < Torch.klen a q)%nat -> (b < B)%nat ->
      Torch.getk a x (n - 1) b <= Torch.getk a q k b ->
      Torch.getk a v k b
      = Torch.getk a y (n - 1) b
        + Torch.getk a d (n - 1) b
          * (Torch.getk a q k b - Torch.getk a x (n - 1) b).
Proof.
  intros Hv E Hq. pose proof Hv as (Hal & Hn & Hrows).
  destruct (init_valid a _ x y d e l _ n B S Hv E) as (Ha & HS & Hemb).
  pose proof Hal as ((Hxk & _) & (Hyk & _) & (Hdk & _)).
  destruct (forward_values kind S _ B HS q ltac:(now rewrite Ha))
    as (v & Ev & _ & Hsh & Hval).
  exists v. split; [exact Ev |]. split; [exact Hsh |].
  rewrite Ha in Hval. intros k b Hk Hb Hu.
  rewrite (Hval k b Hk Hb).
  pose proof HS as (_ & Hvs). specialize (Hvs b Hb).
  rewrite (Hemb b Hb) in *. unfold rows_of in *.
  destruct (augmented_rows_linear_right l (Torch.fibre a x b)
              (Torch.fibre a y b) (Torch.fibre a d b))
    as (Lx & Ly & Ld & Er & _).
  rewrite Er in *.
  assert (Lxs : last (Torch.fibre a x b) 0 = Torch.getk a x (n - 1) b)
    by (rewrite <- nth_last, length_fibre, Hxk, nth_fibre by lia; reflexivity).
  assert (Lys : last (Torch.fibre a y b) 0 = Torch.getk a y (n - 1) b)
    by (rewrite <- nth_last, length_fibre, Hyk, nth_fibre by lia; reflexivity).
  assert (Lds : last (Torch.fibre a d b) 0 = Torch.getk a d (n - 1) b)
    by (rewrite <- nth_last, length_fibre, Hdk, nth_fibre by lia; reflexivity).
  rewrite <- Lxs, <- Lys, <- Lds. rewrite <- Lxs in Hu.
  apply forward_row_linear_right; [apply (Hrows b Hb) | exact Hvs | exact Hu].
Qed.
(** ** The example data *)

Lemma increasing_pair u v : u < v -> increasing [u; v].
Proof.
  intros H i Hi. cbn [length] in Hi.
  destruct i as [| i]; [cbn; exact H | lia].
Qed.

Lemma positive_pair u v : 0 < u -> 0 < v -> positive [u; v].
Proof.
  intros Hu Hv i Hi. cbn [length] in Hi.
  destruct i as [| [| i]]; [exact Hu | exact Hv | lia].
Qed.

Lemma example_knots_valid : valid_knots Ax1 2 1 example_x example_y example_d.
Proof.
  split; [repeat split |]. split; [lia |].
  intros b Hb. destruct b as [| b]; [| lia].
  cbn. repeat apply conj; try reflexivity; try lia.
  - apply increasing_pair. lra.
  - apply increasing_pair. lra.
  - apply positive_pair; lra.
Qed.

Lemma example_init kind :
  SplineTemplate.init (class_of kind) example_x example_y (Some example_d)
    Ax1 true None None = Ok example_spline.
Proof. reflexivity. Qed.

Lemma example_spline_valid : valid_spline example_spline 2 1.
Proof.
  destruct (init_valid Ax1 (class_of Pade22) example_x example_y example_d true
              None None 2 1 example_spline example_knots_valid
              (example_init Pade22)) as (_ & H & _).
  exact H.
Qed.

Lemma example_query_within : within_knots example_spline example_query.
Proof.
  intros q b Hq Hb. cbn in Hq, Hb.
  destruct q as [| q]; [| lia]. destruct b as [| b]; [| lia].
  cbn. lra.
Qed.

Lemma example_value_within : within_values example_spline example_value.
Proof.
  intros q b Hq Hb. cbn in Hq, Hb.
  destruct q as [| q]; [| lia]. destruct b as [| b]; [| lia].
  cbn. lra.
Qed.

Lemma example_query_wf : Torch.wf example_query.
Proof. repeat split. repeat constructor. Qed.
(** ** The spline as one differentiable function *)

(** A function that agrees with [fl] to the left of [x] and with [fr] to
    its right has their common derivative at [x]. *)
Lemma dpl_glue (f fl fr : R -> R) x l dl dr :
  0 < dl -> 0 < dr ->
  (forall t, x - dl < t <= x -> f t = fl t) ->
  (forall t, x <= t < x + dr -> f t = fr t) ->
  derivable_pt_lim fl x l -> derivable_pt_lim fr x l ->
  derivable_pt_lim f x l.
Proof.
  intros Hdl Hdr Hl Hr Dl Dr eps Heps.
  destruct (Dl eps Heps) as [d1 H1]. destruct (Dr eps Heps) as [d2 H2].
  pose proof (cond_pos d1) as P1. pose proof (cond_pos d2) as P2.
  assert (Hmin : 0 < Rmin (Rmin d1 d2) (Rmin dl dr))
    by (repeat apply Rmin_pos; assumption).
  exists (mkposreal _ Hmin). cbn [pos]. intros h Hh Hlt.
  assert (B1 : Rabs h < d1).
  { eapply Rlt_le_trans; [exact Hlt |].
    eapply Rle_trans; [apply Rmin_l | apply Rmin_l]. }
  assert (B2 : Rabs h < d2).
  { eapply Rlt_le_trans; [exact Hlt |].
    eapply Rle_trans; [apply Rmin_l | apply Rmin_r]. }
  assert (B3 : Rabs h < dl).
  { eapply Rlt_le_trans; [exact Hlt |].
    eapply Rle_trans; [apply Rmin_r | apply Rmin_l]. }
  assert (B4 : Rabs h < dr).
  { eapply Rlt_le_trans; [exact Hlt |].
    eapply Rle_trans; [apply Rmin_r | apply Rmin_r]. }
  destruct (Rlt_le_dec h 0) as [Hneg | Hpos].
  - rewrite (Rabs_left h Hneg) in B3.
    rewrite (Hl (x + h)) by lra. rewrite (Hl x) by lra.
    now apply H1.
  - rewrite (Rabs_right h) in B4 by lra.
    rewrite (Hr (x + h)) by lra. rewrite (Hr x) by lra.
    now apply H2.
Qed.

Section RowsDerivative.
Variables xs ys ds : list R.
Hypothesis Hv : valid_rows (xs, ys, ds).

(** Strictly inside a segment the spline has the derivative of the
    formula of that segment, for both interpolants. *)
Lemma forward_row_derivative_inside kind j u :
  (j + 1 < length xs)%nat ->
  nth j xs 0 < u < nth (j + 1) xs 0 ->
  derivable_pt_lim (forward_row kind (xs, ys, ds)) u
    (segment_grad kind (nth j xs 0) (nth (j + 1) xs 0) (nth j ys 0)
       (nth (j + 1) ys 0) (nth j ds 0) (nth (j + 1) ds 0) u).
Proof.
  intros Hj Hu.
  destruct (valid_segment xs ys ds Hv j Hj) as (Sx & Sy & Sd0 & Sd1).
  assert (D : derivable_pt_lim (segment_value kind (xs, ys, ds) j) u
                (segment_grad kind (nth j xs 0) (nth (j + 1) xs 0) (nth j ys 0)
                   (nth (j + 1) ys 0) (nth j ds 0) (nth (j + 1) ds 0) u)).
  { unfold segment_value. apply segment_derivative; auto; lra. }
  apply (dpl_glue _ (segment_value kind (xs, ys, ds) j)
           (segment_value kind (xs, ys, ds) j) u _
           (u - nth j xs 0) (nth (j + 1) xs 0 - u)); try lra; try exact D.
  - intros t Ht. apply (forward_row_in_segment kind xs ys ds Hv j t Hj). lra.
  - intros t Ht. apply (forward_row_in_segment kind xs ys ds Hv j t Hj). lra.
Qed.

(** At an interior knot the rational quadratic spline has the derivative
    stored for that knot. *)
Lemma forward_row_derivative_at_knot j :
  (1 <= j)%nat -> (j + 1 < length xs)%nat ->
  derivable_pt_lim (forward_row Pade22 (xs, ys, ds)) (nth j xs 0) (nth j ds 0).
Proof.
  intros Hj1 Hj.
  destruct j as [| i]; [lia |].
  replace (S i) with (i + 1)%nat in * by lia.
  destruct (valid_segment xs ys ds Hv i ltac:(lia)) as (Lx & Ly & Ld0 & Ld1).
  destruct (valid_segment xs ys ds Hv (i + 1) Hj) as (Rx & Ry & Rd0 & Rd1).
  apply (dpl_glue _ (segment_value Pade22 (xs, ys, ds) i)
           (segment_value Pade22 (xs, ys, ds) (i + 1)) _ _
           (nth (i + 1) xs 0 - nth i xs 0)
           (nth (i + 1 + 1) xs 0 - nth (i + 1) xs 0)); try lra.
  - intros t Ht.
    apply (forward_row_in_segment Pade22 xs ys ds Hv i t); [lia | lra].
  - intros t Ht.
    apply (forward_row_in_segment Pade22 xs ys ds Hv (i + 1) t Hj). lra.
  - unfold segment_value. cbn [segment_func].
    eapply dpl_eq.
    + apply (pade22_derivative (nth i xs 0) (nth (i + 1) xs 0) (nth i ys 0)
               (nth (i + 1) ys 0) (nth i ds 0) (nth (i + 1) ds 0));
        auto; lra.
    + now apply pade22_grad_x1.
  - unfold segment_value. cbn [segment_func].
    eapply dpl_eq.
    + apply (pade22_derivative (nth (i + 1) xs 0) (nth (i + 1 + 1) xs 0)
               (nth (i + 1) ys 0) (nth (i + 1 + 1) ys 0)
               (nth (i + 1) ds 0) (nth (i + 1 + 1) ds 0));
        auto; lra.
    + now apply pade22_grad_x0.
Qed.

(** Everywhere strictly inside the knot range the rational quadratic
    spline is differentiable, with the derivative formula of the segment
    the query is searched in. *)
Lemma forward_row_derivative u :
  hd 0 xs < u < last xs 0 ->
  let k := segment_of xs (length xs - 1) u in
  derivable_pt_lim (forward_row Pade22 (xs, ys, ds)) u
    (pade22_grad (nth k xs 0) (nth (k + 1) xs 0) (nth k ys 0)
       (nth (k + 1) ys 0) (nth k ds 0) (nth (k + 1) ds 0) u).
Proof.
  pose proof Hv as (Hn & Hy & Hd & Ix & Iy & Pd).
  rewrite <- nth_0_hd, <- nth_last. intros Hu. cbv zeta.
  destruct (segment_of_encloses xs u Ix Hn ltac:(lra)) as (Hi & Henc & Hcase).
  set (i := segment_of xs (length xs - 1) u) in *. clearbody i.
  destruct Hcase as [Hlt | [E0 Eu]]; [| lra].
  destruct (valid_segment xs ys ds Hv i Hi) as (Sx & Sy & Sd0 & Sd1).
  destruct Henc as [_ Hhi].
  destruct (Rle_lt_or_eq_dec _ _ Hhi) as [Hin | Hk].
  - apply (forward_row_derivative_inside Pade22 i u Hi). lra.
  - subst u. rewrite pade22_grad_x1 by assumption.
    apply forward_row_derivative_at_knot; [lia |].
    destruct (le_lt_dec (length xs) (i + 1 + 1)) as [H | H]; [| exact H].
    exfalso. replace (length xs - 1)%nat with (i + 1)%nat in Hu by lia. lra.
Qed.
End RowsDerivative.
(** Each fibre of the rational quadratic spline is one differentiable
    function of the query, and [grad=True] returns its derivative. *)
Lemma forward_differentiable S n B x :
  valid_spline S n B -> Torch.blen (knots_axis S) x = B ->
  exists v g,
    SplineTemplate.forward Pade22Spline.cls S x true = ValueGrad v g /\
    forall q b, (q < Torch.klen (knots_axis S) x)%nat -> (b < B)%nat ->
      let a := knots_axis S in
      let u := Torch.getk a x q b in
      Torch.getk a v q b = forward_row Pade22 (spline_rows S b) u /\
      (Torch.getk a (knots_x S) 0 b < u < Torch.getk a (knots_x S) (n - 1) b ->
       derivable_pt_lim (forward_row Pade22 (spline_rows S b)) u
         (Torch.getk a g q b)).
Proof.
  intros HS Hb. pose proof HS as (Hws & _).
  destruct (forward_grad_rowwise Pade22 S x n B Hws Hb)
    as (v & g & E & E' & _ & _ & _ & Hg).
  destruct (forward_values Pade22 S n B HS x Hb) as (v' & Ev & _ & _ & Hval).
  cbn [class_of] in *.
  assert (v' = v) by congruence. subst v'.
  exists v, g. split; [exact E |].
  intros q b Hq Hbb. cbv zeta. split; [now apply Hval |].
  intros Hu. rewrite (Hg q b Hq Hbb). cbv zeta.
  destruct (spline_rows_valid S n B HS b Hbb)
    as (xs & ys & ds & Er & Hvr & Lx & Ly & Hnth).
  rewrite Er. unfold spline_rows, rows_of in Er. injection Er as Exs Eys Eds.
  rewrite Exs.
  pose proof Hvr as (Hn & _).
  destruct (Hnth 0%nat ltac:(lia)) as (E0 & _).
  destruct (Hnth (n - 1)%nat ltac:(lia)) as (E1 & _).
  assert (Hr : hd 0 xs < Torch.getk (knots_axis S) x q b < last xs 0).
  { rewrite <- nth_0_hd, <- nth_last, Lx, E0, E1. exact Hu. }
  pose proof (forward_row_derivative xs ys ds Hvr _ Hr) as D.
  cbv zeta in D. rewrite Lx in D.
  set (k := segment_of xs (n - 1) (Torch.getk (knots_axis S) x q b)) in *.
  assert (Hk : (k + 1 < n)%nat).
  { unfold k.
    pose proof (segment_of_lt xs (n - 1) (Torch.getk (knots_axis S) x q b)).
    lia. }
  unfold grad_at. cbv zeta. cbn [segment_grad].
  destruct (Hnth k ltac:(lia)) as (Kx & Ky & Kd).
  destruct (Hnth (k + 1)%nat ltac:(lia)) as (Kx1 & Ky1 & Kd1).
  rewrite <- Kx, <- Ky, <- Kd, <- Kx1, <- Ky1, <- Kd1.
  exact D.
Qed.
(** ** The fictitious knots of a reflected side *)

Lemma nth_rev_removelast (l : list R) i :
  (i + 1 < length l)%nat ->
  nth i (rev (removelast l)) 0 = nth (length l - 2 - i) l 0.
Proof.
  intros Hi. pose proof (length_removelast' l) as Hl.
  rewrite rev_nth by lia. rewrite Hl.
  replace (length l - 1 - S i)%nat with (length l - 2 - i)%nat by lia.
  assert (E : l = removelast l ++ [last l 0]).
  { apply app_removelast_last. intros ->. cbn in Hi. lia. }
  set (k := (length l - 2 - i)%nat).
  transitivity (nth k (removelast l ++ [last l 0]) 0).
  - rewrite app_nth1 by (unfold k; lia). reflexivity.
  - now rewrite <- E.
Qed.

Lemma mirror_nth_after c (l : list R) k :
  (1 <= k < length l)%nat ->
  nth (k - 1) (map (fun v => c - v) (rev (removelast l))) 0
  = c - nth (length l - 1 - k) l 0.
Proof.
  intros Hk.
  rewrite (nth_indep _ 0 (c - 0))
    by (rewrite length_map, length_rev, length_removelast'; lia).
  rewrite (map_nth (fun v => c - v)).
  rewrite nth_rev_removelast by lia. f_equal. f_equal. lia.
Qed.

Lemma mirror_nth_after_plain (l : list R) k :
  (1 <= k < length l)%nat ->
  nth (k - 1) (rev (removelast l)) 0 = nth (length l - 1 - k) l 0.
Proof.
  intros Hk. rewrite nth_rev_removelast by lia. f_equal. lia.
Qed.

Lemma mirror_nth_after_opp (l : list R) k :
  (1 <= k < length l)%nat ->
  nth (k - 1) (map Ropp (rev (removelast l))) 0
  = - nth (length l - 1 - k) l 0.
Proof.
  intros Hk.
  rewrite (nth_indep _ 0 (- 0))
    by (rewrite length_map, length_rev, length_removelast'; lia).
  rewrite (map_nth Ropp).
  rewrite nth_rev_removelast by lia. f_equal. f_equal. lia.
Qed.

Section ReflectedKnots.
Variable a : axis.

(** What [takecare_rest] places before the original knots on a reflected
    left side and after them on a reflected right side. *)
Lemma takecare_rest_reflected x y d l r n B self' :
  aligned a n B x y d -> (1 <= n)%nat ->
  AugmentKnots.takecare_rest (AugmentKnots.mk x y d a) l r = Ok self' ->
  let x' := AugmentKnots.knots_x self' in
  let y' := AugmentKnots.knots_y self' in
  let d' := AugmentKnots.knots_d self' in
  let off := reflected_knots l n in
  (is_anti l = true ->
   forall k b, (1 <= k < n)%nat -> (b < B)%nat ->
     Torch.getk a x' (n - 1 - k) b = 2 * Torch.getk a x 0 b - Torch.getk a x k b /\
     Torch.getk a y' (n - 1 - k) b = 2 * Torch.getk a y 0 b - Torch.getk a y k b /\
     Torch.getk a d' (n - 1 - k) b = Torch.getk a d k b) /\
  (is_anti l = false -> is_periodic l = true ->
   forall k b, (1 <= k < n)%nat -> (b < B)%nat ->
     Torch.getk a x' (n - 1 - k) b = 2 * Torch.getk a x 0 b - Torch.getk a x k b /\
     Torch.getk a y' (n - 1 - k) b = Torch.getk a y k b /\
     Torch.getk a d' (n - 1 - k) b = - Torch.getk a d k b) /\
  (is_anti r = true ->
   forall k b, (1 <= k < n)%nat -> (b < B)%nat ->
     Torch.getk a x' (off + n - 1 + k) b
     = 2 * Torch.getk a x (n - 1) b - Torch.getk a x (n - 1 - k) b /\
     Torch.getk a y' (off + n - 1 + k) b
     = 2 * Torch.getk a y (n - 1) b - Torch.getk a y (n - 1 - k) b /\
     Torch.getk a d' (off + n - 1 + k) b = Torch.getk a d (n - 1 - k) b) /\
  (is_anti r = false -> is_periodic r = true ->
   forall k b, (1 <= k < n)%nat -> (b < B)%nat ->
     Torch.getk a x' (off + n - 1 + k) b
     = 2 * Torch.getk a x (n - 1) b - Torch.getk a x (n - 1 - k) b /\
     Torch.getk a y' (off + n - 1 + k) b = Torch.getk a y (n - 1 - k) b /\
     Torch.getk a d' (off + n - 1 + k) b = - Torch.getk a d (n - 1 - k) b).
Proof.
  intros Hal Hn E. cbv zeta.
  destruct (takecare_rest_rows a x y d l r n B self' Hal Hn E)
    as (x' & y' & d' & -> & Hal' & Hrows & _).
  cbn [AugmentKnots.knots_x AugmentKnots.knots_y AugmentKnots.knots_d].
  pose proof Hal as ((Hxk & _) & (Hyk & _) & (Hdk & _)).
  pose proof Hal' as ((Hxk' & _) & (Hyk' & _) & (Hdk' & _)).
  assert (Hleft : forall b, (b < B)%nat ->
            exists Lx Ly Ld Rx Ry Rd,
              Torch.fibre a x' b = Lx ++ Torch.fibre a x b ++ Rx /\
              Torch.fibre a y' b = Ly ++ Torch.fibre a y b ++ Ry /\
              Torch.fibre a d' b = Ld ++ Torch.fibre a d b ++ Rd /\
              (if is_anti l then anti_left_rows (rows_of a x y d b)
               else if is_periodic l then periodic_left_rows (rows_of a x y d b)
               else no_rows) = (Lx, Ly, Ld) /\
              (if is_anti r then anti_right_rows (rows_of a x y d b)
               else if is_periodic r then periodic_right_rows (rows_of a x y d b)
               else no_rows) = (Rx, Ry, Rd)).
  { intros b Hb. specialize (Hrows b Hb). unfold rest_step_rows in Hrows.
    destruct (if is_anti l then anti_left_rows (rows_of a x y d b)
              else if is_periodic l then periodic_left_rows (rows_of a x y d b)
              else no_rows) as [[Lx Ly] Ld] eqn:EL.
    destruct (if is_anti r then anti_right_rows (rows_of a x y d b)
              else if is_periodic r then periodic_right_rows (rows_of a x y d b)
              else no_rows) as [[Rx Ry] Rd] eqn:ER.
    unfold rows_of in Hrows. cbn [app_rows] in Hrows.
    injection Hrows as Ex Ey Ed.
    exists Lx, Ly, Ld, Rx, Ry, Rd. auto 6. }
  assert (Hlen : forall b, length (Torch.fibre a x b) = n /\
                           length (Torch.fibre a y b) = n /\
                           length (Torch.fibre a d b) = n)
    by (intros b; rewrite !length_fibre; auto).
  assert (Hhd : forall b, hd 0 (Torch.fibre a x b) = Torch.getk a x 0 b /\
                          hd 0 (Torch.fibre a y b) = Torch.getk a y 0 b)
    by (intros b; rewrite <- !nth_0_hd, !nth_fibre by lia; auto).
  assert (Hlast : forall b,
            last (Torch.fibre a x b) 0 = Torch.getk a x (n - 1) b /\
            last (Torch.fibre a y b) 0 = Torch.getk a y (n - 1) b).
  { intros b. rewrite <- !nth_last, !length_fibre, Hxk, Hyk.
    rewrite !nth_fibre by lia. auto. }
  repeat apply conj.
  - intros Ha k b Hk Hb.
    destruct (Hleft b Hb) as (Lx & Ly & Ld & Rx & Ry & Rd & Ex & Ey & Ed & EL & _).
    rewrite Ha in EL. unfold rows_of in EL. cbn [anti_left_rows] in EL.
    injection EL as <- <- <-.
    destruct (Hlen b) as (Nx & Ny & Nd). destruct (Hhd b) as (Hx0 & Hy0).
    rewrite <- !(nth_fibre a _ b _ 0) by lia.
    rewrite Ex, Ey, Ed.
    rewrite <- Nx at 1. rewrite <- Ny at 1. rewrite <- Nd at 1.
    rewrite !mirror_nth_left by lia.
    rewrite mirror_nth_left_plain by lia.
    rewrite Hx0, Hy0, !nth_fibre by lia. auto.
  - intros Ha Hp k b Hk Hb.
    destruct (Hleft b Hb) as (Lx & Ly & Ld & Rx & Ry & Rd & Ex & Ey & Ed & EL & _).
    rewrite Ha, Hp in EL. unfold rows_of in EL. cbn [periodic_left_rows] in EL.
    injection EL as <- <- <-.
    destruct (Hlen b) as (Nx & Ny & Nd). destruct (Hhd b) as (Hx0 & Hy0).
    rewrite <- !(nth_fibre a _ b _ 0) by lia.
    rewrite Ex, Ey, Ed.
    rewrite <- Nx at 1. rewrite <- Ny at 1. rewrite <- Nd at 1.
    rewrite mirror_nth_left by lia.
    rewrite mirror_nth_left_plain by lia.
    replace (map Ropp (rev (tl (Torch.fibre a d b))))
      with (map (fun v => 0 - v) (rev (tl (Torch.fibre a d b))))
      by (apply map_ext; intros; ring).
    rewrite mirror_nth_left by lia.
    rewrite Hx0, !nth_fibre by lia. repeat split; ring.
  - intros Ha k b Hk Hb.
    destruct (Hleft b Hb) as (Lx & Ly & Ld & Rx & Ry & Rd & Ex & Ey & Ed & EL & ER).
    rewrite Ha in ER. unfold rows_of in ER. cbn [anti_right_rows] in ER.
    injection ER as <- <- <-.
    assert (HL : length Lx = reflected_knots l n /\
                 length Ly = reflected_knots l n /\
                 length Ld = reflected_knots l n).
    { destruct (Hlen b) as (Nx & Ny & Nd). revert EL.
      unfold reflected_knots, rows_of.
      destruct (is_anti l); [| destruct (is_periodic l)];
        cbn [anti_left_rows periodic_left_rows no_rows orb];
        intros [= <- <- <-];
        rewrite ?length_map, ?length_rev, ?length_tl; cbn [length]; lia. }
    destruct HL as (HLx & HLy & HLd).
    destruct (Hlen b) as (Nx & Ny & Nd). destruct (Hlast b) as (Hx1 & Hy1).
    assert (Hr : (reflected_knots l n + n - 1 + k
                  < reflected_knots l n + n + reflected_knots r n)%nat)
      by (unfold reflected_knots at 3; rewrite Ha; cbn [orb]; lia).
    split; [| split].
    + rewrite <- (nth_fibre a x' b _ 0) by (rewrite Hxk'; exact Hr).
      rewrite Ex.
      replace (reflected_knots l n + n - 1 + k)%nat
        with (length Lx + (length (Torch.fibre a x b) + (k - 1)))%nat by lia.
      rewrite !app_nth2_plus. rewrite mirror_nth_after by lia.
      rewrite Nx, Hx1, nth_fibre by lia. reflexivity.
    + rewrite <- (nth_fibre a y' b _ 0) by (rewrite Hyk'; exact Hr).
      rewrite Ey.
      replace (reflected_knots l n + n - 1 + k)%nat
        with (length Ly + (length (Torch.fibre a y b) + (k - 1)))%nat by lia.
      rewrite !app_nth2_plus. rewrite mirror_nth_after by lia.
      rewrite Ny, Hy1, nth_fibre by lia. reflexivity.
    + rewrite <- (nth_fibre a d' b _ 0) by (rewrite Hdk'; exact Hr).
      rewrite Ed.
      replace (reflected_knots l n + n - 1 + k)%nat
        with (length Ld + (length (Torch.fibre a d b) + (k - 1)))%nat by lia.
      rewrite !app_nth2_plus. rewrite mirror_nth_after_plain by lia.
      rewrite Nd, nth_fibre by lia. reflexivity.
  - intros Ha Hp k b Hk Hb.
    destruct (Hleft b Hb) as (Lx & Ly & Ld & Rx & Ry & Rd & Ex & Ey & Ed & EL & ER).
    rewrite Ha, Hp in ER. unfold rows_of in ER. cbn [periodic_right_rows] in ER.
    injection ER as <- <- <-.
    assert (HL : length Lx = reflected_knots l n /\
                 length Ly = reflected_knots l n /\
                 length Ld = reflected_knots l n).
    { destruct (Hlen b) as (Nx & Ny & Nd). revert EL.
      unfold reflected_knots, rows_of.
      destruct (is_anti l); [| destruct (is_periodic l)];
        cbn [anti_left_rows periodic_left_rows no_rows orb];
        intros [= <- <- <-];
        rewrite ?length_map, ?length_rev, ?length_tl; cbn [length]; lia. }
    destruct HL as (HLx & HLy & HLd).
    destruct (Hlen b) as (Nx & Ny & Nd). destruct (Hlast b) as (Hx1 & Hy1).
    assert (Hr : (reflected_knots l n + n - 1 + k
                  < reflected_knots l n + n + reflected_knots r n)%nat)
      by (unfold reflected_knots at 3; rewrite Ha, Hp; cbn [orb]; lia).
    split; [| split].
    + rewrite <- (nth_fibre a x' b _ 0) by (rewrite Hxk'; exact Hr).
      rewrite Ex.
      replace (reflected_knots l n + n - 1 + k)%nat
        with (length Lx + (length (Torch.fibre a x b) + (k - 1)))%nat by lia.
      rewrite !app_nth2_plus. rewrite mirror_nth_after by lia.
      rewrite Nx, Hx1, nth_fibre by lia. reflexivity.
    + rewrite <- (nth_fibre a y' b _ 0) by (rewrite Hyk'; exact Hr).
      rewrite Ey.
      replace (reflected_knots l n + n - 1 + k)%nat
        with (length Ly + (length (Torch.fibre a y b) + (k - 1)))%nat by lia.
      rewrite !app_nth2_plus. rewrite mirror_nth_after_plain by lia.
      rewrite Ny, nth_fibre by lia. reflexivity.
    + rewrite <- (nth_fibre a d' b _ 0) by (rewrite Hdk'; exact Hr).
      rewrite Ed.
      replace (reflected_knots l n + n - 1 + k)%nat
        with (length Ld + (length (Torch.fibre a d b) + (k - 1)))%nat by lia.
      rewrite !app_nth2_plus. rewrite mirror_nth_after_opp by lia.
      rewrite Nd, nth_fibre by lia. reflexivity.
Qed.
End ReflectedKnots.
(** ** A periodic side *)

Section SegmentFlat.
Variables x0 x1 y0 y1 d0 d1 : R.
Hypothesis Hx : x0 < x1.
Hypothesis Hy : y0 < y1.
Hypothesis Hd0 : 0 <= d0.
Hypothesis Hd1 : 0 <= d1.

Lemma pade22_den_pos_flat theta :
  0 <= theta <= 1 ->
  0 < (y1 - y0) / (x1 - x0)
      + (d1 + d0 - 2 * ((y1 - y0) / (x1 - x0))) * theta * (1 - theta).
Proof.
  intros [H0 H1]. pose proof (slope_pos x0 x1 y0 y1 Hx Hy) as Hm.
  set (m := (y1 - y0) / (x1 - x0)) in *.
  assert (Hq : theta * (1 - theta) <= 1 / 4).
  { assert (0 <= (theta - 1 / 2) * (theta - 1 / 2)) by apply Rle_0_sqr. lra. }
  assert (Hp : 0 <= theta * (1 - theta)) by (apply Rmult_le_pos; lra).
  assert (P1 : 0 <= (d1 + d0) * (theta * (1 - theta)))
    by (apply Rmult_le_pos; lra).
  assert (P2 : m * (theta * (1 - theta)) <= m * (1 / 4))
    by (apply Rmult_le_compat_l; lra).
  replace (m + (d1 + d0 - 2 * m) * theta * (1 - theta))
    with (m + (d1 + d0) * (theta * (1 - theta))
          - 2 * (m * (theta * (1 - theta)))) by ring.
  lra.
Qed.

(** The segment mirrored about a point is the segment read backwards. *)
Lemma pade22_mirror c v :
  x0 <= v <= x1 ->
  pade22_func (c - x1) (c - x0) y1 y0 (- d1) (- d0) (c - v)
  = pade22_func x0 x1 y0 y1 d0 d1 v.
Proof.
  intros Hv.
  pose proof (theta_range x0 x1 Hx v Hv) as Ht.
  pose proof (pade22_den_pos_flat _ Ht) as HD.
  pose proof (slope_pos x0 x1 y0 y1 Hx Hy) as Hm.
  unfold pade22_func. cbv zeta.
  replace ((y0 - y1) / (c - x0 - (c - x1)))
    with (- ((y1 - y0) / (x1 - x0))) by (field; lra).
  replace ((c - v - (c - x1)) / (c - x0 - (c - x1)))
    with (1 - (v - x0) / (x1 - x0)) by (field; lra).
  set (m := (y1 - y0) / (x1 - x0)) in *.
  set (t := (v - x0) / (x1 - x0)) in *.
  replace (- m + (- d0 + - d1 - 2 * - m) * (1 - t) * (1 - (1 - t)))
    with (- (m + (d1 + d0 - 2 * m) * t * (1 - t))) by ring.
  set (D := m + (d1 + d0 - 2 * m) * t * (1 - t)) in *.
  assert (ED : D = m + (d1 + d0 - 2 * m) * t * (1 - t)) by reflexivity.
  clearbody D. field_simplify_eq; [| lra].
  rewrite ED. ring.
Qed.
End SegmentFlat.

Lemma pade22_at_x1_distinct x0 x1 y0 y1 d0 d1 :
  x0 <> x1 -> y0 <> y1 -> pade22_func x0 x1 y0 y1 d0 d1 x1 = y1.
Proof.
  intros Hx Hy. unfold pade22_func. cbv zeta.
  replace ((x1 - x0) / (x1 - x0)) with 1 by (field; lra).
  assert (Hm : (y1 - y0) / (x1 - x0) <> 0).
  { unfold Rdiv. apply Rmult_integral_contrapositive_currified; [lra |].
    apply Rinv_neq_0_compat. lra. }
  set (m := (y1 - y0) / (x1 - x0)) in *. field. lra.
Qed.
Lemma flat_rows_nonempty xs ys ds :
  flat_rows (xs, ys, ds) -> xs <> [] /\ ys <> [] /\ ds <> [].
Proof.
  intros (Hn & Hy & Hd & _). repeat split; intros ->; cbn in *; lia.
Qed.

Lemma mirror_nth_left_opp (l R : list R) k :
  (1 <= k < length l)%nat ->
  nth (length l - 1 - k) (map Ropp (rev (tl l)) ++ l ++ R) 0 = - nth k l 0.
Proof.
  intros Hk.
  replace (map Ropp (rev (tl l))) with (map (fun v => 0 - v) (rev (tl l)))
    by (apply map_ext; intros; ring).
  rewrite mirror_nth_left by lia. ring.
Qed.

(** With the knots mirrored about the first knot in front, the
    rational-quadratic spline is even about that knot. *)
Lemma periodic_reflect_row xs ys ds v :
  flat_rows (xs, ys, ds) -> hd 0 ds = 0 ->
  hd 0 xs <= v <= last xs 0 ->
  forward_row Pade22
    (app_rows (periodic_left_rows (xs, ys, ds)) (app_rows (xs, ys, ds) no_rows))
    (2 * hd 0 xs - v)
  = forward_row Pade22
      (app_rows (periodic_left_rows (xs, ys, ds)) (app_rows (xs, ys, ds) no_rows))
      v.
Proof.
  intros Hv Hz Hr. pose proof Hv as (Hn & Hy & Hd & Ix & Iy & Pd).
  cbn [periodic_left_rows app_rows no_rows].
  set (xs' := map (fun u => 2 * hd 0 xs - u) (rev (tl xs)) ++ xs ++ []).
  set (ys' := rev (tl ys) ++ ys ++ []).
  set (ds' := map Ropp (rev (tl ds)) ++ ds ++ []).
  assert (Hlen' : length xs' = (2 * length xs - 1)%nat).
  { unfold xs'. rewrite !length_app, length_map, length_rev, length_tl.
    cbn [length]. lia. }
  assert (Ix' : increasing xs').
  { unfold xs'. rewrite app_nil_r.
    apply increasing_app;
      [apply increasing_reflect, increasing_tl, Ix | exact Ix |].
    intros _ _. rewrite last_map_rev_tl by lia. rewrite <- nth_0_hd.
    specialize (Ix 0%nat ltac:(lia)). cbn [Nat.add] in Ix. lra. }
  rewrite <- nth_0_hd, <- nth_last in Hr.
  destruct (segment_of_encloses xs v Ix Hn Hr) as (Hi & Henc & Hcase).
  set (i := segment_of xs (length xs - 1) v) in *. clearbody i.
  destruct Hcase as [Hlt | [E0 Ev]];
    [| rewrite Ev, nth_0_hd; f_equal; ring].
  assert (Sx : nth i xs 0 < nth (i + 1) xs 0) by (apply Ix; lia).
  assert (Sy : nth i ys 0 < nth (i + 1) ys 0) by (apply Iy; lia).
  assert (Sd0 : 0 <= nth i ds 0) by (apply Pd; lia).
  assert (Sd1 : 0 <= nth (i + 1) ds 0) by (apply Pd; lia).
  (* the knots of the original segment, in the augmented sequences *)
  assert (Ex0 : nth (length xs - 1 + i) xs' 0 = nth i xs 0)
    by (apply mirror_nth_right;
        [rewrite length_map, length_rev, length_tl | ]; lia).
  assert (Ex1 : nth (length xs - 1 + i + 1) xs' 0 = nth (i + 1) xs 0)
    by (rewrite <- Nat.add_assoc; apply mirror_nth_right;
        [rewrite length_map, length_rev, length_tl | ]; lia).
  assert (Ey0 : nth (length xs - 1 + i) ys' 0 = nth i ys 0)
    by (rewrite <- Hy; apply mirror_nth_right;
        [rewrite length_rev, length_tl | ]; lia).
  assert (Ey1 : nth (length xs - 1 + i + 1) ys' 0 = nth (i + 1) ys 0)
    by (rewrite <- Nat.add_assoc, <- Hy; apply mirror_nth_right;
        [rewrite length_rev, length_tl | ]; lia).
  assert (Ed0 : nth (length xs - 1 + i) ds' 0 = nth i ds 0)
    by (rewrite <- Hd; apply mirror_nth_right;
        [rewrite length_map, length_rev, length_tl | ]; lia).
  assert (Ed1 : nth (length xs - 1 + i + 1) ds' 0 = nth (i + 1) ds 0)
    by (rewrite <- Nat.add_assoc, <- Hd; apply mirror_nth_right;
        [rewrite length_map, length_rev, length_tl | ]; lia).
  (* the knots of the mirrored segment *)
  assert (Mx : forall k, (1 <= k < length xs)%nat ->
            nth (length xs - 1 - k) xs' 0 = 2 * hd 0 xs - nth k xs 0)
    by (intros k Hk; apply mirror_nth_left; lia).
  assert (My : forall k, (1 <= k < length xs)%nat ->
            nth (length xs - 1 - k) ys' 0 = nth k ys 0)
    by (intros k Hk; rewrite <- Hy; apply mirror_nth_left_plain; lia).
  assert (Md : forall k, (1 <= k < length xs)%nat ->
            nth (length xs - 1 - k) ds' 0 = - nth k ds 0)
    by (intros k Hk; rewrite <- Hd; apply mirror_nth_left_opp; lia).
  assert (Mx1 : nth (length xs - 1 - (i + 1) + 1) xs' 0
                = 2 * hd 0 xs - nth i xs 0).
  { destruct (Nat.eq_dec i 0) as [E0 | Hne].
    - replace (length xs - 1 - (i + 1) + 1)%nat
        with (length xs - 1 + i)%nat by lia.
      rewrite Ex0, E0, nth_0_hd. lra.
    - replace (length xs - 1 - (i + 1) + 1)%nat with (length xs - 1 - i)%nat
        by lia.
      apply Mx; lia. }
  assert (My1 : nth (length xs - 1 - (i + 1) + 1) ys' 0 = nth i ys 0).
  { destruct (Nat.eq_dec i 0) as [E0 | Hne].
    - replace (length xs - 1 - (i + 1) + 1)%nat
        with (length xs - 1 + i)%nat by lia.
      exact Ey0.
    - replace (length xs - 1 - (i + 1) + 1)%nat with (length xs - 1 - i)%nat
        by lia.
      apply My; lia. }
  (* the value at [v] *)
  assert (Fv : forward_row Pade22 (xs', ys', ds') v
               = pade22_func (nth i xs 0) (nth (i + 1) xs 0) (nth i ys 0)
                   (nth (i + 1) ys 0) (nth i ds 0) (nth (i + 1) ds 0) v).
  { unfold forward_row.
    rewrite (segment_of_between xs' v (length xs - 1 + i))
      by (rewrite ?Ex0, ?Ex1; try assumption; try lia; lra).
    unfold segment_value, segment_func.
    now rewrite Ex0, Ex1, Ey0, Ey1, Ed0, Ed1. }
  rewrite Fv.
  destruct Henc as [_ Hhi].
  destruct (Rle_lt_or_eq_dec _ _ Hhi) as [Hin | Hk].
  - (* strictly inside the segment *)
    unfold forward_row.
    rewrite (segment_of_between xs' _ (length xs - 1 - (i + 1)))
      by (rewrite ?Mx, ?Mx1; try assumption; try lia; lra).
    unfold segment_value, segment_func.
    rewrite Mx, Mx1, My, My1, Md by lia.
    destruct (Nat.eq_dec i 0) as [E0 | Hne].
    + replace (length xs - 1 - (i + 1) + 1)%nat
        with (length xs - 1 + i)%nat by lia.
      rewrite Ed0. subst i. cbn [Nat.add] in *.
      rewrite <- nth_0_hd in Hz.
      replace (nth 0 ds 0) with (- nth 0 ds 0) at 1 by (rewrite Hz; ring).
      apply pade22_mirror; auto; lra.
    + replace (length xs - 1 - (i + 1) + 1)%nat with (length xs - 1 - i)%nat
        by lia.
      rewrite Md by lia. apply pade22_mirror; auto; lra.
  - (* at the knot [i + 1] *)
    rewrite Hk, pade22_at_x1_distinct by lra.
    rewrite <- (Mx (i + 1)%nat) by lia.
    destruct (Nat.eq_dec (length xs - 1 - (i + 1)) 0) as [Z | NZ].
    + rewrite <- (My (i + 1)%nat) by lia. rewrite Z.
      unfold forward_row.
      rewrite segment_of_first by (try lia; lra).
      unfold segment_value, segment_func. apply pade22_at_x0.
    + unfold forward_row.
      rewrite (segment_of_between xs' _ (length xs - 1 - (i + 1) - 1)).
      * unfold segment_value, segment_func.
        replace (length xs - 1 - (i + 1) - 1 + 1)%nat
          with (length xs - 1 - (i + 1))%nat by lia.
        rewrite pade22_at_x1_distinct.
        -- apply My. lia.
        -- replace (length xs - 1 - (i + 1) - 1)%nat
             with (length xs - 1 - (i + 1 + 1))%nat by lia.
           rewrite !Mx by lia. specialize (Ix (i + 1)%nat ltac:(lia)). lra.
        -- replace (length xs - 1 - (i + 1) - 1)%nat
             with (length xs - 1 - (i + 1 + 1))%nat by lia.
           rewrite !My by lia. specialize (Iy (i + 1)%nat ltac:(lia)). lra.
      * exact Ix'.
      * lia.
      * replace (length xs - 1 - (i + 1) - 1 + 1)%nat
          with (length xs - 1 - (i + 1))%nat by lia.
        split; [| lra].
        pose proof (Ix' (length xs - 1 - (i + 1) - 1)%nat ltac:(lia)) as H.
        replace (length xs - 1 - (i + 1) - 1 + 1)%nat
          with (length xs - 1 - (i + 1))%nat in H by lia.
        exact H.
Qed.
Section PeriodicReflection.
Variable a : axis.

(** In a fibre whose boundary derivative is zero, a periodic left side
    makes the rational quadratic spline even about the first knot. *)
Lemma periodic_left_reflection x y d e n B S eps :
  aligned a n B x y d -> (2 <= n)%nat ->
  (forall b, (b < B)%nat -> flat_rows (rows_of a x y d b)) ->
  SplineTemplate.init Pade22Spline.cls x y (Some d) a e
    (Some "periodic"%string) None = Ok S ->
  Torch.blen a eps = B ->
  (forall q b, (q < Torch.klen a eps)%nat -> (b < B)%nat ->
     0 <= Torch.getk a eps q b
       <= Torch.getk a x (n - 1) b - Torch.getk a x 0 b) ->
  let x0 := Torch.index_select x a [0%nat] in
  exists vm vp,
    SplineTemplate.forward Pade22Spline.cls S (x0 - eps)%T false = Value vm /\
    SplineTemplate.forward Pade22Spline.cls S (x0 + eps)%T false = Value vp /\
    Torch.shape vm = Torch.shape vp /\
    forall q b, (q < Torch.klen a eps)%nat -> (b < B)%nat ->
      Torch.getk a d 0 b = 0 ->
      Torch.getk a vm q b = Torch.getk a vp q b.
Proof.
  intros Hal Hn Hrows E Heb Heps. cbv zeta.
  pose proof Hal as ((Hxk & Hxb) & (Hyk & Hyb) & (Hdk & Hdb)).
  assert (Hn1 : (1 <= n)%nat) by lia.
  destruct (init_rows a Pade22Spline.cls x y d e (Some "periodic"%string) None
              n B S Hal Hn1 E) as (HaS & Hal' & _ & Hseg & _ & Hemb).
  assert (HN : augmented_len (Some "periodic"%string) None n
               = (n - 1 + n + 0)%nat) by reflexivity.
  set (xm := (Torch.index_select x a [0%nat] - eps)%T).
  set (xp := (Torch.index_select x a [0%nat] + eps)%T).
  assert (Hmk : Torch.klen a xm = Torch.klen a eps)
    by (unfold xm, Torch.sub; shapes; reflexivity).
  assert (Hmb : Torch.blen a xm = B)
    by (unfold xm, Torch.sub; shapes; reflexivity).
  assert (Hpk : Torch.klen a xp = Torch.klen a eps)
    by (unfold xp, Torch.add; shapes; reflexivity).
  assert (Hpb : Torch.blen a xp = B)
    by (unfold xp, Torch.add; shapes; reflexivity).
  destruct (forward_reads Pade22 S xm) as (vm & Em & Wm & Rm).
  { rewrite HaS. destruct Hal' as ((_ & Hb') & _). congruence. }
  destruct (forward_reads Pade22 S xp) as (vp & Ep & Wp & Rp).
  { rewrite HaS. destruct Hal' as ((_ & Hb') & _). congruence. }
  cbn [class_of] in Em, Ep.
  exists vm, vp. split; [exact Em |]. split; [exact Ep |].
  destruct (reads_shaped a vm xm _ Rm) as [Vmk Vmb].
  destruct (reads_shaped a vp xp _ Rp) as [Vpk Vpb].
  split.
  { unfold Torch.shape. clear - Vmk Vmb Vpk Vpb Hmk Hmb Hpk Hpb.
    revert Vmk Vmb Vpk Vpb Hmk Hmb Hpk Hpb.
    destruct a; cbn [Torch.klen Torch.blen]; intros; f_equal; congruence. }
  intros q b Hq Hb Hz.
  assert (Hws : well_shaped S (n - 1 + n + 0) B).
  { unfold well_shaped. rewrite HaS, <- HN. split; [exact Hal' |].
    split; [exact Hseg | rewrite HN; lia]. }
  destruct (forward_rowwise Pade22 S xm _ B Hws ltac:(now rewrite HaS))
    as (vm' & Em' & _ & _ & _ & Hvm).
  destruct (forward_rowwise Pade22 S xp _ B Hws ltac:(now rewrite HaS))
    as (vp' & Ep' & _ & _ & _ & Hvp).
  cbn [class_of] in Em', Ep'.
  assert (vm' = vm) by congruence. assert (vp' = vp) by congruence.
  subst vm' vp'. rewrite HaS in *.
  rewrite Hvm by (rewrite ?Hmk; assumption).
  rewrite Hvp by (rewrite ?Hpk; assumption).
  unfold xm, xp, Torch.sub, Torch.add.
  rewrite !getk_map2_bcast by (shapes; congruence || lia).
  rewrite !getk_index_select by (shapes; lia). cbn [nth].
  specialize (Heps q b Hq Hb).
  unfold spline_rows. rewrite HaS, (Hemb b Hb).
  pose proof (Hrows b Hb) as Hvb. unfold rows_of in *.
  change (augmented_rows (Some "periodic"%string) None
            (Torch.fibre a x b, Torch.fibre a y b, Torch.fibre a d b))
    with (app_rows
            (periodic_left_rows
               (Torch.fibre a x b, Torch.fibre a y b, Torch.fibre a d b))
            (app_rows (Torch.fibre a x b, Torch.fibre a y b, Torch.fibre a d b)
               no_rows)).
  assert (Gx0 : Torch.getk a x 0 b = hd 0 (Torch.fibre a x b))
    by (rewrite <- nth_0_hd, nth_fibre by lia; reflexivity).
  assert (Gd0 : Torch.getk a d 0 b = hd 0 (Torch.fibre a d b))
    by (rewrite <- nth_0_hd, nth_fibre by lia; reflexivity).
  assert (Gxl : Torch.getk a x (n - 1) b = last (Torch.fibre a x b) 0)
    by (rewrite <- nth_last, length_fibre, Hxk, nth_fibre by lia;
        reflexivity).
  rewrite Gx0, Gxl in Heps. rewrite Gx0. rewrite Gd0 in Hz.
  replace (hd 0 (Torch.fibre a x b) - Torch.getk a eps q b)
    with (2 * hd 0 (Torch.fibre a x b)
          - (hd 0 (Torch.fibre a x b) + Torch.getk a eps q b)) by ring.
  apply periodic_reflect_row; auto. lra.
Qed.
End PeriodicReflection.
Lemma init_of_perform_bc cls x y d a l r self' :
  AugmentKnots.perform_bc (AugmentKnots.mk x y d a) l r = Ok self' ->
  Torch.shape x = Torch.shape y ->
  exists S, SplineTemplate.init cls x y (Some d) a true l r = Ok S.
Proof.
  intros E Hs. unfold SplineTemplate.init. cbn [negb].
  unfold Torch.shape in Hs. injection Hs as H0 H1.
  rewrite H0, H1, !Nat.eqb_refl. cbn [andb negb bind].
  unfold AugmentKnots.call, AugmentKnots.init. rewrite E. cbn [bind].
  eexists. reflexivity.
Qed.

Lemma nonneg_pair u v : 0 <= u -> 0 <= v -> nonneg [u; v].
Proof.
  intros Hu Hv i Hi. cbn [length] in Hi.
  destruct i as [| [| i]]; [exact Hu | exact Hv | lia].
Qed.

Lemma example_flat_rows b :
  (b < 1)%nat -> flat_rows (rows_of Ax1 example_x example_y example_flat_d b).
Proof.
  intros Hb. destruct b as [| b]; [| lia].
  cbn. repeat apply conj; try reflexivity; try lia.
  - apply increasing_pair. lra.
  - apply increasing_pair. lra.
  - apply nonneg_pair; lra.
Qed.

Lemma example_periodic_init :
  exists S,
    SplineTemplate.init Pade22Spline.cls example_x example_y
      (Some example_flat_d) Ax1 true (Some "periodic"%string) None = Ok S.
Proof.
  assert (Hchk : periodic_check Ax1 example_flat_d 0 = Ok false).
  { apply (periodic_check_Ax1 _ 0 0); [cbn; lia | cbn; lia | reflexivity]. }
  destruct (takecare_rest_ok_checked Ax1 example_x example_y example_flat_d
              (Some "periodic"%string) None 2 eq_refl ltac:(lia)
              (or_intror (or_intror Hchk)) (or_intror (or_introl eq_refl)))
    as [self' E].
  apply (init_of_perform_bc _ _ _ _ _ _ _ self'); [exact E | reflexivity].
Qed.
(** ** Knots that differ from their neighbours *)

Section NaturalDistinct.
Variable a : axis.

(** When neighbouring knots differ in coordinate and in value, every slope
    is finite and not zero, and so is every derivative of the natural
    recurrence: none of its divisions is by zero. *)
Lemma natural_smoothing_distinct x y n B :
  shaped a n B x -> shaped a n B y -> (1 <= n)%nat ->
  (forall b k, (b < B)%nat -> (k + 1 < n)%nat ->
     Torch.getk a x k b <> Torch.getk a x (k + 1) b /\
     Torch.getk a y k b <> Torch.getk a y (k + 1) b) ->
  exists d,
    Pade11Spline.smooth_derivatives x y a "natural" = Ok d /\
    shaped a n B d /\
    forall b, (b < B)%nat ->
      Torch.getk a d 0 b = 1 /\
      (forall k, (k + 1 < n)%nat -> slope a x y b k <> 0) /\
      (forall k, (k < n)%nat -> Torch.getk a d k b <> 0) /\
      forall k, (k + 1 < n)%nat ->
        Torch.getk a d (k + 1) b
        = slope a x y b k ^ 2 / Torch.getk a d k b.
Proof.
  intros Hx Hy Hn Hne.
  destruct (natural_smoothing_spec a x y n B Hx Hy Hn)
    as (_ & (d & E & Hd & Hval) & _).
  exists d. split; [exact E |]. split; [exact Hd |].
  intros b Hb. destruct (Hval b Hb) as (H0 & Hstep).
  assert (Hs : forall k, (k + 1 < n)%nat -> slope a x y b k <> 0).
  { intros k Hk. destruct (Hne b k Hb Hk) as [Nx Ny]. unfold slope, Rdiv.
    apply Rmult_integral_contrapositive_currified; [lra |].
    apply Rinv_neq_0_compat. lra. }
  split; [exact H0 |]. split; [exact Hs |]. split; [| exact Hstep].
  induction k as [| k IH]; intros Hk.
  - rewrite H0. lra.
  - replace (S k) with (k + 1)%nat in * by lia.
    rewrite Hstep by lia. specialize (IH ltac:(lia)).
    unfold Rdiv. apply Rmult_integral_contrapositive_currified.
    + apply pow_nonzero. apply Hs. lia.
    + now apply Rinv_neq_0_compat.
Qed.
End NaturalDistinct.

(** ** [cat] of tensors of one size across the axis *)

Lemma cat_kept_In (catlist : list (option (tensor R))) u :
  In u (flat_map (fun o => match o with Some v => [v] | None => [] end) catlist)
  <-> In (Some u) catlist.
Proof.
  rewrite in_flat_map. split.
  - intros (o & Ho & Hu). destruct o as [v |]; [| contradiction].
    destruct Hu as [-> | []]. exact Ho.
  - intros H. exists (Some u). split; [exact H | now left].
Qed.

Lemma blen_fold_cat2 a (rest : list (tensor R)) (acc : tensor R) :
  Torch.blen a (fold_left (fun acc u => Torch.cat2 acc u a) rest acc)
  = Torch.blen a acc.
Proof.
  revert acc. induction rest as [| u rest IH]; intros acc; [reflexivity |].
  cbn [fold_left]. rewrite IH. apply blen_cat2.
Qed.

Lemma cat_blen (catlist : list (option (tensor R))) a B t :
  (forall u, In (Some u) catlist -> Torch.blen a u = B) ->
  AugmentKnots.cat catlist a = Ok t -> Torch.blen a t = B.
Proof.
  intros HB. unfold AugmentKnots.cat.
  assert (HB' : forall u,
            In u (flat_map (fun o => match o with Some v => [v] | None => [] end)
                    catlist) -> Torch.blen a u = B)
    by (intros u Hu; apply HB; now apply cat_kept_In).
  revert HB'.
  destruct (flat_map _ catlist) as [| u [| u' l]];
    cbn [length Nat.ltb Nat.leb]; intros HB'.
  - discriminate.
  - intros [= <-]. apply HB'. left. reflexivity.
  - intros [= <-]. cbn [Torch.cat]. rewrite blen_fold_cat2, ?blen_cat2.
    apply HB'. left. reflexivity.
Qed.

Lemma cat_all_none (catlist : list (option (tensor R))) a :
  (forall o, In o catlist -> o = None) ->
  AugmentKnots.cat catlist a = Raise (IndexError "list index out of range").
Proof.
  intros H. apply cat_kept_nil in H. unfold AugmentKnots.cat. now rewrite H.
Qed.

(** ** A periodic side with the knots along the first axis *)

Lemma periodic_first_axis_refused_aligned x y d l r n B :
  aligned Ax0 n B x y d -> (1 <= n)%nat -> (2 <= B)%nat ->
  is_periodic l = true \/ is_periodic r = true ->
  exists msg,
    AugmentKnots.takecare_rest (AugmentKnots.mk x y d Ax0) l r
    = Raise (RuntimeError msg).
Proof.
  intros ((Hxk & _) & _ & (_ & Hdb)) Hn HB Hp.
  apply (periodic_first_axis_refused x y d l r n); auto.
  cbn [Torch.blen] in Hdb. lia.
Qed.

(** * The claims *)

(** C2, as the code has it: a selector string the module does not know is
    accepted and treated like [None] on its side.  Construction gives the
    instance it gives with [None] there (and raises exactly when that one
    raises); only the recorded selector differs. *)
Theorem unknown_selector_is_accepted cls x y d a e s other :
  unknown_selector s ->
  SplineTemplate.init cls x y d a e (Some s) other
  = (S <- SplineTemplate.init cls x y d a e None other ;;
     Ok (with_selectors S (Some s) other)) /\
  SplineTemplate.init cls x y d a e other (Some s)
  = (S <- SplineTemplate.init cls x y d a e other None ;;
     Ok (with_selectors S other (Some s))).
Proof.
  intros U. unfold SplineTemplate.init.
  destruct (negb e); [split; reflexivity |].
  destruct (negb _); [split; reflexivity |].
  destruct (match d with
            | Some d0 => Ok d0
            | None => cls_smooth_derivatives cls x y a
            end) as [d' | err]; [| split; reflexivity].
  cbn [bind]. destruct e; [| split; reflexivity].
  unfold AugmentKnots.call.
  rewrite perform_bc_unknown_left, perform_bc_unknown_right by exact U.
  split.
  - destruct (AugmentKnots.perform_bc _ None other); reflexivity.
  - destruct (AugmentKnots.perform_bc _ other None); reflexivity.
Qed.

Lemma unknown_selector_is_accepted_witness :
  unknown_selector "cubic" /\
  SplineTemplate.init Pade22Spline.cls (Torch.of_rows [[0; 1]])
    (Torch.of_rows [[0; 1]]) (Some (Torch.of_rows [[1; 1]])) Ax1 true
    (Some "cubic"%string) None
  = (S <- SplineTemplate.init Pade22Spline.cls (Torch.of_rows [[0; 1]])
            (Torch.of_rows [[0; 1]]) (Some (Torch.of_rows [[1; 1]])) Ax1 true
            None None ;;
     Ok (with_selectors S (Some "cubic"%string) None)).
Proof.
  assert (U : unknown_selector "cubic") by (repeat split; discriminate).
  split; [exact U |].
  apply (unknown_selector_is_accepted Pade22Spline.cls _ _ _ Ax1 true "cubic" None U).
Defined.

(** C2 as stated fails: with the unknown selector ['cubic'] on the left the
    construction completes. *)
Lemma unknown_selector_does_not_raise :
  (exists S,
     SplineTemplate.init Pade22Spline.cls (Torch.of_rows [[0; 1]])
       (Torch.of_rows [[0; 1]]) (Some (Torch.of_rows [[1; 1]])) Ax1 true
       (Some "cubic"%string) None
     = Ok S) /\
  ~ raises
      (SplineTemplate.init Pade22Spline.cls (Torch.of_rows [[0; 1]])
         (Torch.of_rows [[0; 1]]) (Some (Torch.of_rows [[1; 1]])) Ax1 true
         (Some "cubic"%string) None).
Proof.
  split; [eexists; reflexivity |]. intros [e E]. discriminate E.
Qed.

(** C3 at a failing input: two fibres, the derivative at the first knot is
    [0] in the first and [1] in the second, and [extrap_left='periodic'] is
    accepted. *)
Theorem periodic_check_accepts_nonzero_derivative :
  let d := Torch.of_rows [[0; 1]; [1; 1]] in
  Torch.getk Ax1 d 0 1 = 1 /\
  exists S,
    SplineTemplate.init Pade22Spline.cls (Torch.of_rows [[0; 1]; [0; 1]])
      (Torch.of_rows [[0; 1]; [0; 1]]) (Some d) Ax1 true
      (Some "periodic"%string) None
    = Ok S.
Proof.
  cbv zeta. split; [reflexivity |].
  destruct (takecare_rest_ok_checked Ax1 (Torch.of_rows [[0; 1]; [0; 1]])
              (Torch.of_rows [[0; 1]; [0; 1]]) (Torch.of_rows [[0; 1]; [1; 1]])
              (Some "periodic"%string) None 2 eq_refl ltac:(lia))
    as (self' & E).
  - right. right. apply (periodic_check_Ax1 _ 0 0); [cbn; lia | cbn; lia | reflexivity].
  - right. left. reflexivity.
  - unfold SplineTemplate.init, AugmentKnots.call, AugmentKnots.init,
      AugmentKnots.perform_bc.
    cbn [negb Torch.of_rows dim0 dim1 length hd Nat.eqb andb bind is_None
         str_eq String.eqb Ascii.eqb Bool.eqb orb].
    rewrite E. cbn [bind]. eexists. reflexivity.
Qed.



(** C4: [extrap_left='linear'] prepends exactly one fictitious knot, at
    [x_boundary - 1] with value [y_boundary - d_boundary] and the derivative
    of the boundary, and [extrap_right='linear'] appends one at
    [x_boundary + 1] with value [y_boundary + d_boundary]; with [None] on
    the other side the augmentation succeeds and adds nothing else. *)
Theorem linear_side_adds_one_knot a x y d n B other :
  aligned a n B x y d -> (1 <= n)%nat ->
  (exists self',
     AugmentKnots.perform_bc (AugmentKnots.mk x y d a)
       (Some "linear"%string) None = Ok self') /\
  (exists self',
     AugmentKnots.perform_bc (AugmentKnots.mk x y d a)
       None (Some "linear"%string) = Ok self') /\
  (forall self',
     AugmentKnots.perform_bc (AugmentKnots.mk x y d a)
       (Some "linear"%string) other = Ok self' ->
     forall b, (b < B)%nat ->
     let xs := Torch.fibre a x b in
     let ys := Torch.fibre a y b in
     let ds := Torch.fibre a d b in
     exists Rx Ry Rd,
       Torch.fibre a (AugmentKnots.knots_x self') b = (hd 0 xs - 1) :: xs ++ Rx /\
       Torch.fibre a (AugmentKnots.knots_y self') b
       = (hd 0 ys - hd 0 ds) :: ys ++ Ry /\
       Torch.fibre a (AugmentKnots.knots_d self') b = hd 0 ds :: ds ++ Rd /\
       (other = None -> Rx = [] /\ Ry = [] /\ Rd = [])) /\
  (forall self',
     AugmentKnots.perform_bc (AugmentKnots.mk x y d a)
       other (Some "linear"%string) = Ok self' ->
     forall b, (b < B)%nat ->
     let xs := Torch.fibre a x b in
     let ys := Torch.fibre a y b in
     let ds := Torch.fibre a d b in
     exists Lx Ly Ld,
       Torch.fibre a (AugmentKnots.knots_x self') b
       = Lx ++ xs ++ [last xs 0 + 1] /\
       Torch.fibre a (AugmentKnots.knots_y self') b
       = Ly ++ ys ++ [last ys 0 + last ds 0] /\
       Torch.fibre a (AugmentKnots.knots_d self') b = Ld ++ ds ++ [last ds 0] /\
       (other = None -> Lx = [] /\ Ly = [] /\ Ld = [])).
Proof.
  intros Hal Hn. repeat apply conj.
  - now apply (perform_bc_ok a x y d _ _ n B).
  - now apply (perform_bc_ok a x y d _ _ n B).
  - intros self' E b Hb. cbv zeta.
    apply (perform_bc_rows a x y d _ _ n B self' Hal Hn) in E.
    destruct E as (x' & y' & d' & -> & _ & Hrows).
    specialize (Hrows b Hb). unfold rows_of in Hrows.
    destruct (augmented_rows_linear_left other (Torch.fibre a x b)
                (Torch.fibre a y b) (Torch.fibre a d b))
      as (Rx & Ry & Rd & E & Hnone).
    rewrite E in Hrows. injection Hrows as Ex Ey Ed.
    exists Rx, Ry, Rd. cbn [AugmentKnots.knots_x AugmentKnots.knots_y
                            AugmentKnots.knots_d]. auto.
  - intros self' E b Hb. cbv zeta.
    apply (perform_bc_rows a x y d _ _ n B self' Hal Hn) in E.
    destruct E as (x' & y' & d' & -> & _ & Hrows).
    specialize (Hrows b Hb). unfold rows_of in Hrows.
    destruct (augmented_rows_linear_right other (Torch.fibre a x b)
                (Torch.fibre a y b) (Torch.fibre a d b))
      as (Lx & Ly & Ld & E & Hnone).
    rewrite E in Hrows. injection Hrows as Ex Ey Ed.
    exists Lx, Ly, Ld. cbn [AugmentKnots.knots_x AugmentKnots.knots_y
                            AugmentKnots.knots_d]. auto.
Qed.

Lemma linear_side_adds_one_knot_witness :
  aligned Ax1 2 1 (Torch.of_rows [[0; 1]]) (Torch.of_rows [[0; 2]])
    (Torch.of_rows [[3; 4]]) /\
  (1 <= 2)%nat /\
  exists self',
    AugmentKnots.perform_bc
      (AugmentKnots.mk (Torch.of_rows [[0; 1]]) (Torch.of_rows [[0; 2]])
         (Torch.of_rows [[3; 4]]) Ax1)
      (Some "linear"%string) None = Ok self'.
Proof.
  assert (H : aligned Ax1 2 1 (Torch.of_rows [[0; 1]]) (Torch.of_rows [[0; 2]])
                (Torch.of_rows [[3; 4]])) by (repeat split).
  split; [exact H |]. split; [lia |].
  exact (proj1 (linear_side_adds_one_knot Ax1 _ _ _ 2 1 None H ltac:(lia))).
Defined.



(** C9: with [bc_type='natural'] the derivatives of [Pade11Spline] start
    at [d[0] = 1] and follow [d[k+1] = slope[k]^2 / d[k]] for
    [k = 0 .. knots_len-2], each from the one the loop computed before it,
    for knots that differ from their neighbours in coordinate and in value:
    then every slope is finite and not zero, the alternating product that
    seeds the recurrence is finite, and no derivative it divides by is
    zero.  Any other [bc_type] raises, whatever the knots. *)
Theorem natural_smoothing a x y n B :
  shaped a n B x -> shaped a n B y -> (1 <= n)%nat ->
  cls_smooth_derivatives Pade11Spline.cls x y a
  = Pade11Spline.smooth_derivatives x y a "natural" /\
  ((forall b k, (b < B)%nat -> (k + 1 < n)%nat ->
      Torch.getk a x k b <> Torch.getk a x (k + 1) b /\
      Torch.getk a y k b <> Torch.getk a y (k + 1) b) ->
   exists d,
     Pade11Spline.smooth_derivatives x y a "natural" = Ok d /\
     shaped a n B d /\
     forall b, (b < B)%nat ->
       Torch.getk a d 0 b = 1 /\
       (forall k, (k + 1 < n)%nat -> slope a x y b k <> 0) /\
       (forall k, (k < n)%nat -> Torch.getk a d k b <> 0) /\
       forall k, (k + 1 < n)%nat ->
         Torch.getk a d (k + 1) b
         = slope a x y b k ^ 2 / Torch.getk a d k b) /\
  (forall bc_type, bc_type <> "natural"%string ->
     Pade11Spline.smooth_derivatives x y a bc_type
     = Raise (Exception "bc_type is not know")).
Proof.
  intros Hx Hy Hn.
  destruct (natural_smoothing_spec a x y n B Hx Hy Hn) as (Ecls & _ & Hraise).
  split; [exact Ecls |]. split; [| exact Hraise].
  intros Hne. now apply natural_smoothing_distinct.
Qed.

Lemma natural_smoothing_witness :
  shaped Ax1 3 1 (Torch.of_rows [[0; 1; 3]]) /\
  shaped Ax1 3 1 (Torch.of_rows [[0; 2; 3]]) /\
  (1 <= 3)%nat /\
  (forall b k, (b < 1)%nat -> (k + 1 < 3)%nat ->
     Torch.getk Ax1 (Torch.of_rows [[0; 1; 3]]) k b
     <> Torch.getk Ax1 (Torch.of_rows [[0; 1; 3]]) (k + 1) b /\
     Torch.getk Ax1 (Torch.of_rows [[0; 2; 3]]) k b
     <> Torch.getk Ax1 (Torch.of_rows [[0; 2; 3]]) (k + 1) b) /\
  (exists d,
     Pade11Spline.smooth_derivatives (Torch.of_rows [[0; 1; 3]])
       (Torch.of_rows [[0; 2; 3]]) Ax1 "natural" = Ok d /\
     Torch.getk Ax1 d 0 0 = 1 /\
     Torch.getk Ax1 d 1 0 <> 0) /\
  Pade11Spline.smooth_derivatives (Torch.of_rows [[0; 1; 3]])
    (Torch.of_rows [[0; 2; 3]]) Ax1 "ones"
  = Raise (Exception "bc_type is not know").
Proof.
  assert (Hx : shaped Ax1 3 1 (Torch.of_rows [[0; 1; 3]])) by (split; reflexivity).
  assert (Hy : shaped Ax1 3 1 (Torch.of_rows [[0; 2; 3]])) by (split; reflexivity).
  assert (Hne : forall b k, (b < 1)%nat -> (k + 1 < 3)%nat ->
            Torch.getk Ax1 (Torch.of_rows [[0; 1; 3]]) k b
            <> Torch.getk Ax1 (Torch.of_rows [[0; 1; 3]]) (k + 1) b /\
            Torch.getk Ax1 (Torch.of_rows [[0; 2; 3]]) k b
            <> Torch.getk Ax1 (Torch.of_rows [[0; 2; 3]]) (k + 1) b).
  { intros b k Hb Hk. destruct b as [| b]; [| lia].
    destruct k as [| [| k]]; [cbn; split; lra | cbn; split; lra | lia]. }
  split; [exact Hx |]. split; [exact Hy |]. split; [lia |].
  split; [exact Hne |].
  destruct (natural_smoothing Ax1 _ _ 3 1 Hx Hy ltac:(lia))
    as (_ & Hd & Hraise).
  split.
  - destruct (Hd Hne) as (d & E & _ & Hval).
    exists d. split; [exact E |].
    destruct (Hval 0%nat ltac:(lia)) as (H0 & _ & Hnz & _).
    split; [exact H0 | apply Hnz; lia].
  - apply Hraise. discriminate.
Defined.

(** C10, as the code has it: after a successful construction the three
    stored tensors have one shape, [knots_len] is their size along the knot
    axis, fictitious knots included, and [segm_len = knots_len - 1].  A
    linear side adds one knot; a periodic or anti-periodic side adds one
    less than the number of knots present after the linear step, which is
    the original number only when no side is linear. *)
Theorem construction_counts_fictitious_knots a kind x y d e l r n B S :
  shaped a n B x -> (2 <= n)%nat ->
  (forall d0, d = Some d0 -> shaped a n B d0) ->
  SplineTemplate.init (class_of kind) x y d a e l r = Ok S ->
  Torch.shape (knots_y S) = Torch.shape (knots_x S) /\
  Torch.shape (knots_d S) = Torch.shape (knots_x S) /\
  shape S = Torch.shape (knots_x S) /\
  knots_len S = Torch.klen (knots_axis S) (knots_x S) /\
  segm_len S = (knots_len S - 1)%nat /\
  knots_len S
  = (if is_None l && is_None r then n
     else if is_linear l || is_linear r then
       let n1 := (linear_knots l + n + linear_knots r)%nat in
       if is_None l || is_None r then n1
       else (reflected_knots l n1 + n1 + reflected_knots r n1)%nat
     else (reflected_knots l n + n + reflected_knots r n)%nat).
Proof. apply construction_shapes. Qed.

Lemma construction_counts_fictitious_knots_witness :
  shaped Ax1 2 1 (Torch.of_rows [[0; 1]]) /\
  (2 <= 2)%nat /\
  (forall d0, Some (Torch.of_rows [[1; 1]]) = Some d0 -> shaped Ax1 2 1 d0) /\
  exists S,
    SplineTemplate.init (class_of Pade22) (Torch.of_rows [[0; 1]])
      (Torch.of_rows [[0; 1]]) (Some (Torch.of_rows [[1; 1]])) Ax1 true
      (Some "anti"%string) None
    = Ok S /\
    knots_len S = 3%nat /\ segm_len S = 2%nat.
Proof.
  assert (Hx : shaped Ax1 2 1 (Torch.of_rows [[0; 1]])) by (split; reflexivity).
  assert (Hd : forall d0, Some (Torch.of_rows [[1; 1]]) = Some d0 ->
                          shaped Ax1 2 1 d0)
    by (intros d0 [= <-]; split; reflexivity).
  split; [exact Hx |]. split; [lia |]. split; [exact Hd |].
  assert (E : exists S,
             SplineTemplate.init (class_of Pade22) (Torch.of_rows [[0; 1]])
               (Torch.of_rows [[0; 1]]) (Some (Torch.of_rows [[1; 1]])) Ax1
               true (Some "anti"%string) None = Ok S)
    by (eexists; reflexivity).
  destruct E as [S E]. exists S. split; [exact E |].
  pose proof (construction_counts_fictitious_knots Ax1 Pade22 _ _ _ true
                (Some "anti"%string) None 2 1 S Hx ltac:(lia) Hd E)
    as (_ & _ & _ & _ & Hseg & Hlen).
  rewrite Hseg, Hlen. split; reflexivity.
Defined.

(** C10 as stated fails: with [extrap_left='linear'] and
    [extrap_right='anti'] on two knots the anti-periodic side adds two
    knots, one more than the original length minus one, and [knots_len] is
    five. *)
Lemma linear_then_anti_counts_five :
  exists S,
    SplineTemplate.init Pade22Spline.cls (Torch.of_rows [[0; 1]])
      (Torch.of_rows [[0; 1]]) (Some (Torch.of_rows [[1; 1]])) Ax1 true
      (Some "linear"%string) (Some "anti"%string)
    = Ok S /\
    knots_len S = 5%nat /\
    knots_len S <> (2 + 1 + (2 - 1))%nat.
Proof.
  eexists. split; [reflexivity |]. split; [reflexivity | cbn; lia].
Qed.

(** * Further properties of the code *)

(** X1: [SplineTemplate.searchsorted] searches along the knot axis, whichever
    it is: the result has the shape of the queries, and on an increasing
    fibre the index [k] it gives for a query is at most the number of knots,
    the knots before position [k] lie strictly below the query and the knots
    from position [k] on do not. *)
Theorem sorted_search_along_axis a (x_sorted x : tensor R) i j :
  Torch.blen a x_sorted = Torch.blen a x ->
  (i < dim0 x)%nat -> (j < dim1 x)%nat ->
  increasing (Torch.fibre a x_sorted (fibre_index a i j)) ->
  let ind := SplineTemplate.searchsorted x_sorted x a in
  let k := Torch.get ind i j in
  let b := fibre_index a i j in
  Torch.shape ind = Torch.shape x /\
  (k <= Torch.klen a x_sorted)%nat /\
  (forall p, (p < k)%nat -> Torch.getk a x_sorted p b < Torch.get x i j) /\
  (forall p, (k <= p < Torch.klen a x_sorted)%nat ->
     Torch.get x i j <= Torch.getk a x_sorted p b).
Proof. apply searchsorted_bounds. Qed.

Lemma sorted_search_along_axis_witness :
  Torch.shape (SplineTemplate.searchsorted (Torch.of_rows [[0]; [1]])
                 example_query Ax0)
  = Torch.shape example_query.
Proof.
  refine (proj1 (sorted_search_along_axis Ax0 (Torch.of_rows [[0]; [1]])
                   example_query 0 0 _ _ _ _)).
  - reflexivity.
  - cbn. lia.
  - cbn. lia.
  - cbn. apply increasing_pair. lra.
Defined.

(** X2: [forward] of an instance with valid knots returns a tensor of the
    shape of the queries; a query between two neighbouring knots of its
    fibre is evaluated with the formula of the segment between them, a
    query at or below the first knot with the formula of the first segment
    and a query above the last knot with the formula of the last segment,
    for both interpolants. *)
Theorem forward_evaluates_enclosing_segment kind S n B x :
  valid_spline S n B -> Torch.blen (knots_axis S) x = B ->
  exists v,
    SplineTemplate.forward (class_of kind) S x false = Value v /\
    Torch.shape v = Torch.shape x /\
    forall q b, (q < Torch.klen (knots_axis S) x)%nat -> (b < B)%nat ->
      let a := knots_axis S in
      let u := Torch.getk a x q b in
      (forall j, (j + 1 < n)%nat ->
         Torch.getk a (knots_x S) j b <= u <= Torch.getk a (knots_x S) (j + 1) b ->
         Torch.getk a v q b = segment_at kind S b j u) /\
      (u <= Torch.getk a (knots_x S) 0 b ->
         Torch.getk a v q b = segment_at kind S b 0 u) /\
      (Torch.getk a (knots_x S) (n - 1) b < u ->
         Torch.getk a v q b = segment_at kind S b (n - 2) u).
Proof. intros HS. now apply forward_segments. Qed.

Lemma forward_evaluates_enclosing_segment_witness :
  valid_spline example_spline 2 1 /\
  exists v,
    SplineTemplate.forward Pade22Spline.cls example_spline example_query false
    = Value v /\
    Torch.shape v = Torch.shape example_query.
Proof.
  split; [exact example_spline_valid |].
  destruct (forward_evaluates_enclosing_segment Pade22 example_spline 2 1
              example_query example_spline_valid eq_refl) as (v & E & Hs & _).
  exists v. split; assumption.
Defined.

(** X3: [backward] of an instance with valid knots returns a tensor of the
    shape of its argument; a value between two neighbouring knot values of
    its fibre is inverted with the inverse formula of the segment between
    them, a value at or below the first knot value with the one of the
    first segment and a value above the last knot value with the one of the
    last segment, for both interpolants. *)
Theorem backward_evaluates_enclosing_segment kind S n B y :
  valid_spline S n B -> Torch.blen (knots_axis S) y = B ->
  exists v,
    SplineTemplate.backward (class_of kind) S y false = Value v /\
    Torch.shape v = Torch.shape y /\
    forall q b, (q < Torch.klen (knots_axis S) y)%nat -> (b < B)%nat ->
      let a := knots_axis S in
      let w := Torch.getk a y q b in
      (forall j, (j + 1 < n)%nat ->
         Torch.getk a (knots_y S) j b <= w <= Torch.getk a (knots_y S) (j + 1) b ->
         Torch.getk a v q b = inverse_at kind S b j w) /\
      (w <= Torch.getk a (knots_y S) 0 b ->
         Torch.getk a v q b = inverse_at kind S b 0 w) /\
      (Torch.getk a (knots_y S) (n - 1) b < w ->
         Torch.getk a v q b = inverse_at kind S b (n - 2) w).
Proof. intros HS. now apply backward_segments. Qed.

Lemma backward_evaluates_enclosing_segment_witness :
  valid_spline example_spline 2 1 /\
  exists v,
    SplineTemplate.backward Pade11Spline.cls example_spline example_value false
    = Value v /\
    Torch.shape v = Torch.shape example_value.
Proof.
  split; [exact example_spline_valid |].
  destruct (backward_evaluates_enclosing_segment Pade11 example_spline 2 1
              example_value example_spline_valid eq_refl) as (v & E & Hs & _).
  exists v. split; assumption.
Defined.

(** X4: an instance constructed from valid knots (coordinates and values
    strictly increasing along the knot axis, derivatives positive), with
    whatever boundary selectors the construction accepts, maps the original
    knot coordinates to the original knot values: [forward(knots_x)] is
    [knots_y], for both interpolants. *)
Theorem forward_interpolates_original_knots kind a x y d e l r n B S :
  valid_knots a n B x y d -> Torch.wf y ->
  SplineTemplate.init (class_of kind) x y (Some d) a e l r = Ok S ->
  SplineTemplate.forward (class_of kind) S x false = Value y.
Proof. apply forward_original_knots. Qed.

Lemma forward_interpolates_original_knots_witness :
  valid_knots Ax1 2 1 example_x example_y example_d /\
  SplineTemplate.forward Pade11Spline.cls example_spline example_x false
  = Value example_y.
Proof.
  split; [exact example_knots_valid |].
  apply (forward_interpolates_original_knots Pade11 Ax1 example_x example_y
           example_d true None None 2 1 example_spline example_knots_valid).
  - repeat split. repeat constructor.
  - reflexivity.
Defined.

(** X5: on an instance with valid knots [backward] inverts [forward] for
    queries within the knot range of their fibre, for both interpolants. *)
Theorem backward_inverts_forward kind S x n B :
  valid_spline S n B -> Torch.blen (knots_axis S) x = B -> Torch.wf x ->
  within_knots S x ->
  exists y,
    SplineTemplate.forward (class_of kind) S x false = Value y /\
    SplineTemplate.backward (class_of kind) S y false = Value x.
Proof. apply roundtrip_valid_spline. Qed.

Lemma backward_inverts_forward_witness :
  within_knots example_spline example_query /\
  exists y,
    SplineTemplate.forward Pade22Spline.cls example_spline example_query false
    = Value y /\
    SplineTemplate.backward Pade22Spline.cls example_spline y false
    = Value example_query.
Proof.
  split; [exact example_query_within |].
  exact (backward_inverts_forward Pade22 example_spline example_query 2 1
           example_spline_valid eq_refl example_query_wf example_query_within).
Defined.

(** X6: on an instance with valid knots [forward] inverts [backward] for
    values within the range of the knot values of their fibre, for both
    interpolants. *)
Theorem forward_inverts_backward kind S y n B :
  valid_spline S n B -> Torch.blen (knots_axis S) y = B -> Torch.wf y ->
  within_values S y ->
  exists x,
    SplineTemplate.backward (class_of kind) S y false = Value x /\
    SplineTemplate.forward (class_of kind) S x false = Value y.
Proof. apply right_inverse_valid_spline. Qed.

Lemma forward_inverts_backward_witness :
  within_values example_spline example_value /\
  exists x,
    SplineTemplate.backward Pade22Spline.cls example_spline example_value false
    = Value x /\
    SplineTemplate.forward Pade22Spline.cls example_spline x false
    = Value example_value.
Proof.
  split; [exact example_value_within |].
  refine (forward_inverts_backward Pade22 example_spline example_value 2 1
            example_spline_valid eq_refl _ example_value_within).
  repeat split. repeat constructor.
Defined.

(** X7: on an instance with valid knots [forward] is strictly increasing
    along each fibre: of two queries of one fibre within its knot range,
    the larger one has the larger image. *)
Theorem forward_is_increasing kind S x n B :
  valid_spline S n B -> Torch.blen (knots_axis S) x = B ->
  within_knots S x ->
  exists v,
    SplineTemplate.forward (class_of kind) S x false = Value v /\
    forall p q b,
      (p < Torch.klen (knots_axis S) x)%nat ->
      (q < Torch.klen (knots_axis S) x)%nat -> (b < B)%nat ->
      Torch.getk (knots_axis S) x p b < Torch.getk (knots_axis S) x q b ->
      Torch.getk (knots_axis S) v p b < Torch.getk (knots_axis S) v q b.
Proof. apply forward_increasing. Qed.

Lemma forward_is_increasing_witness :
  within_knots example_spline example_x /\
  exists v,
    SplineTemplate.forward Pade22Spline.cls example_spline example_x false
    = Value v /\
    Torch.getk Ax1 v 0 0 < Torch.getk Ax1 v 1 0.
Proof.
  assert (H : within_knots example_spline example_x).
  { intros q b Hq Hb. cbn in Hq, Hb. destruct b as [| b]; [| lia].
    destruct q as [| [| q]]; [cbn; lra | cbn; lra | lia]. }
  split; [exact H |].
  destruct (forward_is_increasing Pade22 example_spline example_x 2 1
              example_spline_valid eq_refl H) as (v & E & Hv).
  exists v. split; [exact E |].
  apply (Hv 0%nat 1%nat 0%nat); cbn; try lia; lra.
Defined.

(** X8: with an anti-periodic left side the rational quadratic spline is
    point symmetric about the first knot: for offsets [eps] within the
    original knot range, [forward(x0 - eps) = 2*y0 - forward(x0 + eps)]. *)
Theorem anti_periodic_left_reflects a x y d e l r n B S eps :
  valid_knots a n B x y d -> is_anti l = true ->
  SplineTemplate.init Pade22Spline.cls x y (Some d) a e l r = Ok S ->
  Torch.blen a eps = B ->
  (forall q b, (q < Torch.klen a eps)%nat -> (b < B)%nat ->
     0 <= Torch.getk a eps q b
       <= Torch.getk a x (n - 1) b - Torch.getk a x 0 b) ->
  let x0 := Torch.index_select x a [0%nat] in
  let y0 := Torch.index_select y a [0%nat] in
  exists vm vp,
    SplineTemplate.forward Pade22Spline.cls S (x0 - eps)%T false = Value vm /\
    SplineTemplate.forward Pade22Spline.cls S (x0 + eps)%T false = Value vp /\
    vm = (Torch.muls 2 y0 - vp)%T.
Proof. apply anti_left_reflection. Qed.

Lemma anti_periodic_left_reflects_witness :
  exists S vm vp,
    SplineTemplate.init Pade22Spline.cls example_x example_y (Some example_d)
      Ax1 true (Some "anti"%string) None = Ok S /\
    SplineTemplate.forward Pade22Spline.cls S
      (Torch.index_select example_x Ax1 [0%nat] - example_query)%T false
    = Value vm /\
    SplineTemplate.forward Pade22Spline.cls S
      (Torch.index_select example_x Ax1 [0%nat] + example_query)%T false
    = Value vp /\
    vm = (Torch.muls 2 (Torch.index_select example_y Ax1 [0%nat]) - vp)%T.
Proof.
  assert (E : exists S,
             SplineTemplate.init Pade22Spline.cls example_x example_y
               (Some example_d) Ax1 true (Some "anti"%string) None = Ok S)
    by (eexists; reflexivity).
  destruct E as [S E]. exists S.
  assert (Heps : forall q b, (q < Torch.klen Ax1 example_query)%nat ->
                 (b < 1)%nat ->
                 0 <= Torch.getk Ax1 example_query q b
                 <= Torch.getk Ax1 example_x (2 - 1) b
                    - Torch.getk Ax1 example_x 0 b).
  { intros q b Hq Hb. cbn in Hq. destruct b as [| b]; [| lia].
    destruct q as [| q]; [cbn; lra | lia]. }
  destruct (anti_periodic_left_reflects Ax1 example_x example_y example_d true
              (Some "anti"%string) None 2 1 S example_query
              example_knots_valid eq_refl E eq_refl Heps)
    as (vm & vp & Em & Ep & Er).
  exists vm, vp. repeat split; assumption.
Defined.

(** X9: [perform_bc] keeps valid knots valid: whenever it succeeds on valid
    knots, the augmented coordinates and values are again strictly
    increasing along the knot axis and the augmented derivatives positive,
    with the number of knots the selectors determine. *)
Theorem augmentation_keeps_knots_valid a x y d l r n B self' :
  valid_knots a n B x y d ->
  AugmentKnots.perform_bc (AugmentKnots.mk x y d a) l r = Ok self' ->
  exists x' y' d',
    self' = AugmentKnots.mk x' y' d' a /\
    valid_knots a (augmented_len l r n) B x' y' d' /\
    forall b, (b < B)%nat ->
      rows_of a x' y' d' b = augmented_rows l r (rows_of a x y d b).
Proof. apply perform_bc_valid. Qed.

Lemma augmentation_keeps_knots_valid_witness :
  exists x' y' d',
    AugmentKnots.perform_bc
      (AugmentKnots.mk example_x example_y example_d Ax1)
      (Some "linear"%string) (Some "anti"%string)
    = Ok (AugmentKnots.mk x' y' d' Ax1) /\
    valid_knots Ax1 5 1 x' y' d'.
Proof.
  assert (E : exists self',
             AugmentKnots.perform_bc
               (AugmentKnots.mk example_x example_y example_d Ax1)
               (Some "linear"%string) (Some "anti"%string) = Ok self')
    by (eexists; reflexivity).
  destruct E as [self' E].
  destruct (augmentation_keeps_knots_valid Ax1 example_x example_y example_d
              (Some "linear"%string) (Some "anti"%string) 2 1 self'
              example_knots_valid E) as (x' & y' & d' & -> & Hv & _).
  exists x', y', d'. split; [exact E | exact Hv].
Defined.

(** X10: a periodic side is never accepted for valid knots: with positive
    derivatives and at least one fibre, [perform_bc] raises whenever one of
    the selectors is ['periodic']. *)
Theorem periodic_side_rejected_for_positive_derivatives a x y d l r n B :
  valid_knots a n B x y d -> (0 < B)%nat ->
  is_periodic l = true \/ is_periodic r = true ->
  raises (AugmentKnots.perform_bc (AugmentKnots.mk x y d a) l r).
Proof. apply perform_bc_periodic_raises. Qed.

Lemma periodic_side_rejected_for_positive_derivatives_witness :
  raises (AugmentKnots.perform_bc
            (AugmentKnots.mk example_x example_y example_d Ax1)
            (Some "linear"%string) (Some "periodic"%string)).
Proof.
  apply (periodic_side_rejected_for_positive_derivatives Ax1 example_x
           example_y example_d _ _ 2 1 example_knots_valid).
  - lia.
  - right. reflexivity.
Defined.

(** X11: with the knots along the first axis of two-dimensional tensors
    of one shape, with at least one knot and at least two fibres,
    [takecare_rest] with a periodic side always raises a [RuntimeError],
    whatever the derivatives: the check takes the truth value of a tensor
    with one entry per fibre. *)
Theorem periodic_side_on_first_axis_is_refused x y d l r n B :
  aligned Ax0 n B x y d -> (1 <= n)%nat -> (2 <= B)%nat ->
  is_periodic l = true \/ is_periodic r = true ->
  exists msg,
    AugmentKnots.takecare_rest (AugmentKnots.mk x y d Ax0) l r
    = Raise (RuntimeError msg).
Proof. apply periodic_first_axis_refused_aligned. Qed.

Lemma periodic_side_on_first_axis_is_refused_witness :
  aligned Ax0 2 2 (Torch.of_rows [[0; 0]; [1; 1]])
    (Torch.of_rows [[0; 0]; [1; 1]]) (Torch.of_rows [[0; 0]; [0; 0]]) /\
  exists msg,
    AugmentKnots.takecare_rest
      (AugmentKnots.mk (Torch.of_rows [[0; 0]; [1; 1]])
         (Torch.of_rows [[0; 0]; [1; 1]]) (Torch.of_rows [[0; 0]; [0; 0]]) Ax0)
      (Some "periodic"%string) None
    = Raise (RuntimeError msg).
Proof.
  assert (Hal : aligned Ax0 2 2 (Torch.of_rows [[0; 0]; [1; 1]])
                  (Torch.of_rows [[0; 0]; [1; 1]])
                  (Torch.of_rows [[0; 0]; [0; 0]])) by (repeat split).
  split; [exact Hal |].
  apply (periodic_side_on_first_axis_is_refused _ _ _ _ _ 2 2 Hal).
  - lia.
  - lia.
  - left. reflexivity.
Defined.

(** X12: [perform_bc] never alters the original knots: when it succeeds,
    the original coordinates, values and derivatives stand unchanged in the
    augmented tensors, after the fictitious knots of the left side. *)
Theorem augmentation_keeps_original_knots a x y d l r n B self' :
  aligned a n B x y d -> (1 <= n)%nat ->
  AugmentKnots.perform_bc (AugmentKnots.mk x y d a) l r = Ok self' ->
  let off := knots_offset l r n in
  (off + n <= Torch.klen a (AugmentKnots.knots_x self'))%nat /\
  forall k b, (k < n)%nat -> (b < B)%nat ->
    Torch.getk a (AugmentKnots.knots_x self') (off + k) b = Torch.getk a x k b /\
    Torch.getk a (AugmentKnots.knots_y self') (off + k) b = Torch.getk a y k b /\
    Torch.getk a (AugmentKnots.knots_d self') (off + k) b = Torch.getk a d k b.
Proof. apply perform_bc_embeds. Qed.

Lemma augmentation_keeps_original_knots_witness :
  exists self',
    AugmentKnots.perform_bc
      (AugmentKnots.mk example_x example_y example_d Ax1)
      (Some "anti"%string) (Some "linear"%string) = Ok self' /\
    Torch.getk Ax1 (AugmentKnots.knots_x self') (2 + 1) 0
    = Torch.getk Ax1 example_x 1 0.
Proof.
  assert (E : exists self',
             AugmentKnots.perform_bc
               (AugmentKnots.mk example_x example_y example_d Ax1)
               (Some "anti"%string) (Some "linear"%string) = Ok self')
    by (eexists; reflexivity).
  destruct E as [self' E]. exists self'. split; [exact E |].
  assert (Hal : aligned Ax1 2 1 example_x example_y example_d)
    by (repeat split).
  destruct (augmentation_keeps_original_knots Ax1 example_x example_y
              example_d (Some "anti"%string) (Some "linear"%string) 2 1 self'
              Hal ltac:(lia) E) as (_ & H).
  exact (proj1 (H 1%nat 0%nat ltac:(lia) ltac:(lia))).
Defined.

(** X13: [AugmentKnots.cat] on items whose tensors have one size across
    the axis: it raises exactly when every item of the list is [None] (the
    empty list included), and then the [IndexError] of [catlist[0]]; it
    returns the tensor itself, not a concatenation, when exactly one item
    is a tensor; and what it returns has that size across the axis. *)
Theorem cat_drops_none_items (catlist : list (option (tensor R))) a B :
  (forall u, In (Some u) catlist -> Torch.blen a u = B) ->
  (raises (AugmentKnots.cat catlist a) <-> forall o, In o catlist -> o = None) /\
  ((forall o, In o catlist -> o = None) ->
   AugmentKnots.cat catlist a = Raise (IndexError "list index out of range")) /\
  (forall l1 l2 u,
     catlist = l1 ++ Some u :: l2 ->
     (forall o, In o l1 -> o = None) -> (forall o, In o l2 -> o = None) ->
     AugmentKnots.cat catlist a = Ok u) /\
  (forall t, AugmentKnots.cat catlist a = Ok t -> Torch.blen a t = B).
Proof.
  intros HB. destruct (cat_outcomes catlist a) as [Hiff Hone].
  split; [exact Hiff |]. split; [apply cat_all_none |].
  split; [exact Hone |]. intros t. now apply cat_blen.
Qed.

Lemma cat_drops_none_items_witness :
  (forall u, In (Some u) [None; Some example_x; None] ->
             Torch.blen Ax1 u = 1%nat) /\
  AugmentKnots.cat [None; Some example_x; None] Ax1 = Ok example_x.
Proof.
  assert (HB : forall u, In (Some u) [None; Some example_x; None] ->
                         Torch.blen Ax1 u = 1%nat).
  { intros u [H | [H | [H | []]]]; try discriminate.
    injection H as <-. reflexivity. }
  split; [exact HB |].
  destruct (cat_drops_none_items [None; Some example_x; None] Ax1 1 HB)
    as (_ & _ & Hone & _).
  apply (Hone [None] [None] example_x eq_refl).
  - intros o [<- | []]. reflexivity.
  - intros o [<- | []]. reflexivity.
Defined.

(** X14: for knots whose coordinates and values increase strictly along
    the knot axis, the derivatives either class computes when [knots_d] is
    omitted are positive, so that the knots are valid. *)
Theorem smoothed_derivatives_are_positive a x y n B kind :
  shaped a n B x -> shaped a n B y -> (2 <= n)%nat ->
  (forall b, (b < B)%nat ->
     increasing (Torch.fibre a x b) /\ increasing (Torch.fibre a y b)) ->
  exists d,
    cls_smooth_derivatives (class_of kind) x y a = Ok d /\
    valid_knots a n B x y d.
Proof. intros Hx Hy Hn Hinc. now apply smoothing_valid. Qed.

Lemma smoothed_derivatives_are_positive_witness :
  exists d,
    Pade11Spline.smooth_derivatives example_x example_y Ax1 "natural" = Ok d /\
    valid_knots Ax1 2 1 example_x example_y d.
Proof.
  apply (smoothed_derivatives_are_positive Ax1 example_x example_y 2 1 Pade11).
  - split; reflexivity.
  - split; reflexivity.
  - lia.
  - intros b Hb. destruct b as [| b]; [| lia].
    split; cbn; apply increasing_pair; lra.
Defined.

(** X15: the construction succeeds, and stores valid knots, for knots with
    strictly increasing coordinates and values, omitted derivatives and
    boundary selectors none of which is ['periodic'], for both
    interpolants. *)
Theorem construction_from_increasing_knots a kind x y l r n B :
  shaped a n B x -> shaped a n B y -> (2 <= n)%nat ->
  (forall b, (b < B)%nat ->
     increasing (Torch.fibre a x b) /\ increasing (Torch.fibre a y b)) ->
  is_periodic l = false -> is_periodic r = false ->
  exists S,
    SplineTemplate.init (class_of kind) x y None a true l r = Ok S /\
    knots_axis S = a /\
    valid_spline S (augmented_len l r n) B.
Proof. apply init_smoothed_valid. Qed.

Lemma construction_from_increasing_knots_witness :
  exists S,
    SplineTemplate.init Pade22Spline.cls example_x example_y None Ax1 true
      (Some "anti"%string) (Some "linear"%string) = Ok S /\
    knots_axis S = Ax1 /\
    valid_spline S 5 1.
Proof.
  apply (construction_from_increasing_knots Ax1 Pade22 example_x example_y
           (Some "anti"%string) (Some "linear"%string) 2 1).
  - split; reflexivity.
  - split; reflexivity.
  - lia.
  - intros b Hb. destruct b as [| b]; [| lia].
    split; cbn; apply increasing_pair; lra.
  - reflexivity.
  - reflexivity.
Defined.

(** X16: with two knots, distinct in coordinate and in value, omitted
    derivatives and no boundary selector, the rational quadratic spline is
    the line through the two knots, at every query. *)
Theorem two_knots_give_a_line a x y B q :
  shaped a 2 B x -> shaped a 2 B y ->
  (forall b, (b < B)%nat ->
     Torch.getk a x 0 b <> Torch.getk a x 1 b /\
     Torch.getk a y 0 b <> Torch.getk a y 1 b) ->
  Torch.blen a q = B ->
  exists S v,
    SplineTemplate.init Pade22Spline.cls x y None a true None None = Ok S /\
    SplineTemplate.forward Pade22Spline.cls S q false = Value v /\
    Torch.shape v = Torch.shape q /\
    forall k b, (k < Torch.klen a q)%nat -> (b < B)%nat ->
      Torch.getk a v k b
      = Torch.getk a y 0 b
        + slope a x y b 0 * (Torch.getk a q k b - Torch.getk a x 0 b).
Proof. apply two_knots_line. Qed.

Lemma two_knots_give_a_line_witness :
  exists S v,
    SplineTemplate.init Pade22Spline.cls example_x example_y None Ax1 true
      None None = Ok S /\
    SplineTemplate.forward Pade22Spline.cls S example_query false = Value v /\
    Torch.getk Ax1 v 0 0
    = Torch.getk Ax1 example_y 0 0
      + slope Ax1 example_x example_y 0 0
        * (Torch.getk Ax1 example_query 0 0 - Torch.getk Ax1 example_x 0 0).
Proof.
  assert (Hne : forall b, (b < 1)%nat ->
            Torch.getk Ax1 example_x 0 b <> Torch.getk Ax1 example_x 1 b /\
            Torch.getk Ax1 example_y 0 b <> Torch.getk Ax1 example_y 1 b).
  { intros b Hb. destruct b as [| b]; [| lia]. cbn. split; lra. }
  destruct (two_knots_give_a_line Ax1 example_x example_y 1 example_query
              ltac:(split; reflexivity) ltac:(split; reflexivity) Hne eq_refl)
    as (S & v & E & Ev & _ & Hv).
  exists S, v. split; [exact E |]. split; [exact Ev |].
  apply Hv; cbn; lia.
Defined.

(** X17: with [grad=True] [forward] returns the value it returns with
    [grad=False] together with a second tensor of the shape of the queries;
    for a query between two neighbouring knots of an instance with valid
    knots its entry is the derivative, at the query, of the formula of the
    segment the query is evaluated with, and it is positive. *)
Theorem forward_gradient_is_derivative kind S n B x :
  valid_spline S n B -> Torch.blen (knots_axis S) x = B ->
  exists v g,
    SplineTemplate.forward (class_of kind) S x true = ValueGrad v g /\
    SplineTemplate.forward (class_of kind) S x false = Value v /\
    Torch.shape g = Torch.shape x /\
    forall q b j,
      (q < Torch.klen (knots_axis S) x)%nat -> (b < B)%nat ->
      (j + 1 < n)%nat ->
      let a := knots_axis S in
      let u := Torch.getk a x q b in
      Torch.getk a (knots_x S) j b < u <= Torch.getk a (knots_x S) (j + 1) b ->
      Torch.getk a g q b = grad_at kind S b j u /\
      derivable_pt_lim (segment_at kind S b j) u (Torch.getk a g q b) /\
      0 < Torch.getk a g q b.
Proof. intros HS. now apply forward_gradient. Qed.

Lemma forward_gradient_is_derivative_witness :
  exists v g,
    SplineTemplate.forward Pade22Spline.cls example_spline example_query true
    = ValueGrad v g /\
    0 < Torch.getk Ax1 g 0 0.
Proof.
  destruct (forward_gradient_is_derivative Pade22 example_spline 2 1
              example_query example_spline_valid eq_refl)
    as (v & g & E & _ & _ & Hg).
  exists v, g. split; [exact E |].
  refine (proj2 (proj2 (Hg 0%nat 0%nat 0%nat _ _ _ _))).
  - cbn. lia.
  - lia.
  - lia.
  - cbn. lra.
Defined.

(** X18: the rational quadratic spline constructed from valid knots,
    evaluated with [grad=True] at the original knot coordinates, returns
    the original knot values and the original knot derivatives. *)
Theorem forward_gradient_at_knots a x y d e l r n B S :
  valid_knots a n B x y d -> Torch.wf y -> Torch.wf d ->
  SplineTemplate.init Pade22Spline.cls x y (Some d) a e l r = Ok S ->
  SplineTemplate.forward Pade22Spline.cls S x true = ValueGrad y d.
Proof. apply forward_grad_original_knots. Qed.

Lemma forward_gradient_at_knots_witness :
  valid_knots Ax1 2 1 example_x example_y example_d /\
  SplineTemplate.forward Pade22Spline.cls example_spline example_x true
  = ValueGrad example_y example_d.
Proof.
  split; [exact example_knots_valid |].
  apply (forward_gradient_at_knots Ax1 example_x example_y example_d true
           None None 2 1 example_spline example_knots_valid).
  - repeat split. repeat constructor.
  - repeat split. repeat constructor.
  - reflexivity.
Defined.

(** X19: on an instance with valid knots, for values within the range of
    the knot values, the gradient [backward] returns with [grad=True] is
    the reciprocal of the gradient [forward] returns at the inverse, for
    both interpolants. *)
Theorem backward_gradient_is_reciprocal kind S y n B :
  valid_spline S n B -> Torch.blen (knots_axis S) y = B -> Torch.wf y ->
  within_values S y ->
  exists x gi g,
    SplineTemplate.backward (class_of kind) S y true = ValueGrad x gi /\
    SplineTemplate.forward (class_of kind) S x true = ValueGrad y g /\
    gi = Torch.rdivs 1 g.
Proof. apply backward_grad_reciprocal. Qed.

Lemma backward_gradient_is_reciprocal_witness :
  within_values example_spline example_value /\
  exists x gi g,
    SplineTemplate.backward Pade11Spline.cls example_spline example_value true
    = ValueGrad x gi /\
    SplineTemplate.forward Pade11Spline.cls example_spline x true
    = ValueGrad example_value g /\
    gi = Torch.rdivs 1 g.
Proof.
  split; [exact example_value_within |].
  refine (backward_gradient_is_reciprocal Pade11 example_spline example_value
            2 1 example_spline_valid eq_refl _ example_value_within).
  repeat split. repeat constructor.
Defined.

(** X20: with [extrap_left='linear'] a spline constructed from valid knots
    continues to the left of the first original knot as the tangent line of
    that knot: [forward(x) = y0 + d0 * (x - x0)] for every query at or
    below [x0], however far, for both interpolants. *)
Theorem linear_left_side_is_tangent_line kind a x y d e r n B S q :
  valid_knots a n B x y d ->
  SplineTemplate.init (class_of kind) x y (Some d) a e (Some "linear"%string) r
  = Ok S ->
  Torch.blen a q = B ->
  exists v,
    SplineTemplate.forward (class_of kind) S q false = Value v /\
    Torch.shape v = Torch.shape q /\
    forall k b, (k < Torch.klen a q)%nat -> (b < B)%nat ->
      Torch.getk a q k b <= Torch.getk a x 0 b ->
      Torch.getk a v k b
      = Torch.getk a y 0 b
        + Torch.getk a d 0 b * (Torch.getk a q k b - Torch.getk a x 0 b).
Proof. apply linear_left_extrapolation. Qed.

Lemma linear_left_side_is_tangent_line_witness :
  exists S v,
    SplineTemplate.init Pade22Spline.cls example_x example_y (Some example_d)
      Ax1 true (Some "linear"%string) None = Ok S /\
    SplineTemplate.forward Pade22Spline.cls S (Torch.of_rows [[-5]]) false
    = Value v /\
    Torch.getk Ax1 v 0 0 = 0 + 1 * (-5 - 0).
Proof.
  assert (E : exists S,
             SplineTemplate.init Pade22Spline.cls example_x example_y
               (Some example_d) Ax1 true (Some "linear"%string) None = Ok S)
    by (eexists; reflexivity).
  destruct E as [S E]. exists S.
  destruct (linear_left_side_is_tangent_line Pade22 Ax1 example_x example_y
              example_d true None 2 1 S (Torch.of_rows [[-5]])
              example_knots_valid E eq_refl) as (v & Ev & _ & Hv).
  exists v. split; [exact E |]. split; [exact Ev |].
  apply (Hv 0%nat 0%nat); cbn; try lia; lra.
Defined.

(** X21: with [extrap_right='linear'] a spline constructed from valid
    knots continues to the right of the last original knot as the tangent
    line of that knot: [forward(x) = y_last + d_last * (x - x_last)] for
    every query at or above [x_last], for both interpolants. *)
Theorem linear_right_side_is_tangent_line kind a x y d e l n B S q :
  valid_knots a n B x y d ->
  SplineTemplate.init (class_of kind) x y (Some d) a e l (Some "linear"%string)
  = Ok S ->
  Torch.blen a q = B ->
  exists v,
    SplineTemplate.forward (class_of kind) S q false = Value v /\
    Torch.shape v = Torch.shape q /\
    forall k b, (k < Torch.klen a q)%nat -> (b < B)%nat ->
      Torch.getk a x (n - 1) b <= Torch.getk a q k b ->
      Torch.getk a v k b
      = Torch.getk a y (n - 1) b
        + Torch.getk a d (n - 1) b
          * (Torch.getk a q k b - Torch.getk a x (n - 1) b).
Proof. apply linear_right_extrapolation. Qed.

Lemma linear_right_side_is_tangent_line_witness :
  exists S v,
    SplineTemplate.init Pade11Spline.cls example_x example_y (Some example_d)
      Ax1 true (Some "anti"%string) (Some "linear"%string) = Ok S /\
    SplineTemplate.forward Pade11Spline.cls S (Torch.of_rows [[7]]) false
    = Value v /\
    Torch.getk Ax1 v 0 0 = 2 + 3 * (7 - 1).
Proof.
  assert (E : exists S,
             SplineTemplate.init Pade11Spline.cls example_x example_y
               (Some example_d) Ax1 true (Some "anti"%string)
               (Some "linear"%string) = Ok S)
    by (eexists; reflexivity).
  destruct E as [S E]. exists S.
  destruct (linear_right_side_is_tangent_line Pade11 Ax1 example_x example_y
              example_d true (Some "anti"%string) 2 1 S (Torch.of_rows [[7]])
              example_knots_valid E eq_refl) as (v & Ev & _ & Hv).
  exists v. split; [exact E |]. split; [exact Ev |].
  apply (Hv 0%nat 0%nat); cbn; try lia; lra.
Defined.

(** X22: each fibre of the rational quadratic spline with valid knots is
    one differentiable function of the query: the value [forward] returns
    for a query is that function at the query, and everywhere strictly
    inside the knot range, the knots included, the gradient returned with
    [grad=True] is its derivative. *)
Theorem forward_is_differentiable S n B x :
  valid_spline S n B -> Torch.blen (knots_axis S) x = B ->
  exists v g,
    SplineTemplate.forward Pade22Spline.cls S x true = ValueGrad v g /\
    forall q b, (q < Torch.klen (knots_axis S) x)%nat -> (b < B)%nat ->
      let a := knots_axis S in
      let u := Torch.getk a x q b in
      Torch.getk a v q b = forward_row Pade22 (spline_rows S b) u /\
      (Torch.getk a (knots_x S) 0 b < u < Torch.getk a (knots_x S) (n - 1) b ->
       derivable_pt_lim (forward_row Pade22 (spline_rows S b)) u
         (Torch.getk a g q b)).
Proof. apply forward_differentiable. Qed.

Lemma forward_is_differentiable_witness :
  exists v g,
    SplineTemplate.forward Pade22Spline.cls example_spline example_query true
    = ValueGrad v g /\
    derivable_pt_lim (forward_row Pade22 (spline_rows example_spline 0))
      (Torch.getk Ax1 example_query 0 0) (Torch.getk Ax1 g 0 0).
Proof.
  destruct (forward_is_differentiable example_spline 2 1 example_query
              example_spline_valid eq_refl) as (v & g & E & Hg).
  exists v, g. split; [exact E |].
  refine (proj2 (Hg 0%nat 0%nat _ _) _).
  - cbn. lia.
  - lia.
  - cbn. lra.
Defined.

(** X23: the fictitious knots [takecare_rest] adds.  On an anti-periodic
    left side the knot at distance [k] before the first knot has
    coordinate [2*x[0] - x[k]], value [2*y[0] - y[k]] and derivative
    [d[k]]; on a periodic left side that passed the check it has
    coordinate [2*x[0] - x[k]], value [y[k]] and derivative [-d[k]]; the
    right side mirrors the knots about the last one in the same way. *)
Theorem reflected_side_knots a x y d l r n B self' :
  aligned a n B x y d -> (1 <= n)%nat ->
  AugmentKnots.takecare_rest (AugmentKnots.mk x y d a) l r = Ok self' ->
  let x' := AugmentKnots.knots_x self' in
  let y' := AugmentKnots.knots_y self' in
  let d' := AugmentKnots.knots_d self' in
  let off := reflected_knots l n in
  (is_anti l = true ->
   forall k b, (1 <= k < n)%nat -> (b < B)%nat ->
     Torch.getk a x' (n - 1 - k) b = 2 * Torch.getk a x 0 b - Torch.getk a x k b /\
     Torch.getk a y' (n - 1 - k) b = 2 * Torch.getk a y 0 b - Torch.getk a y k b /\
     Torch.getk a d' (n - 1 - k) b = Torch.getk a d k b) /\
  (is_anti l = false -> is_periodic l = true ->
   forall k b, (1 <= k < n)%nat -> (b < B)%nat ->
     Torch.getk a x' (n - 1 - k) b = 2 * Torch.getk a x 0 b - Torch.getk a x k b /\
     Torch.getk a y' (n - 1 - k) b = Torch.getk a y k b /\
     Torch.getk a d' (n - 1 - k) b = - Torch.getk a d k b) /\
  (is_anti r = true ->
   forall k b, (1 <= k < n)%nat -> (b < B)%nat ->
     Torch.getk a x' (off + n - 1 + k) b
     = 2 * Torch.getk a x (n - 1) b - Torch.getk a x (n - 1 - k) b /\
     Torch.getk a y' (off + n - 1 + k) b
     = 2 * Torch.getk a y (n - 1) b - Torch.getk a y (n - 1 - k) b /\
     Torch.getk a d' (off + n - 1 + k) b = Torch.getk a d (n - 1 - k) b) /\
  (is_anti r = false -> is_periodic r = true ->
   forall k b, (1 <= k < n)%nat -> (b < B)%nat ->
     Torch.getk a x' (off + n - 1 + k) b
     = 2 * Torch.getk a x (n - 1) b - Torch.getk a x (n - 1 - k) b /\
     Torch.getk a y' (off + n - 1 + k) b = Torch.getk a y (n - 1 - k) b /\
     Torch.getk a d' (off + n - 1 + k) b = - Torch.getk a d (n - 1 - k) b).
Proof. apply takecare_rest_reflected. Qed.

Lemma reflected_side_knots_witness :
  exists self',
    AugmentKnots.takecare_rest
      (AugmentKnots.mk example_x example_y (Torch.of_rows [[0; 3]]) Ax1)
      (Some "periodic"%string) None = Ok self' /\
    Torch.getk Ax1 (AugmentKnots.knots_x self') 0 0 = 2 * 0 - 1 /\
    Torch.getk Ax1 (AugmentKnots.knots_y self') 0 0 = 2 /\
    Torch.getk Ax1 (AugmentKnots.knots_d self') 0 0 = - 3.
Proof.
  assert (Hal : aligned Ax1 2 1 example_x example_y (Torch.of_rows [[0; 3]]))
    by (repeat split).
  assert (Hchk : periodic_check Ax1 (Torch.of_rows [[0; 3]]) 0 = Ok false).
  { apply (periodic_check_Ax1 _ 0 0); [cbn; lia | cbn; lia | reflexivity]. }
  destruct (takecare_rest_ok_checked Ax1 example_x example_y
              (Torch.of_rows [[0; 3]]) (Some "periodic"%string) None 2
              eq_refl ltac:(lia) (or_intror (or_intror Hchk))
              (or_intror (or_introl eq_refl)))
    as [self' E].
  exists self'. split; [exact E |].
  destruct (reflected_side_knots Ax1 example_x example_y
              (Torch.of_rows [[0; 3]]) (Some "periodic"%string) None 2 1 self'
              Hal ltac:(lia) E) as (_ & H & _).
  exact (H eq_refl eq_refl 1%nat 0%nat ltac:(lia) ltac:(lia)).
Defined.

(** X24: with [extrap_left='periodic'] accepted, in every fibre whose
    derivative at the first knot is zero the rational quadratic spline is
    mirror symmetric about the first knot: for offsets [eps] within the
    original knot range, [forward(x0 - eps) = forward(x0 + eps)].  The
    knots have strictly increasing coordinates and values and derivatives
    that are not negative. *)
Theorem periodic_left_side_mirrors a x y d e n B S eps :
  aligned a n B x y d -> (2 <= n)%nat ->
  (forall b, (b < B)%nat -> flat_rows (rows_of a x y d b)) ->
  SplineTemplate.init Pade22Spline.cls x y (Some d) a e
    (Some "periodic"%string) None = Ok S ->
  Torch.blen a eps = B ->
  (forall q b, (q < Torch.klen a eps)%nat -> (b < B)%nat ->
     0 <= Torch.getk a eps q b
       <= Torch.getk a x (n - 1) b - Torch.getk a x 0 b) ->
  let x0 := Torch.index_select x a [0%nat] in
  exists vm vp,
    SplineTemplate.forward Pade22Spline.cls S (x0 - eps)%T false = Value vm /\
    SplineTemplate.forward Pade22Spline.cls S (x0 + eps)%T false = Value vp /\
    Torch.shape vm = Torch.shape vp /\
    forall q b, (q < Torch.klen a eps)%nat -> (b < B)%nat ->
      Torch.getk a d 0 b = 0 ->
      Torch.getk a vm q b = Torch.getk a vp q b.
Proof. apply periodic_left_reflection. Qed.

Lemma periodic_left_side_mirrors_witness :
  exists S vm vp,
    SplineTemplate.init Pade22Spline.cls example_x example_y
      (Some example_flat_d) Ax1 true (Some "periodic"%string) None = Ok S /\
    SplineTemplate.forward Pade22Spline.cls S
      (Torch.index_select example_x Ax1 [0%nat] - example_query)%T false
    = Value vm /\
    SplineTemplate.forward Pade22Spline.cls S
      (Torch.index_select example_x Ax1 [0%nat] + example_query)%T false
    = Value vp /\
    Torch.getk Ax1 vm 0 0 = Torch.getk Ax1 vp 0 0.
Proof.
  destruct example_periodic_init as [S E]. exists S.
  assert (Hal : aligned Ax1 2 1 example_x example_y example_flat_d)
    by (repeat split).
  assert (Heps : forall q b, (q < Torch.klen Ax1 example_query)%nat ->
                 (b < 1)%nat ->
                 0 <= Torch.getk Ax1 example_query q b
                 <= Torch.getk Ax1 example_x (2 - 1) b
                    - Torch.getk Ax1 example_x 0 b).
  { intros q b Hq Hb. cbn in Hq. destruct b as [| b]; [| lia].
    destruct q as [| q]; [cbn; lra | lia]. }
  destruct (periodic_left_side_mirrors Ax1 example_x example_y example_flat_d
              true 2 1 S example_query Hal ltac:(lia) example_flat_rows E
              eq_refl Heps) as (vm & vp & Em & Ep & _ & H).
  exists vm, vp. split; [exact E |]. split; [exact Em |]. split; [exact Ep |].
  apply H; [cbn; lia | lia | reflexivity].
Defined.
